(** * The CPU math backend of deeplearnjs (src/math/backends/backend_cpu.ts)

    A shallow embedding of [MathBackendCPU] and of the properties its
    specification states about it.

    The kernels are written in the style of the source: typed arrays live
    in a heap, a kernel is a computation in a state-and-exception monad
    over that heap, [for] loops are iterations over index ranges, and a
    local [let] that a loop updates is the loop's accumulator.

    Modelling choices, once and for all:
    - a JavaScript number is [NaN], an infinity or an exact rational;
      the sign of zero is not modelled, and a typed array stores the
      number it is given. Rounding (to binary64, and to binary32 when a
      [Float32Array] is written) is modelled in maxPoolPositions and
      maxPoolBackprop ([roundDouble] and [Math_fround]), where the
      gradient is a sum that is accumulated and then stored, and not
      elsewhere;
    - integers that the source uses as indices, sizes and shapes are [Z];
    - reading a typed array out of range gives [undefined], which every
      arithmetic operation and comparison of the kernels turns into NaN:
      such a read gives [NaN];
    - writing a typed array out of range does nothing, as in JavaScript. *)

From Stdlib Require Import ZArith QArith Qabs Qround Qminmax Qpower Lia Lqa Bool String.
From Stdlib Require Import Sorting.Sorted Sorting.Permutation.
From stdpp Require Import base list sorting.

Open Scope Z_scope.

(** ** JavaScript numbers *)

Inductive number : Type :=
| NaN
| PInf
| NInf
| Fin (q : Q).

Definition num (z : Z) : number := Fin (inject_Z z).

Definition isNaN (a : number) : bool :=
  match a with NaN => true | _ => false end.

(** Sign of a number that is not NaN: -1, 0 or 1. *)
Definition nsign (a : number) : Z :=
  match a with
  | NaN => 0
  | PInf => 1
  | NInf => -1
  | Fin q => Z.sgn (Qnum q)
  end.

Definition of_sign (s : Z) : number :=
  match s with
  | Z0 => NaN
  | Zpos _ => PInf
  | Zneg _ => NInf
  end.

(** [a + b] *)
Definition nadd (a b : number) : number :=
  match a, b with
  | NaN, _ | _, NaN => NaN
  | Fin x, Fin y => Fin (Qred (x + y))
  | PInf, NInf | NInf, PInf => NaN
  | PInf, _ | _, PInf => PInf
  | NInf, _ | _, NInf => NInf
  end.

(** [a * b] *)
Definition nmul (a b : number) : number :=
  match a, b with
  | NaN, _ | _, NaN => NaN
  | Fin x, Fin y => Fin (Qred (x * y))
  | _, _ => of_sign (nsign a * nsign b)
  end.

(** [-a] *)
Definition nopp (a : number) : number :=
  match a with
  | NaN => NaN
  | PInf => NInf
  | NInf => PInf
  | Fin x => Fin (Qred (- x))
  end.

(** [a - b] *)
Definition nsub (a b : number) : number := nadd a (nopp b).

(** [a / b]; a zero divisor is the positive zero. *)
Definition ndiv (a b : number) : number :=
  match a, b with
  | NaN, _ | _, NaN => NaN
  | Fin x, Fin y =>
      if Qeq_bool y 0 then of_sign (Z.sgn (Qnum x)) else Fin (Qred (x / y))
  | Fin _, _ => Fin 0
  | _, Fin y => if Qeq_bool y 0 then a else of_sign (nsign a * nsign b)
  | _, _ => NaN
  end.

(** [a < b] *)
Definition nlt (a b : number) : bool :=
  match a, b with
  | NaN, _ | _, NaN => false
  | Fin x, Fin y => negb (Qle_bool y x)
  | NInf, NInf | PInf, _ | _, NInf => false
  | NInf, _ | _, PInf => true
  end.

(** [a > b] *)
Definition ngt (a b : number) : bool := nlt b a.

(** [a >= b] *)
Definition nge (a b : number) : bool :=
  match a, b with
  | NaN, _ | _, NaN => false
  | Fin x, Fin y => Qle_bool y x
  | PInf, _ | _, NInf => true
  | NInf, _ | _, PInf => false
  end.

(** [a === b] *)
Definition neqb (a b : number) : bool :=
  match a, b with
  | Fin x, Fin y => Qeq_bool x y
  | PInf, PInf | NInf, NInf => true
  | _, _ => false
  end.

(** ** Typed arrays, the heap and the kernel monad *)

(** A reference is the position of a typed array in the heap. *)
Abbreviation ref := nat (only parsing).
Abbreviation heap := (list (list number)) (only parsing).

Inductive error : Type :=
| RangeError
| TypeError
| AssertionError (msg : string)
| DTypeError.

Inductive outcome (A : Type) : Type :=
| Ok (a : A)
| Throw (e : error).
Arguments Ok {A} a.
Arguments Throw {A} e.

Definition M (A : Type) : Type := heap -> outcome A * heap.

Definition ret {A} (a : A) : M A := fun h => (Ok a, h).

Definition throw {A} (e : error) : M A := fun h => (Throw e, h).

Definition bind {A B} (m : M A) (k : A -> M B) : M B :=
  fun h =>
    match m h with
    | (Ok a, h') => k a h'
    | (Throw e, h') => (Throw e, h')
    end.

Declare Scope kernel_scope.
Delimit Scope kernel_scope with kernel.
Notation "x <- m ;; k" := (bind m (fun x => k))
  (at level 100, m at next level, right associativity) : kernel_scope.
Notation "m ;;; k" := (bind m (fun _ => k))
  (at level 100, right associativity) : kernel_scope.
Open Scope kernel_scope.

(** The elements of the typed array at [r]; a reference that was never
    allocated has none. *)
Definition buffer (h : heap) (r : ref) : list number := default [] (h !! r).

(** [a[i]] of a JavaScript array or typed array held as a list. *)
Definition at_index (l : list number) (i : Z) : number :=
  if i <? 0 then NaN else default NaN (l !! Z.to_nat i).

(** [new Float32Array(len)], [new Int32Array(len)], [new Uint8Array(len)]:
    a fresh array of zeros; a negative length raises a RangeError. *)
Definition newTypedArray (len : Z) : M ref :=
  fun h =>
    if len <? 0 then (Throw RangeError, h)
    else (Ok (length h), h ++ [replicate (Z.to_nat len) (num 0)]).

(** [new Float32Array(values)]: a fresh copy of the given elements. *)
Definition typedArrayFrom (l : list number) : M ref :=
  fun h => (Ok (length h), h ++ [l]).

(** [values[i]] *)
Definition load (r : ref) (i : Z) : M number :=
  fun h => (Ok (at_index (buffer h r) i), h).

(** [values[i] = v] *)
Definition store (r : ref) (i : Z) (v : number) : M unit :=
  fun h =>
    if i <? 0 then (Ok tt, h)
    else (Ok tt, alter (fun b => <[Z.to_nat i := v]> b) r h).

(** [values.length] *)
Definition lengthOf (r : ref) : M Z :=
  fun h => (Ok (Z.of_nat (length (buffer h r))), h).

(** [for (let i = lo; i < hi; ++i)] ranges over [range lo hi]. *)
Definition range (lo hi : Z) : list Z := seqZ lo (hi - lo).

(** A loop whose body only has effects; [continue] is an early [ret tt]. *)
Fixpoint for_ {A} (l : list A) (body : A -> M unit) : M unit :=
  match l with
  | [] => ret tt
  | a :: l' => body a ;;; for_ l' body
  end.

(** A loop that updates local variables [s]. *)
Fixpoint fold_for {A S} (l : list A) (s : S) (body : A -> S -> M S) : M S :=
  match l with
  | [] => ret s
  | a :: l' => s' <- body a s ;; fold_for l' s' body
  end.

(** A loop that updates local variables and may [break]. *)
Inductive ctl (S : Type) : Type :=
| Next (s : S)
| Break (s : S).
Arguments Next {S} s.
Arguments Break {S} s.

Fixpoint loop {A S} (l : list A) (s : S) (body : A -> S -> M (ctl S)) : M S :=
  match l with
  | [] => ret s
  | a :: l' =>
      c <- body a s ;;
      match c with
      | Next s' => loop l' s' body
      | Break s' => ret s'
      end
  end.

(** ** Tensors (ndarray.ts) and the utilities the backend imports *)

Inductive DType : Type :=
| float32
| int32
| bool_.

(** A tensor: its shape, its element type and the typed array that holds
    its elements in row-major order. *)
Record NDArray : Type := mkNDArray {
  shape : list Z;
  dtype : DType;
  data : ref
}.

(** [util.sizeFromShape] *)
Definition sizeFromShape (s : list Z) : Z := foldr Z.mul 1 s.

Definition rank (x : NDArray) : Z := Z.of_nat (length (shape x)).
Definition size (x : NDArray) : Z := sizeFromShape (shape x).

(** [x.getValues()]: the typed array of the tensor (no copy is made). *)
Definition getValues (x : NDArray) : ref := data x.

(** Modelled from the spec: [NDArray.zeros] (ndarray.ts is not among the
    sources); a tensor owns a buffer of [size = product(shape)] elements,
    here all zero. *)
Definition NDArray_zeros (s : list Z) (d : DType) : M NDArray :=
  r <- newTypedArray (sizeFromShape s) ;;
  ret (mkNDArray s d r).

(** Modelled from the spec: [NDArray.make(shape, {values}, dtype)] wraps
    the given typed array; the element type is float32 when none is
    given. *)
Definition NDArray_make (s : list Z) (values : ref) (d : option DType) : NDArray :=
  mkNDArray s (default float32 d) values.

(** Modelled from the spec: [Array1D.new(values)] wraps a typed array in a
    rank-1 tensor of its length. *)
Definition Array1D_new (values : ref) : M NDArray :=
  n <- lengthOf values ;;
  ret (mkNDArray [n] float32 values).

(** Modelled from the spec: the linear offset of a multi-index is
    [sum (i_d * stride_d)] with [stride_d = product (shape[d+1:])]. *)
Fixpoint locToIndex (s : list Z) (loc : list Z) : Z :=
  match s, loc with
  | _ :: s', i :: loc' => i * sizeFromShape s' + locToIndex s' loc'
  | _, _ => 0
  end.

(** Modelled from the spec: the multi-index of a linear offset. *)
Fixpoint indexToLoc (s : list Z) (index : Z) : list Z :=
  match s with
  | [] => []
  | _ :: s' =>
      (index / sizeFromShape s') :: indexToLoc s' (index mod sizeFromShape s')
  end.

(** [x.get(...loc)] and [x.set(v, ...loc)] *)
Definition get (x : NDArray) (loc : list Z) : M number :=
  load (data x) (locToIndex (shape x) loc).

Definition set (x : NDArray) (v : number) (loc : list Z) : M unit :=
  store (data x) (locToIndex (shape x) loc) v.

(** [Scalar.ONE] and [Scalar.NEG_ONE] are created when the library is
    loaded: they are the first two typed arrays of every heap. *)
Definition Scalar_ONE : NDArray := mkNDArray [] float32 0%nat.
Definition Scalar_NEG_ONE : NDArray := mkNDArray [] float32 1%nat.

Definition heap0 : heap := [[num 1]; [num (-1)]].

Definition heap_ok (h : heap) : Prop :=
  h !! 0%nat = Some [num 1] /\ h !! 1%nat = Some [num (-1)].

(** Modelled from the spec: [util.NAN_INT32], the sentinel that stands for
    NaN in an int32 tensor ([1 << 31] upstream); util.ts is not among the
    sources. *)
Definition NAN_INT32 : Z := - 2 ^ 31.
Definition NAN_BOOL : Z := 255.

(** Modelled from the spec: [util.getNaN] and [util.isValNaN]. *)
Definition getNaN (d : DType) : number :=
  match d with
  | float32 => NaN
  | int32 => num NAN_INT32
  | bool_ => num NAN_BOOL
  end.

Definition isValNaN (v : number) (d : DType) : bool :=
  match d with
  | float32 => isNaN v
  | int32 => neqb v (num NAN_INT32)
  | bool_ => neqb v (num NAN_BOOL)
  end.

(** [util.getTypedArrayFromDType(dtype, size)] *)
Definition getTypedArrayFromDType (d : DType) (n : Z) : M ref :=
  newTypedArray n.

(** [SumTypesMap] (types.ts) *)
Definition SumTypesMap (d : DType) : DType :=
  match d with
  | float32 => float32
  | int32 => int32
  | bool_ => int32
  end.

(** [l[i]] and [l[i] = v] for a JavaScript array of integers. *)
Definition lookupZ (l : list Z) (i : Z) : option Z :=
  if i <? 0 then None else l !! Z.to_nat i.

Definition insertZ (i : Z) (v : Z) (l : list Z) : list Z :=
  if i <? 0 then l else <[Z.to_nat i := v]> l.

(** Modelled from the spec: axis_util (not among the sources). The reduced
    axes must be exactly the trailing axes; the kept dimensions form the
    output shape and the reduced ones the reduce shape. *)
Definition axesAreInnerMostDims (axes : list Z) (rk : Z) : bool :=
  forallb
    (fun i =>
       match axes !! (length axes - Z.to_nat i - 1)%nat with
       | Some ax => ax =? rk - 1 - i
       | None => false
       end)
    (range 0 (Z.of_nat (length axes))).

Definition assertAxesAreInnerMostDims (msg : string) (axes : list Z) (rk : Z)
  : M unit :=
  if axesAreInnerMostDims axes rk then ret tt else throw (AssertionError msg).

Definition computeOutAndReduceShapes (aShape : list Z) (axes : list Z)
  : list Z * list Z :=
  (omap (fun dim => if bool_decide (dim ∈ axes) then None
                    else lookupZ aShape dim)
        (range 0 (Z.of_nat (length aShape))),
   omap (lookupZ aShape) axes).

(** Modelled from the spec: broadcast_util (not among the sources). The
    two shapes are right-aligned, a missing dimension counts as 1, each
    aligned pair must be equal or contain a 1, and the output dimension is
    the larger of the two. *)
Fixpoint broadcastRev (ra rb : list Z) : option (list Z) :=
  match ra, rb with
  | [], _ => Some (map (Z.max 1) rb)
  | _, [] => Some (map (Z.max 1) ra)
  | a :: ra', b :: rb' =>
      if (a =? b) || (a =? 1) || (b =? 1)
      then cons (Z.max a b) <$> broadcastRev ra' rb'
      else None
  end.

Definition assertAndGetBroadcastShape (shapeA shapeB : list Z) : M (list Z) :=
  match broadcastRev (reverse shapeA) (reverse shapeB) with
  | Some r => ret (reverse r)
  | None => throw (AssertionError "Operands could not be broadcast together")
  end.

(** [shape[i] || 1] *)
Definition at_dim (s : list Z) (i : Z) : Z :=
  if i <? 0 then 1 else default 1 (s !! Z.to_nat i).

(** Modelled from the spec: the axes of the input that have size 1 where
    the output is larger, whose index component is set to zero when an
    output index is mapped back to the input. *)
Definition getBroadcastDims (inShape outShape : list Z) : list Z :=
  let inRank := Z.of_nat (length inShape) in
  let outRank := Z.of_nat (length outShape) in
  List.filter
    (fun dim =>
       (1 <? at_dim outShape (outRank - inRank + dim))
       && (at_dim inShape dim =? 1))
    (range 0 inRank).

(** [new Float32Array(values)] for a typed array [values]: a fresh copy. *)
Definition copyOf (r : ref) : M ref :=
  fun h => (Ok (length h), h ++ [buffer h r]).

(** [values.slice(b, e)]: a fresh copy of a sub-range; negative bounds
    count from the end and both bounds are clamped to the array. *)
Definition clampIndex (len i : Z) : Z :=
  if i <? 0 then Z.max (len + i) 0 else Z.min i len.

Definition sliceOf (r : ref) (b e : Z) : M ref :=
  fun h =>
    let l := buffer h r in
    let len := Z.of_nat (length l) in
    let lo := clampIndex len b in
    let hi := clampIndex len e in
    (Ok (length h),
     h ++ [take (Z.to_nat (hi - lo)) (drop (Z.to_nat lo) l)]).

(** [target.set(source, offset)]: copies a whole typed array into another;
    a source that does not fit raises a RangeError. *)
Definition setAll (target source : ref) (offset : Z) : M unit :=
  fun h =>
    let src := buffer h source in
    let tgt := buffer h target in
    if (offset <? 0)
       || (Z.of_nat (length tgt) <? Z.of_nat (length src) + offset)
    then (Throw RangeError, h)
    else (Ok tt,
          alter (fun _ => take (Z.to_nat offset) tgt ++ src
                          ++ drop (Z.to_nat offset + length src) tgt)
                target h).

(** [values.fill(v)] *)
Definition fill (r : ref) (v : number) : M unit :=
  fun h => (Ok tt, alter (fun b => replicate (length b) v) r h).

(** [Math.max], [Math.min], [Math.abs], [Math.floor] and [Math.ceil] on
    numbers. *)
Definition Math_max (a b : number) : number :=
  if isNaN a || isNaN b then NaN else if nlt a b then b else a.

Definition Math_min (a b : number) : number :=
  if isNaN a || isNaN b then NaN else if nlt b a then b else a.

Definition Math_abs (a : number) : number :=
  match a with
  | NaN => NaN
  | PInf | NInf => PInf
  | Fin q => Fin (Qred (Qabs q))
  end.

Definition Math_floor (a : number) : number :=
  match a with
  | Fin q => num (Qfloor q)
  | _ => a
  end.

Definition Math_ceil (a : number) : number :=
  match a with
  | Fin q => num (Qceiling q)
  | _ => a
  end.

(** *** Rounding to a binary floating-point format *)

(** The binary exponent of a rational that is not zero: the floor of the
    logarithm of its magnitude. *)
Definition Qlog2 (q : Q) : Z :=
  let e := Z.log2 (Z.abs (Qnum q)) - Z.log2 (Zpos (Qden q)) in
  if Qle_bool (2 ^ e) (Qabs q) then e else e - 1.

(** The nearest integer; a tie goes to the even one. *)
Definition roundHalfEven (q : Q) : Z :=
  let f := Qfloor q in
  match (q - inject_Z f ?= 1 # 2)%Q with
  | Lt => f
  | Gt => f + 1
  | Eq => if Z.even f then f else f + 1
  end.

(** The nearest number of the binary format with [prec] bits of precision
    and exponents from [emin] to [emax] (IEEE 754, round to nearest, ties
    to even): the multiple of the unit in the last place nearest to the
    number, the unit being that of the subnormal numbers below the least
    exponent; a magnitude that rounds to [2 ^ (emax + 1)] or above gives
    an infinity. *)
Definition roundBinary (prec emin emax : Z) (a : number) : number :=
  match a with
  | Fin q =>
      if Qeq_bool q 0 then Fin 0
      else
        let ex := Z.max (Qlog2 q - (prec - 1)) (emin - (prec - 1)) in
        let r := (inject_Z (roundHalfEven (q / 2 ^ ex)) * 2 ^ ex)%Q in
        if Qle_bool (2 ^ (emax + 1)) (Qabs r)
        then (if Qle_bool 0 q then PInf else NInf)
        else Fin (Qred r)
  | _ => a
  end.

(** [Math.fround]: the binary32 number that a [Float32Array] stores when
    it is given a number. *)
Definition Math_fround : number -> number := roundBinary 24 (-126) 127.

(** The binary64 number that an arithmetic operation of the language
    returns for an exact result. *)
Definition roundDouble : number -> number := roundBinary 53 (-1022) 1023.

(** An array index computed as a number: an integer, or an index that no
    array has. *)
Definition toIndex (a : number) : Z :=
  match a with
  | Fin q => if Qeq_bool (inject_Z (Qfloor q)) q then Qfloor q else -1
  | _ => -1
  end.

(** What the backend takes from its environment and is not among the
    sources: the transcendental functions of [Math] (and [util.tanh]),
    [concat_util.computeOutShape], and the seeded generator
    [seedrandom.alea], a closure with a private state that each call
    advances. *)
Class Runtime : Type := {
  Math_exp : number -> number;
  Math_log : number -> number;
  Math_sqrt : number -> number;
  Math_sin : number -> number;
  Math_cos : number -> number;
  Math_tan : number -> number;
  Math_asin : number -> number;
  Math_acos : number -> number;
  Math_atan : number -> number;
  Math_sinh : number -> number;
  Math_cosh : number -> number;
  util_tanh : number -> number;
  concat_computeOutShape : list Z -> list Z -> Z -> option (list Z);
  generator : Type;
  seedrandom_alea : number -> generator;
  random : generator -> number * generator
}.

(** The convolution geometry (conv_util.Conv2DInfo). *)
Record PadInfo : Type := mkPadInfo {
  pad_top : Z;
  pad_left : Z;
  pad_bottom : Z;
  pad_right : Z
}.

Record Conv2DInfo : Type := mkConv2DInfo {
  batchSize : Z;
  inHeight : Z;
  inWidth : Z;
  inChannels : Z;
  outHeight : Z;
  outWidth : Z;
  outChannels : Z;
  strideHeight : Z;
  strideWidth : Z;
  filterHeight : Z;
  filterWidth : Z;
  padInfo : PadInfo;
  inShape : list Z;
  outShape : list Z;
  filterShape : list Z
}.

Inductive MatrixOrientation : Type :=
| REGULAR
| TRANSPOSED.

Inductive PoolType : Type :=
| pool_max
| pool_min
| pool_avg.

(** [(a / b)] of two integers as a rational, its ceiling, and the integers
    below it: [for (let y = lo; y < a / b; ++y)] ranges over
    [range lo (Qceiling (a / b))]. *)
Definition quot (a b : Z) : Q := (inject_Z a / inject_Z b)%Q.

(** The choice that concat2D, concat3D and concat4D make for an output
    location: read [a] there, or read [b] at the location moved back by
    [a.shape[axis]] (the axis is one of the tensor's axes). *)
Definition concatLoc (aShape : list Z) (axis : Z) (index : list Z)
  : bool * list Z :=
  match lookupZ index axis, lookupZ aShape axis with
  | Some i, Some n =>
      if i <? n then (true, index) else (false, insertZ axis (i - n) index)
  | _, _ => (false, index)
  end.

(** [shape[i]] where it bounds a loop: a missing dimension is [undefined]
    and the loop does not run. *)
Definition dimOf (s : list Z) (i : nat) : Z := default 0 (s !! i).

(** An element of the array that topK sorts: [{value, index}]. *)
Record ValueAndIndex : Type := mkValueAndIndex {
  value : number;
  index : Z
}.

(** [Array.prototype.sort(compare)], the built-in sort of the language: a
    stable sort, in which [x] moves behind [y] only where
    [compare(x, y) > 0] (a NaN from [compare] counts as zero). It is
    written here as the insertion sort. *)
Fixpoint sortInsert {A} (compare : A -> A -> number) (x : A) (l : list A)
  : list A :=
  match l with
  | [] => [x]
  | y :: l' =>
      if ngt (compare x y) (num 0) then y :: sortInsert compare x l'
      else x :: l
  end.

Definition Array_sort {A} (compare : A -> A -> number) (l : list A) : list A :=
  foldr (sortInsert compare) [] l.

(** ** The backend *)

Module MathBackendCPU.
Section Kernels.
Context `{RT : Runtime}.

Definition clone (x : NDArray) : M NDArray :=
  r <- copyOf (getValues x) ;;
  ret (NDArray_make (shape x) r None).

Definition slice1D (x : NDArray) (begin size : Z) : M NDArray :=
  newVals <- sliceOf (getValues x) begin (begin + size) ;;
  Array1D_new newVals.

Definition slice2D (x : NDArray) (begin size : Z * Z) : M NDArray :=
  result <- NDArray_zeros [size.1; size.2] float32 ;;
  let '(startI, startJ) := begin in
  for_ (range 0 size.1) (fun i =>
    for_ (range 0 size.2) (fun j =>
      val <- get x [i + startI; j + startJ] ;;
      set result val [i; j])) ;;;
  ret result.

Definition slice3D (x : NDArray) (begin size : Z * Z * Z) : M NDArray :=
  let '(size0, size1, size2) := size in
  result <- NDArray_zeros [size0; size1; size2] float32 ;;
  let '(startI, startJ, startK) := begin in
  for_ (range 0 size0) (fun i =>
    for_ (range 0 size1) (fun j =>
      for_ (range 0 size2) (fun k =>
        val <- get x [i + startI; j + startJ; k + startK] ;;
        set result val [i; j; k]))) ;;;
  ret result.

Definition slice4D (x : NDArray) (begin size : Z * Z * Z * Z) : M NDArray :=
  let '(size0, size1, size2, size3) := size in
  result <- NDArray_zeros [size0; size1; size2; size3] float32 ;;
  let '(startI, startJ, startK, startL) := begin in
  for_ (range 0 size0) (fun i =>
    for_ (range 0 size1) (fun j =>
      for_ (range 0 size2) (fun k =>
        for_ (range 0 size3) (fun l =>
          val <- get x [i + startI; j + startJ; k + startK; l + startL] ;;
          set result val [i; j; k; l])))) ;;;
  ret result.

(** [concat_util.computeOutShape], which fails on shapes that do not fit. *)
Definition computeOutShape (aShape bShape : list Z) (axis : Z) : M (list Z) :=
  match concat_computeOutShape aShape bShape axis with
  | Some s => ret s
  | None => throw (AssertionError "Error in concat: shapes do not match")
  end.

(** The fast path of the concatenations along axis 0. *)
Definition concatAxis0 (a b result : NDArray) : M NDArray :=
  let aVals := getValues a in
  let bVals := getValues b in
  let vals := getValues result in
  setAll vals aVals 0 ;;;
  setAll vals bVals (size a) ;;;
  ret result.

Definition concat1D (a b : NDArray) : M NDArray :=
  outShape <- computeOutShape (shape a) (shape b) 0 ;;
  result <- NDArray_zeros outShape float32 ;;
  concatAxis0 a b result.

(** The shader of concat2D, concat3D and concat4D at one output location. *)
Definition concatAt (a b result : NDArray) (axis : Z) (loc : list Z) : M unit :=
  value <- (let '(inA, index) := concatLoc (shape a) axis loc in
            if inA then get a loc else get b index) ;;
  set result value loc.

Definition concat2D (a b : NDArray) (axis : Z) : M NDArray :=
  outShape <- computeOutShape (shape a) (shape b) axis ;;
  result <- NDArray_zeros outShape float32 ;;
  if axis =? 0 then concatAxis0 a b result
  else
    for_ (range 0 (dimOf outShape 0)) (fun i =>
      for_ (range 0 (dimOf outShape 1)) (fun j =>
        concatAt a b result axis [i; j])) ;;;
    ret result.

Definition concat3D (a b : NDArray) (axis : Z) : M NDArray :=
  outShape <- computeOutShape (shape a) (shape b) axis ;;
  result <- NDArray_zeros outShape float32 ;;
  if axis =? 0 then concatAxis0 a b result
  else
    for_ (range 0 (dimOf outShape 0)) (fun i =>
      for_ (range 0 (dimOf outShape 1)) (fun j =>
        for_ (range 0 (dimOf outShape 2)) (fun k =>
          concatAt a b result axis [i; j; k]))) ;;;
    ret result.

Definition concat4D (a b : NDArray) (axis : Z) : M NDArray :=
  outShape <- computeOutShape (shape a) (shape b) axis ;;
  result <- NDArray_zeros outShape float32 ;;
  if axis =? 0 then concatAxis0 a b result
  else
    for_ (range 0 (dimOf outShape 0)) (fun i =>
      for_ (range 0 (dimOf outShape 1)) (fun j =>
        for_ (range 0 (dimOf outShape 2)) (fun k =>
          for_ (range 0 (dimOf outShape 3)) (fun l =>
            concatAt a b result axis [i; j; k; l])))) ;;;
    ret result.

(** [loc.slice(-rank)]: the last [rank] components ([slice(-0)] is the
    whole array). *)
Definition lastDims (rk : Z) (loc : list Z) : list Z :=
  drop (length loc - Z.to_nat rk) loc.

(** [dims.forEach(d => loc[d] = 0)] *)
Definition zeroDims (dims : list Z) (loc : list Z) : list Z :=
  fold_left (fun l d => insertZ d 0 l) dims loc.

Definition broadcastedBinaryOp (a b : NDArray) (d : DType)
    (op : number -> number -> number) : M NDArray :=
  newShape <- assertAndGetBroadcastShape (shape a) (shape b) ;;
  result <- NDArray_zeros newShape d ;;
  let newValues := getValues result in
  let aValues := getValues a in
  let bValues := getValues b in
  let aBroadcastDims := getBroadcastDims (shape a) newShape in
  let bBroadcastDims := getBroadcastDims (shape b) newShape in
  n <- lengthOf newValues ;;
  for_ (range 0 n) (fun i =>
    let loc := indexToLoc (shape result) i in
    let aLoc := zeroDims aBroadcastDims (lastDims (rank a) loc) in
    let aIndex := locToIndex (shape a) aLoc in
    let bLoc := zeroDims bBroadcastDims (lastDims (rank b) loc) in
    let bIndex := locToIndex (shape b) bLoc in
    aVal <- load aValues aIndex ;;
    bVal <- load bValues bIndex ;;
    store newValues i (op aVal bVal)) ;;;
  ret result.

Definition scaledArrayAdd (c1 : NDArray) (a : NDArray) (c2 : NDArray)
    (b : NDArray) : M NDArray :=
  c1Val <- get c1 [] ;;
  c2Val <- get c2 [] ;;
  broadcastedBinaryOp a b float32
    (fun aVal bVal => nadd (nmul c1Val aVal) (nmul c2Val bVal)).

(** [i % n] for an index [i >= 0]; the remainder by zero is NaN, which
    indexes nothing. *)
Definition jsmod (i n : Z) : Z := if n =? 0 then -1 else Z.rem i n.

Definition multiply (a b : NDArray) : M NDArray :=
  newShape <- assertAndGetBroadcastShape (shape a) (shape b) ;;
  newValues <- newTypedArray (sizeFromShape newShape) ;;
  let aValues := getValues a in
  let bValues := getValues b in
  n <- lengthOf newValues ;;
  for_ (range 0 n) (fun i =>
    aVal <- load aValues (jsmod i (size a)) ;;
    bVal <- load bValues (jsmod i (size b)) ;;
    store newValues i (nmul aVal bVal)) ;;;
  ret (NDArray_make newShape newValues None).

Definition neg (x : NDArray) : M NDArray :=
  multiply Scalar_NEG_ONE x.

Definition add (a b : NDArray) : M NDArray :=
  scaledArrayAdd Scalar_ONE a Scalar_ONE b.

Definition subtract (a b : NDArray) : M NDArray :=
  scaledArrayAdd Scalar_ONE a Scalar_NEG_ONE b.

Definition divide (a b : NDArray) : M NDArray :=
  newShape <- assertAndGetBroadcastShape (shape a) (shape b) ;;
  newValues <- newTypedArray (sizeFromShape newShape) ;;
  let aValues := getValues a in
  let bValues := getValues b in
  n <- lengthOf newValues ;;
  for_ (range 0 n) (fun i =>
    aVal <- load aValues (jsmod i (size a)) ;;
    bVal <- load bValues (jsmod i (size b)) ;;
    store newValues i (ndiv aVal bVal)) ;;;
  ret (NDArray_make newShape newValues (Some float32)).

Definition matMul (a b : NDArray) (aOrientation bOrientation : MatrixOrientation)
  : M NDArray :=
  let sharedDim :=
    match aOrientation with REGULAR => dimOf (shape a) 1 | _ => dimOf (shape a) 0 end in
  let leftDim :=
    match aOrientation with REGULAR => dimOf (shape a) 0 | _ => dimOf (shape a) 1 end in
  let rightDim :=
    match bOrientation with REGULAR => dimOf (shape b) 1 | _ => dimOf (shape b) 0 end in
  let normalGetter (matrix : NDArray) (i j : Z) := get matrix [i; j] in
  let transposedGetter (matrix : NDArray) (i j : Z) := get matrix [j; i] in
  let aGetter :=
    match aOrientation with REGULAR => normalGetter | _ => transposedGetter end in
  let bGetter :=
    match bOrientation with REGULAR => normalGetter | _ => transposedGetter end in
  values <- newTypedArray (leftDim * rightDim) ;;
  _ <- fold_for (range 0 leftDim) 0 (fun i index =>
    fold_for (range 0 rightDim) index (fun j index =>
      sum <- fold_for (range 0 sharedDim) (num 0) (fun k sum =>
        av <- aGetter a i k ;;
        bv <- bGetter b k j ;;
        ret (nadd sum (nmul av bv))) ;;
      store values index sum ;;;
      ret (index + 1))) ;;
  ret (mkNDArray [leftDim; rightDim] float32 values).

Definition sum (x : NDArray) (axes : list Z) : M NDArray :=
  assertAxesAreInnerMostDims "sum" axes (rank x) ;;;
  let '(outShape, reduceShape) := computeOutAndReduceShapes (shape x) axes in
  let resultDtype := SumTypesMap (dtype x) in
  result <- NDArray_zeros outShape resultDtype ;;
  let reduceSize := sizeFromShape reduceShape in
  let vals := getValues result in
  let aVals := getValues x in
  n <- lengthOf vals ;;
  for_ (range 0 n) (fun i =>
    let offset := i * reduceSize in
    sum <- fold_for (range 0 reduceSize) (num 0) (fun j sum =>
      v <- load aVals (offset + j) ;;
      ret (nadd sum v)) ;;
    store vals i sum) ;;;
  ret result.

Definition argMin (x : NDArray) (axes : list Z) : M NDArray :=
  assertAxesAreInnerMostDims "argMin" axes (rank x) ;;;
  let '(outShape, reduceShape) := computeOutAndReduceShapes (shape x) axes in
  result <- NDArray_zeros outShape int32 ;;
  let reduceSize := sizeFromShape reduceShape in
  let vals := getValues result in
  let aVals := getValues x in
  n <- lengthOf vals ;;
  for_ (range 0 n) (fun i =>
    let offset := i * reduceSize in
    min <- load aVals offset ;;
    let minIndex := 0 in
    r <- loop (range 0 reduceSize) (min, minIndex) (fun j '(min, minIndex) =>
      value <- load aVals (offset + j) ;;
      if isNaN value then ret (Break (min, NAN_INT32))
      else if nlt value min then ret (Next (value, j))
      else ret (Next (min, minIndex))) ;;
    store vals i (num r.2)) ;;;
  ret result.

Definition argMax (x : NDArray) (axes : list Z) : M NDArray :=
  assertAxesAreInnerMostDims "argMax" axes (rank x) ;;;
  let '(outShape, reduceShape) := computeOutAndReduceShapes (shape x) axes in
  result <- NDArray_zeros outShape int32 ;;
  let reduceSize := sizeFromShape reduceShape in
  let vals := getValues result in
  let aVals := getValues x in
  n <- lengthOf vals ;;
  for_ (range 0 n) (fun i =>
    let offset := i * reduceSize in
    max <- load aVals offset ;;
    let maxIndex := 0 in
    r <- loop (range 0 reduceSize) (max, maxIndex) (fun j '(max, maxIndex) =>
      value <- load aVals (offset + j) ;;
      if isNaN value then ret (Break (max, NAN_INT32))
      else if ngt value max then ret (Next (value, j))
      else ret (Next (max, maxIndex))) ;;
    store vals i (num r.2)) ;;;
  ret result.

Definition equal (a b : NDArray) : M NDArray :=
  broadcastedBinaryOp a b bool_ (fun aVal bVal =>
    if isValNaN aVal (dtype a) || isValNaN bVal (dtype b)
    then getNaN bool_
    else if neqb aVal bVal then num 1 else num 0).

Definition topK (ndarray : NDArray) (k : Z) : M (NDArray * NDArray) :=
  let values := getValues ndarray in
  n <- lengthOf values ;;
  valuesAndIndices <- fold_for (range 0 n) [] (fun i acc =>
    v <- load values i ;;
    ret (acc ++ [mkValueAndIndex v i])) ;;
  let valuesAndIndices :=
    Array_sort (fun a b => nsub (value b) (value a)) valuesAndIndices in
  topkValues <- getTypedArrayFromDType (dtype ndarray) k ;;
  topkIndices <- newTypedArray k ;;
  for_ (range 0 k) (fun i =>
    match valuesAndIndices !! Z.to_nat i with
    | None => throw TypeError
    | Some e =>
        store topkValues i (value e) ;;;
        store topkIndices i (num (index e))
    end) ;;;
  tv <- Array1D_new topkValues ;;
  ti <- Array1D_new topkIndices ;;
  ret (tv, ti).

Definition topKValues (x : NDArray) (k : Z) : M NDArray :=
  r <- topK x k ;; ret r.1.

Definition topKIndices (x : NDArray) (k : Z) : M NDArray :=
  r <- topK x k ;; ret r.2.

Definition min (x : NDArray) (axes : list Z) : M NDArray :=
  assertAxesAreInnerMostDims "min" axes (rank x) ;;;
  let '(outShape, reduceShape) := computeOutAndReduceShapes (shape x) axes in
  result <- NDArray_zeros outShape (dtype x) ;;
  let reduceSize := sizeFromShape reduceShape in
  let vals := getValues result in
  let aVals := getValues x in
  n <- lengthOf vals ;;
  for_ (range 0 n) (fun i =>
    let offset := i * reduceSize in
    min <- load aVals 0 ;;
    min <- loop (range 0 reduceSize) min (fun j min =>
      value <- load aVals (offset + j) ;;
      if isNaN value then ret (Break NaN)
      else if nlt value min then ret (Next value)
      else ret (Next min)) ;;
    store vals i min) ;;;
  ret result.

Definition max (x : NDArray) (axes : list Z) : M NDArray :=
  assertAxesAreInnerMostDims "max" axes (rank x) ;;;
  let '(outShape, reduceShape) := computeOutAndReduceShapes (shape x) axes in
  result <- NDArray_zeros outShape (dtype x) ;;
  let reduceSize := sizeFromShape reduceShape in
  let vals := getValues result in
  let aVals := getValues x in
  n <- lengthOf vals ;;
  for_ (range 0 n) (fun i =>
    let offset := i * reduceSize in
    max <- load aVals offset ;;
    max <- loop (range 0 reduceSize) max (fun j max =>
      value <- load aVals (offset + j) ;;
      if isNaN value then ret (Break NaN)
      else if ngt value max then ret (Next value)
      else ret (Next max)) ;;
    store vals i max) ;;;
  ret result.

(** The loop shared by the element-wise kernels that size their output by
    [values.length]:
    [newValues = new Float32Array(values.length);
     for (i < values.length) newValues[i] = f(values[i])]. *)
Definition mapValues (f : number -> number) (x : NDArray) : M NDArray :=
  let values := getValues x in
  n <- lengthOf values ;;
  newValues <- newTypedArray n ;;
  for_ (range 0 n) (fun i =>
    v <- load values i ;;
    store newValues i (f v)) ;;;
  ret (NDArray_make (shape x) newValues None).

(** The same loop in the kernels that size their output by [x.size]. *)
Definition mapValuesSized (f : number -> number) (x : NDArray) : M NDArray :=
  resultValues <- newTypedArray (size x) ;;
  let values := getValues x in
  n <- lengthOf values ;;
  for_ (range 0 n) (fun i =>
    v <- load values i ;;
    store resultValues i (f v)) ;;;
  ret (NDArray_make (shape x) resultValues None).

Definition ceil (x : NDArray) : M NDArray := mapValues Math_ceil x.
Definition floor (x : NDArray) : M NDArray := mapValues Math_floor x.
Definition exp (x : NDArray) : M NDArray := mapValues Math_exp x.
Definition log (x : NDArray) : M NDArray := mapValues Math_log x.
Definition sqrt (x : NDArray) : M NDArray := mapValues Math_sqrt x.
Definition square (x : NDArray) : M NDArray :=
  mapValues (fun value => nmul value value) x.

Definition relu (x : NDArray) : M NDArray :=
  res <- NDArray_zeros (shape x) (dtype x) ;;
  let resVals := getValues res in
  let inVals := getValues x in
  n <- lengthOf inVals ;;
  for_ (range 0 n) (fun i =>
    val <- load inVals i ;;
    if isValNaN val (dtype x) then store resVals i (getNaN (dtype res))
    else store resVals i (Math_max (num 0) val)) ;;;
  ret res.

Definition elu (x : NDArray) : M NDArray :=
  mapValuesSized
    (fun v => if nge v (num 0) then v else nsub (Math_exp v) (num 1)) x.

Definition eluDer (x : NDArray) : M NDArray :=
  mapValuesSized (fun v => if nge v (num 0) then num 1 else Math_exp v) x.

Definition selu (x : NDArray) : M NDArray :=
  let scaleAlpha :=
    Fin (17580993408473768599402175208123 # 10000000000000000000000000000000) in
  let scale :=
    Fin (10507009873554804934193349852946 # 10000000000000000000000000000000) in
  mapValuesSized
    (fun v => if nge v (num 0) then nmul scale v
              else nmul scaleAlpha (nsub (Math_exp v) (num 1))) x.

Definition leakyRelu (x : NDArray) (alpha : number) : M NDArray :=
  mapValuesSized (fun v => if nge v (num 0) then v else nmul alpha v) x.

Definition clip (x : NDArray) (min max : number) : M NDArray :=
  mapValuesSized (fun v => Math_min max (Math_max min v)) x.

Definition abs (x : NDArray) : M NDArray := mapValuesSized Math_abs x.

Definition sigmoid (x : NDArray) : M NDArray :=
  mapValuesSized
    (fun v => ndiv (num 1) (nadd (num 1) (Math_exp (nopp v)))) x.

Definition sin (x : NDArray) : M NDArray := mapValuesSized Math_sin x.
Definition cos (x : NDArray) : M NDArray := mapValuesSized Math_cos x.
Definition tan (x : NDArray) : M NDArray := mapValuesSized Math_tan x.
Definition asin (x : NDArray) : M NDArray := mapValuesSized Math_asin x.
Definition acos (x : NDArray) : M NDArray := mapValuesSized Math_acos x.
Definition atan (x : NDArray) : M NDArray := mapValuesSized Math_atan x.
Definition sinh (x : NDArray) : M NDArray := mapValuesSized Math_sinh x.
Definition cosh (x : NDArray) : M NDArray := mapValuesSized Math_cosh x.
Definition tanh (x : NDArray) : M NDArray := mapValuesSized util_tanh x.

Definition step (x : NDArray) (alpha : number) : M NDArray :=
  mapValuesSized
    (fun value => if ngt value (num 0) then num 1
                  else if nlt value (num 0) then alpha else value) x.

Definition conv2d (x filter : NDArray) (bias : option NDArray)
    (convInfo : Conv2DInfo) : M NDArray :=
  let filterHeight := filterHeight convInfo in
  let filterWidth := filterWidth convInfo in
  let padLeft := pad_left (padInfo convInfo) in
  let padTop := pad_top (padInfo convInfo) in
  y <- NDArray_zeros (outShape convInfo) float32 ;;
  for_ (range 0 (batchSize convInfo)) (fun b =>
    for_ (range 0 (outChannels convInfo)) (fun d2 =>
      for_ (range 0 (outHeight convInfo)) (fun yR =>
        let xRCorner := yR * strideHeight convInfo - padLeft in
        let xRMin := Z.max 0 xRCorner in
        let xRMax := Z.min (inHeight convInfo) (filterHeight + xRCorner) in
        for_ (range 0 (outWidth convInfo)) (fun yC =>
          let xCCorner := yC * strideWidth convInfo - padTop in
          let xCMin := Z.max 0 xCCorner in
          let xCMax := Z.min (inWidth convInfo) (filterWidth + xCCorner) in
          dotProd <- fold_for (range xRMin xRMax) (num 0) (fun xR dotProd =>
            let wR := xR - xRCorner in
            fold_for (range xCMin xCMax) dotProd (fun xC dotProd =>
              let wC := xC - xCCorner in
              fold_for (range 0 (inChannels convInfo)) dotProd (fun d1 dotProd =>
                pixel <- get x [b; xR; xC; d1] ;;
                weight <- get filter [wR; wC; d1; d2] ;;
                ret (nadd dotProd (nmul pixel weight))))) ;;
          biasVal <- match bias with
                     | Some bias => get bias [d2]
                     | None => ret (num 0)
                     end ;;
          set y (nadd dotProd biasVal) [b; yR; yC; d2])))) ;;;
  ret y.

Definition conv2dDerInput (dy filter : NDArray) (convInfo : Conv2DInfo)
  : M NDArray :=
  let filterHeight := filterHeight convInfo in
  let filterWidth := filterWidth convInfo in
  let topPad := filterHeight - 1 - pad_top (padInfo convInfo) in
  let leftPad := filterWidth - 1 - pad_left (padInfo convInfo) in
  let strideHeight := strideHeight convInfo in
  let strideWidth := strideWidth convInfo in
  dx <- NDArray_zeros (inShape convInfo) float32 ;;
  for_ (range 0 (batchSize convInfo)) (fun b =>
    for_ (range 0 (inChannels convInfo)) (fun d1 =>
      for_ (range 0 (inHeight convInfo)) (fun xR =>
        let xRCorner := xR - leftPad in
        let xRMin := Z.max 0 (Qceiling (quot xRCorner strideHeight)) in
        let yRMax := Qmin (inject_Z (outHeight convInfo))
                          (quot (filterHeight + xRCorner) strideHeight) in
        for_ (range 0 (inWidth convInfo)) (fun xC =>
          let xCCorner := xC - topPad in
          let xCMin := Z.max 0 (Qceiling (quot xCCorner strideWidth)) in
          let yCMax := Qmin (inject_Z (outWidth convInfo))
                            (quot (filterWidth + xCCorner) strideWidth) in
          dotProd <- fold_for (range xRMin (Qceiling yRMax)) (num 0)
            (fun yR dotProd =>
              let wR := yR * strideHeight - xRCorner in
              fold_for (range xCMin (Qceiling yCMax)) dotProd (fun yC dotProd =>
                let wC := yC * strideWidth - xCCorner in
                fold_for (range 0 (outChannels convInfo)) dotProd
                  (fun d2 dotProd =>
                    pixel <- get dy [b; yR; yC; d2] ;;
                    weight <- get filter [filterHeight - 1 - wR;
                                          filterWidth - 1 - wC; d1; d2] ;;
                    ret (nadd dotProd (nmul pixel weight))))) ;;
          set dx dotProd [b; xR; xC; d1])))) ;;;
  ret dx.

Definition conv2dDerFilter (x dy : NDArray) (convInfo : Conv2DInfo)
  : M NDArray :=
  let strideHeight := strideHeight convInfo in
  let strideWidth := strideWidth convInfo in
  let filterHeight := filterHeight convInfo in
  let filterWidth := filterWidth convInfo in
  dW <- NDArray_zeros (filterShape convInfo) float32 ;;
  let leftPad := pad_left (padInfo convInfo) in
  let topPad := pad_top (padInfo convInfo) in
  for_ (range 0 filterHeight) (fun wR =>
    let yRMin := Z.max 0 (Qceiling (quot (topPad - wR) strideHeight)) in
    let yRMax := Qmin (inject_Z (outHeight convInfo))
                      (quot (inHeight convInfo + topPad - wR) strideHeight) in
    for_ (range 0 filterWidth) (fun wC =>
      let yCMin := Z.max 0 (Qceiling (quot (leftPad - wC) strideWidth)) in
      let yCMax := Qmin (inject_Z (outWidth convInfo))
                        (quot (inWidth convInfo + leftPad - wC) strideWidth) in
      for_ (range 0 (inChannels convInfo)) (fun d1 =>
        for_ (range 0 (outChannels convInfo)) (fun d2 =>
          dotProd <- fold_for (range 0 (batchSize convInfo)) (num 0)
            (fun b dotProd =>
              fold_for (range yRMin (Qceiling yRMax)) dotProd (fun yR dotProd =>
                let xR := wR + yR * strideHeight - topPad in
                fold_for (range yCMin (Qceiling yCMax)) dotProd
                  (fun yC dotProd =>
                    let xC := wC + yC * strideWidth - leftPad in
                    xv <- get x [b; xR; xC; d1] ;;
                    dyv <- get dy [b; yR; yC; d2] ;;
                    ret (nadd dotProd (nmul xv dyv))))) ;;
          set dW dotProd [wR; wC; d1; d2])))) ;;;
  ret dW.

Definition conv2dDerBias (dy : NDArray) : M NDArray :=
  let batchSize := dimOf (shape dy) 0 in
  let numRows := dimOf (shape dy) 1 in
  let numCols := dimOf (shape dy) 2 in
  let outDepth := dimOf (shape dy) 3 in
  values <- newTypedArray outDepth ;;
  for_ (range 0 outDepth) (fun d2 =>
    sum <- fold_for (range 0 batchSize) (num 0) (fun b sum =>
      fold_for (range 0 numRows) sum (fun r sum =>
        fold_for (range 0 numCols) sum (fun c sum =>
          v <- get dy [b; r; c; d2] ;;
          ret (nadd sum v)))) ;;
    store values d2 sum) ;;;
  Array1D_new values.

(** An integer held in a rational, or an index that no array has. *)
Definition toIndexQ (q : Q) : option Z :=
  if Qeq_bool (inject_Z (Qfloor q)) q then Some (Qfloor q) else None.

Definition depthwiseConv2D (x filter : NDArray) (convInfo : Conv2DInfo)
  : M NDArray :=
  let filterHeight := filterHeight convInfo in
  let filterWidth := filterWidth convInfo in
  let padLeft := pad_left (padInfo convInfo) in
  let padTop := pad_top (padInfo convInfo) in
  let chMul := quot (outChannels convInfo) (inChannels convInfo) in
  y <- NDArray_zeros (outShape convInfo) float32 ;;
  for_ (range 0 (batchSize convInfo)) (fun b =>
    for_ (range 0 (inChannels convInfo)) (fun d1 =>
      for_ (range 0 (outHeight convInfo)) (fun yR =>
        let xRCorner := yR * strideHeight convInfo - padLeft in
        let xRMin := Z.max 0 xRCorner in
        let xRMax := Z.min (inHeight convInfo) (filterHeight + xRCorner) in
        for_ (range 0 (outWidth convInfo)) (fun yC =>
          let xCCorner := yC * strideWidth convInfo - padTop in
          let xCMin := Z.max 0 xCCorner in
          let xCMax := Z.min (inWidth convInfo) (filterWidth + xCCorner) in
          for_ (range 0 (Qceiling chMul)) (fun q =>
            dotProd <- fold_for (range xRMin xRMax) (num 0) (fun xR dotProd =>
              let wR := xR - xRCorner in
              fold_for (range xCMin xCMax) dotProd (fun xC dotProd =>
                let wC := xC - xCCorner in
                pixel <- get x [b; xR; xC; d1] ;;
                weight <- get filter [wR; wC; d1; q] ;;
                ret (nadd dotProd (nmul pixel weight)))) ;;
            match toIndexQ (inject_Z d1 * chMul + inject_Z q) with
            | Some d2 => set y dotProd [b; yR; yC; d2]
            | None => ret tt
            end))))) ;;;
  ret y.

(** [new Array(n)] filled by [a[i] = f(i)]; an entry that reads past an
    array is [undefined] and the location it belongs to indexes nothing. *)
Definition tabulateOpt (n : nat) (f : nat -> option Z) : option (list Z) :=
  mapM f (seq 0 n).

Definition tile (x : NDArray) (reps : list Z) : M NDArray :=
  let newShape := zip_with Z.mul (shape x) reps in
  resultValues <- newTypedArray (sizeFromShape newShape) ;;
  let result := NDArray_make newShape resultValues (Some (dtype x)) in
  let values := getValues x in
  for_ (range 0 (size result)) (fun i =>
    let newLoc := indexToLoc (shape result) i in
    let originalLoc :=
      tabulateOpt (length (shape x)) (fun i =>
        match newLoc !! i, shape x !! i with
        | Some n, Some d => Some (jsmod n d)
        | _, _ => None
        end) in
    match originalLoc with
    | Some originalLoc =>
        let originalIndex := locToIndex (shape x) originalLoc in
        v <- load values originalIndex ;;
        store resultValues i v
    | None => store resultValues i NaN
    end) ;;;
  ret result.

Definition transpose (x : NDArray) (perm : list Z) : M NDArray :=
  let newShape :=
    map (fun i => match perm !! i with
                  | Some p => default 0 (lookupZ (shape x) p)
                  | None => 0
                  end)
        (seq 0 (length (shape x))) in
  resultValues <- newTypedArray (size x) ;;
  let values := getValues x in
  let result := NDArray_make newShape resultValues None in
  for_ (range 0 (size x)) (fun i =>
    let loc := indexToLoc (shape x) i in
    let newLoc :=
      tabulateOpt (length loc) (fun i =>
        match perm !! i with Some p => lookupZ loc p | None => None end) in
    match newLoc with
    | Some newLoc =>
        let newIndex := locToIndex (shape result) newLoc in
        v <- load values i ;;
        store resultValues newIndex v
    | None => ret tt
    end) ;;;
  ret result.

Definition pool (x : NDArray) (convInfo : Conv2DInfo) (poolType : PoolType)
  : M NDArray :=
  let strideHeight := strideHeight convInfo in
  let strideWidth := strideWidth convInfo in
  let filterHeight := filterHeight convInfo in
  let filterWidth := filterWidth convInfo in
  y <- NDArray_zeros (outShape convInfo) float32 ;;
  let padTop := pad_top (padInfo convInfo) in
  let padLeft := pad_left (padInfo convInfo) in
  for_ (range 0 (batchSize convInfo)) (fun b =>
    for_ (range 0 (inChannels convInfo)) (fun d =>
      for_ (range 0 (outHeight convInfo)) (fun yR =>
        let xRCorner := yR * strideHeight - padTop in
        let xRMin := Z.max 0 xRCorner in
        let xRMax := Z.min (inHeight convInfo) (filterHeight + xRCorner) in
        for_ (range 0 (outWidth convInfo)) (fun yC =>
          let xCCorner := yC * strideWidth - padLeft in
          let xCMin := Z.max 0 xCCorner in
          let xCMax := Z.min (inWidth convInfo) (filterWidth + xCCorner) in
          let minMaxValue :=
            match poolType with pool_max => NInf | _ => PInf end in
          let avgValue := num 0 in
          r <- loop (range xRMin xRMax) (minMaxValue, avgValue)
            (fun xR st =>
              st <- loop (range xCMin xCMax) st
                (fun xC '(minMaxValue, avgValue) =>
                  pixel <- get x [b; xR; xC; d] ;;
                  if isNaN pixel then ret (Break (NaN, NaN))
                  else if match poolType with
                          | pool_max => ngt pixel minMaxValue
                          | pool_min => nlt pixel minMaxValue
                          | pool_avg => false
                          end
                  then ret (Next (pixel, avgValue))
                  else match poolType with
                       | pool_avg =>
                           ret (Next (minMaxValue,
                                      nadd avgValue
                                        (ndiv pixel
                                           (num (filterHeight * filterWidth)))))
                       | _ => ret (Next (minMaxValue, avgValue))
                       end) ;;
              if isNaN st.1 then ret (Break st) else ret (Next st)) ;;
          set y (match poolType with pool_avg => r.2 | _ => r.1 end)
              [b; yR; yC; d])))) ;;;
  ret y.

Definition maxPool (x : NDArray) (convInfo : Conv2DInfo) : M NDArray :=
  pool x convInfo pool_max.

(** [maxPositions] is an [Array4D.zeros], a [Float32Array]: the position
    that it is given is stored rounded to binary32 ([Math_fround]). *)
Definition maxPoolPositions (x : NDArray) (convInfo : Conv2DInfo) : M NDArray :=
  maxPositions <- NDArray_zeros (outShape convInfo) float32 ;;
  let strideHeight := strideHeight convInfo in
  let strideWidth := strideWidth convInfo in
  let filterHeight := filterHeight convInfo in
  let filterWidth := filterWidth convInfo in
  let padTop := pad_top (padInfo convInfo) in
  let padLeft := pad_left (padInfo convInfo) in
  for_ (range 0 (batchSize convInfo)) (fun b =>
    for_ (range 0 (inChannels convInfo)) (fun d =>
      for_ (range 0 (outHeight convInfo)) (fun yR =>
        let xRCorner := yR * strideHeight - padTop in
        let xRMin := Z.max 0 xRCorner in
        let xRMax := Z.min (inHeight convInfo) (filterHeight + xRCorner) in
        for_ (range 0 (outWidth convInfo)) (fun yC =>
          let xCCorner := yC * strideWidth - padLeft in
          let xCMin := Z.max 0 xCCorner in
          let xCMax := Z.min (inWidth convInfo) (filterWidth + xCCorner) in
          let maxValue := NInf in
          let maxPosition := -1 in
          r <- fold_for (range xRMin xRMax) (maxValue, maxPosition)
            (fun xR st =>
              let wR := xR - xRCorner in
              fold_for (range xCMin xCMax) st (fun xC '(maxValue, maxPosition) =>
                let wC := xC - xCCorner in
                pixel <- get x [b; xR; xC; d] ;;
                if ngt pixel maxValue
                then ret (pixel, wR * filterWidth + wC)
                else ret (maxValue, maxPosition))) ;;
          set maxPositions (Math_fround (num r.2)) [b; yR; yC; d])))) ;;;
  ret maxPositions.

(** [dotProd] is a number of the language, a double: the product
    [pixel * mask] and the sum [dotProd + pixel * mask] are rounded to
    binary64 ([roundDouble]), and [dx], a [Float32Array], stores the sum
    rounded to binary32 ([Math_fround]). *)
Definition maxPoolBackprop (dy x : NDArray) (convInfo : Conv2DInfo)
  : M NDArray :=
  maxPositions <- maxPoolPositions x convInfo ;;
  let strideHeight := strideHeight convInfo in
  let strideWidth := strideWidth convInfo in
  let filterHeight := filterHeight convInfo in
  let filterWidth := filterWidth convInfo in
  let padLeft := filterWidth - 1 - pad_left (padInfo convInfo) in
  let padTop := filterHeight - 1 - pad_top (padInfo convInfo) in
  dx <- NDArray_zeros (shape x) float32 ;;
  for_ (range 0 (batchSize convInfo)) (fun b =>
    for_ (range 0 (inChannels convInfo)) (fun d =>
      for_ (range 0 (inHeight convInfo)) (fun dxR =>
        for_ (range 0 (inWidth convInfo)) (fun dxC =>
          let dyRCorner := dxR - padTop in
          let dyCCorner := dxC - padLeft in
          dotProd <- fold_for (range 0 filterHeight) (num 0) (fun wR dotProd =>
            let dyR := quot (dyRCorner + wR) strideHeight in
            if negb (Qle_bool 0 dyR) || Qle_bool (inject_Z (outHeight convInfo)) dyR
               || negb (Qeq_bool (inject_Z (Qfloor dyR)) dyR)
            then ret dotProd
            else
              fold_for (range 0 filterWidth) dotProd (fun wC dotProd =>
                let dyC := quot (dyCCorner + wC) strideWidth in
                if negb (Qle_bool 0 dyC)
                   || Qle_bool (inject_Z (outWidth convInfo)) dyC
                   || negb (Qeq_bool (inject_Z (Qfloor dyC)) dyC)
                then ret dotProd
                else
                  mp <- get maxPositions [b; Qfloor dyR; Qfloor dyC; d] ;;
                  let maxPos :=
                    nsub (num (filterHeight * filterWidth - 1)) mp in
                  let curPos := wR * filterWidth + wC in
                  let mask := if neqb maxPos (num curPos) then 1 else 0 in
                  if mask =? 0 then ret dotProd
                  else
                    pixel <- get dy [b; Qfloor dyR; Qfloor dyC; d] ;;
                    ret (roundDouble
                           (nadd dotProd
                                 (roundDouble (nmul pixel (num mask))))))) ;;
          set dx (Math_fround dotProd) [b; dxR; dxC; d])))) ;;;
  ret dx.

Definition minPool (x : NDArray) (convInfo : Conv2DInfo) : M NDArray :=
  pool x convInfo pool_min.

Definition avgPool (x : NDArray) (convInfo : Conv2DInfo) : M NDArray :=
  pool x convInfo pool_avg.

(** [x.get(...loc)] at a location computed in floating point. *)
Fixpoint locToIndexN (s : list Z) (loc : list number) : number :=
  match s, loc with
  | _ :: s', i :: loc' =>
      nadd (nmul i (num (sizeFromShape s'))) (locToIndexN s' loc')
  | _, _ => num 0
  end.

Definition getN (x : NDArray) (loc : list number) : M number :=
  load (data x) (toIndex (locToIndexN (shape x) loc)).

Definition resizeBilinear3D (x : NDArray) (newShape2D : Z * Z)
    (alignCorners : bool) : M NDArray :=
  output <- NDArray_zeros [newShape2D.1; newShape2D.2; dimOf (shape x) 2]
                          float32 ;;
  let effectiveInputSize :=
    if alignCorners
    then [dimOf (shape x) 0 - 1; dimOf (shape x) 1 - 1; dimOf (shape x) 2]
    else shape x in
  let effectiveOutputSize :=
    if alignCorners
    then [dimOf (shape output) 0 - 1; dimOf (shape output) 1 - 1;
          dimOf (shape output) 2]
    else shape output in
  for_ (range 0 (dimOf (shape output) 0)) (fun r =>
    for_ (range 0 (dimOf (shape output) 1)) (fun c =>
      for_ (range 0 (dimOf (shape output) 2)) (fun d =>
        let sourceFracRow :=
          ndiv (nmul (num (dimOf effectiveInputSize 0)) (num r))
               (num (dimOf effectiveOutputSize 0)) in
        let sourceFracCol :=
          ndiv (nmul (num (dimOf effectiveInputSize 1)) (num c))
               (num (dimOf effectiveOutputSize 1)) in
        let sourceRowFloor := Math_floor sourceFracRow in
        let sourceRowCeil :=
          Math_min (num (dimOf (shape x) 0 - 1)) (Math_ceil sourceFracRow) in
        let sourceColFloor := Math_floor sourceFracCol in
        let sourceColCeil :=
          Math_min (num (dimOf (shape x) 1 - 1)) (Math_ceil sourceFracCol) in
        topLeft <- getN x [sourceRowFloor; sourceColFloor; num d] ;;
        bottomLeft <- getN x [sourceRowCeil; sourceColFloor; num d] ;;
        topRight <- getN x [sourceRowFloor; sourceColCeil; num d] ;;
        bottomRight <- getN x [sourceRowCeil; sourceColCeil; num d] ;;
        let rowFrac := nsub sourceFracRow sourceRowFloor in
        let colFrac := nsub sourceFracCol sourceColFloor in
        let top := nadd topLeft (nmul (nsub topRight topLeft) colFrac) in
        let bottom :=
          nadd bottomLeft (nmul (nsub bottomRight bottomLeft) colFrac) in
        let newValue := nadd top (nmul (nsub bottom top) rowFrac) in
        set output newValue [r; c; d]))) ;;;
  ret output.

(** The body shared by batchNormalization2D and batchNormalization3D. *)
Definition batchNormalization (x mean variance : NDArray)
    (varianceEpsilon : number) (scale offset : option NDArray) : M NDArray :=
  let xValues := getValues x in
  let meanValues := getValues mean in
  let varianceValues := getValues variance in
  scaleValues <- match scale with
                 | Some scale => ret (getValues scale)
                 | None => typedArrayFrom [num 1]
                 end ;;
  offsetValues <- match offset with
                  | Some offset => ret (getValues offset)
                  | None => typedArrayFrom [num 0]
                  end ;;
  n <- lengthOf xValues ;;
  outValues <- newTypedArray n ;;
  nOffset <- lengthOf offsetValues ;;
  nMean <- lengthOf meanValues ;;
  nScale <- lengthOf scaleValues ;;
  nVariance <- lengthOf varianceValues ;;
  for_ (range 0 n) (fun i =>
    o <- load offsetValues (jsmod i nOffset) ;;
    xv <- load xValues i ;;
    m <- load meanValues (jsmod i nMean) ;;
    sc <- load scaleValues (jsmod i nScale) ;;
    v <- load varianceValues (jsmod i nVariance) ;;
    store outValues i
      (nadd o (ndiv (nmul (nsub xv m) sc)
                    (Math_sqrt (nadd v varianceEpsilon))))) ;;;
  ret (mkNDArray (shape x) float32 outValues).

Definition batchNormalization2D := batchNormalization.
Definition batchNormalization3D := batchNormalization.

Definition multinomial (probabilities : NDArray) (numSamples : Z)
    (seed : number) : M NDArray :=
  let batchSize := dimOf (shape probabilities) 0 in
  let numEvents := dimOf (shape probabilities) 1 in
  res <- NDArray_zeros [batchSize; numSamples] int32 ;;
  let resVals := getValues res in
  let probVals := getValues probabilities in
  for_ (range 0 batchSize) (fun b =>
    let offset := b * numEvents in
    cdf <- newTypedArray (numEvents - 1) ;;
    p0 <- load probVals offset ;;
    store cdf 0 p0 ;;;
    cdfLength <- lengthOf cdf ;;
    for_ (range 1 cdfLength) (fun event =>
      c <- load cdf (event - 1) ;;
      p <- load probVals (offset + event) ;;
      store cdf event (nadd c p)) ;;;
    let random0 := seedrandom_alea seed in
    let outOffset := b * numSamples in
    _ <- fold_for (range 0 numSamples) random0 (fun sampleId rng =>
      let '(r, rng) := random rng in
      store resVals (outOffset + sampleId) (num cdfLength) ;;;
      _ <- loop (range 0 cdfLength) tt (fun event _ =>
        c <- load cdf event ;;
        if nlt r c
        then store resVals (outOffset + sampleId) (num event) ;;;
             ret (Break tt)
        else ret (Next tt)) ;;
      ret rng) ;;
    ret tt) ;;;
  ret res.

Definition oneHot (indices : NDArray) (depth : Z) (onValue offValue : number)
  : M NDArray :=
  res <- newTypedArray (size indices * depth) ;;
  fill res offValue ;;;
  for_ (range 0 (size indices)) (fun event =>
    i <- get indices [event] ;;
    store res (toIndex (nadd (num (event * depth)) i)) onValue) ;;;
  ret (mkNDArray [size indices; depth] float32 res).
End Kernels.
End MathBackendCPU.

(** * The vocabulary of the specification *)

(** The tensor [x] lives in the heap [h] with elements [xv]: its buffer
    has [size = product(shape)] elements and its dimensions are positive. *)
Definition holds (h : heap) (x : NDArray) (xv : list number) : Prop :=
  h !! data x = Some xv
  /\ Z.of_nat (length xv) = size x
  /\ Forall (fun d => 0 < d) (shape x).

(** The last [k] axes of a tensor of rank [rk]. *)
Definition trailingAxes (rk k : Z) : list Z := range (rk - k) rk.

(** The shape that a reduction over the last [k] axes keeps, and the
    number of elements in each of its reduce-windows. *)
Definition keptShape (x : NDArray) (k : Z) : list Z :=
  take (Z.to_nat (rank x - k)) (shape x).

Definition reduceSizeOf (x : NDArray) (k : Z) : Z :=
  sizeFromShape (drop (Z.to_nat (rank x - k)) (shape x)).

(** The [i]-th contiguous reduce-window of a buffer. *)
Definition window (xv : list number) (reduceSize i : Z) : list number :=
  take (Z.to_nat reduceSize) (drop (Z.to_nat (i * reduceSize)) xv).

(** [w !! j] is smaller than no element of [w] (for argMin), resp. larger
    than no element (for argMax), and is the first such element. *)
Definition firstExtremum (lt : number -> number -> bool) (w : list number)
    (j : Z) : Prop :=
  exists v, w !! Z.to_nat j = Some v /\ 0 <= j
    /\ (forall v', v' ∈ w -> lt v' v = false)
    /\ (forall (j' : nat) v', (j' < Z.to_nat j)%nat -> w !! j' = Some v' ->
          lt v v' = true).

(** ** What the loops of the kernels compute *)

(** The value of a loop with local variables and [break] whose body only
    reads. *)
Fixpoint loop_pure {A S} (l : list A) (s : S) (f : A -> S -> ctl S) : S :=
  match l with
  | [] => s
  | a :: l' =>
      match f a s with
      | Next s' => loop_pure l' s' f
      | Break s' => s'
      end
  end.

(** The scan of argMin ([lt] is [<]) and argMax ([lt] is [>]) over the
    [reduceSize] elements from [offset]: the extremum and its index. *)
Definition argScan (lt : number -> number -> bool) (xv : list number)
    (offset reduceSize : Z) : number * Z :=
  loop_pure (range 0 reduceSize) (at_index xv offset, 0)
    (fun j st =>
       let value := at_index xv (offset + j) in
       if isNaN value then Break (st.1, NAN_INT32)
       else if lt value st.1 then Next (value, j)
       else Next st).

(** What holds of the local variables [st = (extremum, index)] of that
    scan once the first [k] elements [wf 0 .. wf (k-1)] were read without
    meeting a NaN. *)
Definition scanInv (lt : number -> number -> bool) (wf : Z -> number)
    (k : Z) (st : number * Z) : Prop :=
  (forall j, 0 <= j < k -> isNaN (wf j) = false)
  /\ st.1 = wf st.2
  /\ 0 <= st.2 /\ (st.2 < k \/ (k = 0 /\ st.2 = 0))
  /\ (forall j, 0 <= j < k -> lt (wf j) st.1 = false)
  /\ (forall j, 0 <= j < st.2 -> lt st.1 (wf j) = true).

(** ** Example inputs *)

(** An environment in which the kernels can be run: the examples use none
    of its transcendental functions; its generator counts. *)
Definition exampleRuntime : Runtime := {|
  Math_exp := id; Math_log := id; Math_sqrt := id;
  Math_sin := id; Math_cos := id; Math_tan := id;
  Math_asin := id; Math_acos := id; Math_atan := id;
  Math_sinh := id; Math_cosh := id; util_tanh := id;
  concat_computeOutShape := fun a _ _ => Some a;
  generator := Z;
  seedrandom_alea := fun _ => 0;
  random := fun g => (Fin (1 # Pos.of_nat (Z.to_nat g + 2)), g + 1)
|}.

(** The tensor [[3, 1, 2], [5, NaN, 7]] as the third typed array. *)
Definition exReduceBuf : list number :=
  [num 3; num 1; num 2; num 5; NaN; num 7].
Definition exReduceHeap : list (list number) := heap0 ++ [exReduceBuf].
Definition exReduceX : NDArray := mkNDArray [2; 3] float32 2%nat.

(** The tensor [[1, 2], [3, 4]]. *)
Definition exMinBuf : list number := [num 1; num 2; num 3; num 4].
Definition exMinHeap : list (list number) := heap0 ++ [exMinBuf].
Definition exMinX : NDArray := mkNDArray [2; 2] float32 2%nat.

(** ** Convolution as the specification words it *)

(** The element of the rank-4 tensor with elements [xv] and shape [s] at a
    location. *)
Definition elementAt (s : list Z) (xv : list number) (loc : list Z) : number :=
  at_index xv (locToIndex s loc).

(** The output of conv2d at [(b, yR, yC, d2)]: the sum of
    [x[b,xR,xC,d1] * filter[wR,wC,d1,d2]] over the input channels and
    over the window whose row corner is [strideHeight * yR - padTop] and
    whose column corner is [strideWidth * yC - padLeft], clipped to
    [[0, inHeight)] and [[0, inWidth)], plus the bias. *)
Definition conv2dSpec (xv fv : list number) (bias : option (list number))
    (ci : Conv2DInfo) (b yR yC d2 : Z) : number :=
  let xRCorner := strideHeight ci * yR - pad_top (padInfo ci) in
  let xCCorner := strideWidth ci * yC - pad_left (padInfo ci) in
  let rows := range (Z.max 0 xRCorner)
                    (Z.min (inHeight ci) (filterHeight ci + xRCorner)) in
  let cols := range (Z.max 0 xCCorner)
                    (Z.min (inWidth ci) (filterWidth ci + xCCorner)) in
  let terms :=
    xR ← rows; xC ← cols; d1 ← range 0 (inChannels ci);
    [nmul (elementAt (inShape ci) xv [b; xR; xC; d1])
          (elementAt (filterShape ci) fv
             [xR - xRCorner; xC - xCCorner; d1; d2])] in
  nadd (fold_left nadd terms (num 0))
       (match bias with Some bv => at_index bv d2 | None => num 0 end).

(** A 3x1 image convolved with a 3x1 filter under [same] padding: one
    row of padding above and below, none left or right. *)
Definition exConvInfo : Conv2DInfo := {|
  batchSize := 1; inHeight := 3; inWidth := 1; inChannels := 1;
  outHeight := 3; outWidth := 1; outChannels := 1;
  strideHeight := 1; strideWidth := 1;
  filterHeight := 3; filterWidth := 1;
  padInfo := {| pad_top := 1; pad_left := 0; pad_bottom := 1; pad_right := 0 |};
  inShape := [1; 3; 1; 1];
  outShape := [1; 3; 1; 1];
  filterShape := [3; 1; 1; 1]
|}.
Definition exConvXBuf : list number := [num 1; num 2; num 3].
Definition exConvFBuf : list number := [num 10; num 20; num 30].
Definition exConvHeap : list (list number) := heap0 ++ [exConvXBuf; exConvFBuf].
Definition exConvX : NDArray := mkNDArray [1; 3; 1; 1] float32 2%nat.
Definition exConvFilter : NDArray := mkNDArray [3; 1; 1; 1] float32 3%nat.

(** ** Top-k *)

(** The pairs that topK builds: every element with its linear index. *)
Definition pairsOf (xv : list number) : list ValueAndIndex :=
  (fun i => mkValueAndIndex (at_index xv i) i)
    <$> range 0 (Z.of_nat (length xv)).

(** The comparator that topK passes to the sort. *)
Definition byValueDescending (a b : ValueAndIndex) : number :=
  nsub (value b) (value a).

(** [p] comes before [q] in descending order of value, ties broken by the
    original index. *)
Definition before (p q : ValueAndIndex) : Prop :=
  nlt (value q) (value p) = true
  \/ (neqb (value p) (value q) = true /\ index p < index q).

(** The tensor [5, 1, 4, 2, 3] and the tensor [1, NaN, 2]. *)
Definition exTopBuf : list number := [num 5; num 1; num 4; num 2; num 3].
Definition exTopHeap : list (list number) := heap0 ++ [exTopBuf].
Definition exTopX : NDArray := mkNDArray [5] float32 2%nat.

Definition exTopNaNBuf : list number := [num 1; NaN; num 2].
Definition exTopNaNHeap : list (list number) := heap0 ++ [exTopNaNBuf].
Definition exTopNaNX : NDArray := mkNDArray [3] float32 2%nat.

(** ** Broadcast binary kernels *)

(** The linear index at which [broadcastedBinaryOp] reads an operand of
    shape [s] for the output index [i] of a result of shape [newShape]. *)
Definition operandIndex (s newShape : list Z) (i : Z) : Z :=
  locToIndex s
    (MathBackendCPU.zeroDims (getBroadcastDims s newShape)
       (MathBackendCPU.lastDims (Z.of_nat (length s))
          (indexToLoc newShape i))).

(** The two shapes are broadcast-compatible, with result [s]. *)
Definition broadcastsTo (sa sb s : list Z) : Prop :=
  broadcastRev (reverse sa) (reverse sb) = Some (reverse s).

(** The tensors [[1, 2], [3, 4]] and [10, 20]. *)
Definition exAddA : NDArray := mkNDArray [2; 2] float32 2%nat.
Definition exAddB : NDArray := mkNDArray [2] float32 3%nat.
Definition exAddABuf : list number := [num 1; num 2; num 3; num 4].
Definition exAddBBuf : list number := [num 10; num 20].
Definition exAddHeap : list (list number) := heap0 ++ [exAddABuf; exAddBBuf].

(** ** Multinomial sampling *)





(** Three rows of probabilities over three events; the first and the
    third are equal. *)
Definition exProbsBuf : list number :=
  [Fin (1 # 4); Fin (1 # 4); Fin (1 # 2);
   Fin (1 # 2); Fin (1 # 2); num 0;
   Fin (1 # 4); Fin (1 # 4); Fin (1 # 2)].
Definition exProbsHeap : list (list number) := heap0 ++ [exProbsBuf].
Definition exProbs : NDArray := mkNDArray [3; 3] float32 2%nat.

(** ** Max pooling and its gradient *)

(** The geometry of a pooling: the shapes are those of the descriptor, the
    channels are kept, strides and filter are positive. *)
Record poolGeometry (ci : Conv2DInfo) : Prop := {
  pg_inShape :
    inShape ci = [batchSize ci; inHeight ci; inWidth ci; inChannels ci];
  pg_outShape :
    outShape ci = [batchSize ci; outHeight ci; outWidth ci; inChannels ci];
  pg_strideHeight : 0 < strideHeight ci;
  pg_strideWidth : 0 < strideWidth ci;
  pg_filterHeight : 0 < filterHeight ci;
  pg_filterWidth : 0 < filterWidth ci
}.

(** The clipped window of the output position [(yR, yC)]: its input
    positions, row by row. *)
Definition poolRows (ci : Conv2DInfo) (yR : Z) : list Z :=
  let xRCorner := yR * strideHeight ci - pad_top (padInfo ci) in
  range (Z.max 0 xRCorner) (Z.min (inHeight ci) (filterHeight ci + xRCorner)).

Definition poolCols (ci : Conv2DInfo) (yC : Z) : list Z :=
  let xCCorner := yC * strideWidth ci - pad_left (padInfo ci) in
  range (Z.max 0 xCCorner) (Z.min (inWidth ci) (filterWidth ci + xCCorner)).

Definition poolWindow (ci : Conv2DInfo) (yR yC : Z) : list (Z * Z) :=
  xR ← poolRows ci yR; xC ← poolCols ci yC; [(xR, xC)].

(** The input element of batch [b] and channel [d] at a position. *)
Definition pixelAt (xv : list number) (ci : Conv2DInfo) (b d : Z) (t : Z * Z)
  : number :=
  elementAt (inShape ci) xv [b; t.1; t.2; d].

(** [t] holds the unique maximum of the window [w]: every other element
    of the window is below it. *)
Definition isStrictMax (xv : list number) (ci : Conv2DInfo) (b d : Z)
    (w : list (Z * Z)) (t : Z * Z) : bool :=
  forallb (fun t' => bool_decide (t' = t)
                     || nlt (pixelAt xv ci b d t') (pixelAt xv ci b d t)) w.

(** The position of the unique maximum of a window, if it has one. *)
Definition argMaxOf (xv : list number) (ci : Conv2DInfo) (b yR yC d : Z)
  : option (Z * Z) :=
  find (isStrictMax xv ci b d (poolWindow ci yR yC)) (poolWindow ci yR yC).

(** Every pooling window of the input has a unique maximum. *)
Definition uniqueMaxima (xv : list number) (ci : Conv2DInfo) : bool :=
  forallb (fun b =>
    forallb (fun yR =>
      forallb (fun yC =>
        forallb (fun d => bool_decide (is_Some (argMaxOf xv ci b yR yC d)))
                (range 0 (inChannels ci)))
              (range 0 (outWidth ci)))
            (range 0 (outHeight ci)))
          (range 0 (batchSize ci)).

(** The output positions whose window has its maximum at the input
    position [(r, c)], a maximum above [-Infinity], in row-major order. *)
Definition windowsWithMaxAt (xv : list number) (ci : Conv2DInfo)
    (b r c d : Z) : list (Z * Z) :=
  filter (fun y => argMaxOf xv ci b y.1 y.2 d = Some (r, c)
                   /\ nlt NInf (pixelAt xv ci b d (r, c)) = true)
         (yR ← range 0 (outHeight ci); yC ← range 0 (outWidth ci); [(yR, yC)]).

(** The sum of numbers as the language accumulates it from zero: in
    double precision, one term after the other. *)
Definition sumDouble (l : list number) : number :=
  fold_left (fun acc v => roundDouble (nadd acc v)) l (num 0).

(** The gradient that reaches the input position [(b, r, c, d)]: the sum of
    the elements of [dy] of those output positions, accumulated in double
    precision and rounded to binary32 when it is stored. *)
Definition gradientAt (dyv xv : list number) (ci : Conv2DInfo) (b r c d : Z)
  : number :=
  Math_fround
    (sumDouble ((fun y => elementAt (outShape ci) dyv [b; y.1; y.2; d])
                  <$> windowsWithMaxAt xv ci b r c d)).

(** A binary32 number, as every element of a [Float32Array]: the rounding
    to binary32 keeps it. *)
Definition float32Value (v : number) : Prop := Math_fround v = v.

(** A number in lowest terms, as every number that a kernel computes. *)
Definition canonical (a : number) : Prop :=
  match a with
  | Fin q => Qred q = q
  | _ => True
  end.

(** A row [1, 3, 2] pooled by a 1x2 filter with stride 1: the two windows
    overlap and both have their maximum at the middle element. *)
Definition exPoolInfo : Conv2DInfo := {|
  batchSize := 1; inHeight := 1; inWidth := 3; inChannels := 1;
  outHeight := 1; outWidth := 2; outChannels := 1;
  strideHeight := 1; strideWidth := 1;
  filterHeight := 1; filterWidth := 2;
  padInfo := {| pad_top := 0; pad_left := 0; pad_bottom := 0; pad_right := 0 |};
  inShape := [1; 1; 3; 1];
  outShape := [1; 1; 2; 1];
  filterShape := [1; 2; 1; 1]
|}.
Definition exPoolXBuf : list number := [num 1; num 3; num 2].
Definition exPoolDyBuf : list number := [num 10; num 20].
Definition exPoolHeap : list (list number) := heap0 ++ [exPoolXBuf; exPoolDyBuf].
Definition exPoolX : NDArray := mkNDArray [1; 1; 3; 1] float32 2%nat.
Definition exPoolDy : NDArray := mkNDArray [1; 1; 2; 1] float32 3%nat.

(** A gradient for the same pooling whose two elements have a sum,
    16777217, that is no binary32 number. *)
Definition exRoundDyBuf : list number := [num 16777216; num 1].
Definition exRoundHeap : list (list number) :=
  heap0 ++ [exPoolXBuf; exRoundDyBuf].

(** A single element [-Infinity] pooled by a 1x1 filter: the one window
    has a unique maximum, which is not above [-Infinity]. *)
Definition exInfPoolInfo : Conv2DInfo := {|
  batchSize := 1; inHeight := 1; inWidth := 1; inChannels := 1;
  outHeight := 1; outWidth := 1; outChannels := 1;
  strideHeight := 1; strideWidth := 1;
  filterHeight := 1; filterWidth := 1;
  padInfo := {| pad_top := 0; pad_left := 0; pad_bottom := 0; pad_right := 0 |};
  inShape := [1; 1; 1; 1];
  outShape := [1; 1; 1; 1];
  filterShape := [1; 1; 1; 1]
|}.
Definition exInfPoolXBuf : list number := [NInf].
Definition exInfPoolDyBuf : list number := [num 5].
Definition exInfPoolHeap : list (list number) :=
  heap0 ++ [exInfPoolXBuf; exInfPoolDyBuf].
Definition exInfPoolX : NDArray := mkNDArray [1; 1; 1; 1] float32 2%nat.
Definition exInfPoolDy : NDArray := mkNDArray [1; 1; 1; 1] float32 3%nat.

(** ** What the loops of the pooling kernels compute *)

(** The index tuples that four nested loops run through. *)
Definition tuples4 (r1 r2 r3 r4 : list Z) : list (Z * Z * Z * Z) :=
  a ← r1; b ← r2; c ← r3; d ← r4; [(a, b, c, d)].

(** The buffer after the writes of the values [f t] at the places
    [idx t]. *)
Definition scatter {T} (idx : T -> nat) (f : T -> number) (l : list T)
    (buf : list number) : list number :=
  fold_left (fun buf t => <[idx t := f t]> buf) l buf.

(** The scan of maxPoolPositions over the window of [(yR, yC)]: the
    running maximum and its offset in the filter. *)
Definition maxScan (xv : list number) (ci : Conv2DInfo) (b d yR yC : Z)
  : number * Z :=
  let xRCorner := yR * strideHeight ci - pad_top (padInfo ci) in
  let xCCorner := yC * strideWidth ci - pad_left (padInfo ci) in
  fold_left
    (fun st xR =>
       fold_left
         (fun st xC =>
            let pixel := pixelAt xv ci b d (xR, xC) in
            if ngt pixel st.1
            then (pixel, (xR - xRCorner) * filterWidth ci + (xC - xCCorner))
            else st)
         (poolCols ci yC) st)
    (poolRows ci yR) (NInf, -1).

(** The sum that maxPoolBackprop accumulates for the input position
    [(dxR, dxC)], given the buffer [mp] of max positions. *)
Definition dotProdOf (mp dyv : list number) (ci : Conv2DInfo)
    (b d dxR dxC : Z) : number :=
  let padLeft := filterWidth ci - 1 - pad_left (padInfo ci) in
  let padTop := filterHeight ci - 1 - pad_top (padInfo ci) in
  let dyRCorner := dxR - padTop in
  let dyCCorner := dxC - padLeft in
  fold_left
    (fun dotProd wR =>
       let dyR := quot (dyRCorner + wR) (strideHeight ci) in
       if negb (Qle_bool 0 dyR) || Qle_bool (inject_Z (outHeight ci)) dyR
          || negb (Qeq_bool (inject_Z (Qfloor dyR)) dyR)
       then dotProd
       else
         fold_left
           (fun dotProd wC =>
              let dyC := quot (dyCCorner + wC) (strideWidth ci) in
              if negb (Qle_bool 0 dyC)
                 || Qle_bool (inject_Z (outWidth ci)) dyC
                 || negb (Qeq_bool (inject_Z (Qfloor dyC)) dyC)
              then dotProd
              else
                let m := elementAt (outShape ci) mp
                           [b; Qfloor dyR; Qfloor dyC; d] in
                let maxPos :=
                  nsub (num (filterHeight ci * filterWidth ci - 1)) m in
                let curPos := wR * filterWidth ci + wC in
                if neqb maxPos (num curPos)
                then roundDouble
                       (nadd dotProd
                          (roundDouble
                             (nmul (elementAt (outShape ci) dyv
                                      [b; Qfloor dyR; Qfloor dyC; d])
                                   (num 1))))
                else dotProd)
           (range 0 (filterWidth ci)) dotProd)
    (range 0 (filterHeight ci)) (num 0).

(** Along one axis, with stride [s], filter size [f], padding [p] and [o]
    output positions: the output positions whose footprint holds the input
    coordinate [x], as maxPoolBackprop finds them from the filter offsets
    ([gatherW]) and as the footprints define them ([gatherY]). *)
Definition gatherAt (s f p o x w : Z) : option Z :=
  let n := x - (f - 1 - p) + w in
  if (0 <=? n) && (n <? o * s) && (n mod s =? 0) then Some (n / s) else None.

Definition gatherW (s f p o x : Z) : list Z :=
  omap (gatherAt s f p o x) (range 0 f).

Definition gatherY (s f p o x : Z) : list Z :=
  filter (fun y => y * s - p <= x < y * s - p + f) (range 0 o).

(** ** The frame of a kernel *)

(** [frames n0 n1 m P]: run on a heap that holds at least [n1] typed
    arrays, [m] only allocates and leaves the first [n0] arrays as they
    were, whether it returns or throws; a returned value satisfies [P]
    together with the number of typed arrays of the final heap. *)
Definition frames {A} (n0 n1 : nat) (m : M A) (P : A -> nat -> Prop) : Prop :=
  forall h : list (list number),
    (n1 <= length h)%nat ->
    (length h <= length (m h).2)%nat
    /\ (forall r, (r < n0)%nat -> (m h).2 !! r = h !! r)
    /\ (forall a, (m h).1 = Ok a -> P a (length (m h).2)).

(** A tensor whose typed array was allocated after the first [n0] ones. *)
Definition fresh (n0 : nat) (res : NDArray) (n : nat) : Prop :=
  (n0 <= data res < n)%nat.

(** A call of one method of the [MathBackend] interface with its
    arguments. *)
Inductive call : Type :=
| call_matMul (a b : NDArray) (aOrientation bOrientation : MatrixOrientation)
| call_clone (x : NDArray)
| call_slice1D (x : NDArray) (begin size : Z)
| call_slice2D (x : NDArray) (begin size : Z * Z)
| call_slice3D (x : NDArray) (begin size : Z * Z * Z)
| call_slice4D (x : NDArray) (begin size : Z * Z * Z * Z)
| call_concat1D (a b : NDArray)
| call_concat2D (a b : NDArray) (axis : Z)
| call_concat3D (a b : NDArray) (axis : Z)
| call_concat4D (a b : NDArray) (axis : Z)
| call_neg (x : NDArray)
| call_add (a b : NDArray)
| call_subtract (a b : NDArray)
| call_multiply (a b : NDArray)
| call_divide (a b : NDArray)
| call_sum (x : NDArray) (axes : list Z)
| call_argMin (x : NDArray) (axes : list Z)
| call_argMax (x : NDArray) (axes : list Z)
| call_equal (a b : NDArray)
| call_topKValues (x : NDArray) (k : Z)
| call_topKIndices (x : NDArray) (k : Z)
| call_min (x : NDArray) (axes : list Z)
| call_max (x : NDArray) (axes : list Z)
| call_ceil (x : NDArray)
| call_floor (x : NDArray)
| call_exp (x : NDArray)
| call_log (x : NDArray)
| call_sqrt (x : NDArray)
| call_square (x : NDArray)
| call_relu (x : NDArray)
| call_elu (x : NDArray)
| call_eluDer (x : NDArray)
| call_selu (x : NDArray)
| call_leakyRelu (x : NDArray) (alpha : number)
| call_clip (x : NDArray) (min max : number)
| call_abs (x : NDArray)
| call_sigmoid (x : NDArray)
| call_sin (x : NDArray)
| call_cos (x : NDArray)
| call_tan (x : NDArray)
| call_asin (x : NDArray)
| call_acos (x : NDArray)
| call_atan (x : NDArray)
| call_sinh (x : NDArray)
| call_cosh (x : NDArray)
| call_tanh (x : NDArray)
| call_step (x : NDArray) (alpha : number)
| call_conv2d (x filter : NDArray) (bias : option NDArray) (convInfo : Conv2DInfo)
| call_conv2dDerInput (dy filter : NDArray) (convInfo : Conv2DInfo)
| call_conv2dDerFilter (x dy : NDArray) (convInfo : Conv2DInfo)
| call_conv2dDerBias (dy : NDArray)
| call_depthwiseConv2D (x filter : NDArray) (convInfo : Conv2DInfo)
| call_maxPool (x : NDArray) (convInfo : Conv2DInfo)
| call_maxPoolBackprop (dy x : NDArray) (convInfo : Conv2DInfo)
| call_minPool (x : NDArray) (convInfo : Conv2DInfo)
| call_avgPool (x : NDArray) (convInfo : Conv2DInfo)
| call_tile (x : NDArray) (reps : list Z)
| call_transpose (x : NDArray) (perm : list Z)
| call_resizeBilinear3D (x : NDArray) (newShape2D : Z * Z) (alignCorners : bool)
| call_batchNormalization2D (x mean variance : NDArray)
    (varianceEpsilon : number) (scale offset : option NDArray)
| call_batchNormalization3D (x mean variance : NDArray)
    (varianceEpsilon : number) (scale offset : option NDArray)
| call_multinomial (probabilities : NDArray) (numSamples : Z) (seed : number)
| call_oneHot (indices : NDArray) (depth : Z) (onValue offValue : number).

(** The tensor operands of a call. *)
Definition operands (c : call) : list NDArray :=
  match c with
  | call_matMul a b _ _ | call_concat1D a b | call_concat2D a b _
  | call_concat3D a b _ | call_concat4D a b _ | call_add a b
  | call_subtract a b | call_multiply a b | call_divide a b
  | call_equal a b => [a; b]
  | call_clone x | call_slice1D x _ _ | call_slice2D x _ _
  | call_slice3D x _ _ | call_slice4D x _ _ | call_neg x | call_sum x _
  | call_argMin x _ | call_argMax x _ | call_topKValues x _
  | call_topKIndices x _ | call_min x _ | call_max x _ | call_ceil x
  | call_floor x | call_exp x | call_log x | call_sqrt x | call_square x
  | call_relu x | call_elu x | call_eluDer x | call_selu x
  | call_leakyRelu x _ | call_clip x _ _ | call_abs x | call_sigmoid x
  | call_sin x | call_cos x | call_tan x | call_asin x | call_acos x
  | call_atan x | call_sinh x | call_cosh x | call_tanh x | call_step x _
  | call_conv2dDerBias x | call_maxPool x _ | call_minPool x _
  | call_avgPool x _ | call_tile x _ | call_transpose x _
  | call_resizeBilinear3D x _ _ | call_multinomial x _ _
  | call_oneHot x _ _ _ => [x]
  | call_conv2d x filter bias _ => x :: filter :: option_list bias
  | call_conv2dDerInput a b _ | call_conv2dDerFilter a b _
  | call_depthwiseConv2D a b _ | call_maxPoolBackprop a b _ => [a; b]
  | call_batchNormalization2D x mean variance _ scale offset
  | call_batchNormalization3D x mean variance _ scale offset =>
      x :: mean :: variance :: option_list scale ++ option_list offset
  end.

(** The method of [MathBackendCPU] that a call runs. *)
Definition run `{Runtime} (c : call) : M NDArray :=
  match c with
  | call_matMul a b ao bo => MathBackendCPU.matMul a b ao bo
  | call_clone x => MathBackendCPU.clone x
  | call_slice1D x b s => MathBackendCPU.slice1D x b s
  | call_slice2D x b s => MathBackendCPU.slice2D x b s
  | call_slice3D x b s => MathBackendCPU.slice3D x b s
  | call_slice4D x b s => MathBackendCPU.slice4D x b s
  | call_concat1D a b => MathBackendCPU.concat1D a b
  | call_concat2D a b axis => MathBackendCPU.concat2D a b axis
  | call_concat3D a b axis => MathBackendCPU.concat3D a b axis
  | call_concat4D a b axis => MathBackendCPU.concat4D a b axis
  | call_neg x => MathBackendCPU.neg x
  | call_add a b => MathBackendCPU.add a b
  | call_subtract a b => MathBackendCPU.subtract a b
  | call_multiply a b => MathBackendCPU.multiply a b
  | call_divide a b => MathBackendCPU.divide a b
  | call_sum x axes => MathBackendCPU.sum x axes
  | call_argMin x axes => MathBackendCPU.argMin x axes
  | call_argMax x axes => MathBackendCPU.argMax x axes
  | call_equal a b => MathBackendCPU.equal a b
  | call_topKValues x k => MathBackendCPU.topKValues x k
  | call_topKIndices x k => MathBackendCPU.topKIndices x k
  | call_min x axes => MathBackendCPU.min x axes
  | call_max x axes => MathBackendCPU.max x axes
  | call_ceil x => MathBackendCPU.ceil x
  | call_floor x => MathBackendCPU.floor x
  | call_exp x => MathBackendCPU.exp x
  | call_log x => MathBackendCPU.log x
  | call_sqrt x => MathBackendCPU.sqrt x
  | call_square x => MathBackendCPU.square x
  | call_relu x => MathBackendCPU.relu x
  | call_elu x => MathBackendCPU.elu x
  | call_eluDer x => MathBackendCPU.eluDer x
  | call_selu x => MathBackendCPU.selu x
  | call_leakyRelu x alpha => MathBackendCPU.leakyRelu x alpha
  | call_clip x lo hi => MathBackendCPU.clip x lo hi
  | call_abs x => MathBackendCPU.abs x
  | call_sigmoid x => MathBackendCPU.sigmoid x
  | call_sin x => MathBackendCPU.sin x
  | call_cos x => MathBackendCPU.cos x
  | call_tan x => MathBackendCPU.tan x
  | call_asin x => MathBackendCPU.asin x
  | call_acos x => MathBackendCPU.acos x
  | call_atan x => MathBackendCPU.atan x
  | call_sinh x => MathBackendCPU.sinh x
  | call_cosh x => MathBackendCPU.cosh x
  | call_tanh x => MathBackendCPU.tanh x
  | call_step x alpha => MathBackendCPU.step x alpha
  | call_conv2d x filter bias ci => MathBackendCPU.conv2d x filter bias ci
  | call_conv2dDerInput dy filter ci => MathBackendCPU.conv2dDerInput dy filter ci
  | call_conv2dDerFilter x dy ci => MathBackendCPU.conv2dDerFilter x dy ci
  | call_conv2dDerBias dy => MathBackendCPU.conv2dDerBias dy
  | call_depthwiseConv2D x filter ci => MathBackendCPU.depthwiseConv2D x filter ci
  | call_maxPool x ci => MathBackendCPU.maxPool x ci
  | call_maxPoolBackprop dy x ci => MathBackendCPU.maxPoolBackprop dy x ci
  | call_minPool x ci => MathBackendCPU.minPool x ci
  | call_avgPool x ci => MathBackendCPU.avgPool x ci
  | call_tile x reps => MathBackendCPU.tile x reps
  | call_transpose x perm => MathBackendCPU.transpose x perm
  | call_resizeBilinear3D x s ac => MathBackendCPU.resizeBilinear3D x s ac
  | call_batchNormalization2D x mean variance eps scale offset =>
      MathBackendCPU.batchNormalization2D x mean variance eps scale offset
  | call_batchNormalization3D x mean variance eps scale offset =>
      MathBackendCPU.batchNormalization3D x mean variance eps scale offset
  | call_multinomial p n seed => MathBackendCPU.multinomial p n seed
  | call_oneHot indices depth onValue offValue =>
      MathBackendCPU.oneHot indices depth onValue offValue
  end.

(** * Further vocabulary: the kernels beside the specified ones *)

(** ** Reductions *)

(** The scan of min ([lt] is [<]) and max ([lt] is [>]): the running
    extremum starts from the element at [start] and visits the
    [reduceSize] elements from [offset]; a NaN ends the scan. *)
Definition extremumScan (lt : number -> number -> bool) (xv : list number)
    (start offset reduceSize : Z) : number :=
  loop_pure (range 0 reduceSize) (at_index xv start)
    (fun j m =>
       let value := at_index xv (offset + j) in
       if isNaN value then Break NaN
       else if lt value m then Next value
       else Next m).

(** [v] is an element of [w] that no element of [w] is beyond: the
    minimum for [<], the maximum for [>]. *)
Definition extremumOf (lt : number -> number -> bool) (w : list number)
    (v : number) : Prop :=
  v ∈ w /\ forall v', v' ∈ w -> lt v' v = false.

(** ** Concatenation *)

(** The shape of a concatenation along [axis]: the shape of the first
    operand with the two sizes added along the axis. *)
Definition concatShape (aShape bShape : list Z) (axis : Z)
  : option (list Z) :=
  match lookupZ aShape axis, lookupZ bShape axis with
  | Some da, Some db => Some (insertZ axis (da + db) aShape)
  | _, _ => None
  end.

(** An environment for the examples of concatenation: that of the other
    examples, with a [computeOutShape] that gives [concatShape]. *)
Definition exampleConcatRuntime : Runtime := {|
  Math_exp := id; Math_log := id; Math_sqrt := id;
  Math_sin := id; Math_cos := id; Math_tan := id;
  Math_asin := id; Math_acos := id; Math_atan := id;
  Math_sinh := id; Math_cosh := id; util_tanh := id;
  concat_computeOutShape := concatShape;
  generator := Z;
  seedrandom_alea := fun _ => 0;
  random := fun g => (Fin (1 # Pos.of_nat (Z.to_nat g + 2)), g + 1)
|}.

(** ** Locations and permutations of the axes *)

(** [loc] is a location of a tensor of shape [s]. *)
Definition inBounds (s loc : list Z) : Prop :=
  Forall2 (fun d i => 0 <= i < d) s loc.

(** The list whose [i]-th component is the component [perm[i]] of [l]:
    the shape and the locations of a transposed tensor. *)
Definition permuteBy (perm l : list Z) : list Z :=
  (fun p => default 0 (lookupZ l p)) <$> perm.

(** ** Examples *)

(** The indices [1, 0] as a rank-1 tensor. *)
Definition exOneHotBuf : list number := [num 1; num 0].
Definition exOneHotHeap : list (list number) := heap0 ++ [exOneHotBuf].
Definition exOneHotIndices : NDArray := mkNDArray [2] float32 2%nat.

(** ** Pooling *)

(** The scan of pool over the clipped window of the output position
    [(yR, yC)]: the running extremum and the running average; a NaN ends
    the scan with both set to NaN. *)
Definition poolScan (xv : list number) (ci : Conv2DInfo) (poolType : PoolType)
    (b d yR yC : Z) : number * number :=
  loop_pure (poolRows ci yR)
    (match poolType with pool_max => NInf | _ => PInf end, num 0)
    (fun xR st =>
       let st' :=
         loop_pure (poolCols ci yC) st
           (fun xC st =>
              let pixel := pixelAt xv ci b d (xR, xC) in
              if isNaN pixel then Break (NaN, NaN)
              else if match poolType with
                      | pool_max => ngt pixel st.1
                      | pool_min => nlt pixel st.1
                      | pool_avg => false
                      end
              then Next (pixel, st.2)
              else match poolType with
                   | pool_avg =>
                       Next (st.1,
                             nadd st.2
                               (ndiv pixel
                                  (num (filterHeight ci * filterWidth ci))))
                   | _ => Next st
                   end) in
       if isNaN st'.1 then Break st' else Next st').

(** The elements of the clipped window of an output position, row by
    row. *)
Definition windowPixels (xv : list number) (ci : Conv2DInfo) (b d yR yC : Z)
  : list number :=
  pixelAt xv ci b d <$> poolWindow ci yR yC.

(** ** Resizing *)

(** A finite binary32 number: neither NaN nor an infinity. *)
Definition finiteFloat32 (v : number) : Prop :=
  float32Value v /\ match v with Fin _ => True | _ => False end.

(** A number that stands for the integer [z]. *)
Definition isInt (v : number) (z : Z) : Prop :=
  exists q, v = Fin q /\ (q == inject_Z z)%Q.

(** The image [[1, 2], [3, 4]] with one channel. *)
Definition exResizeX : NDArray := mkNDArray [2; 2; 1] float32 2%nat.

(** A loop or a computation that only reads: it returns a value and
    leaves the heap as it was. *)
Definition reads {A} (m : M A) (h : heap) (a : A) : Prop := m h = (Ok a, h).

(** * Proofs *)

(** * Reasoning about kernels *)

(** ** Ranges *)

Lemma range_nil lo hi : hi <= lo -> range lo hi = [].
Proof. intros. unfold range. apply seqZ_nil. lia. Qed.

Lemma range_cons lo hi : lo < hi -> range lo hi = lo :: range (lo + 1) hi.
Proof.
  intros. unfold range. rewrite seqZ_cons by lia.
  f_equal. f_equal; lia.
Qed.

Lemma range_snoc lo hi : lo <= hi -> range lo (hi + 1) = range lo hi ++ [hi].
Proof.
  intros. unfold range.
  replace (hi + 1 - lo) with ((hi - lo) + 1) by lia.
  rewrite seqZ_app by lia. f_equal.
  rewrite seqZ_cons by lia. rewrite seqZ_nil by lia. f_equal. lia.
Qed.

Lemma range_app lo mid hi :
  lo <= mid <= hi -> range lo hi = range lo mid ++ range mid hi.
Proof.
  intros. unfold range.
  replace (hi - lo) with ((mid - lo) + (hi - mid)) by lia.
  rewrite seqZ_app by lia. do 2 f_equal. lia.
Qed.

Lemma elem_of_range lo hi k : k ∈ range lo hi <-> lo <= k < hi.
Proof. unfold range. rewrite elem_of_seqZ. lia. Qed.

Lemma length_range lo hi : length (range lo hi) = Z.to_nat (hi - lo).
Proof. apply length_seqZ. Qed.

Lemma NoDup_range lo hi : NoDup (range lo hi).
Proof. apply NoDup_seqZ. Qed.

Lemma lookup_range lo hi (i : nat) :
  lo + Z.of_nat i < hi -> range lo hi !! i = Some (lo + Z.of_nat i).
Proof. intros. unfold range. apply lookup_seqZ_lt. lia. Qed.

(** ** The monad *)

Lemma bind_ok {A B} (m : M A) (k : A -> M B) h a h' :
  m h = (Ok a, h') -> bind m k h = k a h'.
Proof. intros E. unfold bind. now rewrite E. Qed.


Lemma bind_ret {A B} (a : A) (k : A -> M B) h : bind (ret a) k h = k a h.
Proof. reflexivity. Qed.

Lemma for_app {A} (l1 l2 : list A) body h :
  for_ (l1 ++ l2) body h = (for_ l1 body ;;; for_ l2 body) h.
Proof.
  revert h. induction l1 as [|a l1 IH]; intros h; simpl.
  - reflexivity.
  - unfold bind in *. destruct (body a h) as [[[]|e] h1]; [|reflexivity].
    apply IH.
Qed.

Lemma reads_ret {A} (a : A) h : reads (ret a) h a.
Proof. reflexivity. Qed.

Lemma reads_bind {A B} (m : M A) (k : A -> M B) h a b :
  reads m h a -> reads (k a) h b -> reads (bind m k) h b.
Proof. unfold reads. intros E1 E2. now rewrite (bind_ok _ _ _ _ _ E1). Qed.

Lemma reads_load r i h : reads (load r i) h (at_index (buffer h r) i).
Proof. reflexivity. Qed.

Lemma reads_lengthOf r h : reads (lengthOf r) h (Z.of_nat (length (buffer h r))).
Proof. reflexivity. Qed.

Lemma reads_get x loc h :
  reads (get x loc) h (at_index (buffer h (data x)) (locToIndex (shape x) loc)).
Proof. reflexivity. Qed.

Lemma reads_fold_for {A S} (l : list A) (body : A -> S -> M S)
    (f : S -> A -> S) h :
  (forall a s, a ∈ l -> reads (body a s) h (f s a)) ->
  forall s, reads (fold_for l s body) h (fold_left f l s).
Proof.
  induction l as [|a l IH]; intros Hb s; simpl.
  - reflexivity.
  - eapply reads_bind.
    + apply Hb. left.
    + apply IH. intros. apply Hb. now right.
Qed.

Lemma reads_loop {A S} (l : list A) (body : A -> S -> M (ctl S))
    (f : A -> S -> ctl S) h :
  (forall a s, a ∈ l -> reads (body a s) h (f a s)) ->
  forall s, reads (loop l s body) h (loop_pure l s f).
Proof.
  induction l as [|a l IH]; intros Hb s; simpl.
  - reflexivity.
  - eapply reads_bind.
    + apply Hb. left.
    + destruct (f a s).
      * apply IH. intros. apply Hb. now right.
      * reflexivity.
Qed.

(** ** A heap with the output buffer on top *)

Lemma buffer_app_l (h : heap) buf (r : ref) :
  (r < length h)%nat -> buffer (h ++ [buf]) r = buffer h r.
Proof. intros. unfold buffer. now rewrite lookup_app_l. Qed.

Lemma buffer_app_top (h : heap) buf : buffer (h ++ [buf]) (length h) = buf.
Proof.
  unfold buffer. rewrite lookup_app_r by lia.
  now rewrite Nat.sub_diag.
Qed.

Lemma store_top (h : heap) buf i v :
  0 <= i ->
  store (length h) i v (h ++ [buf]) = (Ok tt, h ++ [<[Z.to_nat i := v]> buf]).
Proof.
  intros. unfold store.
  destruct (i <? 0) eqn:E; [lia|].
  f_equal. replace (length h) with (length h + 0)%nat at 1 by lia.
  now rewrite alter_app_r.
Qed.

Lemma store_top_neg (h : heap) buf i v :
  i < 0 -> store (length h) i v (h ++ [buf]) = (Ok tt, h ++ [buf]).
Proof. intros. unfold store. destruct (i <? 0) eqn:E; [reflexivity|lia]. Qed.

Lemma newTypedArray_ok (h : heap) n :
  0 <= n ->
  newTypedArray n h = (Ok (length h), h ++ [replicate (Z.to_nat n) (num 0)]).
Proof. intros. unfold newTypedArray. destruct (n <? 0) eqn:E; [lia|done]. Qed.

(** A loop that writes [f i] at index [i] for every [i] below the length
    of the output buffer fills the buffer with the values of [f]. *)
Lemma for_fill (h : heap) (n : Z) (f : Z -> number) (body : Z -> M unit) :
  0 <= n ->
  (forall i buf, 0 <= i < n -> length buf = Z.to_nat n ->
     body i (h ++ [buf]) = (Ok tt, h ++ [<[Z.to_nat i := f i]> buf])) ->
  forall buf0, length buf0 = Z.to_nat n ->
  for_ (range 0 n) body (h ++ [buf0]) = (Ok tt, h ++ [f <$> range 0 n]).
Proof.
  intros Hn Hbody.
  assert (Hgen : forall k : nat, (k <= Z.to_nat n)%nat -> forall buf,
    length buf = Z.to_nat n ->
    for_ (range (n - Z.of_nat k) n) body (h ++ [buf])
    = (Ok tt, h ++ [take (Z.to_nat (n - Z.of_nat k)) buf
                    ++ (f <$> range (n - Z.of_nat k) n)])).
  { induction k as [|k IH]; intros Hk buf Hlen.
    - rewrite Z.sub_0_r. rewrite range_nil by lia. simpl.
      rewrite app_nil_r, take_ge by lia. reflexivity.
    - rewrite range_cons by lia. simpl.
      erewrite bind_ok; [|apply Hbody; [lia|done]].
      replace (n - Z.of_nat (S k) + 1) with (n - Z.of_nat k) by lia.
      rewrite IH; [|lia|now rewrite length_insert].
      do 3 f_equal.
      replace (Z.to_nat (n - Z.of_nat k))
        with (S (Z.to_nat (n - Z.of_nat (S k)))) by lia.
      set (j := Z.to_nat (n - Z.of_nat (S k))).
      assert (Hj : (j < length buf)%nat) by (unfold j; lia).
      rewrite (take_S_r _ _ (f (n - Z.of_nat (S k)))).
      + rewrite take_insert_ge by lia. now rewrite <- app_assoc.
      + now apply list_lookup_insert_eq. }
  intros buf0 Hlen.
  specialize (Hgen (Z.to_nat n) ltac:(lia) buf0 Hlen).
  replace (n - Z.of_nat (Z.to_nat n)) with 0 in Hgen by lia.
  exact Hgen.
Qed.

(** ** Loops that update buffers on top of the heap *)

(** A loop whose body acts on the heap [phi s] as [upd] acts on [s]. *)
Lemma for_abstract {A S} (phi : S -> heap) (upd : S -> A -> S)
    (P : S -> Prop) (l : list A) (body : A -> M unit) :
  (forall a s, a ∈ l -> P s ->
     body a (phi s) = (Ok tt, phi (upd s a)) /\ P (upd s a)) ->
  forall s, P s ->
  for_ l body (phi s) = (Ok tt, phi (fold_left upd l s))
  /\ P (fold_left upd l s).
Proof.
  induction l as [|a l IH]; intros Hb s Hs; simpl; [done|].
  destruct (Hb a s ltac:(left) Hs) as [E Hs'].
  erewrite bind_ok by exact E.
  apply IH; [|exact Hs'].
  intros a' s' Ha'. apply Hb. now right.
Qed.

Lemma store_app (h : heap) b t i v :
  0 <= i ->
  store (length h) i v (h ++ b :: t)
  = (Ok tt, h ++ <[Z.to_nat i := v]> b :: t).
Proof.
  intros. unfold store. destruct (i <? 0) eqn:E; [lia|].
  f_equal. replace (length h) with (length h + 0)%nat at 1 by lia.
  now rewrite alter_app_r.
Qed.

Lemma store_app_2 (h : heap) b1 b2 t i v :
  0 <= i ->
  store (S (length h)) i v (h ++ b1 :: b2 :: t)
  = (Ok tt, h ++ b1 :: <[Z.to_nat i := v]> b2 :: t).
Proof.
  intros. unfold store. destruct (i <? 0) eqn:E; [lia|].
  f_equal. replace (S (length h)) with (length h + 1)%nat at 1 by lia.
  now rewrite alter_app_r.
Qed.

Lemma buffer_app_1 (h : heap) b t : buffer (h ++ b :: t) (length h) = b.
Proof.
  unfold buffer. rewrite lookup_app_r by lia. now rewrite Nat.sub_diag.
Qed.

Lemma buffer_app_2 (h : heap) b1 b2 t :
  buffer (h ++ b1 :: b2 :: t) (S (length h)) = b2.
Proof.
  unfold buffer. rewrite lookup_app_r by lia.
  now replace (S (length h) - length h)%nat with 1%nat by lia.
Qed.

Lemma buffer_app_lt (h t : heap) (r : ref) :
  (r < length h)%nat -> buffer (h ++ t) r = buffer h r.
Proof. intros. unfold buffer. now rewrite lookup_app_l. Qed.

(** Writing [f i] at every index [i] below the length of a buffer. *)
Lemma fold_inserts {A} (f : Z -> A) (m : nat) : forall b0 : list A,
  (m <= length b0)%nat ->
  fold_left (fun b i => <[Z.to_nat i := f i]> b) (range 0 (Z.of_nat m)) b0
  = (f <$> range 0 (Z.of_nat m)) ++ drop m b0.
Proof.
  induction m as [|m IH]; intros b0 Hm.
  - rewrite range_nil by lia. simpl. now rewrite drop_0.
  - replace (Z.of_nat (S m)) with (Z.of_nat m + 1) by lia.
    rewrite range_snoc by lia. rewrite fold_left_app, fmap_app. simpl.
    rewrite IH by lia. rewrite Nat2Z.id.
    assert (Hl : length (f <$> range 0 (Z.of_nat m)) = m)
      by (rewrite length_fmap, length_range; lia).
    rewrite insert_app_r_alt by lia. rewrite Hl, Nat.sub_diag.
    rewrite <- app_assoc. f_equal.
    destruct (drop m b0) as [|x d] eqn:E.
    + apply (f_equal length) in E. rewrite length_drop in E. simpl in E. lia.
    + simpl. f_equal.
      replace (S m) with (m + 1)%nat by lia. rewrite <- drop_drop, E.
      reflexivity.
Qed.

Lemma fold_inserts_full {A} (f : Z -> A) (n : Z) (b0 : list A) :
  0 <= n -> length b0 = Z.to_nat n ->
  fold_left (fun b i => <[Z.to_nat i := f i]> b) (range 0 n) b0
  = f <$> range 0 n.
Proof.
  intros Hn Hl.
  pose proof (fold_inserts f (Z.to_nat n) b0 ltac:(lia)) as E.
  rewrite Z2Nat.id in E by lia. rewrite E.
  rewrite drop_ge by lia. apply app_nil_r.
Qed.

Lemma fold_left_snoc {A B} (g : A -> B) (l : list A) (acc : list B) :
  fold_left (fun acc a => acc ++ [g a]) l acc = acc ++ (g <$> l).
Proof.
  revert acc. induction l as [|a l IH]; intros acc; simpl.
  - now rewrite app_nil_r.
  - rewrite IH. now rewrite <- app_assoc.
Qed.

Lemma fold_left_pair {A B C} (f : B -> A -> B) (g : C -> A -> C)
    (l : list A) b c :
  fold_left (fun s a => (f s.1 a, g s.2 a)) l (b, c)
  = (fold_left f l b, fold_left g l c).
Proof.
  revert b c. induction l as [|a l IH]; intros b c; simpl; [done|].
  apply IH.
Qed.

Lemma fold_left_ext_in {A B} (f g : B -> A -> B) (l : list A) b :
  (forall a s, a ∈ l -> f s a = g s a) ->
  fold_left f l b = fold_left g l b.
Proof.
  revert b. induction l as [|a l IH]; intros b H; simpl; [done|].
  rewrite (H a b) by left. apply IH. intros. apply H. now right.
Qed.


(** ** Shapes and trailing axes *)

Lemma sizeFromShape_app s1 s2 :
  sizeFromShape (s1 ++ s2) = sizeFromShape s1 * sizeFromShape s2.
Proof.
  unfold sizeFromShape. induction s1 as [|d s1 IH]; simpl.
  - destruct (foldr Z.mul 1 s2); reflexivity.
  - rewrite IH. ring.
Qed.

Lemma sizeFromShape_pos s : Forall (fun d => 0 < d) s -> 0 < sizeFromShape s.
Proof.
  unfold sizeFromShape. induction 1; simpl; [lia|].
  apply Z.mul_pos_pos; assumption.
Qed.

Lemma sizeFromShape_take_drop n s :
  sizeFromShape (take n s) * sizeFromShape (drop n s) = sizeFromShape s.
Proof. rewrite <- sizeFromShape_app. now rewrite take_drop. Qed.

Lemma omap_lookupZ_range (s : list Z) (d : nat) : forall a : nat,
  (a + d <= length s)%nat ->
  omap (lookupZ s) (range (Z.of_nat a) (Z.of_nat (a + d))) = take d (drop a s).
Proof.
  induction d as [|d IH]; intros a Ha.
  - rewrite Nat.add_0_r, range_nil by lia. reflexivity.
  - rewrite range_cons by lia. csimpl.
    destruct (lookup_lt_is_Some_2 s a ltac:(lia)) as [x Hx].
    unfold lookupZ at 1. destruct (Z.of_nat a <? 0) eqn:E; [lia|].
    rewrite Nat2Z.id, Hx. csimpl.
    rewrite (drop_S _ _ _ Hx). csimpl. f_equal.
    replace (Z.of_nat a + 1) with (Z.of_nat (S a)) by lia.
    replace (Z.of_nat (a + S d)) with (Z.of_nat (S a + d)) by lia.
    apply IH. lia.
Qed.

Lemma omap_none {A B} (f : A -> option B) (l : list A) :
  (forall a, a ∈ l -> f a = None) -> omap f l = [].
Proof.
  induction l as [|a l IH]; intros H; csimpl; [reflexivity|].
  rewrite (H a) by left. apply IH. intros. apply H. now right.
Qed.

Lemma omap_ext_in {A B} (f g : A -> option B) (l : list A) :
  (forall a, a ∈ l -> f a = g a) -> omap f l = omap g l.
Proof.
  induction l as [|a l IH]; intros H; csimpl; [reflexivity|].
  rewrite (H a) by left. rewrite IH; [reflexivity|].
  intros. apply H. now right.
Qed.

Lemma computeOutAndReduceShapes_trailing s k :
  0 <= k <= Z.of_nat (length s) ->
  let rk := Z.of_nat (length s) in
  computeOutAndReduceShapes s (trailingAxes rk k)
  = (take (Z.to_nat (rk - k)) s, drop (Z.to_nat (rk - k)) s).
Proof.
  intros Hk rk. unfold computeOutAndReduceShapes, trailingAxes.
  fold rk. f_equal.
  - rewrite (range_app 0 (rk - k) rk) by (unfold rk; lia).
    rewrite omap_app.
    rewrite (omap_none _ (range (rk - k) rk)).
    2:{ intros d Hd. rewrite bool_decide_true; done. }
    rewrite app_nil_r.
    rewrite (omap_ext_in _ (lookupZ s)).
    2:{ intros d Hd. rewrite bool_decide_false; [done|].
        rewrite elem_of_range in *. lia. }
    pose proof (omap_lookupZ_range s (Z.to_nat (rk - k)) 0 ltac:(unfold rk; lia)) as E.
    rewrite Nat.add_0_l, Z2Nat.id in E by lia. change (Z.of_nat 0) with 0 in E.
    rewrite E. now rewrite drop_0.
  - pose proof (omap_lookupZ_range s (Z.to_nat k) (Z.to_nat (rk - k))
                  ltac:(unfold rk; lia)) as E.
    rewrite Z2Nat.id in E by lia.
    replace (Z.of_nat (Z.to_nat (rk - k) + Z.to_nat k)) with rk in E
      by (unfold rk; lia).
    rewrite E. apply take_ge. rewrite length_drop. unfold rk. lia.
Qed.

Lemma axesAreInnerMostDims_trailing rk k :
  0 <= k -> axesAreInnerMostDims (trailingAxes rk k) rk = true.
Proof.
  intros Hk. unfold axesAreInnerMostDims, trailingAxes.
  rewrite length_range. replace (rk - (rk - k)) with k by lia.
  rewrite Z2Nat.id by lia.
  apply forallb_forall. intros i Hi.
  apply list_elem_of_In, elem_of_range in Hi.
  rewrite (lookup_range _ _ (Z.to_nat k - Z.to_nat i - 1)) by lia.
  apply Z.eqb_eq. lia.
Qed.

(** ** argMin and argMax *)

Lemma holds_lt h x xv : holds h x xv -> (data x < length h)%nat.
Proof. intros [H _]. eapply lookup_lt_Some, H. Qed.

Lemma holds_buffer h x xv buf :
  holds h x xv -> buffer (h ++ [buf]) (data x) = xv.
Proof.
  intros H. rewrite buffer_app_l by (eapply holds_lt, H).
  unfold buffer. destruct H as [-> _]. reflexivity.
Qed.

Lemma argMin_run h x xv k :
  holds h x xv -> 0 <= k <= rank x ->
  let rs := reduceSizeOf x k in
  let n := sizeFromShape (keptShape x k) in
  MathBackendCPU.argMin x (trailingAxes (rank x) k) h
  = (Ok (mkNDArray (keptShape x k) int32 (length h)),
     h ++ [(fun i => num (argScan nlt xv (i * rs) rs).2) <$> range 0 n]).
Proof.
  intros Hx Hk rs n. unfold MathBackendCPU.argMin.
  unfold assertAxesAreInnerMostDims.
  rewrite axesAreInnerMostDims_trailing by lia. rewrite bind_ret.
  unfold rank. rewrite computeOutAndReduceShapes_trailing by (unfold rank in Hk; lia).
  fold (rank x). fold (keptShape x k). fold (reduceSizeOf x k). fold rs.
  assert (Hn : 0 < n).
  { apply sizeFromShape_pos. unfold keptShape. apply Forall_take, Hx. }
  unfold NDArray_zeros. fold n.
  erewrite bind_ok; [|erewrite bind_ok; [|apply newTypedArray_ok; lia]; reflexivity].
  cbn [getValues data].
  erewrite bind_ok; [|apply reads_lengthOf].
  rewrite buffer_app_top, length_replicate, Z2Nat.id by lia.
  erewrite bind_ok; [reflexivity|].
  apply for_fill; [lia| |now rewrite length_replicate].
  intros i buf Hi Hlen.
  erewrite bind_ok; [|apply reads_load].
  erewrite bind_ok.
  2:{ apply (reads_loop _ _ (fun j st =>
         let value := at_index xv (i * rs + j) in
         if isNaN value then Break (st.1, NAN_INT32)
         else if nlt value st.1 then Next (value, j)
         else Next st)).
      intros j [m mi] _.
      eapply reads_bind; [apply reads_load|].
      rewrite (holds_buffer _ _ _ _ Hx). cbn.
      destruct (isNaN _); [reflexivity|].
      destruct (nlt _ _); reflexivity. }
  rewrite (holds_buffer _ _ _ _ Hx).
  apply store_top. lia.
Qed.

Lemma argMax_run h x xv k :
  holds h x xv -> 0 <= k <= rank x ->
  let rs := reduceSizeOf x k in
  let n := sizeFromShape (keptShape x k) in
  MathBackendCPU.argMax x (trailingAxes (rank x) k) h
  = (Ok (mkNDArray (keptShape x k) int32 (length h)),
     h ++ [(fun i => num (argScan ngt xv (i * rs) rs).2) <$> range 0 n]).
Proof.
  intros Hx Hk rs n. unfold MathBackendCPU.argMax.
  unfold assertAxesAreInnerMostDims.
  rewrite axesAreInnerMostDims_trailing by lia. rewrite bind_ret.
  unfold rank. rewrite computeOutAndReduceShapes_trailing by (unfold rank in Hk; lia).
  fold (rank x). fold (keptShape x k). fold (reduceSizeOf x k). fold rs.
  assert (Hn : 0 < n).
  { apply sizeFromShape_pos. unfold keptShape. apply Forall_take, Hx. }
  unfold NDArray_zeros. fold n.
  erewrite bind_ok; [|erewrite bind_ok; [|apply newTypedArray_ok; lia]; reflexivity].
  cbn [getValues data].
  erewrite bind_ok; [|apply reads_lengthOf].
  rewrite buffer_app_top, length_replicate, Z2Nat.id by lia.
  erewrite bind_ok; [reflexivity|].
  apply for_fill; [lia| |now rewrite length_replicate].
  intros i buf Hi Hlen.
  erewrite bind_ok; [|apply reads_load].
  erewrite bind_ok.
  2:{ apply (reads_loop _ _ (fun j st =>
         let value := at_index xv (i * rs + j) in
         if isNaN value then Break (st.1, NAN_INT32)
         else if ngt value st.1 then Next (value, j)
         else Next st)).
      intros j [m mi] _.
      eapply reads_bind; [apply reads_load|].
      rewrite (holds_buffer _ _ _ _ Hx). cbn.
      destruct (isNaN _); [reflexivity|].
      destruct (ngt _ _); reflexivity. }
  rewrite (holds_buffer _ _ _ _ Hx).
  apply store_top. lia.
Qed.

(** *** The order of the numbers *)

Lemma nlt_irrefl a : nlt a a = false.
Proof.
  destruct a as [| | |x]; try reflexivity. cbn.
  apply negb_false_iff, Qle_bool_iff. lra.
Qed.

Lemma nlt_Fin x y : nlt (Fin x) (Fin y) = true <-> (x < y)%Q.
Proof.
  cbn. rewrite negb_true_iff. split.
  - intros H. apply Qnot_le_lt. intros C. apply Qle_bool_iff in C. congruence.
  - intros H. destruct (Qle_bool y x) eqn:E; [|reflexivity].
    apply Qle_bool_iff in E. lra.
Qed.

Lemma nlt_Fin_false x y : nlt (Fin x) (Fin y) = false <-> (y <= x)%Q.
Proof.
  cbn. rewrite negb_false_iff. apply Qle_bool_iff.
Qed.

Lemma nlt_trans a b c : nlt a b = true -> nlt b c = true -> nlt a c = true.
Proof.
  destruct a as [| | |x], b as [| | |y], c as [| | |z]; try (cbn; congruence).
  rewrite !nlt_Fin. lra.
Qed.

(** From [a < b] and [not (c < b)], for a number [c]: [a < c]. *)
Lemma nlt_le_trans a b c :
  nlt a b = true -> nlt c b = false -> isNaN c = false -> nlt a c = true.
Proof.
  destruct a as [| | |x], b as [| | |y], c as [| | |z]; try (cbn; congruence).
  rewrite !nlt_Fin, nlt_Fin_false. lra.
Qed.

(** From [b < a] and [not (b < c)], for a number [c]: [c < a]. *)
Lemma nle_lt_trans a b c :
  nlt b a = true -> nlt b c = false -> isNaN c = false -> nlt c a = true.
Proof.
  destruct a as [| | |x], b as [| | |y], c as [| | |z]; try (cbn; congruence).
  rewrite !nlt_Fin, nlt_Fin_false. lra.
Qed.

(** *** The scan *)

Section Scan.
Variable lt : number -> number -> bool.
Hypothesis lt_irrefl : forall a, lt a a = false.
Hypothesis lt_trans :
  forall a b c, lt a b = true -> lt b c = true -> lt a c = true.
Hypothesis lt_le_trans :
  forall a b c, lt a b = true -> lt c b = false -> isNaN c = false ->
                lt a c = true.
Variable wf : Z -> number.
Variable rs : Z.

Let step (j : Z) (st : number * Z) : ctl (number * Z) :=
  let value := wf j in
  if isNaN value then Break (st.1, NAN_INT32)
  else if lt value st.1 then Next (value, j)
  else Next st.

Lemma scan_suffix (d : nat) : forall k st,
  0 <= k -> k + Z.of_nat d = rs -> scanInv lt wf k st ->
  ((exists j, 0 <= j < rs /\ isNaN (wf j) = true) ->
     (loop_pure (range k rs) st step).2 = NAN_INT32)
  /\ ((forall j, 0 <= j < rs -> isNaN (wf j) = false) ->
      scanInv lt wf rs (loop_pure (range k rs) st step)).
Proof.
  induction d as [|d IH]; intros k [m mi] Hk Hd Hinv.
  - replace k with rs in * by lia. rewrite range_nil by lia. cbn.
    split; [|done].
    intros (j & Hj & HN). destruct Hinv as (H1 & _).
    rewrite H1 in HN; [done|lia].
  - rewrite range_cons by lia. cbn [loop_pure].
    assert (Es : step k (m, mi)
                 = if isNaN (wf k) then Break (m, NAN_INT32)
                   else if lt (wf k) m then Next (wf k, k)
                   else Next (m, mi)) by reflexivity.
    rewrite !Es. clear Es.
    destruct (isNaN (wf k)) eqn:EN.
    + cbn. split; [done|]. intros H. rewrite H in EN; [done|lia].
    + destruct Hinv as (H1 & H2 & H3 & H4 & H5 & H6). cbn [fst snd] in *.
      assert (HN' : forall j, 0 <= j < k + 1 -> isNaN (wf j) = false).
      { intros j Hj. destruct (decide (j = k)) as [->|]; [done|].
        apply H1. lia. }
      destruct (lt (wf k) m) eqn:El.
      * apply IH; [lia|lia|].
        repeat split; cbn; try done; try lia.
        -- intros j Hj. destruct (decide (j = k)) as [->|]; [apply lt_irrefl|].
           destruct (lt (wf j) (wf k)) eqn:E; [|done].
           rewrite <- (H5 j) by lia. symmetry. eapply lt_trans; eassumption.
        -- intros j Hj. eapply lt_le_trans; [exact El| |].
           ++ apply H5. lia.
           ++ apply H1. lia.
      * apply IH; [lia|lia|].
        repeat split; cbn; try done; try lia.
        intros j Hj. destruct (decide (j = k)) as [->|]; [done|].
        apply H5. lia.
Qed.

Lemma scan_spec :
  0 < rs ->
  ((exists j, 0 <= j < rs /\ isNaN (wf j) = true) ->
     (loop_pure (range 0 rs) (wf 0, 0) step).2 = NAN_INT32)
  /\ ((forall j, 0 <= j < rs -> isNaN (wf j) = false) ->
      scanInv lt wf rs (loop_pure (range 0 rs) (wf 0, 0) step)).
Proof.
  intros Hrs. apply (scan_suffix (Z.to_nat rs)); [lia|lia|].
  repeat split; cbn; try lia; intros; lia.
Qed.
End Scan.

(** *** Windows *)

Lemma at_index_Some xv i v :
  0 <= i -> xv !! Z.to_nat i = Some v -> at_index xv i = v.
Proof.
  intros Hi E. unfold at_index. destruct (i <? 0) eqn:C; [lia|].
  now rewrite E.
Qed.

Lemma window_lookup xv rs i j :
  0 <= i -> 0 <= j < rs ->
  window xv rs i !! Z.to_nat j = xv !! Z.to_nat (i * rs + j).
Proof.
  intros Hi Hj. unfold window.
  rewrite lookup_take_lt by lia. rewrite lookup_drop. f_equal. nia.
Qed.

Lemma window_length xv rs i n :
  Z.of_nat (length xv) = n * rs -> 0 <= i < n -> 0 < rs ->
  length (window xv rs i) = Z.to_nat rs.
Proof.
  intros Hlen Hi Hrs. unfold window.
  rewrite length_take, length_drop. nia.
Qed.

Lemma holds_size h x xv k :
  holds h x xv -> 0 <= k <= rank x ->
  Z.of_nat (length xv) = sizeFromShape (keptShape x k) * reduceSizeOf x k
  /\ 0 < sizeFromShape (keptShape x k) /\ 0 < reduceSizeOf x k.
Proof.
  intros (_ & Hlen & Hpos) Hk. unfold keptShape, reduceSizeOf.
  rewrite sizeFromShape_take_drop. split; [exact Hlen|].
  split; apply sizeFromShape_pos; [now apply Forall_take|now apply Forall_drop].
Qed.

Section WindowScan.
Variables (xv : list number) (rs n i : Z).
Hypothesis Hlen : Z.of_nat (length xv) = n * rs.
Hypothesis Hi : 0 <= i < n.
Hypothesis Hrs : 0 < rs.

Let w := window xv rs i.
Let wf (j : Z) := at_index xv (i * rs + j).

Lemma window_wf j : 0 <= j < rs -> w !! Z.to_nat j = Some (wf j).
Proof.
  intros Hj. unfold w, wf. rewrite window_lookup by lia.
  destruct (lookup_lt_is_Some_2 xv (Z.to_nat (i * rs + j)) ltac:(nia))
    as [v Hv].
  rewrite Hv. f_equal. symmetry. apply at_index_Some; [nia|exact Hv].
Qed.

Lemma window_elem v : v ∈ w <-> exists j, 0 <= j < rs /\ wf j = v.
Proof.
  rewrite list_elem_of_lookup. split.
  - intros [j' Hj'].
    assert (j' < Z.to_nat rs)%nat.
    { apply lookup_lt_Some in Hj'. unfold w in Hj'.
      rewrite (window_length _ _ _ n) in Hj'; lia. }
    exists (Z.of_nat j'). split; [lia|].
    pose proof (window_wf (Z.of_nat j') ltac:(lia)) as E.
    rewrite Nat2Z.id in E. congruence.
  - intros (j & Hj & <-). exists (Z.to_nat j). now apply window_wf.
Qed.

Lemma scanInv_firstExtremum lt st :
  scanInv lt wf rs st -> firstExtremum lt w st.2.
Proof.
  intros (H1 & H2 & H3 & H4 & H5 & H6).
  exists st.1. repeat split.
  - rewrite H2. apply window_wf. lia.
  - exact H3.
  - intros v' (j & Hj & <-)%window_elem. now apply H5.
  - intros j' v' Hj' Hv'.
    pose proof (window_wf (Z.of_nat j') ltac:(lia)) as E.
    rewrite Nat2Z.id in E. assert (v' = wf (Z.of_nat j')) as -> by congruence.
    apply H6. lia.
Qed.

Lemma argScan_window lt :
  (forall a, lt a a = false) ->
  (forall a b c, lt a b = true -> lt b c = true -> lt a c = true) ->
  (forall a b c, lt a b = true -> lt c b = false -> isNaN c = false ->
                 lt a c = true) ->
  (NaN ∈ w -> (argScan lt xv (i * rs) rs).2 = NAN_INT32)
  /\ (NaN ∉ w -> firstExtremum lt w (argScan lt xv (i * rs) rs).2).
Proof.
  intros L1 L2 L3.
  destruct (scan_spec lt L1 L2 L3 wf rs Hrs) as [S1 S2].
  assert (E0 : at_index xv (i * rs) = wf 0)
    by (unfold wf; f_equal; lia).
  unfold argScan. rewrite E0. split.
  - intros (j & Hj & E)%window_elem. apply S1.
    exists j. split; [exact Hj|]. now rewrite E.
  - intros HN. apply scanInv_firstExtremum, S2.
    intros j Hj. destruct (isNaN (wf j)) eqn:E; [|reflexivity].
    exfalso. apply HN, window_elem. exists j. split; [exact Hj|].
    destruct (wf j); done.
Qed.
End WindowScan.

(** C5: argMin and argMax scan each contiguous reduce-window in index
    order. A window that holds a NaN gives the sentinel [NAN_INT32], which
    is negative and so is no index of the window, whatever the other
    elements are; a window without NaN gives the offset of its first
    minimum, respectively maximum. *)
Theorem argMin_argMax_windows h x xv k :
  holds h x xv -> 0 <= k <= rank x ->
  let rs := reduceSizeOf x k in
  let n := sizeFromShape (keptShape x k) in
  exists outMin outMax,
    MathBackendCPU.argMin x (trailingAxes (rank x) k) h
    = (Ok (mkNDArray (keptShape x k) int32 (length h)), h ++ [outMin])
    /\ MathBackendCPU.argMax x (trailingAxes (rank x) k) h
       = (Ok (mkNDArray (keptShape x k) int32 (length h)), h ++ [outMax])
    /\ length outMin = Z.to_nat n /\ length outMax = Z.to_nat n
    /\ NAN_INT32 < 0
    /\ forall i, 0 <= i < n ->
         let w := window xv rs i in
         length w = Z.to_nat rs
         /\ (NaN ∈ w ->
               outMin !! Z.to_nat i = Some (num NAN_INT32)
               /\ outMax !! Z.to_nat i = Some (num NAN_INT32))
         /\ (NaN ∉ w ->
               exists jmin jmax,
                 outMin !! Z.to_nat i = Some (num jmin)
                 /\ outMax !! Z.to_nat i = Some (num jmax)
                 /\ firstExtremum nlt w jmin
                 /\ firstExtremum ngt w jmax).
Proof.
  intros Hx Hk rs n.
  destruct (holds_size h x xv k Hx Hk) as (Hlen & Hn & Hrs).
  fold rs in Hlen, Hrs. fold n in Hlen, Hn.
  eexists _, _. split; [apply (argMin_run h x xv k Hx Hk)|].
  split; [apply (argMax_run h x xv k Hx Hk)|].
  fold rs n. rewrite !length_fmap, !length_range, Z.sub_0_r.
  split; [reflexivity|]. split; [reflexivity|]. split; [reflexivity|].
  intros i Hi w.
  assert (Hl : forall (f : Z -> number),
             (f <$> range 0 n) !! Z.to_nat i = Some (f i)).
  { intros f. rewrite list_lookup_fmap, lookup_range by lia.
    cbn. f_equal. f_equal. lia. }
  rewrite !Hl.
  destruct (argScan_window xv rs n i Hlen Hi Hrs nlt
              nlt_irrefl nlt_trans nlt_le_trans) as [Nmin Emin].
  destruct (argScan_window xv rs n i Hlen Hi Hrs ngt) as [Nmax Emax].
  { intros a. apply nlt_irrefl. }
  { intros a b c H1 H2. unfold ngt in *. eapply nlt_trans; eassumption. }
  { intros a b c H1 H2 H3. unfold ngt in *. eapply nle_lt_trans; eassumption. }
  split; [eapply window_length; eassumption|]. split.
  - intros HN. now rewrite Nmin, Nmax.
  - intros HN. eexists _, _. split; [reflexivity|]. split; [reflexivity|].
    split; [now apply Emin|now apply Emax].
Qed.

Lemma argMin_argMax_windows_witness :
  holds exReduceHeap exReduceX exReduceBuf
  /\ exists outMin outMax,
       MathBackendCPU.argMin exReduceX [1] exReduceHeap
       = (Ok (mkNDArray [2] int32 3%nat), exReduceHeap ++ [outMin])
       /\ MathBackendCPU.argMax exReduceX [1] exReduceHeap
          = (Ok (mkNDArray [2] int32 3%nat), exReduceHeap ++ [outMax])
       /\ (NaN ∉ window exReduceBuf 3 0 ->
           exists jmin jmax,
             outMin !! 0%nat = Some (num jmin)
             /\ outMax !! 0%nat = Some (num jmax)
             /\ firstExtremum nlt (window exReduceBuf 3 0) jmin
             /\ firstExtremum ngt (window exReduceBuf 3 0) jmax)
       /\ (NaN ∈ window exReduceBuf 3 1 ->
           outMin !! 1%nat = Some (num NAN_INT32)
           /\ outMax !! 1%nat = Some (num NAN_INT32)).
Proof.
  assert (Hx : holds exReduceHeap exReduceX exReduceBuf).
  { split; [reflexivity|]. split; [reflexivity|].
    repeat constructor. }
  split; [exact Hx|].
  destruct (argMin_argMax_windows exReduceHeap exReduceX exReduceBuf 1 Hx
              ltac:(unfold rank; simpl; lia))
    as (outMin & outMax & E1 & E2 & _ & _ & _ & Hw).
  exists outMin, outMax. split; [exact E1|]. split; [exact E2|].
  split.
  - apply (Hw 0 ltac:(vm_compute; split; congruence)).
  - apply (Hw 1 ltac:(vm_compute; split; congruence)).
Defined.

(** C1 (the code departs from the claim): on a 3x1 image with a 3x1 filter
    and one row of padding above, conv2d takes the row corner from the
    left padding and the column corner from the top padding; every clipped
    column range is empty and the output is zero everywhere, where the
    specified sum is 80, 140, 80. *)
Theorem conv2d_swaps_padding :
  MathBackendCPU.conv2d exConvX exConvFilter None exConvInfo exConvHeap
  = (Ok (mkNDArray [1; 3; 1; 1] float32 4%nat),
     exConvHeap ++ [[num 0; num 0; num 0]])
  /\ (fun yR => conv2dSpec exConvXBuf exConvFBuf None exConvInfo 0 yR 0 0)
       <$> [0; 1; 2]
     = [num 80; num 140; num 80].
Proof. split; vm_compute; reflexivity. Qed.

(** C2 (the code departs from the claim): min starts every window from the
    first element of the whole buffer, not of the window. On
    [[1, 2], [3, 4]] reduced along the last axis the second window is
    [3, 4] and the second output is 1; max, which starts from the window,
    gives [2, 4]. *)
Theorem min_starts_from_first_element :
  MathBackendCPU.min exMinX [1] exMinHeap
  = (Ok (mkNDArray [2] float32 3%nat), exMinHeap ++ [[num 1; num 1]])
  /\ window exMinBuf 2 1 = [num 3; num 4]
  /\ MathBackendCPU.max exMinX [1] exMinHeap
     = (Ok (mkNDArray [2] float32 3%nat), exMinHeap ++ [[num 2; num 4]]).
Proof. repeat split; vm_compute; reflexivity. Qed.

(** ** The sort *)

Lemma sortInsert_perm {A} (cmp : A -> A -> number) x (l : list A) :
  Permutation (sortInsert cmp x l) (x :: l).
Proof.
  induction l as [|y l IH]; cbn [sortInsert]; [reflexivity|].
  destruct (ngt (cmp x y) (num 0)); [|reflexivity].
  rewrite IH. apply perm_swap.
Qed.

Lemma sort_perm {A} (cmp : A -> A -> number) (l : list A) :
  Permutation (Array_sort cmp l) l.
Proof.
  unfold Array_sort. induction l as [|x l IH]; simpl; [reflexivity|].
  rewrite sortInsert_perm. now rewrite IH.
Qed.

Lemma sort_length {A} (cmp : A -> A -> number) (l : list A) :
  length (Array_sort cmp l) = length l.
Proof. apply Permutation_length, sort_perm. Qed.

(** The comparator is positive exactly where the first value is the
    smaller one. *)
Lemma byValueDescending_pos p q :
  ngt (byValueDescending p q) (num 0) = nlt (value p) (value q).
Proof.
  unfold byValueDescending, ngt, nsub.
  destruct (value p) as [| | |a], (value q) as [| | |b]; try reflexivity.
  cbn. f_equal. apply eq_true_iff_eq.
  rewrite !Qle_bool_iff, !Qred_correct. unfold inject_Z. lra.
Qed.

Lemma nlt_total a b :
  isNaN a = false -> isNaN b = false -> nlt a b = false ->
  nlt b a = true \/ neqb a b = true.
Proof.
  destruct a as [| | |x], b as [| | |y]; cbn; try congruence; auto.
  intros _ _ H%negb_false_iff%Qle_bool_iff.
  destruct (Qle_bool x y) eqn:E.
  - right. apply Qle_bool_iff in E. apply Qeq_bool_iff. lra.
  - left. reflexivity.
Qed.

Lemma neqb_nlt_l a b c : neqb a b = true -> nlt c a = nlt c b.
Proof.
  destruct a as [| | |x], b as [| | |y], c as [| | |z]; cbn; try congruence.
  intros E%Qeq_bool_iff. f_equal. apply eq_true_iff_eq.
  rewrite !Qle_bool_iff. rewrite E. reflexivity.
Qed.

Lemma neqb_nlt_r a b c : neqb a b = true -> nlt a c = nlt b c.
Proof.
  destruct a as [| | |x], b as [| | |y], c as [| | |z]; cbn; try congruence.
  intros E%Qeq_bool_iff. f_equal. apply eq_true_iff_eq.
  rewrite !Qle_bool_iff. rewrite E. reflexivity.
Qed.

Lemma neqb_trans a b c : neqb a b = true -> neqb b c = true -> neqb a c = true.
Proof.
  destruct a as [| | |x], b as [| | |y], c as [| | |z]; cbn; try congruence.
  rewrite !Qeq_bool_iff. intros -> ->. reflexivity.
Qed.

Lemma neqb_not_NaN a b : neqb a b = true -> isNaN a = false /\ isNaN b = false.
Proof. destruct a, b; cbn; try congruence; auto. Qed.

Lemma nlt_not_NaN a b : nlt a b = true -> isNaN a = false /\ isNaN b = false.
Proof. destruct a, b; cbn; try congruence; auto. Qed.

(** [x], of a smaller index than every element of [s] and not before [y]
    by value alone, is before everything that [y] is before. *)
Lemma before_trans_head x y z :
  isNaN (value x) = false -> isNaN (value y) = false ->
  nlt (value x) (value y) = false -> index x < index z -> before y z ->
  before x z.
Proof.
  intros Nx Ny Hxy Hi [Hyz|[Hyz Hiyz]]; unfold before.
  - left. destruct (nlt_total _ _ Nx Ny Hxy) as [H|H].
    + eapply nlt_trans; eassumption.
    + rewrite (neqb_nlt_l _ _ _ H). exact Hyz.
  - destruct (nlt_total _ _ Nx Ny Hxy) as [H|H].
    + left. rewrite <- (neqb_nlt_r _ _ _ Hyz). exact H.
    + right. split; [|exact Hi]. eapply neqb_trans; eassumption.
Qed.

Lemma sortInsert_sorted x (s : list ValueAndIndex) :
  StronglySorted before s ->
  isNaN (value x) = false ->
  Forall (fun y => isNaN (value y) = false /\ index x < index y) s ->
  StronglySorted before (sortInsert byValueDescending x s).
Proof.
  intros Hs Nx. induction Hs as [|y s Hs IH Hy]; intros Hall; cbn [sortInsert].
  - repeat constructor.
  - apply Forall_cons in Hall as [[Ny Hi] Hall].
    rewrite byValueDescending_pos.
    destruct (nlt (value x) (value y)) eqn:E.
    + constructor; [now apply IH|].
      rewrite (sortInsert_perm byValueDescending x s).
      constructor; [|exact Hy]. now left.
    + constructor; [now constructor|].
      constructor.
      * destruct (nlt_total _ _ Nx Ny E) as [H|H]; [now left|right; done].
      * rewrite Forall_forall in *. intros z Hz.
        eapply before_trans_head; eauto.
        apply (Hall z Hz).
Qed.

Lemma sort_sorted (l : list ValueAndIndex) :
  StronglySorted (fun p q => index p < index q) l ->
  Forall (fun p => isNaN (value p) = false) l ->
  StronglySorted before (Array_sort byValueDescending l).
Proof.
  unfold Array_sort. intros Hl.
  induction Hl as [|x l Hl IH Hx]; intros HN; simpl; [constructor|].
  apply Forall_cons in HN as [Nx HN].
  apply sortInsert_sorted; [now apply IH|exact Nx|].
  fold (Array_sort byValueDescending l).
  rewrite (sort_perm byValueDescending l).
  rewrite Forall_forall in *. intros y Hy. split; [now apply HN|now apply Hx].
Qed.

(** ** Running topK *)

Lemma holds_buffer_any h x xv t :
  holds h x xv -> buffer (h ++ t) (data x) = xv.
Proof.
  intros H. rewrite buffer_app_lt by (eapply holds_lt, H).
  unfold buffer. destruct H as [-> _]. reflexivity.
Qed.

Lemma holds_buffer_here h x xv : holds h x xv -> buffer h (data x) = xv.
Proof. intros [H _]. unfold buffer. now rewrite H. Qed.

(** The first loop of topK only reads and builds the pairs. *)
Lemma topK_pairs h x xv :
  holds h x xv ->
  reads
    (fold_for (range 0 (Z.of_nat (length xv))) [] (fun i acc =>
       v <- load (getValues x) i ;;
       ret (acc ++ [mkValueAndIndex v i])))
    h (pairsOf xv).
Proof.
  intros Hx.
  pose proof (reads_fold_for (range 0 (Z.of_nat (length xv)))
    (fun i acc => v <- load (getValues x) i ;;
                  ret (acc ++ [mkValueAndIndex v i]))
    (fun acc i => acc ++ [mkValueAndIndex (at_index xv i) i]) h) as R.
  unfold pairsOf. rewrite <- (app_nil_l (_ <$> _)).
  rewrite <- fold_left_snoc. apply R.
  intros i acc _. eapply reads_bind; [apply reads_load|].
  unfold getValues. rewrite (holds_buffer_here _ _ _ Hx). apply reads_ret.
Qed.

Section TopKRun.
Variables (h : list (list number)) (x : NDArray) (xv : list number).
Hypothesis Hx : holds h x xv.

Let sorted := Array_sort byValueDescending (pairsOf xv).

(** What one round of the filling loop does to the two output
    buffers. *)
Let upd (s : list number * list number) (i : Z) :=
  match sorted !! Z.to_nat i with
  | Some e => (<[Z.to_nat i := value e]> s.1,
               <[Z.to_nat i := num (index e)]> s.2)
  | None => s
  end.

Let body (i : Z) : M unit :=
  match sorted !! Z.to_nat i with
  | None => throw TypeError
  | Some e =>
      store (length h) i (value e) ;;;
      store (S (length h)) i (num (index e))
  end.

Lemma sorted_length : length sorted = length xv.
Proof.
  unfold sorted. rewrite sort_length. unfold pairsOf.
  rewrite length_fmap, length_range. lia.
Qed.

Lemma topK_fill (k m : Z) :
  0 <= m -> m <= k -> m <= Z.of_nat (length xv) ->
  forall b1 b2, length b1 = Z.to_nat k -> length b2 = Z.to_nat k ->
  exists b1' b2',
    for_ (range 0 m) body (h ++ [b1; b2]) = (Ok tt, h ++ [b1'; b2'])
    /\ length b1' = Z.to_nat k /\ length b2' = Z.to_nat k
    /\ (m = k -> b1' = value <$> take (Z.to_nat k) sorted
                 /\ b2' = (fun e => num (index e))
                            <$> take (Z.to_nat k) sorted).
Proof.
  intros Hm Hmk Hmn b1 b2 H1 H2.
  destruct (for_abstract (fun s => h ++ [s.1; s.2]) upd
              (fun s => length s.1 = Z.to_nat k /\ length s.2 = Z.to_nat k)
              (range 0 m) body) with (s := (b1, b2)) as [E [L1 L2]].
  { intros i [c1 c2] Hi%elem_of_range [Hc1 Hc2]. unfold upd, body. cbn.
    destruct (lookup_lt_is_Some_2 sorted (Z.to_nat i)
                ltac:(rewrite sorted_length; lia)) as [e He].
    rewrite He. cbn. split.
    - erewrite bind_ok; [|apply store_app; lia].
      apply store_app_2. lia.
    - now rewrite !length_insert. }
  { done. }
  eexists _, _. split; [exact E|]. split; [exact L1|]. split; [exact L2|].
  intros ->.
  set (d := mkValueAndIndex NaN 0).
  assert (Eu : fold_left upd (range 0 k) (b1, b2)
               = fold_left (fun s i =>
                   (<[Z.to_nat i := value (default d (sorted !! Z.to_nat i))]> s.1,
                    <[Z.to_nat i := num (index (default d (sorted !! Z.to_nat i)))]> s.2))
                   (range 0 k) (b1, b2)).
  { apply fold_left_ext_in. intros i s Hi%elem_of_range. unfold upd.
    destruct (lookup_lt_is_Some_2 sorted (Z.to_nat i)
                ltac:(rewrite sorted_length; lia)) as [e He].
    now rewrite He. }
  rewrite Eu.
  rewrite (fold_left_pair
    (fun b i => <[Z.to_nat i := value (default d (sorted !! Z.to_nat i))]> b)
    (fun b i => <[Z.to_nat i := num (index (default d (sorted !! Z.to_nat i)))]> b)).
  cbn [fst snd].
  rewrite !fold_inserts_full by lia.
  assert (Et : forall (g : ValueAndIndex -> number),
    (fun i => g (default d (sorted !! Z.to_nat i))) <$> range 0 k
    = g <$> take (Z.to_nat k) sorted).
  { intros g. apply list_eq. intros j.
    rewrite !list_lookup_fmap.
    destruct (decide (j < Z.to_nat k)%nat) as [Hj|Hj].
    - rewrite lookup_range by lia. rewrite lookup_take_lt by lia. cbn.
      rewrite Z.add_0_l, Nat2Z.id.
      destruct (lookup_lt_is_Some_2 sorted j
                  ltac:(rewrite sorted_length; lia)) as [e He].
      now rewrite He.
    - rewrite (lookup_ge_None_2 (range 0 k)) by (rewrite length_range; lia).
      rewrite lookup_take_ge by lia. reflexivity. }
  split; [apply (Et value)|apply (Et (fun e => num (index e)))].
Qed.

Lemma topK_run_ok k :
  0 <= k <= size x ->
  MathBackendCPU.topK x k h
  = (Ok (mkNDArray [k] float32 (length h),
         mkNDArray [k] float32 (S (length h))),
     h ++ [value <$> take (Z.to_nat k) sorted;
           (fun e => num (index e)) <$> take (Z.to_nat k) sorted]).
Proof.
  intros Hk. pose proof Hx as (_ & Hlen & _).
  unfold MathBackendCPU.topK.
  erewrite bind_ok; [|apply reads_lengthOf].
  unfold getValues at 1. rewrite (holds_buffer_here _ _ _ Hx).
  erewrite bind_ok; [|apply (topK_pairs h x xv Hx)].
  unfold getTypedArrayFromDType.
  erewrite bind_ok; [|apply newTypedArray_ok; lia].
  erewrite bind_ok; [|apply newTypedArray_ok; lia].
  rewrite length_app, Nat.add_1_r. rewrite <- app_assoc. cbn [app].
  destruct (topK_fill k k ltac:(lia) ltac:(lia) ltac:(lia)
              (replicate (Z.to_nat k) (num 0)) (replicate (Z.to_nat k) (num 0))
              ltac:(apply length_replicate) ltac:(apply length_replicate))
    as (b1 & b2 & E & L1 & L2 & Hb).
  destruct (Hb eq_refl) as [-> ->].
  erewrite bind_ok; [|exact E].
  unfold Array1D_new.
  erewrite bind_ok; [|erewrite bind_ok; [|apply reads_lengthOf]; reflexivity].
  erewrite bind_ok; [|erewrite bind_ok; [|apply reads_lengthOf]; reflexivity].
  rewrite buffer_app_1, buffer_app_2, L1, L2, Z2Nat.id by lia.
  reflexivity.
Qed.


End TopKRun.

Lemma pairsOf_index_sorted xv :
  StronglySorted (fun p q => index p < index q) (pairsOf xv).
Proof.
  unfold pairsOf. generalize (Z.of_nat (length xv)) as n. intros n.
  assert (G : forall (d : nat) a, StronglySorted (fun p q => index p < index q)
            ((fun i => mkValueAndIndex (at_index xv i) i)
               <$> range a (a + Z.of_nat d))).
  { induction d as [|d IH]; intros a.
    - rewrite range_nil by lia. constructor.
    - rewrite range_cons by lia. csimpl. constructor.
      + replace (a + Z.of_nat (S d)) with ((a + 1) + Z.of_nat d) by lia.
        apply IH.
      + apply Forall_fmap, Forall_forall. intros i Hi%elem_of_range.
        cbn. lia. }
  destruct (decide (0 <= n)).
  - specialize (G (Z.to_nat n) 0). now rewrite Z.add_0_l, Z2Nat.id in G by lia.
  - rewrite range_nil by lia. constructor.
Qed.

Lemma pairsOf_not_NaN xv :
  Forall (fun v => isNaN v = false) xv ->
  Forall (fun p => isNaN (value p) = false) (pairsOf xv).
Proof.
  intros H. unfold pairsOf. apply Forall_fmap, Forall_forall.
  intros i Hi%elem_of_range. cbn.
  destruct (lookup_lt_is_Some_2 xv (Z.to_nat i) ltac:(lia)) as [v Hv].
  rewrite (at_index_Some _ _ v) by (lia || done).
  rewrite Forall_forall in H. apply H. eapply list_elem_of_lookup_2, Hv.
Qed.


Lemma exTop_holds : holds exTopHeap exTopX exTopBuf.
Proof. split; [reflexivity|]. split; [reflexivity|]. repeat constructor. Qed.



(** C6 as the code has it: on a tensor without NaN and for [0 < k <= size],
    topK pairs each element with its linear index, puts the pairs in
    descending order of value with ties in the order of the input, and
    returns the values and the indices of the first [k] pairs as two
    buffers; on [5, 1, 4, 2, 3] with [k = 3] these are [5, 4, 3] and
    [0, 2, 4]. *)
Theorem topK_sorts_descending :
  (forall h x xv k,
     holds h x xv -> Forall (fun v => isNaN v = false) xv ->
     0 < k <= size x ->
     exists sorted,
       Permutation sorted (pairsOf xv)
       /\ StronglySorted before sorted
       /\ MathBackendCPU.topK x k h
          = (Ok (mkNDArray [k] float32 (length h),
                 mkNDArray [k] float32 (S (length h))),
             h ++ [value <$> take (Z.to_nat k) sorted;
                   (fun e => num (index e)) <$> take (Z.to_nat k) sorted]))
  /\ MathBackendCPU.topK exTopX 3 exTopHeap
     = (Ok (mkNDArray [3] float32 3%nat, mkNDArray [3] float32 4%nat),
        exTopHeap ++ [[num 5; num 4; num 3]; [num 0; num 2; num 4]]).
Proof.
  split; [|vm_compute; reflexivity].
  intros h x xv k Hx HN Hk.
  exists (Array_sort byValueDescending (pairsOf xv)).
  split; [apply sort_perm|].
  split; [apply sort_sorted; [apply pairsOf_index_sorted|now apply pairsOf_not_NaN]|].
  apply (topK_run_ok h x xv Hx k). lia.
Qed.

Lemma topK_sorts_descending_witness :
  holds exTopHeap exTopX exTopBuf
  /\ Forall (fun v => isNaN v = false) exTopBuf
  /\ 0 < 3 <= size exTopX
  /\ exists sorted,
       Permutation sorted (pairsOf exTopBuf)
       /\ StronglySorted before sorted
       /\ MathBackendCPU.topK exTopX 3 exTopHeap
          = (Ok (mkNDArray [3] float32 (length exTopHeap),
                 mkNDArray [3] float32 (S (length exTopHeap))),
             exTopHeap ++ [value <$> take (Z.to_nat 3) sorted;
                           (fun e => num (index e))
                             <$> take (Z.to_nat 3) sorted]).
Proof.
  assert (HN : Forall (fun v => isNaN v = false) exTopBuf)
    by (repeat constructor).
  assert (Hk : 0 < 3 <= size exTopX) by (vm_compute; split; congruence).
  split; [exact exTop_holds|]. split; [exact HN|]. split; [exact Hk|].
  exact (proj1 topK_sorts_descending exTopHeap exTopX exTopBuf 3
           exTop_holds HN Hk).
Defined.

(** In a list in that order, any two different elements are ordered one
    way or the other. *)
Lemma StronglySorted_related {A} (R : A -> A -> Prop) (l : list A) p q :
  StronglySorted R l -> p ∈ l -> q ∈ l -> p <> q -> R p q \/ R q p.
Proof.
  induction 1 as [|a l Hl IH Ha]; intros Hp Hq Hne.
  - now apply elem_of_nil in Hp.
  - rewrite Forall_forall in Ha.
    apply elem_of_cons in Hp as [->|Hp], Hq as [->|Hq];
      [congruence|left; now apply Ha|right; now apply Ha|auto].
Qed.

(** C6 as stated fails twice. On [5, 1, 4, 2, 3] with [k = 3] the indices
    are [0, 2, 4] (the element 4 is at index 2), not [0, 3, 4]. And on a
    tensor with a NaN the pairs are not put in descending order: on
    [1, NaN, 2] with [k = 3] topK returns the values [1, NaN, 2], in which 1
    comes before 2; indeed no arrangement of the pairs of that tensor is in
    descending order, since NaN is neither above nor equal to a number. *)
Lemma topK_example_indices_and_NaN :
  (MathBackendCPU.topK exTopX 3 exTopHeap
   = (Ok (mkNDArray [3] float32 3%nat, mkNDArray [3] float32 4%nat),
      exTopHeap ++ [[num 5; num 4; num 3]; [num 0; num 2; num 4]])
   /\ [num 0; num 2; num 4] <> [num 0; num 3; num 4])
  /\ MathBackendCPU.topK exTopNaNX 3 exTopNaNHeap
     = (Ok (mkNDArray [3] float32 3%nat, mkNDArray [3] float32 4%nat),
        exTopNaNHeap ++ [[num 1; NaN; num 2]; [num 0; num 1; num 2]])
  /\ nlt (num 1) (num 2) = true
  /\ forall sorted,
       Permutation sorted (pairsOf exTopNaNBuf) ->
       ~ StronglySorted before sorted.
Proof.
  split; [split; [vm_compute; reflexivity|intros H; cbv in H; discriminate H]|].
  split; [vm_compute; reflexivity|]. split; [reflexivity|].
  intros sorted HP HS.
  assert (Hp : mkValueAndIndex NaN 1 ∈ sorted).
  { rewrite HP. vm_compute. do 1 right. left. }
  assert (Hq : mkValueAndIndex (num 1) 0 ∈ sorted).
  { rewrite HP. vm_compute. left. }
  destruct (StronglySorted_related _ _ _ _ HS Hp Hq ltac:(congruence))
    as [[H|[H _]]|[H|[H _]]]; cbn in H; congruence.
Qed.

(** ** Broadcast shapes *)

Lemma Forall_max_1 (l : list Z) : Forall (fun d => 0 < d) (map (Z.max 1) l).
Proof. induction l; constructor; [lia|assumption]. Qed.

Lemma broadcastRev_pos ra : forall rb r,
  Forall (fun d => 0 < d) ra -> Forall (fun d => 0 < d) rb ->
  broadcastRev ra rb = Some r -> Forall (fun d => 0 < d) r.
Proof.
  induction ra as [|a ra IH]; intros rb r Ha Hb E.
  - cbn [broadcastRev] in E. inversion E; subst. apply Forall_max_1.
  - destruct rb as [|b rb].
    + cbn [broadcastRev] in E. inversion E; subst.
      apply (Forall_max_1 (a :: ra)).
    + cbn [broadcastRev] in E.
      apply Forall_cons in Ha as [Ha Ha'], Hb as [Hb Hb'].
      destruct ((a =? b) || (a =? 1) || (b =? 1)); [|discriminate].
      destruct (broadcastRev ra rb) as [r'|] eqn:E'; [|discriminate].
      cbn in E. inversion E; subst. constructor; [lia|].
      eapply IH; eauto.
Qed.

Lemma broadcastsTo_pos sa sb s :
  Forall (fun d => 0 < d) sa -> Forall (fun d => 0 < d) sb ->
  broadcastsTo sa sb s -> Forall (fun d => 0 < d) s.
Proof.
  intros Ha Hb E. unfold broadcastsTo in E.
  apply Forall_reverse.
  eapply broadcastRev_pos; [| |exact E]; apply Forall_reverse; assumption.
Qed.

Lemma assertAndGetBroadcastShape_ok sa sb s h :
  broadcastsTo sa sb s ->
  assertAndGetBroadcastShape sa sb h = (Ok s, h).
Proof.
  intros E. unfold assertAndGetBroadcastShape. rewrite E.
  now rewrite reverse_involutive.
Qed.

(** A scalar broadcasts to any shape of positive dimensions. *)
Lemma broadcastsTo_scalar s :
  Forall (fun d => 0 < d) s -> broadcastsTo [] s s.
Proof.
  intros Hs. unfold broadcastsTo. cbn.
  destruct (reverse s) as [|d r] eqn:E; [reflexivity|].
  f_equal. rewrite <- E. clear E.
  apply Forall_reverse in Hs. induction Hs as [|x l Hx Hl IH]; [done|].
  cbn. f_equal; [lia|exact IH].
Qed.

(** ** Running the binary kernels *)

Lemma broadcastedBinaryOp_run h a b av bv d op s :
  holds h a av -> holds h b bv -> broadcastsTo (shape a) (shape b) s ->
  MathBackendCPU.broadcastedBinaryOp a b d op h
  = (Ok (mkNDArray s d (length h)),
     h ++ [(fun i => op (at_index av (operandIndex (shape a) s i))
                        (at_index bv (operandIndex (shape b) s i)))
             <$> range 0 (sizeFromShape s)]).
Proof.
  intros Ha Hb Hs.
  assert (Hn : 0 < sizeFromShape s).
  { apply sizeFromShape_pos. eapply broadcastsTo_pos; [apply Ha|apply Hb|done]. }
  unfold MathBackendCPU.broadcastedBinaryOp.
  erewrite bind_ok; [|apply (assertAndGetBroadcastShape_ok _ _ s), Hs].
  unfold NDArray_zeros.
  erewrite bind_ok; [|erewrite bind_ok; [|apply newTypedArray_ok; lia]; reflexivity].
  cbn [getValues data shape].
  erewrite bind_ok; [|apply reads_lengthOf].
  rewrite buffer_app_top, length_replicate, Z2Nat.id by lia.
  erewrite bind_ok; [reflexivity|].
  apply for_fill; [lia| |now rewrite length_replicate].
  intros i buf Hi Hlen.
  erewrite bind_ok; [|apply reads_load].
  erewrite bind_ok; [|apply reads_load].
  rewrite (holds_buffer _ _ _ _ Ha), (holds_buffer _ _ _ _ Hb).
  unfold rank, operandIndex. apply store_top. lia.
Qed.

Ltac run_modulo_kernel Ha Hb Hs s :=
  erewrite bind_ok; [|apply (assertAndGetBroadcastShape_ok _ _ s), Hs];
  erewrite bind_ok; [|apply newTypedArray_ok; lia];
  cbn [getValues];
  erewrite bind_ok; [|apply reads_lengthOf];
  rewrite buffer_app_top, length_replicate, Z2Nat.id by lia;
  erewrite bind_ok; [reflexivity|];
  apply for_fill; [lia| |now rewrite length_replicate];
  intros i buf Hi Hlen;
  erewrite bind_ok; [|apply reads_load];
  erewrite bind_ok; [|apply reads_load];
  rewrite (holds_buffer _ _ _ _ Ha), (holds_buffer _ _ _ _ Hb);
  apply store_top; lia.

Lemma multiply_run h a b av bv s :
  holds h a av -> holds h b bv -> broadcastsTo (shape a) (shape b) s ->
  MathBackendCPU.multiply a b h
  = (Ok (mkNDArray s float32 (length h)),
     h ++ [(fun i => nmul (at_index av (MathBackendCPU.jsmod i (size a)))
                          (at_index bv (MathBackendCPU.jsmod i (size b))))
             <$> range 0 (sizeFromShape s)]).
Proof.
  intros Ha Hb Hs.
  assert (Hn : 0 < sizeFromShape s).
  { apply sizeFromShape_pos. eapply broadcastsTo_pos; [apply Ha|apply Hb|done]. }
  unfold MathBackendCPU.multiply. run_modulo_kernel Ha Hb Hs s.
Qed.

Lemma divide_run h a b av bv s :
  holds h a av -> holds h b bv -> broadcastsTo (shape a) (shape b) s ->
  MathBackendCPU.divide a b h
  = (Ok (mkNDArray s float32 (length h)),
     h ++ [(fun i => ndiv (at_index av (MathBackendCPU.jsmod i (size a)))
                          (at_index bv (MathBackendCPU.jsmod i (size b))))
             <$> range 0 (sizeFromShape s)]).
Proof.
  intros Ha Hb Hs.
  assert (Hn : 0 < sizeFromShape s).
  { apply sizeFromShape_pos. eapply broadcastsTo_pos; [apply Ha|apply Hb|done]. }
  unfold MathBackendCPU.divide. run_modulo_kernel Ha Hb Hs s.
Qed.

(** C9: on broadcast-compatible tensors of any element type, divide
    returns a tensor whose element type is float32. *)
Theorem divide_returns_float32 h a b av bv s :
  holds h a av -> holds h b bv -> broadcastsTo (shape a) (shape b) s ->
  exists res h',
    MathBackendCPU.divide a b h = (Ok res, h')
    /\ dtype res = float32 /\ shape res = s.
Proof.
  intros Ha Hb Hs. eexists _, _.
  split; [apply (divide_run h a b av bv s Ha Hb Hs)|]. split; reflexivity.
Qed.


Lemma heap_ok_NEG_ONE h : heap_ok h -> holds h Scalar_NEG_ONE [num (-1)].
Proof. intros [_ H]. split; [exact H|]. split; [reflexivity|constructor]. Qed.

Lemma heap_ok_app h t : heap_ok h -> heap_ok (h ++ t).
Proof. intros [H1 H2]. split; now apply lookup_app_l_Some. Qed.


Lemma neg_run h b bv :
  heap_ok h -> holds h b bv ->
  MathBackendCPU.neg b h
  = (Ok (mkNDArray (shape b) float32 (length h)),
     h ++ [(fun i => nmul (num (-1)) (at_index bv i)) <$> range 0 (size b)]).
Proof.
  intros Hh Hb. unfold MathBackendCPU.neg.
  rewrite (multiply_run h Scalar_NEG_ONE b [num (-1)] bv (shape b)
             (heap_ok_NEG_ONE h Hh) Hb).
  2:{ apply broadcastsTo_scalar, Hb. }
  do 3 f_equal. apply list_fmap_ext. intros _ i Hi%list_elem_of_lookup_2.
  apply elem_of_range in Hi.
  unfold MathBackendCPU.jsmod. fold (size b).
  change (size Scalar_NEG_ONE) with 1. cbn [Z.eqb].
  rewrite Z.rem_1_r.
  destruct (size b =? 0) eqn:E; [lia|].
  rewrite Z.rem_small by lia. reflexivity.
Qed.


Lemma nmul_neg_neg v : nmul (num (-1)) (nmul (num (-1)) v) = nmul (num 1) v.
Proof.
  destruct v as [| | |q]; try reflexivity.
  cbn. f_equal. apply Qred_complete. rewrite Qred_correct.
  unfold inject_Z. ring.
Qed.

Lemma at_index_fmap_range (f : Z -> number) n j :
  0 <= n ->
  at_index (f <$> range 0 n) j = if (0 <=? j) && (j <? n) then f j else NaN.
Proof.
  intros Hn. unfold at_index. destruct (j <? 0) eqn:E.
  - replace (0 <=? j) with false by lia. reflexivity.
  - replace (0 <=? j) with true by lia. cbn [andb].
    rewrite list_lookup_fmap. destruct (j <? n) eqn:E'.
    + rewrite lookup_range by lia. cbn. f_equal. lia.
    + rewrite lookup_ge_None_2 by (rewrite length_range; lia). reflexivity.
Qed.




Lemma divide_returns_float32_witness :
  holds exAddHeap exAddA exAddABuf
  /\ holds exAddHeap exAddB exAddBBuf
  /\ broadcastsTo (shape exAddA) (shape exAddB) [2; 2]
  /\ exists res h',
       MathBackendCPU.divide exAddA exAddB exAddHeap = (Ok res, h')
       /\ dtype res = float32 /\ shape res = [2; 2].
Proof.
  assert (Ha : holds exAddHeap exAddA exAddABuf).
  { split; [reflexivity|]. split; [reflexivity|repeat constructor]. }
  assert (Hb : holds exAddHeap exAddB exAddBBuf).
  { split; [reflexivity|]. split; [reflexivity|repeat constructor]. }
  assert (Hs : broadcastsTo (shape exAddA) (shape exAddB) [2; 2])
    by reflexivity.
  split; [exact Ha|]. split; [exact Hb|]. split; [exact Hs|].
  exact (divide_returns_float32 exAddHeap exAddA exAddB exAddABuf exAddBBuf
           [2; 2] Ha Hb Hs).
Defined.

(** ** multinomial *)

Section Multinomial.
Context `{RT : Runtime}.
Variables (h : list (list number)) (pv : list number).
Variables (probVals : nat) (batch ne ns : Z) (seed : number).
Hypothesis Hp : h !! probVals = Some pv.
Hypothesis Hlen : Z.of_nat (length pv) = batch * ne.
Hypothesis Hne : 0 < ne.
Hypothesis Hns : 0 <= ns.

Let resVals := length h.









End Multinomial.




(** The run of that example: the first and the third row of probabilities
    are equal, and so are the first and the third row of events. *)
Example multinomial_example :
  @MathBackendCPU.multinomial exampleRuntime exProbs 4 (num 7) exProbsHeap
  = (Ok (mkNDArray [3; 4] int32 3%nat),
     exProbsHeap
     ++ [[num 2; num 1; num 1; num 0;
          num 1; num 0; num 0; num 0;
          num 2; num 1; num 1; num 0];
         [Fin (1 # 4); Fin (1 # 2)];
         [Fin (1 # 2); num 1];
         [Fin (1 # 4); Fin (1 # 2)]]).
Proof. vm_compute. reflexivity. Qed.

(** ** Nested loops that fill a rank-4 tensor *)

Lemma for_bind {A B} (l : list A) (f : A -> list B) (body : B -> M unit) h :
  for_ (l ≫= f) body h = for_ l (fun a => for_ (f a) body) h.
Proof.
  revert h. induction l as [|a l IH]; intros h; [reflexivity|].
  rewrite bind_cons, for_app. cbn [for_]. unfold bind.
  destruct (for_ (f a) body h) as [[[]|e] h1]; [apply IH|reflexivity].
Qed.

Lemma for_ext {A} (l : list A) (b1 b2 : A -> M unit) h :
  (forall a h', b1 a h' = b2 a h') -> for_ l b1 h = for_ l b2 h.
Proof.
  intros E. revert h. induction l as [|a l IH]; intros h; [reflexivity|].
  cbn [for_]. unfold bind. rewrite E.
  destruct (b2 a h) as [[[]|e] h1]; [apply IH|reflexivity].
Qed.

Lemma elem_of_tuples4 r1 r2 r3 r4 a b c d :
  (a, b, c, d) ∈ tuples4 r1 r2 r3 r4 <-> a ∈ r1 /\ b ∈ r2 /\ c ∈ r3 /\ d ∈ r4.
Proof.
  unfold tuples4. repeat setoid_rewrite list_elem_of_bind.
  setoid_rewrite list_elem_of_singleton. split.
  - intros (a' & (b' & (c' & (d' & E & Hd) & Hc) & Hb) & Ha).
    inversion E; subst. auto.
  - intros (Ha & Hb & Hc & Hd). eauto 10.
Qed.

Lemma for4_flat (r1 r2 r3 r4 : list Z) (body : Z -> Z -> Z -> Z -> M unit) h :
  for_ r1 (fun a => for_ r2 (fun b => for_ r3 (fun c => for_ r4 (fun d =>
    body a b c d)))) h
  = for_ (tuples4 r1 r2 r3 r4) (fun t => body t.1.1.1 t.1.1.2 t.1.2 t.2) h.
Proof.
  unfold tuples4. rewrite for_bind. apply for_ext. intros a h1.
  rewrite for_bind. apply for_ext. intros b h2.
  rewrite for_bind. apply for_ext. intros c h3.
  rewrite for_bind. apply for_ext. intros d h4.
  cbn. unfold bind. now destruct (body a b c d h4) as [[[]|e] h5].
Qed.

Lemma scatter_length {T} (idx : T -> nat) f (l : list T) buf :
  length (scatter idx f l buf) = length buf.
Proof.
  unfold scatter. revert buf. induction l as [|t l IH]; intros buf; [done|].
  cbn. now rewrite IH, length_insert.
Qed.

Lemma scatter_other {T} (idx : T -> nat) f (l : list T) buf p :
  (forall t, t ∈ l -> idx t <> p) -> scatter idx f l buf !! p = buf !! p.
Proof.
  unfold scatter. revert buf. induction l as [|t l IH]; intros buf H; [done|].
  cbn. rewrite IH by (intros; apply H; now right).
  apply list_lookup_insert_ne, H. left.
Qed.

Lemma scatter_lookup {T} `{EqDecision T} (idx : T -> nat) f (l : list T)
    buf t0 :
  (forall t t', t ∈ l -> t' ∈ l -> idx t = idx t' -> t = t') ->
  t0 ∈ l -> (idx t0 < length buf)%nat ->
  scatter idx f l buf !! idx t0 = Some (f t0).
Proof.
  unfold scatter. revert buf.
  induction l as [|t l IH]; intros buf Hinj Hin Hlt.
  - now apply elem_of_nil in Hin.
  - cbn. destruct (decide (t0 ∈ l)) as [Hl|Hl].
    + apply IH; [|done|now rewrite length_insert].
      intros t1 t2 H1 H2. apply Hinj; now right.
    + apply elem_of_cons in Hin as [->|]; [|done].
      fold (scatter idx f l (<[idx t := f t]> buf)).
      rewrite scatter_other.
      * now apply list_lookup_insert_eq.
      * intros t' Ht' E. apply Hl.
        rewrite <- (Hinj t' t); [done|now right|left|done].
Qed.

(** Four nested loops that set the element [(a, b, c, d)] of the tensor on
    top of the heap, at the index [idx], to [f]. *)
Lemma for4_scatter (h : list (list number)) (r1 r2 r3 r4 : list Z)
    (body : Z -> Z -> Z -> Z -> M unit)
    (idx : Z * Z * Z * Z -> Z) (f : Z * Z * Z * Z -> number) buf0 :
  (forall a b c d buf,
     a ∈ r1 -> b ∈ r2 -> c ∈ r3 -> d ∈ r4 -> length buf = length buf0 ->
     0 <= idx (a, b, c, d)
     /\ body a b c d (h ++ [buf])
        = (Ok tt, h ++ [<[Z.to_nat (idx (a, b, c, d)) := f (a, b, c, d)]> buf])) ->
  for_ r1 (fun a => for_ r2 (fun b => for_ r3 (fun c => for_ r4 (fun d =>
    body a b c d)))) (h ++ [buf0])
  = (Ok tt,
     h ++ [scatter (fun t => Z.to_nat (idx t)) f (tuples4 r1 r2 r3 r4) buf0]).
Proof.
  intros Hb. rewrite for4_flat.
  destruct (for_abstract (fun buf => h ++ [buf])
              (fun buf t => <[Z.to_nat (idx t) := f t]> buf)
              (fun buf => length buf = length buf0)
              (tuples4 r1 r2 r3 r4)
              (fun t => body t.1.1.1 t.1.1.2 t.1.2 t.2)) with (s := buf0)
    as [E _]; [|done|exact E].
  intros [[[a b] c] d] buf (Ha & Hb' & Hc & Hd)%elem_of_tuples4 Hlen.
  split; [|now rewrite length_insert].
  apply (Hb a b c d buf); assumption.
Qed.

(** *** The index of an element of a rank-4 tensor *)

Lemma locToIndex4 n0 n1 n2 n3 a b c d :
  locToIndex [n0; n1; n2; n3] [a; b; c; d] = ((a * n1 + b) * n2 + c) * n3 + d.
Proof. cbn. ring. Qed.

Lemma flat4_inj n1 n2 n3 a b c d a' b' c' d' :
  0 <= b < n1 -> 0 <= c < n2 -> 0 <= d < n3 ->
  0 <= b' < n1 -> 0 <= c' < n2 -> 0 <= d' < n3 ->
  ((a * n1 + b) * n2 + c) * n3 + d = ((a' * n1 + b') * n2 + c') * n3 + d' ->
  a = a' /\ b = b' /\ c = c' /\ d = d'.
Proof.
  intros Hb Hc Hd Hb' Hc' Hd' E.
  assert (Hinj : forall n x y x' y', 0 <= y < n -> 0 <= y' < n ->
            x * n + y = x' * n + y' -> x = x' /\ y = y').
  { intros n x y x' y' Hy Hy' Exy.
    assert (x = x') by nia. subst. split; [reflexivity|lia]. }
  apply Hinj in E as [E ->]; [|lia..].
  apply Hinj in E as [E ->]; [|lia..].
  apply Hinj in E as [-> ->]; [|lia..]. auto.
Qed.

Lemma flat4_bound n0 n1 n2 n3 a b c d :
  0 <= a < n0 -> 0 <= b < n1 -> 0 <= c < n2 -> 0 <= d < n3 ->
  0 <= ((a * n1 + b) * n2 + c) * n3 + d < n0 * n1 * n2 * n3.
Proof.
  intros Ha Hb Hc Hd.
  assert (0 <= a * n1 + b < n0 * n1) by nia.
  assert (0 <= (a * n1 + b) * n2 + c < n0 * n1 * n2) by nia.
  nia.
Qed.

(** ** Running maxPoolPositions and maxPoolBackprop *)

Section PoolRun.
Variables (h : list (list number)) (x dy : NDArray) (xv dyv : list number).
Variable ci : Conv2DInfo.
Hypothesis Hx : holds h x xv.
Hypothesis Hdy : holds h dy dyv.
Hypothesis Hg : poolGeometry ci.
Hypothesis Sx : shape x = inShape ci.
Hypothesis Sdy : shape dy = outShape ci.

Lemma geometry_pos :
  0 < batchSize ci /\ 0 < inHeight ci /\ 0 < inWidth ci /\ 0 < inChannels ci
  /\ 0 < outHeight ci /\ 0 < outWidth ci.
Proof.
  destruct Hx as (_ & _ & Px), Hdy as (_ & _ & Pdy).
  rewrite Sx, (pg_inShape _ Hg) in Px.
  rewrite Sdy, (pg_outShape _ Hg) in Pdy.
  repeat (apply Forall_cons in Px as [? Px]).
  repeat (apply Forall_cons in Pdy as [? Pdy]).
  auto 10.
Qed.

Lemma outSize :
  sizeFromShape (outShape ci)
  = batchSize ci * outHeight ci * outWidth ci * inChannels ci.
Proof. rewrite (pg_outShape _ Hg). cbn. ring. Qed.

Lemma inSize :
  sizeFromShape (inShape ci)
  = batchSize ci * inHeight ci * inWidth ci * inChannels ci.
Proof. rewrite (pg_inShape _ Hg). cbn. ring. Qed.

Lemma maxPoolPositions_run :
  MathBackendCPU.maxPoolPositions x ci h
  = (Ok (mkNDArray (outShape ci) float32 (length h)),
     h ++ [scatter
             (fun t => Z.to_nat (locToIndex (outShape ci)
                                   [t.1.1.1; t.1.2; t.2; t.1.1.2]))
             (fun t =>
                Math_fround (num (maxScan xv ci t.1.1.1 t.1.1.2 t.1.2 t.2).2))
             (tuples4 (range 0 (batchSize ci)) (range 0 (inChannels ci))
                      (range 0 (outHeight ci)) (range 0 (outWidth ci)))
             (replicate (Z.to_nat (sizeFromShape (outShape ci))) (num 0))]).
Proof.
  destruct geometry_pos as (HB & HIH & HIW & HC & HOH & HOW).
  unfold MathBackendCPU.maxPoolPositions. unfold NDArray_zeros.
  erewrite bind_ok.
  2:{ erewrite bind_ok; [|apply newTypedArray_ok; rewrite outSize; nia].
      reflexivity. }
  erewrite bind_ok; [reflexivity|].
  apply (for4_scatter h _ _ _ _ _
           (fun t => locToIndex (outShape ci) [t.1.1.1; t.1.2; t.2; t.1.1.2])
           (fun t =>
              Math_fround (num (maxScan xv ci t.1.1.1 t.1.1.2 t.1.2 t.2).2))).
  intros b d yR yC buf Hb%elem_of_range Hd%elem_of_range
         HyR%elem_of_range HyC%elem_of_range Hlen.
  cbn [fst snd]. split.
  { rewrite (pg_outShape _ Hg), locToIndex4.
    pose proof (flat4_bound (batchSize ci) (outHeight ci) (outWidth ci)
                  (inChannels ci) b yR yC d). lia. }
  erewrite bind_ok.
  2:{ apply (reads_fold_for _ _
        (fun st xR =>
           fold_left
             (fun st xC =>
                let pixel := pixelAt xv ci b d (xR, xC) in
                if ngt pixel st.1
                then (pixel,
                      (xR - (yR * strideHeight ci - pad_top (padInfo ci)))
                        * filterWidth ci
                      + (xC - (yC * strideWidth ci - pad_left (padInfo ci))))
                else st)
             (poolCols ci yC) st)).
      intros xR st _.
      apply (reads_fold_for _ _
        (fun st xC =>
           let pixel := pixelAt xv ci b d (xR, xC) in
           if ngt pixel st.1
           then (pixel,
                 (xR - (yR * strideHeight ci - pad_top (padInfo ci)))
                   * filterWidth ci
                 + (xC - (yC * strideWidth ci - pad_left (padInfo ci))))
           else st)).
      intros xC [mv mpos] _.
      eapply reads_bind; [apply reads_get|].
      rewrite (holds_buffer _ _ _ _ Hx), Sx.
      unfold pixelAt, elementAt. cbn [fst snd].
      destruct (ngt _ mv); apply reads_ret. }
  unfold set. cbn [data shape].
  apply store_top.
  rewrite (pg_outShape _ Hg), locToIndex4.
  pose proof (flat4_bound (batchSize ci) (outHeight ci) (outWidth ci)
                (inChannels ci) b yR yC d). lia.
Qed.

(** The buffer of max positions. *)
Let mp :=
  scatter
    (fun t => Z.to_nat (locToIndex (outShape ci)
                          [t.1.1.1; t.1.2; t.2; t.1.1.2]))
    (fun t => Math_fround (num (maxScan xv ci t.1.1.1 t.1.1.2 t.1.2 t.2).2))
    (tuples4 (range 0 (batchSize ci)) (range 0 (inChannels ci))
             (range 0 (outHeight ci)) (range 0 (outWidth ci)))
    (replicate (Z.to_nat (sizeFromShape (outShape ci))) (num 0)).

Lemma maxPoolBackprop_run :
  MathBackendCPU.maxPoolBackprop dy x ci h
  = (Ok (mkNDArray (inShape ci) float32 (S (length h))),
     h ++ [mp;
           scatter
             (fun t => Z.to_nat (locToIndex (inShape ci)
                                   [t.1.1.1; t.1.2; t.2; t.1.1.2]))
             (fun t =>
                Math_fround (dotProdOf mp dyv ci t.1.1.1 t.1.1.2 t.1.2 t.2))
             (tuples4 (range 0 (batchSize ci)) (range 0 (inChannels ci))
                      (range 0 (inHeight ci)) (range 0 (inWidth ci)))
             (replicate (Z.to_nat (sizeFromShape (inShape ci))) (num 0))]).
Proof.
  destruct geometry_pos as (HB & HIH & HIW & HC & HOH & HOW).
  unfold MathBackendCPU.maxPoolBackprop.
  erewrite bind_ok; [|apply maxPoolPositions_run]. fold mp.
  unfold NDArray_zeros. rewrite Sx.
  erewrite bind_ok.
  2:{ erewrite bind_ok; [|apply newTypedArray_ok; rewrite inSize; nia].
      reflexivity. }
  rewrite length_app, Nat.add_1_r.
  replace (h ++ [mp; scatter _ _ _ _])
    with ((h ++ [mp]) ++
          [scatter
             (fun t => Z.to_nat (locToIndex (inShape ci)
                                   [t.1.1.1; t.1.2; t.2; t.1.1.2]))
             (fun t =>
                Math_fround (dotProdOf mp dyv ci t.1.1.1 t.1.1.2 t.1.2 t.2))
             (tuples4 (range 0 (batchSize ci)) (range 0 (inChannels ci))
                      (range 0 (inHeight ci)) (range 0 (inWidth ci)))
             (replicate (Z.to_nat (sizeFromShape (inShape ci))) (num 0))])
    by (now rewrite <- app_assoc).
  erewrite bind_ok; [reflexivity|].
  replace (S (length h)) with (length (h ++ [mp]))
    by (rewrite length_app; cbn; lia).
  apply (for4_scatter (h ++ [mp]) _ _ _ _ _
           (fun t => locToIndex (inShape ci) [t.1.1.1; t.1.2; t.2; t.1.1.2])
           (fun t =>
              Math_fround (dotProdOf mp dyv ci t.1.1.1 t.1.1.2 t.1.2 t.2))).
  intros b d dxR dxC buf Hb%elem_of_range Hd%elem_of_range
         HdxR%elem_of_range HdxC%elem_of_range Hlen.
  cbn [fst snd].
  assert (Hidx : 0 <= locToIndex (inShape ci) [b; dxR; dxC; d]).
  { rewrite (pg_inShape _ Hg), locToIndex4.
    pose proof (flat4_bound (batchSize ci) (inHeight ci) (inWidth ci)
                  (inChannels ci) b dxR dxC d). lia. }
  split; [exact Hidx|].
  assert (Bmp : buffer ((h ++ [mp]) ++ [buf]) (length h) = mp).
  { rewrite <- app_assoc. cbn. apply buffer_app_1. }
  assert (Bdy : buffer ((h ++ [mp]) ++ [buf]) (data dy) = dyv).
  { rewrite <- app_assoc. apply holds_buffer_any, Hdy. }
  erewrite bind_ok.
  2:{ apply (reads_fold_for _ _ (fun dotProd wR =>
        let dyR := quot (dxR - (filterHeight ci - 1 - pad_top (padInfo ci))
                         + wR) (strideHeight ci) in
        if negb (Qle_bool 0 dyR) || Qle_bool (inject_Z (outHeight ci)) dyR
           || negb (Qeq_bool (inject_Z (Qfloor dyR)) dyR)
        then dotProd
        else
          fold_left
            (fun dotProd wC =>
               let dyC :=
                 quot (dxC - (filterWidth ci - 1 - pad_left (padInfo ci))
                       + wC) (strideWidth ci) in
               if negb (Qle_bool 0 dyC)
                  || Qle_bool (inject_Z (outWidth ci)) dyC
                  || negb (Qeq_bool (inject_Z (Qfloor dyC)) dyC)
               then dotProd
               else
                 let m := elementAt (outShape ci) mp
                            [b; Qfloor dyR; Qfloor dyC; d] in
                 let maxPos :=
                   nsub (num (filterHeight ci * filterWidth ci - 1)) m in
                 let curPos := wR * filterWidth ci + wC in
                 if neqb maxPos (num curPos)
                 then roundDouble
                        (nadd dotProd
                           (roundDouble
                              (nmul (elementAt (outShape ci) dyv
                                       [b; Qfloor dyR; Qfloor dyC; d])
                                    (num 1))))
                 else dotProd)
            (range 0 (filterWidth ci)) dotProd)).
      intros wR dotProd _. cbv zeta.
      destruct (negb _ || _ || _); [apply reads_ret|].
      apply (reads_fold_for _ _ (fun dotProd wC =>
        if negb (Qle_bool 0
                   (quot (dxC - (filterWidth ci - 1 - pad_left (padInfo ci))
                          + wC) (strideWidth ci)))
           || Qle_bool (inject_Z (outWidth ci))
                (quot (dxC - (filterWidth ci - 1 - pad_left (padInfo ci))
                       + wC) (strideWidth ci))
           || negb (Qeq_bool
                      (inject_Z (Qfloor
                         (quot (dxC - (filterWidth ci - 1
                                       - pad_left (padInfo ci)) + wC)
                               (strideWidth ci))))
                      (quot (dxC - (filterWidth ci - 1
                                    - pad_left (padInfo ci)) + wC)
                            (strideWidth ci)))
        then dotProd
        else
          if neqb
               (nsub (num (filterHeight ci * filterWidth ci - 1))
                  (elementAt (outShape ci) mp
                     [b; Qfloor (quot (dxR - (filterHeight ci - 1
                                              - pad_top (padInfo ci)) + wR)
                                      (strideHeight ci));
                      Qfloor (quot (dxC - (filterWidth ci - 1
                                           - pad_left (padInfo ci)) + wC)
                                   (strideWidth ci)); d]))
               (num (wR * filterWidth ci + wC))
          then roundDouble
                 (nadd dotProd
                    (roundDouble
                       (nmul (elementAt (outShape ci) dyv
                          [b; Qfloor (quot (dxR - (filterHeight ci - 1
                                                   - pad_top (padInfo ci)) + wR)
                                           (strideHeight ci));
                           Qfloor (quot (dxC - (filterWidth ci - 1
                                                - pad_left (padInfo ci)) + wC)
                                        (strideWidth ci)); d]) (num 1))))
          else dotProd)).
      intros wC dotProd' _.
      destruct (negb _ || _ || _); [apply reads_ret|].
      eapply reads_bind; [apply reads_get|].
      cbn [data shape]. rewrite Bmp.
      fold (elementAt (outShape ci) mp
              [b; Qfloor (quot (dxR - (filterHeight ci - 1
                                       - pad_top (padInfo ci)) + wR)
                               (strideHeight ci));
               Qfloor (quot (dxC - (filterWidth ci - 1
                                    - pad_left (padInfo ci)) + wC)
                            (strideWidth ci)); d]).
      destruct (neqb _ _); cbn [Z.eqb]; [|apply reads_ret].
      eapply reads_bind; [apply reads_get|].
      rewrite Bdy, Sdy. apply reads_ret. }
  unfold set. cbn [data shape]. unfold dotProdOf.
  apply store_top. exact Hidx.
Qed.
End PoolRun.

(** ** The arithmetic of the gather *)

Lemma quot_Qmake n s : 0 < s -> (quot n s == n # Z.to_pos s)%Q.
Proof.
  intros Hs. unfold quot, Qdiv, Qinv, inject_Z. cbn.
  destruct s as [|p|p]; try lia. cbn.
  unfold Qeq, Qmult. cbn. rewrite Pos.mul_1_l. lia.
Qed.

(** The test that maxPoolBackprop makes on [dyR = n / s]: it is an integer
    of [[0, o)] exactly when [s] divides [n] and [0 <= n < o * s]. *)
Lemma quot_test n s o :
  0 < s ->
  negb (Qle_bool 0 (quot n s)) || Qle_bool (inject_Z o) (quot n s)
  || negb (Qeq_bool (inject_Z (Qfloor (quot n s))) (quot n s)) = false
  <-> 0 <= n < o * s /\ n mod s = 0.
Proof.
  intros Hs.
  assert (Efl : Qfloor (quot n s) = n / s).
  { rewrite (Qfloor_comp _ _ (quot_Qmake n s Hs)). cbn.
    now rewrite Z2Pos.id by lia. }
  rewrite Efl.
  assert (E1 : (0 <= quot n s)%Q <-> 0 <= n).
  { rewrite (quot_Qmake n s Hs). unfold Qle. cbn. lia. }
  assert (E2 : (inject_Z o <= quot n s)%Q <-> o * s <= n).
  { rewrite (quot_Qmake n s Hs). unfold Qle, inject_Z. cbn.
    rewrite Z2Pos.id by lia. lia. }
  assert (E3 : (inject_Z (n / s) == quot n s)%Q <-> n mod s = 0).
  { rewrite (quot_Qmake n s Hs). unfold Qeq, inject_Z. cbn.
    rewrite Z2Pos.id by lia.
    pose proof (Z.div_mod n s ltac:(lia)). lia. }
  rewrite !orb_false_iff, !negb_false_iff.
  rewrite Qle_bool_iff, Qeq_bool_iff, E1, E3.
  split.
  - intros [[H1 H2] H3]. repeat split; try lia.
    destruct (Z_lt_le_dec n (o * s)); [lia|].
    apply E2 in l. apply Qle_bool_iff in l. congruence.
  - intros [[H1 H2] H3]. repeat split; try lia.
    destruct (Qle_bool (inject_Z o) (quot n s)) eqn:E; [|reflexivity].
    apply Qle_bool_iff, E2 in E. lia.
Qed.

Lemma quot_floor n s : 0 < s -> Qfloor (quot n s) = n / s.
Proof.
  intros Hs. rewrite (Qfloor_comp _ _ (quot_Qmake n s Hs)). cbn.
  now rewrite Z2Pos.id by lia.
Qed.

(** The comparison of the reflected max position with the current one. *)
Lemma neqb_nsub_num a p c : neqb (nsub (num a) (num p)) (num c) = (a - p =? c).
Proof.
  unfold nsub, num, nopp, nadd, neqb.
  apply eq_true_iff_eq. rewrite Qeq_bool_iff, Z.eqb_eq.
  rewrite !Qred_correct. rewrite <- inject_Z_opp, <- inject_Z_plus.
  unfold Qeq, inject_Z. cbn. lia.
Qed.

(** Two sorted lists of integers with the same elements are equal. *)
Lemma sorted_Z_unique (l1 l2 : list Z) :
  StronglySorted Z.lt l1 -> StronglySorted Z.lt l2 ->
  (forall z, z ∈ l1 <-> z ∈ l2) -> l1 = l2.
Proof.
  intros S1 S2 E.
  assert (ND : forall l, StronglySorted Z.lt l -> NoDup l).
  { induction 1 as [|a l Hl IH Ha]; constructor; [|exact IH].
    intros Hin. rewrite Forall_forall in Ha. specialize (Ha a Hin). lia. }
  apply (StronglySorted_unique_strong Z.lt); [|done|done|].
  - intros. lia.
  - apply NoDup_Permutation; auto.
Qed.

Lemma range_sorted lo hi : StronglySorted Z.lt (range lo hi).
Proof.
  destruct (decide (lo <= hi)) as [H|H].
  2:{ rewrite range_nil by lia. constructor. }
  remember (Z.to_nat (hi - lo)) as n eqn:En.
  revert lo H En. induction n as [|n IH]; intros lo H En.
  - rewrite range_nil by lia. constructor.
  - rewrite range_cons by lia. constructor.
    + apply IH; lia.
    + apply Forall_forall. intros z Hz%elem_of_range. lia.
Qed.

Lemma filter_sorted (P : Z -> Prop) `{forall z, Decision (P z)} (l : list Z) :
  StronglySorted Z.lt l -> StronglySorted Z.lt (filter P l).
Proof.
  induction 1 as [|a l Hl IH Ha]; [constructor|].
  rewrite filter_cons. destruct (decide (P a)); [|exact IH].
  constructor; [exact IH|].
  rewrite Forall_forall in *. intros z [_ Hz]%list_elem_of_filter.
  now apply Ha.
Qed.

Lemma omap_sorted (g : Z -> option Z) (l : list Z) :
  (forall x y a b, x ∈ l -> y ∈ l -> x < y -> g x = Some a -> g y = Some b ->
                   a < b) ->
  StronglySorted Z.lt l -> StronglySorted Z.lt (omap g l).
Proof.
  intros Hmono Hl. induction Hl as [|x l Hl IH Hx]; [constructor|].
  csimpl. rewrite Forall_forall in Hx.
  assert (IH' : StronglySorted Z.lt (omap g l)).
  { apply IH. intros. eapply (Hmono x0 y); eauto; now right. }
  destruct (g x) as [a|] eqn:E; [|exact IH'].
  constructor; [exact IH'|].
  apply Forall_forall. intros b (y & Hy & Ey)%list_elem_of_omap.
  eapply (Hmono x y); eauto; [left|now right].
Qed.

(** ** The scan of a window with a unique maximum *)

Lemma fold_left_bind {A B S} (g : S -> B -> S) (f : A -> list B) (l : list A) s :
  fold_left g (l ≫= f) s = fold_left (fun s a => fold_left g (f a) s) l s.
Proof.
  revert s. induction l as [|a l IH]; intros s; [reflexivity|].
  rewrite bind_cons, fold_left_app. cbn. apply IH.
Qed.

Lemma nlt_asym a b : nlt a b = true -> nlt b a = false.
Proof.
  destruct a as [| | |x], b as [| | |y]; cbn; try congruence.
  rewrite negb_true_iff, negb_false_iff. intros H.
  apply Qle_bool_iff. destruct (Qlt_le_dec y x) as [L|L]; [|exact L].
  apply Qlt_le_weak in L. apply Qle_bool_iff in L. congruence.
Qed.

Section MaxScan.
Context {T : Type}.
Variables (val : T -> number) (pos : T -> Z) (tmax : T).

Let stepP (st : number * Z) (t : T) : number * Z :=
  if ngt (val t) st.1 then (val t, pos t) else st.

Lemma maxScan_general (w : list T) : forall st,
  (forall t, t ∈ w -> t = tmax \/ nlt (val t) (val tmax) = true) ->
  (st = (val tmax, pos tmax) ->
   fold_left stepP w st = (val tmax, pos tmax))
  /\ (nlt st.1 (val tmax) = true -> tmax ∈ w ->
      fold_left stepP w st = (val tmax, pos tmax)).
Proof.
  induction w as [|t w IH]; intros st Hall.
  - split; [done|]. intros _ H. now apply elem_of_nil in H.
  - assert (Hall' : forall t', t' ∈ w ->
              t' = tmax \/ nlt (val t') (val tmax) = true)
      by (intros; apply Hall; now right).
    cbn [fold_left]. split.
    + intros ->. apply (proj1 (IH _ Hall')).
      unfold stepP, ngt. cbn [fst].
      destruct (Hall t ltac:(left)) as [->|Hlt].
      * now rewrite nlt_irrefl.
      * now rewrite (nlt_asym _ _ Hlt).
    + intros Hst Hin.
      destruct (Hall t ltac:(left)) as [->|Hlt].
      * apply (proj1 (IH _ Hall')). unfold stepP, ngt. now rewrite Hst.
      * apply elem_of_cons in Hin as [->|Hin].
        { now rewrite nlt_irrefl in Hlt. }
        apply (proj2 (IH _ Hall')); [|exact Hin].
        unfold stepP. destruct (ngt (val t) st.1); [exact Hlt|exact Hst].
Qed.

Lemma maxScan_none_above (w : list T) :
  (forall t, t ∈ w -> ngt (val t) NInf = false) ->
  fold_left stepP w (NInf, -1) = (NInf, -1).
Proof.
  induction w as [|t w IH]; intros Hall; [reflexivity|].
  cbn [fold_left]. unfold stepP at 2. cbn [fst].
  rewrite (Hall t) by left. apply IH. intros; apply Hall; now right.
Qed.

Lemma maxScan_unique_max (w : list T) :
  tmax ∈ w -> nlt NInf (val tmax) = true ->
  (forall t, t ∈ w -> t = tmax \/ nlt (val t) (val tmax) = true) ->
  fold_left stepP w (NInf, -1) = (val tmax, pos tmax).
Proof.
  intros Hin Hinf Hall.
  now apply (proj2 (maxScan_general w (NInf, -1) Hall)).
Qed.
End MaxScan.

Lemma isStrictMax_spec xv ci b d w t :
  isStrictMax xv ci b d w t = true ->
  forall t', t' ∈ w ->
    t' = t \/ nlt (pixelAt xv ci b d t') (pixelAt xv ci b d t) = true.
Proof.
  unfold isStrictMax. intros H2 t' Ht'. rewrite forallb_forall in H2.
  specialize (H2 t' ltac:(now apply list_elem_of_In)).
  apply orb_true_iff in H2 as [H2|H2]; [left|right; exact H2].
  now apply bool_decide_eq_true in H2.
Qed.

Lemma nlt_above_NInf a b : nlt a b = true -> nlt NInf b = true.
Proof. destruct a, b; cbn; congruence. Qed.

Lemma argMaxOf_spec xv ci b yR yC d t :
  argMaxOf xv ci b yR yC d = Some t ->
  t ∈ poolWindow ci yR yC
  /\ isStrictMax xv ci b d (poolWindow ci yR yC) t = true.
Proof.
  unfold argMaxOf. intros [H1 H2]%find_some. split; [|exact H2].
  now apply list_elem_of_In.
Qed.

Lemma maxScan_folds xv ci b d yR yC :
  maxScan xv ci b d yR yC
  = fold_left
      (fun st t =>
         if ngt (pixelAt xv ci b d t) st.1
         then (pixelAt xv ci b d t,
               (t.1 - (yR * strideHeight ci - pad_top (padInfo ci)))
               * filterWidth ci
               + (t.2 - (yC * strideWidth ci - pad_left (padInfo ci))))
         else st)
      (poolWindow ci yR yC) (NInf, -1).
Proof.
  unfold maxScan, poolWindow.
  rewrite fold_left_bind. apply fold_left_ext_in. intros xR st _.
  rewrite fold_left_bind. reflexivity.
Qed.

(** A window whose maximum is above [-Infinity]: the scan ends on it. *)
Lemma maxScan_argMax xv ci b d yR yC t :
  argMaxOf xv ci b yR yC d = Some t ->
  nlt NInf (pixelAt xv ci b d t) = true ->
  maxScan xv ci b d yR yC
  = (pixelAt xv ci b d t,
     (t.1 - (yR * strideHeight ci - pad_top (padInfo ci))) * filterWidth ci
     + (t.2 - (yC * strideWidth ci - pad_left (padInfo ci)))).
Proof.
  intros (Hin & Hmax)%argMaxOf_spec Hinf.
  pose proof (isStrictMax_spec _ _ _ _ _ _ Hmax) as Hall.
  rewrite maxScan_folds.
  apply (maxScan_unique_max (pixelAt xv ci b d)
           (fun t => (t.1 - (yR * strideHeight ci - pad_top (padInfo ci)))
                     * filterWidth ci
                     + (t.2 - (yC * strideWidth ci
                               - pad_left (padInfo ci))))
           t (poolWindow ci yR yC) Hin Hinf Hall).
Qed.

(** A window whose maximum is not above [-Infinity]: the scan finds no
    position. *)
Lemma maxScan_unrouted xv ci b d yR yC t :
  argMaxOf xv ci b yR yC d = Some t ->
  nlt NInf (pixelAt xv ci b d t) = false ->
  maxScan xv ci b d yR yC = (NInf, -1).
Proof.
  intros (Hin & Hmax)%argMaxOf_spec Hinf.
  pose proof (isStrictMax_spec _ _ _ _ _ _ Hmax) as Hall.
  rewrite maxScan_folds.
  apply (maxScan_none_above (pixelAt xv ci b d)
           (fun t => (t.1 - (yR * strideHeight ci - pad_top (padInfo ci)))
                     * filterWidth ci
                     + (t.2 - (yC * strideWidth ci
                               - pad_left (padInfo ci))))).
  intros t' Ht'. unfold ngt.
  destruct (Hall t' Ht') as [->|Hlt]; [exact Hinf|].
  apply nlt_above_NInf in Hlt. congruence.
Qed.

(** ** The gather along one axis *)

Lemma gatherAt_Some s f p o x w y :
  0 < s ->
  gatherAt s f p o x w = Some y
  <-> 0 <= y < o /\ y * s = x - (f - 1 - p) + w.
Proof.
  intros Hs. unfold gatherAt. cbv zeta.
  set (n := x - (f - 1 - p) + w).
  destruct ((0 <=? n) && (n <? o * s) && (n mod s =? 0)) eqn:T.
  - apply andb_true_iff in T as [T T3]. apply andb_true_iff in T as [T1 T2].
    apply Z.eqb_eq, Z.mod_divide in T3; [|lia]. destruct T3 as [q Eq].
    rewrite Eq in *. rewrite Z.div_mul by lia. split.
    + intros [= <-]. nia.
    + intros [H1 H2]. f_equal. nia.
  - split; [discriminate|]. intros [H1 H2]. exfalso.
    rewrite <- H2 in T. rewrite Z.mod_mul in T by lia.
    replace (0 <=? y * s) with true in T by nia.
    replace (y * s <? o * s) with true in T by nia.
    discriminate.
Qed.

Lemma gather_eq s f p o x : 0 < s -> gatherW s f p o x = gatherY s f p o x.
Proof.
  intros Hs. apply sorted_Z_unique.
  - apply omap_sorted; [|apply range_sorted].
    intros w w' a b _ _ Hlt Ea%gatherAt_Some Eb%gatherAt_Some; [|lia..].
    nia.
  - apply filter_sorted, range_sorted.
  - intros y. unfold gatherW, gatherY.
    rewrite list_elem_of_omap, list_elem_of_filter. split.
    + intros (w & Hw%elem_of_range & E%gatherAt_Some); [|lia].
      rewrite elem_of_range. lia.
    + intros [Hy Hr%elem_of_range].
      exists (y * s - (x - (f - 1 - p))). rewrite elem_of_range.
      split; [lia|]. apply gatherAt_Some; lia.
Qed.

Lemma elem_of_gatherY s f p o x y :
  y ∈ gatherY s f p o x <-> 0 <= y < o /\ y * s - p <= x < y * s - p + f.
Proof.
  unfold gatherY. rewrite list_elem_of_filter, elem_of_range. tauto.
Qed.

Lemma fold_left_omap {A B S} (g : A -> option B) (F : S -> B -> S)
    (l : list A) s :
  fold_left (fun s a => match g a with Some b => F s b | None => s end) l s
  = fold_left F (omap g l) s.
Proof.
  revert s. induction l as [|a l IH]; intros s; [reflexivity|].
  csimpl. destruct (g a); cbn; apply IH.
Qed.

Lemma fold_left_filter {A S} (P : A -> Prop) `{forall a, Decision (P a)}
    (F : S -> A -> S) (l : list A) s :
  fold_left F (filter P l) s
  = fold_left (fun s a => if decide (P a) then F s a else s) l s.
Proof.
  revert s. induction l as [|a l IH]; intros s; [reflexivity|].
  rewrite filter_cons. cbn. destruct (decide (P a)); cbn; apply IH.
Qed.

Lemma fold_left_fmap {A B S} (g : A -> B) (F : S -> B -> S) (l : list A) s :
  fold_left F (g <$> l) s = fold_left (fun s a => F s (g a)) l s.
Proof.
  revert s. induction l as [|a l IH]; intros s; [reflexivity|]. apply IH.
Qed.

Lemma fold_left_id {A S} (F : S -> A -> S) (l : list A) s :
  (forall a s', a ∈ l -> F s' a = s') -> fold_left F l s = s.
Proof.
  induction l as [|a l IH]; intros H; [reflexivity|].
  cbn. rewrite H by left. apply IH. intros. apply H. now right.
Qed.

(** The loop over the filter offsets of one axis is a loop over the output
    positions that the gather finds. *)
Lemma fold_gather {S} (s f p o x : Z) (inner : Z -> Z -> S -> S) (acc : S) :
  0 < s ->
  fold_left
    (fun acc w =>
       let dy := quot (x - (f - 1 - p) + w) s in
       if negb (Qle_bool 0 dy) || Qle_bool (inject_Z o) dy
          || negb (Qeq_bool (inject_Z (Qfloor dy)) dy)
       then acc
       else inner w (Qfloor dy) acc)
    (range 0 f) acc
  = fold_left (fun acc y => inner (y * s - (x - (f - 1 - p))) y acc)
              (gatherY s f p o x) acc.
Proof.
  intros Hs. rewrite <- gather_eq by exact Hs. unfold gatherW.
  rewrite <- fold_left_omap. apply fold_left_ext_in.
  intros w a Hw. cbv zeta.
  set (n := x - (f - 1 - p) + w).
  destruct (negb _ || _ || _) eqn:T.
  - destruct (gatherAt s f p o x w) as [y|] eqn:G; [|done].
    exfalso. apply gatherAt_Some in G as [G1 G2]; [|lia].
    assert (G : 0 <= n < o * s /\ n mod s = 0).
    { fold n in G2. rewrite <- G2. rewrite Z.mod_mul by lia. nia. }
    apply (quot_test n s o Hs) in G. congruence.
  - apply (quot_test n s o Hs) in T as [T1 T2].
    rewrite quot_floor by exact Hs.
    apply Z.mod_divide in T2; [|lia]. destruct T2 as [q Eq].
    assert (G : gatherAt s f p o x w = Some q).
    { apply gatherAt_Some; [lia|]. fold n. nia. }
    rewrite G, Eq, Z.div_mul by lia. f_equal. unfold n in Eq. lia.
Qed.

(** ** Rounding to binary32 and to binary64 *)

Lemma roundHalfEven_comp q q' : (q == q')%Q -> roundHalfEven q = roundHalfEven q'.
Proof.
  intros E. unfold roundHalfEven. rewrite (Qfloor_comp _ _ E).
  assert (E' : (q - inject_Z (Qfloor q') == q' - inject_Z (Qfloor q'))%Q)
    by now rewrite E.
  now rewrite (Qcompare_comp _ _ E' (1 # 2) (1 # 2) (Qeq_refl _)).
Qed.

Lemma roundHalfEven_Z z : roundHalfEven (inject_Z z) = z.
Proof.
  unfold roundHalfEven. rewrite Qfloor_Z.
  assert (E : (inject_Z z - inject_Z z == 0)%Q) by ring.
  now rewrite (Qcompare_comp _ _ E (1 # 2) (1 # 2) (Qeq_refl _)).
Qed.

Lemma pow2_nonzero e : ~ (2 ^ e == 0)%Q.
Proof. apply Qpower_not_0. discriminate. Qed.

Lemma pow2_split a b : (2 ^ a == 2 ^ (a - b) * 2 ^ b)%Q.
Proof.
  rewrite <- Qpower_plus by discriminate. now replace (a - b + b) with a by lia.
Qed.

Lemma pow2_Z k : 0 <= k -> (2 ^ k == inject_Z (2 ^ k))%Q.
Proof. intros Hk. now rewrite Zpower_Qpower by exact Hk. Qed.

Lemma pow2_le a b : a <= b -> (2 ^ a <= 2 ^ b)%Q.
Proof. intros H. apply Qpower_le_compat_l; [exact H|discriminate]. Qed.

(** A binary32 number is in lowest terms. *)
Lemma float32Value_canonical v : float32Value v -> canonical v.
Proof.
  destruct v as [| | |q]; try exact (fun _ => I).
  unfold float32Value, Math_fround, roundBinary.
  destruct (Qeq_bool q 0); [now intros <-|].
  destruct (Qle_bool _ _); [destruct (Qle_bool 0 q); discriminate|].
  intros E.
  apply (f_equal (fun v => match v with Fin p => p | _ => q end)) in E.
  cbn. rewrite <- E at 1.
  etransitivity; [apply Qred_complete, Qred_correct|exact E].
Qed.

(** A binary32 number is a binary64 number. *)
Lemma float32Value_double v : float32Value v -> roundDouble v = v.
Proof.
  destruct v as [| | |q]; try reflexivity.
  unfold float32Value, Math_fround, roundDouble, roundBinary.
  destruct (Qeq_bool q 0) eqn:Z0; [now intros <-|].
  set (e := Qlog2 q).
  set (ex := Z.max (e - (24 - 1)) (-126 - (24 - 1))).
  set (ex' := Z.max (e - (53 - 1)) (-1022 - (53 - 1))).
  set (n := roundHalfEven (q / 2 ^ ex)).
  destruct (Qle_bool (2 ^ (127 + 1)) (Qabs (inject_Z n * 2 ^ ex))) eqn:O.
  { destruct (Qle_bool 0 q); discriminate. }
  intros E.
  apply (f_equal (fun v => match v with Fin p => p | _ => q end)) in E.
  assert (Eq : (q == inject_Z n * 2 ^ ex)%Q).
  { rewrite <- E at 1. apply Qred_correct. }
  assert (Hk : 0 <= ex - ex') by lia.
  assert (En : (q / 2 ^ ex' == inject_Z (n * 2 ^ (ex - ex')))%Q).
  { rewrite Eq at 1. rewrite (pow2_split ex ex'), (pow2_Z _ Hk), inject_Z_mult.
    field. apply pow2_nonzero. }
  rewrite (roundHalfEven_comp _ _ En), roundHalfEven_Z.
  assert (Er : (inject_Z (n * 2 ^ (ex - ex')) * 2 ^ ex' == q)%Q).
  { rewrite <- En. field. apply pow2_nonzero. }
  destruct (Qle_bool (2 ^ (1023 + 1))
              (Qabs (inject_Z (n * 2 ^ (ex - ex')) * 2 ^ ex'))) eqn:O'.
  { exfalso. apply Qle_bool_iff in O'. rewrite Er, Eq in O'.
    assert (L : (2 ^ (127 + 1) <= 2 ^ (1023 + 1))%Q) by (apply pow2_le; lia).
    assert (O2 : Qle_bool (2 ^ (127 + 1)) (Qabs (inject_Z n * 2 ^ ex)) = true).
    { apply Qle_bool_iff. eapply Qle_trans; [exact L|exact O']. }
    congruence. }
  f_equal. transitivity (Qred q); [apply Qred_complete; exact Er|].
  pose proof (Qred_complete _ _ (Qred_correct (inject_Z n * 2 ^ ex))) as I.
  rewrite E in I. exact I.
Qed.

Lemma Qred_inject_Z z : Qred (inject_Z z) = inject_Z z.
Proof.
  unfold Qred, inject_Z. cbn [Qnum Qden].
  pose proof (Z.ggcd_gcd z 1) as G.
  pose proof (Z.ggcd_correct_divisors z 1) as D.
  destruct (Z.ggcd z 1) as [g [a b]]. cbn in *.
  rewrite Z.gcd_1_r in G. subst g. destruct D as [-> D].
  rewrite !Z.mul_1_l in *. now subst b.
Qed.

Lemma Qlog2_Z z : z <> 0 -> Qlog2 (inject_Z z) = Z.log2 (Z.abs z).
Proof.
  intros Hz. unfold Qlog2, inject_Z. cbn [Qnum Qden].
  change (Z.log2 1) with 0. rewrite Z.sub_0_r.
  destruct (Qle_bool _ _) eqn:C; [reflexivity|].
  exfalso. apply (proj2 (not_true_iff_false _) C). apply Qle_bool_iff.
  rewrite pow2_Z by apply Z.log2_nonneg.
  change (Qabs (z # 1)) with (inject_Z (Z.abs z)).
  rewrite <- Zle_Qle. apply Z.log2_spec. lia.
Qed.

(** An integer of magnitude below [2 ^ 24] is a binary32 number. *)
Lemma float32Value_int z : Z.abs z < 2 ^ 24 -> float32Value (num z).
Proof.
  intros Hz. unfold float32Value, Math_fround, roundBinary, num.
  destruct (Qeq_bool (inject_Z z) 0) eqn:Z0.
  { apply Qeq_bool_iff in Z0. unfold Qeq, inject_Z in Z0. cbn in Z0.
    replace z with 0 by lia. reflexivity. }
  assert (Hnz : z <> 0).
  { intros ->. discriminate Z0. }
  rewrite (Qlog2_Z z Hnz).
  assert (He : Z.log2 (Z.abs z) < 24) by (apply Z.log2_lt_pow2; lia).
  set (ex := Z.max (Z.log2 (Z.abs z) - (24 - 1)) (-126 - (24 - 1))).
  assert (Hex : 0 <= - ex) by lia.
  assert (Ep : (2 ^ ex == / inject_Z (2 ^ (- ex)))%Q).
  { replace ex with (- - ex) at 1 by lia.
    rewrite Qpower_opp, (pow2_Z _ Hex). reflexivity. }
  assert (Hp : ~ (inject_Z (2 ^ (- ex)) == 0)%Q).
  { rewrite <- (pow2_Z _ Hex). apply pow2_nonzero. }
  assert (En : (inject_Z z / 2 ^ ex == inject_Z (z * 2 ^ (- ex)))%Q).
  { rewrite Ep, inject_Z_mult. field. exact Hp. }
  rewrite (roundHalfEven_comp _ _ En), roundHalfEven_Z.
  assert (Er : (inject_Z (z * 2 ^ (- ex)) * 2 ^ ex == inject_Z z)%Q).
  { rewrite Ep, inject_Z_mult. field. exact Hp. }
  destruct (Qle_bool _ _) eqn:O.
  { exfalso. apply Qle_bool_iff in O. rewrite Er in O.
    change (Qabs (inject_Z z)) with (inject_Z (Z.abs z)) in O.
    rewrite (pow2_Z (127 + 1)) in O by lia. rewrite <- Zle_Qle in O.
    assert (2 ^ 24 <= 2 ^ (127 + 1)) by (apply Z.pow_le_mono_r; lia). lia. }
  f_equal. rewrite (Qred_complete _ _ Er). apply Qred_inject_Z.
Qed.

Lemma float32Value_at_index xv i :
  Forall float32Value xv -> float32Value (at_index xv i).
Proof.
  intros H. unfold at_index. destruct (i <? 0); [reflexivity|].
  destruct (xv !! Z.to_nat i) as [v|] eqn:E; [|reflexivity].
  cbn. rewrite Forall_forall in H. apply H.
  eapply list_elem_of_lookup_2, E.
Qed.

(** ** The gradient of max pooling *)

Lemma canonical_nmul_1 v : canonical v -> nmul v (num 1) = v.
Proof.
  destruct v as [| | |q]; try reflexivity. cbn. intros E.
  f_equal. rewrite <- E at 2. apply Qred_complete.
  unfold inject_Z. ring.
Qed.

Lemma nadd_0_l v : canonical v -> nadd (num 0) v = v.
Proof.
  destruct v as [| | |q]; try reflexivity. cbn. intros E.
  f_equal. rewrite <- E at 2. apply Qred_complete.
  unfold inject_Z. ring.
Qed.

Lemma canonical_at_index xv i :
  Forall canonical xv -> canonical (at_index xv i).
Proof.
  intros H. unfold at_index. destruct (i <? 0); [exact I|].
  destruct (xv !! Z.to_nat i) as [v|] eqn:E; [|exact I].
  cbn. rewrite Forall_forall in H. apply H.
  eapply list_elem_of_lookup_2, E.
Qed.

Lemma elem_of_poolWindow ci yR yC t :
  t ∈ poolWindow ci yR yC <-> t.1 ∈ poolRows ci yR /\ t.2 ∈ poolCols ci yC.
Proof.
  unfold poolWindow. repeat setoid_rewrite list_elem_of_bind.
  setoid_rewrite list_elem_of_singleton. destruct t as [r c]. cbn. split.
  - intros (r' & (c' & E & Hc) & Hr). inversion E; subst. auto.
  - intros [Hr Hc]. eauto.
Qed.

Section Gradient.
Variables (h : list (list number)) (x dy : NDArray) (xv dyv : list number).
Variable ci : Conv2DInfo.
Hypothesis Hx : holds h x xv.
Hypothesis Hdy : holds h dy dyv.
Hypothesis Hg : poolGeometry ci.
Hypothesis Sx : shape x = inShape ci.
Hypothesis Sdy : shape dy = outShape ci.
Hypothesis Hf32 : Forall float32Value dyv.
Hypothesis Hfilter : filterHeight ci * filterWidth ci <= 2 ^ 24.
Hypothesis Hmax : uniqueMaxima xv ci = true.

Let mp :=
  scatter
    (fun t => Z.to_nat (locToIndex (outShape ci)
                          [t.1.1.1; t.1.2; t.2; t.1.1.2]))
    (fun t => Math_fround (num (maxScan xv ci t.1.1.1 t.1.1.2 t.1.2 t.2).2))
    (tuples4 (range 0 (batchSize ci)) (range 0 (inChannels ci))
             (range 0 (outHeight ci)) (range 0 (outWidth ci)))
    (replicate (Z.to_nat (sizeFromShape (outShape ci))) (num 0)).

Lemma uniqueMaxima_at b yR yC d :
  0 <= b < batchSize ci -> 0 <= yR < outHeight ci ->
  0 <= yC < outWidth ci -> 0 <= d < inChannels ci ->
  exists t, argMaxOf xv ci b yR yC d = Some t.
Proof.
  intros Hb HyR HyC Hd. unfold uniqueMaxima in Hmax.
  rewrite forallb_forall in Hmax.
  specialize (Hmax b ltac:(apply list_elem_of_In, elem_of_range; lia)).
  rewrite forallb_forall in Hmax.
  specialize (Hmax yR ltac:(apply list_elem_of_In, elem_of_range; lia)).
  rewrite forallb_forall in Hmax.
  specialize (Hmax yC ltac:(apply list_elem_of_In, elem_of_range; lia)).
  rewrite forallb_forall in Hmax.
  specialize (Hmax d ltac:(apply list_elem_of_In, elem_of_range; lia)).
  apply bool_decide_eq_true in Hmax. exact Hmax.
Qed.

Lemma scatter4_lookup (s : list Z) n0 n1 n2 n3 (f : Z * Z * Z * Z -> number)
    a b c d :
  s = [n0; n1; n2; n3] ->
  0 <= a < n0 -> 0 <= b < n3 -> 0 <= c < n1 -> 0 <= d < n2 ->
  elementAt s
    (scatter
       (fun t => Z.to_nat (locToIndex s [t.1.1.1; t.1.2; t.2; t.1.1.2]))
       f
       (tuples4 (range 0 n0) (range 0 n3) (range 0 n1) (range 0 n2))
       (replicate (Z.to_nat (sizeFromShape s)) (num 0)))
    [a; c; d; b]
  = f (a, b, c, d).
Proof.
  intros -> Ha Hb Hc Hd. unfold elementAt.
  pose proof (flat4_bound n0 n1 n2 n3 a c d b Ha Hc Hd Hb) as Hbd.
  apply at_index_Some; [rewrite locToIndex4; lia|].
  apply (scatter_lookup
           (fun t => Z.to_nat (locToIndex [n0; n1; n2; n3]
                                 [t.1.1.1; t.1.2; t.2; t.1.1.2]))
           f _ _ (a, b, c, d)).
  - intros [[[a1 b1] c1] d1] [[[a2 b2] c2] d2].
    intros (A1 & B1 & C1 & D1)%elem_of_tuples4
           (A2 & B2 & C2 & D2)%elem_of_tuples4.
    rewrite elem_of_range in *. cbn [fst snd]. rewrite !locToIndex4.
    intros E.
    pose proof (flat4_bound n0 n1 n2 n3 a1 c1 d1 b1 A1 C1 D1 B1).
    pose proof (flat4_bound n0 n1 n2 n3 a2 c2 d2 b2 A2 C2 D2 B2).
    apply Z2Nat.inj in E; [|lia..].
    apply flat4_inj in E; [|lia..].
    destruct E as (-> & -> & -> & ->). reflexivity.
  - apply elem_of_tuples4. rewrite !elem_of_range. lia.
  - rewrite length_replicate. cbn [fst snd]. rewrite locToIndex4.
    cbn. nia.
Qed.

Lemma mp_lookup b yR yC d :
  0 <= b < batchSize ci -> 0 <= yR < outHeight ci ->
  0 <= yC < outWidth ci -> 0 <= d < inChannels ci ->
  elementAt (outShape ci) mp [b; yR; yC; d]
  = Math_fround (num (maxScan xv ci b d yR yC).2).
Proof.
  intros Hb HyR HyC Hd. unfold mp.
  apply (scatter4_lookup (outShape ci) (batchSize ci) (outHeight ci)
           (outWidth ci) (inChannels ci)
           (fun t => Math_fround (num (maxScan xv ci t.1.1.1 t.1.1.2 t.1.2 t.2).2))
           b d yR yC); [apply (pg_outShape _ Hg)|lia..].
Qed.

(** The mask of maxPoolBackprop is set exactly where the window of
    [(yR, yC)] has its maximum at [(r, c)] and that maximum is above
    [-Infinity]. *)
Lemma mask_iff b r c d yR yC :
  0 <= b < batchSize ci -> 0 <= d < inChannels ci ->
  yR ∈ gatherY (strideHeight ci) (filterHeight ci) (pad_top (padInfo ci))
               (outHeight ci) r ->
  yC ∈ gatherY (strideWidth ci) (filterWidth ci) (pad_left (padInfo ci))
               (outWidth ci) c ->
  neqb (nsub (num (filterHeight ci * filterWidth ci - 1))
             (elementAt (outShape ci) mp [b; yR; yC; d]))
       (num ((yR * strideHeight ci
              - (r - (filterHeight ci - 1 - pad_top (padInfo ci))))
             * filterWidth ci
             + (yC * strideWidth ci
                - (c - (filterWidth ci - 1 - pad_left (padInfo ci))))))
  = bool_decide (argMaxOf xv ci b yR yC d = Some (r, c)
                 /\ nlt NInf (pixelAt xv ci b d (r, c)) = true).
Proof.
  intros Hb Hd [HyR HR]%elem_of_gatherY [HyC HC]%elem_of_gatherY.
  destruct (uniqueMaxima_at b yR yC d Hb HyR HyC Hd) as [[tr tc] Ht].
  rewrite mp_lookup by assumption.
  pose proof (argMaxOf_spec _ _ _ _ _ _ _ Ht) as [Hin _].
  apply elem_of_poolWindow in Hin as [Hr Hc]. cbn [fst snd] in Hr, Hc.
  unfold poolRows in Hr. unfold poolCols in Hc.
  apply elem_of_range in Hr, Hc.
  pose proof (pg_filterWidth _ Hg). pose proof (pg_filterHeight _ Hg).
  destruct (nlt NInf (pixelAt xv ci b d (tr, tc))) eqn:Hinf.
  - (* the maximum is above -Infinity: its position is recorded *)
    rewrite (maxScan_argMax _ _ _ _ _ _ _ Ht Hinf). cbn [fst snd].
    set (cR := yR * strideHeight ci - pad_top (padInfo ci)) in *.
    set (cC := yC * strideWidth ci - pad_left (padInfo ci)) in *.
    set (fH := filterHeight ci) in *. set (fW := filterWidth ci) in *.
    assert (Ha : 0 <= tr - cR < fH) by lia.
    assert (He : 0 <= tc - cC < fW) by lia.
    assert (Hw : 0 <= r - cR < fH) by lia.
    assert (Hv : 0 <= c - cC < fW) by lia.
    rewrite (float32Value_int ((tr - cR) * fW + (tc - cC))) by nia.
    rewrite neqb_nsub_num.
    destruct (decide ((tr, tc) = (r, c))) as [E|E].
    + inversion E; subst. rewrite bool_decide_true by (split; [exact Ht|exact Hinf]).
      apply Z.eqb_eq. unfold cR, cC. nia.
    + rewrite bool_decide_false by (intros [E' _]; congruence).
      apply Z.eqb_neq. intros Eq. apply E.
      assert (Eq' : (fH - 1 - (tr - cR)) * fW + (fW - 1 - (tc - cC))
                    = (fH - 1 - (r - cR)) * fW + (fW - 1 - (c - cC))).
      { unfold cR, cC in *. nia. }
      assert (fH - 1 - (tr - cR) = fH - 1 - (r - cR)) by nia.
      f_equal; nia.
  - (* the maximum is not above -Infinity: no position is recorded *)
    rewrite (maxScan_unrouted _ _ _ _ _ _ _ Ht Hinf). cbn [fst snd].
    rewrite (float32Value_int (-1)) by (cbn; lia).
    rewrite neqb_nsub_num.
    rewrite bool_decide_false by (intros [E' F']; congruence).
    apply Z.eqb_neq.
    set (cR := yR * strideHeight ci - pad_top (padInfo ci)) in *.
    set (cC := yC * strideWidth ci - pad_left (padInfo ci)) in *.
    set (fH := filterHeight ci) in *. set (fW := filterWidth ci) in *.
    assert (Hw : 0 <= r - cR < fH) by lia.
    assert (Hv : 0 <= c - cC < fW) by lia.
    unfold cR, cC in *. nia.
Qed.

(** What the accumulation of maxPoolBackprop amounts to. *)
Lemma dotProdOf_gradientAt b r c d :
  0 <= b < batchSize ci -> 0 <= d < inChannels ci ->
  Math_fround (dotProdOf mp dyv ci b d r c) = gradientAt dyv xv ci b r c d.
Proof.
  intros Hb Hd. unfold gradientAt, sumDouble. f_equal.
  pose proof (pg_strideHeight _ Hg) as HsH.
  pose proof (pg_strideWidth _ Hg) as HsW.
  unfold dotProdOf. cbv zeta.
  rewrite (fold_gather (strideHeight ci) (filterHeight ci)
             (pad_top (padInfo ci)) (outHeight ci) r
             (fun wR yR acc =>
                fold_left
                  (fun dotProd wC =>
                     if negb (Qle_bool 0
                          (quot (c - (filterWidth ci - 1
                                      - pad_left (padInfo ci)) + wC)
                                (strideWidth ci)))
                        || Qle_bool (inject_Z (outWidth ci))
                             (quot (c - (filterWidth ci - 1
                                         - pad_left (padInfo ci)) + wC)
                                   (strideWidth ci))
                        || negb (Qeq_bool
                             (inject_Z (Qfloor
                                (quot (c - (filterWidth ci - 1
                                            - pad_left (padInfo ci)) + wC)
                                      (strideWidth ci))))
                             (quot (c - (filterWidth ci - 1
                                         - pad_left (padInfo ci)) + wC)
                                   (strideWidth ci)))
                     then dotProd
                     else
                       if neqb
                            (nsub (num (filterHeight ci * filterWidth ci - 1))
                               (elementAt (outShape ci) mp
                                  [b; yR;
                                   Qfloor (quot (c - (filterWidth ci - 1
                                                - pad_left (padInfo ci)) + wC)
                                                (strideWidth ci)); d]))
                            (num (wR * filterWidth ci + wC))
                       then roundDouble
                              (nadd dotProd
                                 (roundDouble
                                    (nmul (elementAt (outShape ci) dyv
                                       [b; yR;
                                        Qfloor (quot (c - (filterWidth ci - 1
                                                     - pad_left (padInfo ci)) + wC)
                                                     (strideWidth ci)); d])
                                       (num 1))))
                       else dotProd)
                  (range 0 (filterWidth ci)) acc)) by exact HsH.
  unfold windowsWithMaxAt.
  rewrite fold_left_fmap, fold_left_filter, fold_left_bind.
  unfold gatherY.
  rewrite (fold_left_filter _ _ (range 0 (outHeight ci))).
  apply fold_left_ext_in. intros yR acc HyR%elem_of_range.
  destruct (decide _) as [PR|PR].
  - (* the footprint of yR holds the row r *)
    assert (GyR : yR ∈ gatherY (strideHeight ci) (filterHeight ci)
                    (pad_top (padInfo ci)) (outHeight ci) r)
      by (apply elem_of_gatherY; lia).
    rewrite (fold_gather (strideWidth ci) (filterWidth ci)
               (pad_left (padInfo ci)) (outWidth ci) c
               (fun wC yC dotProd =>
                  if neqb
                       (nsub (num (filterHeight ci * filterWidth ci - 1))
                          (elementAt (outShape ci) mp [b; yR; yC; d]))
                       (num ((yR * strideHeight ci
                              - (r - (filterHeight ci - 1
                                      - pad_top (padInfo ci))))
                             * filterWidth ci + wC))
                  then roundDouble
                         (nadd dotProd
                            (roundDouble
                               (nmul (elementAt (outShape ci) dyv
                                        [b; yR; yC; d])
                                     (num 1))))
                  else dotProd)) by exact HsW.
    rewrite fold_left_bind. unfold gatherY.
    rewrite (fold_left_filter _ _ (range 0 (outWidth ci))).
    apply fold_left_ext_in. intros yC acc' HyC%elem_of_range.
    cbn [fold_left fst snd].
    destruct (decide (yC * strideWidth ci - pad_left (padInfo ci) <= c
                      < yC * strideWidth ci - pad_left (padInfo ci)
                        + filterWidth ci)) as [PC|PC].
    + assert (GyC : yC ∈ gatherY (strideWidth ci) (filterWidth ci)
                      (pad_left (padInfo ci)) (outWidth ci) c)
        by (apply elem_of_gatherY; lia).
      rewrite (mask_iff b r c d yR yC Hb Hd GyR GyC).
      destruct (decide (argMaxOf xv ci b yR yC d = Some (r, c)
                        /\ nlt NInf (pixelAt xv ci b d (r, c)) = true))
        as [E|E].
      * rewrite bool_decide_true by exact E.
        pose proof (float32Value_at_index dyv
                      (locToIndex (outShape ci) [b; yR; yC; d]) Hf32) as Hv.
        fold (elementAt (outShape ci) dyv [b; yR; yC; d]) in Hv.
        rewrite canonical_nmul_1 by (apply float32Value_canonical, Hv).
        now rewrite (float32Value_double _ Hv).
      * now rewrite bool_decide_false by exact E.
    + destruct (decide (argMaxOf xv ci b yR yC d = Some (r, c)
                        /\ nlt NInf (pixelAt xv ci b d (r, c)) = true))
        as [[E _]|E]; [|reflexivity].
      exfalso. apply PC.
      apply argMaxOf_spec in E as [Hin _].
      apply elem_of_poolWindow in Hin as [_ Hc]. cbn in Hc.
      unfold poolCols in Hc. apply elem_of_range in Hc. lia.
  - (* no window of the row yR holds the row r *)
    rewrite fold_left_bind. symmetry. apply fold_left_id.
    intros yC acc' HyC. cbn [fold_left fst snd].
    destruct (decide (argMaxOf xv ci b yR yC d = Some (r, c)
                      /\ nlt NInf (pixelAt xv ci b d (r, c)) = true))
      as [[E _]|E]; [|reflexivity].
    exfalso. apply PR.
    apply argMaxOf_spec in E as [Hin _].
    apply elem_of_poolWindow in Hin as [Hr _]. cbn in Hr.
    unfold poolRows in Hr. apply elem_of_range in Hr. lia.
Qed.
End Gradient.

Lemma windowsWithMaxAt_not_above xv ci b r c d :
  nlt NInf (pixelAt xv ci b d (r, c)) = false ->
  windowsWithMaxAt xv ci b r c d = [].
Proof.
  intros Hinf. unfold windowsWithMaxAt.
  induction (_ ≫= _) as [|y l IH]; [reflexivity|].
  rewrite filter_cons, IH.
  destruct (decide _) as [[_ E]|_]; [congruence|reflexivity].
Qed.

(** C4 as the code has it: on an input whose pooling windows each have a
    unique maximum, with a filter of at most [2 ^ 24] elements and a [dy]
    of binary32 numbers, maxPoolBackprop returns a gradient whose element
    at every input position is the sum of the elements of [dy] of the
    windows that have their maximum there, a maximum above [-Infinity];
    the sum is accumulated in double precision, window after window in
    row-major order, and rounded to binary32 when it is stored. So the
    gradient is zero where no such window has its maximum, in particular
    where the input is not above [-Infinity], and the element of [dy]
    where exactly one window has. *)
Theorem maxPoolBackprop_routes_gradient h x dy xv dyv ci :
  holds h x xv -> holds h dy dyv -> poolGeometry ci ->
  shape x = inShape ci -> shape dy = outShape ci ->
  Forall float32Value dyv ->
  filterHeight ci * filterWidth ci <= 2 ^ 24 ->
  uniqueMaxima xv ci = true ->
  exists mp out,
    MathBackendCPU.maxPoolBackprop dy x ci h
    = (Ok (mkNDArray (inShape ci) float32 (S (length h))), h ++ [mp; out])
    /\ Z.of_nat (length out) = size x
    /\ forall b r c d,
         0 <= b < batchSize ci -> 0 <= r < inHeight ci ->
         0 <= c < inWidth ci -> 0 <= d < inChannels ci ->
         let dx := elementAt (inShape ci) out [b; r; c; d] in
         dx = gradientAt dyv xv ci b r c d
         /\ (windowsWithMaxAt xv ci b r c d = [] -> dx = num 0)
         /\ (forall y, windowsWithMaxAt xv ci b r c d = [y] ->
               dx = elementAt (outShape ci) dyv [b; y.1; y.2; d])
         /\ (nlt NInf (elementAt (inShape ci) xv [b; r; c; d]) = false ->
             dx = num 0).
Proof.
  intros Hx Hdy Hg Sx Sdy Hf32 Hfilter Hmax.
  destruct (geometry_pos h x dy xv dyv ci Hx Hdy Hg Sx Sdy)
    as (HB & HIH & HIW & HC & HOH & HOW).
  eexists _, _.
  split; [apply (maxPoolBackprop_run h x dy xv dyv ci Hx Hdy Hg Sx Sdy)|].
  split.
  { rewrite scatter_length, length_replicate. unfold size. rewrite Sx.
    rewrite inSize by exact Hg. nia. }
  intros b r c d Hb Hr Hc Hd dx.
  assert (E : dx = gradientAt dyv xv ci b r c d).
  { unfold dx.
    rewrite (scatter4_lookup (inShape ci) (batchSize ci) (inHeight ci)
               (inWidth ci) (inChannels ci) _ b d r c (pg_inShape _ Hg))
      by lia.
    cbn [fst snd].
    apply (dotProdOf_gradientAt xv dyv ci Hg Hf32 Hfilter Hmax); lia. }
  assert (E0 : windowsWithMaxAt xv ci b r c d = [] -> dx = num 0).
  { intros W. rewrite E. unfold gradientAt. now rewrite W. }
  split; [exact E|]. split; [exact E0|]. split.
  - intros y W. rewrite E. unfold gradientAt, sumDouble. rewrite W.
    cbn [fmap list_fmap fold_left].
    pose proof (float32Value_at_index dyv
                  (locToIndex (outShape ci) [b; y.1; y.2; d]) Hf32) as Hv.
    fold (elementAt (outShape ci) dyv [b; y.1; y.2; d]) in Hv.
    rewrite nadd_0_l by (apply float32Value_canonical, Hv).
    rewrite (float32Value_double _ Hv). exact Hv.
  - intros Hinf. apply E0, windowsWithMaxAt_not_above. exact Hinf.
Qed.

Lemma exPool_holds_x : holds exPoolHeap exPoolX exPoolXBuf.
Proof. split; [reflexivity|]. split; [reflexivity|repeat constructor]. Qed.

Lemma exPool_holds_dy : holds exPoolHeap exPoolDy exPoolDyBuf.
Proof. split; [reflexivity|]. split; [reflexivity|repeat constructor]. Qed.

Lemma exPool_geometry : poolGeometry exPoolInfo.
Proof. split; reflexivity. Qed.

Lemma maxPoolBackprop_routes_gradient_witness :
  holds exPoolHeap exPoolX exPoolXBuf /\ holds exPoolHeap exPoolDy exPoolDyBuf
  /\ poolGeometry exPoolInfo
  /\ Forall float32Value exPoolDyBuf
  /\ filterHeight exPoolInfo * filterWidth exPoolInfo <= 2 ^ 24
  /\ uniqueMaxima exPoolXBuf exPoolInfo = true
  /\ exists mp out,
       MathBackendCPU.maxPoolBackprop exPoolDy exPoolX exPoolInfo exPoolHeap
       = (Ok (mkNDArray (inShape exPoolInfo) float32 (S (length exPoolHeap))),
          exPoolHeap ++ [mp; out])
       /\ elementAt (inShape exPoolInfo) out [0; 0; 1; 0]
          = gradientAt exPoolDyBuf exPoolXBuf exPoolInfo 0 0 1 0
       /\ (windowsWithMaxAt exPoolXBuf exPoolInfo 0 0 0 0 = [] ->
           elementAt (inShape exPoolInfo) out [0; 0; 0; 0] = num 0).
Proof.
  assert (Hc : Forall float32Value exPoolDyBuf)
    by (repeat constructor; vm_compute; reflexivity).
  assert (Hf : filterHeight exPoolInfo * filterWidth exPoolInfo <= 2 ^ 24)
    by (vm_compute; discriminate).
  assert (Hm : uniqueMaxima exPoolXBuf exPoolInfo = true) by reflexivity.
  split; [exact exPool_holds_x|]. split; [exact exPool_holds_dy|].
  split; [exact exPool_geometry|]. split; [exact Hc|]. split; [exact Hf|].
  split; [exact Hm|].
  destruct (maxPoolBackprop_routes_gradient exPoolHeap exPoolX exPoolDy
              exPoolXBuf exPoolDyBuf exPoolInfo exPool_holds_x exPool_holds_dy
              exPool_geometry eq_refl eq_refl Hc Hf Hm)
    as (mp & out & E & _ & H).
  assert (R0 : 0 <= 0 < 1) by lia.
  assert (R1 : 0 <= 1 < 3) by lia.
  assert (R2 : 0 <= 0 < 3) by lia.
  exists mp, out. split; [exact E|]. split.
  - exact (proj1 (H 0 0 1 0 R0 R0 R1 R0)).
  - exact (proj1 (proj2 (H 0 0 0 0 R0 R0 R2 R0))).
Defined.

(** C4 as stated fails where windows overlap. On the row [1, 3, 2] pooled
    by a 1x2 filter with stride 1, both windows have their unique maximum
    at the middle element; with [dy = [10, 20]] the gradient there is 30,
    which is neither element of [dy]. *)
Lemma maxPoolBackprop_overlap_sums :
  uniqueMaxima exPoolXBuf exPoolInfo = true
  /\ windowsWithMaxAt exPoolXBuf exPoolInfo 0 0 1 0 = [(0, 0); (0, 1)]
  /\ MathBackendCPU.maxPoolBackprop exPoolDy exPoolX exPoolInfo exPoolHeap
     = (Ok (mkNDArray [1; 1; 3; 1] float32 5%nat),
        exPoolHeap ++ [[num 1; num 0]; [num 0; num 30; num 0]])
  /\ num 30 ∉ exPoolDyBuf.
Proof.
  split; [reflexivity|]. split; [reflexivity|].
  split; [vm_compute; reflexivity|].
  intros H. unfold exPoolDyBuf in H.
  repeat (apply elem_of_cons in H as [H|H]; [cbv in H; discriminate H|]).
  now apply elem_of_nil in H.
Qed.

(** A window whose maximum is not above [-Infinity] routes nothing: on the
    single element [-Infinity] pooled by a 1x1 filter, the one window has a
    unique maximum, maxPoolPositions records the position -1 for it, and
    [dy = [5]] reaches no element of the gradient, which is zero. *)
Lemma maxPoolBackprop_negative_infinity :
  uniqueMaxima exInfPoolXBuf exInfPoolInfo = true
  /\ argMaxOf exInfPoolXBuf exInfPoolInfo 0 0 0 0 = Some (0, 0)
  /\ windowsWithMaxAt exInfPoolXBuf exInfPoolInfo 0 0 0 0 = []
  /\ MathBackendCPU.maxPoolBackprop exInfPoolDy exInfPoolX exInfPoolInfo
       exInfPoolHeap
     = (Ok (mkNDArray [1; 1; 1; 1] float32 5%nat),
        exInfPoolHeap ++ [[num (-1)]; [num 0]]).
Proof.
  split; [reflexivity|]. split; [reflexivity|]. split; [reflexivity|].
  vm_compute. reflexivity.
Qed.

(** The sum at a shared argmax is rounded when it is stored: on the row
    [1, 3, 2] with [dy = [16777216, 1]] both windows route to the middle
    element, whose gradient is 16777216, the binary32 number nearest to
    the sum 16777217. *)
Lemma maxPoolBackprop_rounds_shared_sum :
  Forall float32Value exRoundDyBuf
  /\ windowsWithMaxAt exPoolXBuf exPoolInfo 0 0 1 0 = [(0, 0); (0, 1)]
  /\ MathBackendCPU.maxPoolBackprop exPoolDy exPoolX exPoolInfo exRoundHeap
     = (Ok (mkNDArray [1; 1; 3; 1] float32 5%nat),
        exRoundHeap ++ [[num 1; num 0]; [num 0; num 16777216; num 0]])
  /\ gradientAt exRoundDyBuf exPoolXBuf exPoolInfo 0 0 1 0 = num 16777216.
Proof.
  split; [repeat constructor; vm_compute; reflexivity|].
  split; [reflexivity|]. split; vm_compute; reflexivity.
Qed.

(** ** No kernel writes to a typed array it did not allocate *)

Lemma frames_ret {A} n0 n1 (a : A) (P : A -> nat -> Prop) :
  (forall n, (n1 <= n)%nat -> P a n) -> frames n0 n1 (ret a) P.
Proof.
  intros Ha h Hn. unfold ret. cbn [fst snd]. split; [lia|].
  split; [reflexivity|]. intros a' E. inversion E. subst. now apply Ha.
Qed.

Lemma frames_ret_eq {A} n0 n1 (a : A) :
  frames n0 n1 (ret a) (fun x _ => x = a).
Proof. now apply frames_ret. Qed.

Lemma frames_throw {A} n0 n1 e (P : A -> nat -> Prop) :
  frames n0 n1 (throw e) P.
Proof.
  intros h Hn. unfold throw. cbn [fst snd]. split; [lia|].
  split; [reflexivity|]. discriminate.
Qed.

Lemma frames_bind {A B} n0 n1 (m : M A) (k : A -> M B) P Q :
  frames n0 n1 m P ->
  (forall a n2, (n1 <= n2)%nat -> P a n2 -> frames n0 n2 (k a) Q) ->
  frames n0 n1 (bind m k) Q.
Proof.
  intros Hm Hk h Hn. destruct (Hm h Hn) as (L & F & R).
  unfold bind. destruct (m h) as [[a|e] h1]; cbn [fst snd] in *.
  - destruct (Hk a (length h1) ltac:(lia) (R a eq_refl) h1 ltac:(lia))
      as (L' & F' & R').
    split; [lia|]. split; [|exact R'].
    intros r Hr. rewrite F' by exact Hr. now apply F.
  - split; [exact L|]. split; [exact F|]. discriminate.
Qed.

Lemma frames_weaken {A} n0 n1 (m : M A) (P Q : A -> nat -> Prop) :
  frames n0 n1 m P -> (forall a n, (n1 <= n)%nat -> P a n -> Q a n) ->
  frames n0 n1 m Q.
Proof.
  intros Hm HPQ h Hn. destruct (Hm h Hn) as (L & F & R).
  split; [exact L|]. split; [exact F|]. intros a E. apply HPQ; [lia|].
  apply R, E.
Qed.

Lemma frames_push n0 n1 (f : list (list number) -> list number) :
  (n0 <= n1)%nat ->
  frames n0 n1 (fun h => (Ok (length h), h ++ [f h]))
    (fun r n => (n0 <= r < n)%nat).
Proof.
  intros H01 h Hn. cbn [fst snd]. rewrite length_app. cbn [length].
  split; [lia|]. split.
  - intros r Hr. apply lookup_app_l. lia.
  - intros a E. inversion E. lia.
Qed.

Lemma frames_newTypedArray n0 n1 len :
  (n0 <= n1)%nat ->
  frames n0 n1 (newTypedArray len) (fun r n => (n0 <= r < n)%nat).
Proof.
  intros H01 h Hn. unfold newTypedArray. destruct (len <? 0).
  - exact (frames_throw n0 n1 RangeError (fun r n => (n0 <= r < n)%nat) h Hn).
  - apply (frames_push n0 n1 (fun _ => replicate (Z.to_nat len) (num 0))
             H01 h Hn).
Qed.

Lemma frames_getTypedArrayFromDType n0 n1 d len :
  (n0 <= n1)%nat ->
  frames n0 n1 (getTypedArrayFromDType d len) (fun r n => (n0 <= r < n)%nat).
Proof. apply frames_newTypedArray. Qed.

Lemma frames_typedArrayFrom n0 n1 l :
  (n0 <= n1)%nat ->
  frames n0 n1 (typedArrayFrom l) (fun r n => (n0 <= r < n)%nat).
Proof. exact (frames_push n0 n1 (fun _ => l)). Qed.

Lemma frames_copyOf n0 n1 r0 :
  (n0 <= n1)%nat ->
  frames n0 n1 (copyOf r0) (fun r n => (n0 <= r < n)%nat).
Proof. exact (frames_push n0 n1 (fun h => buffer h r0)). Qed.

Lemma frames_sliceOf n0 n1 r0 b e :
  (n0 <= n1)%nat ->
  frames n0 n1 (sliceOf r0 b e) (fun r n => (n0 <= r < n)%nat).
Proof.
  exact (frames_push n0 n1
           (fun h =>
              take (Z.to_nat (clampIndex (Z.of_nat (length (buffer h r0))) e
                              - clampIndex (Z.of_nat (length (buffer h r0))) b))
                (drop (Z.to_nat (clampIndex (Z.of_nat (length (buffer h r0))) b))
                   (buffer h r0)))).
Qed.

Lemma frames_load n0 n1 r i : frames n0 n1 (load r i) (fun _ _ => True).
Proof.
  intros h Hn. unfold load. cbn [fst snd]. split; [lia|].
  split; [reflexivity|]. trivial.
Qed.

Lemma frames_lengthOf n0 n1 r : frames n0 n1 (lengthOf r) (fun _ _ => True).
Proof.
  intros h Hn. unfold lengthOf. cbn [fst snd]. split; [lia|].
  split; [reflexivity|]. trivial.
Qed.

Lemma frames_alter n0 n1
    (g : list (list number) -> list number -> list number) r0 :
  (n0 <= r0)%nat ->
  frames n0 n1 (fun h => (Ok tt, alter (g h) r0 h)) (fun _ _ => True).
Proof.
  intros Hr h Hn. cbn [fst snd]. split; [rewrite length_alter; lia|]. split.
  - intros r Hlt. apply list_lookup_alter_ne. lia.
  - trivial.
Qed.

Lemma frames_store n0 n1 r i v :
  (n0 <= r)%nat -> frames n0 n1 (store r i v) (fun _ _ => True).
Proof.
  intros Hr h Hn. unfold store. destruct (i <? 0).
  - apply (frames_ret n0 n1 tt (fun _ _ => True) (fun _ _ => I) h Hn).
  - apply (frames_alter n0 n1 (fun _ b => <[Z.to_nat i := v]> b) r Hr h Hn).
Qed.

Lemma frames_fill n0 n1 r v :
  (n0 <= r)%nat -> frames n0 n1 (fill r v) (fun _ _ => True).
Proof.
  intros Hr.
  exact (frames_alter n0 n1 (fun _ b => replicate (length b) v) r Hr).
Qed.

Lemma frames_setAll n0 n1 target source offset :
  (n0 <= target)%nat ->
  frames n0 n1 (setAll target source offset) (fun _ _ => True).
Proof.
  intros Hr h Hn. unfold setAll. cbv zeta.
  destruct ((offset <? 0)
            || (Z.of_nat (length (buffer h target))
                <? Z.of_nat (length (buffer h source)) + offset)).
  - exact (frames_throw n0 n1 RangeError (fun _ _ => True) h Hn).
  - apply (frames_alter n0 n1
             (fun h _ => take (Z.to_nat offset) (buffer h target)
                         ++ buffer h source
                         ++ drop (Z.to_nat offset + length (buffer h source))
                              (buffer h target))
             target Hr h Hn).
Qed.

Lemma frames_for {A} n0 n1 (l : list A) (body : A -> M unit) :
  (forall a n, (n1 <= n)%nat -> frames n0 n (body a) (fun _ _ => True)) ->
  frames n0 n1 (for_ l body) (fun _ _ => True).
Proof.
  intros Hb. revert n1 Hb. induction l as [|a l IH]; intros n1 Hb; cbn [for_].
  - now apply frames_ret.
  - eapply frames_bind; [now apply Hb|]. intros _ n2 Hn2 _. apply IH.
    intros a' n Hn. apply Hb. lia.
Qed.

Lemma frames_fold_for {A S} n0 n1 (l : list A) (s : S)
    (body : A -> S -> M S) :
  (forall a s n, (n1 <= n)%nat -> frames n0 n (body a s) (fun _ _ => True)) ->
  frames n0 n1 (fold_for l s body) (fun _ _ => True).
Proof.
  intros Hb. revert n1 s Hb.
  induction l as [|a l IH]; intros n1 s Hb; cbn [fold_for].
  - now apply frames_ret.
  - eapply frames_bind; [now apply Hb|]. intros s' n2 Hn2 _. apply IH.
    intros a' s'' n Hn. apply Hb. lia.
Qed.

Lemma frames_loop {A S} n0 n1 (l : list A) (s : S)
    (body : A -> S -> M (ctl S)) :
  (forall a s n, (n1 <= n)%nat -> frames n0 n (body a s) (fun _ _ => True)) ->
  frames n0 n1 (loop l s body) (fun _ _ => True).
Proof.
  intros Hb. revert n1 s Hb.
  induction l as [|a l IH]; intros n1 s Hb; cbn [loop].
  - now apply frames_ret.
  - eapply frames_bind; [now apply Hb|]. intros [s'|s'] n2 Hn2 _.
    + apply IH. intros a' s'' n Hn. apply Hb. lia.
    + now apply frames_ret.
Qed.

Lemma frames_NDArray_zeros n0 n1 s d :
  (n0 <= n1)%nat -> frames n0 n1 (NDArray_zeros s d) (fresh n0).
Proof.
  intros H01. unfold NDArray_zeros.
  eapply frames_bind; [now apply frames_newTypedArray|].
  intros r n2 Hn2 Hr. apply frames_ret. intros n Hn. unfold fresh.
  cbn in *. lia.
Qed.

Lemma frames_Array1D_new n0 n1 r :
  (n0 <= r < n1)%nat -> frames n0 n1 (Array1D_new r) (fresh n0).
Proof.
  intros Hr. unfold Array1D_new. eapply frames_bind; [apply frames_lengthOf|].
  intros n n2 Hn2 _. apply frames_ret. intros n3 Hn3. unfold fresh. cbn. lia.
Qed.

Lemma frames_get n0 n1 x loc : frames n0 n1 (get x loc) (fun _ _ => True).
Proof. apply frames_load. Qed.

Lemma frames_getN n0 n1 x loc :
  frames n0 n1 (MathBackendCPU.getN x loc) (fun _ _ => True).
Proof. apply frames_load. Qed.

Lemma frames_set n0 n1 x v loc :
  (n0 <= data x)%nat -> frames n0 n1 (set x v loc) (fun _ _ => True).
Proof. apply frames_store. Qed.

Lemma frames_assertAxes n0 n1 msg axes rk :
  frames n0 n1 (assertAxesAreInnerMostDims msg axes rk) (fun _ _ => True).
Proof.
  unfold assertAxesAreInnerMostDims. destruct (axesAreInnerMostDims axes rk).
  - now apply frames_ret.
  - apply frames_throw.
Qed.

Lemma frames_assertAndGetBroadcastShape n0 n1 a b :
  frames n0 n1 (assertAndGetBroadcastShape a b) (fun _ _ => True).
Proof.
  unfold assertAndGetBroadcastShape. destruct (broadcastRev _ _).
  - now apply frames_ret.
  - apply frames_throw.
Qed.

Lemma frames_computeOutShape `{Runtime} n0 n1 a b axis :
  frames n0 n1 (MathBackendCPU.computeOutShape a b axis) (fun _ _ => True).
Proof.
  unfold MathBackendCPU.computeOutShape.
  destruct (concat_computeOutShape a b axis).
  - now apply frames_ret.
  - apply frames_throw.
Qed.

(** The side conditions: a typed array that is written to, or returned, was
    allocated by the kernel. *)
Ltac fresh_side :=
  cbn beta in *; unfold fresh in *;
  cbn [data getValues NDArray_make shape fst snd] in *;
  first [ exact I | lia | intuition lia ].

Ltac frame_leaf lem :=
  first [ eapply lem; fresh_side
        | eapply frames_weaken; [eapply lem; fresh_side | intros; fresh_side]
        ].

Ltac frame_loop lem :=
  first [ eapply lem
        | eapply frames_weaken; [eapply lem | intros; fresh_side] ];
  intros.

Ltac post_true :=
  lazymatch goal with
  | |- @frames ?A _ _ _ ?P =>
      tryif is_evar P then unify P (fun (_ : A) (_ : nat) => True) else idtac
  end.

Ltac frame_step :=
  cbv zeta; unfold getValues;
  lazymatch goal with
  | |- frames _ _ (bind _ _) _ =>
      eapply frames_bind; [ | intros ? ? ? ?; cbn beta in *; try subst ]
  | |- frames _ _ (ret _) _ =>
      first [ apply frames_ret_eq | apply frames_ret; intros; fresh_side ]
  | |- frames _ _ (throw _) _ => apply frames_throw
  | |- frames _ _ (for_ _ _) _ => frame_loop (@frames_for)
  | |- frames _ _ (fold_for _ _ _) _ => frame_loop (@frames_fold_for)
  | |- frames _ _ (loop _ _ _) _ => frame_loop (@frames_loop)
  | |- frames _ _ (newTypedArray _) _ => frame_leaf frames_newTypedArray
  | |- frames _ _ (getTypedArrayFromDType _ _) _ =>
      frame_leaf frames_getTypedArrayFromDType
  | |- frames _ _ (typedArrayFrom _) _ => frame_leaf frames_typedArrayFrom
  | |- frames _ _ (copyOf _) _ => frame_leaf frames_copyOf
  | |- frames _ _ (sliceOf _ _ _) _ => frame_leaf frames_sliceOf
  | |- frames _ _ (load _ _) _ => frame_leaf frames_load
  | |- frames _ _ (lengthOf _) _ => frame_leaf frames_lengthOf
  | |- frames _ _ (store _ _ _) _ => frame_leaf frames_store
  | |- frames _ _ (fill _ _) _ => frame_leaf frames_fill
  | |- frames _ _ (setAll _ _ _) _ => frame_leaf frames_setAll
  | |- frames _ _ (NDArray_zeros _ _) _ => frame_leaf frames_NDArray_zeros
  | |- frames _ _ (Array1D_new _) _ => frame_leaf frames_Array1D_new
  | |- frames _ _ (get _ _) _ => frame_leaf frames_get
  | |- frames _ _ (MathBackendCPU.getN _ _) _ => frame_leaf frames_getN
  | |- frames _ _ (set _ _ _) _ => frame_leaf frames_set
  | |- frames _ _ (assertAxesAreInnerMostDims _ _ _) _ =>
      frame_leaf frames_assertAxes
  | |- frames _ _ (assertAndGetBroadcastShape _ _) _ =>
      frame_leaf frames_assertAndGetBroadcastShape
  | |- frames _ _ (MathBackendCPU.computeOutShape _ _ _) _ =>
      frame_leaf frames_computeOutShape
  | |- frames _ _ (if ?b then _ else _) _ => post_true; destruct b
  | |- frames _ _ (match ?x with _ => _ end) _ => post_true; destruct x
  end.

Ltac frame := repeat frame_step.

Ltac frame_with tac := repeat first [frame_step | tac].

Section KernelFrames.
Context `{RT : Runtime}.
Variable n0 : nat.

Lemma frames_concatAxis0 n1 a b result :
  (n0 <= data result < n1)%nat ->
  frames n0 n1 (MathBackendCPU.concatAxis0 a b result) (fresh n0).
Proof. intros Hr. unfold MathBackendCPU.concatAxis0. frame. Qed.

Lemma frames_concatAt n1 a b result axis loc :
  (n0 <= data result)%nat ->
  frames n0 n1 (MathBackendCPU.concatAt a b result axis loc)
    (fun _ _ => True).
Proof. intros Hr. unfold MathBackendCPU.concatAt. frame. Qed.

Lemma frames_topK n1 x k :
  (n0 <= n1)%nat ->
  frames n0 n1 (MathBackendCPU.topK x k)
    (fun r n => fresh n0 r.1 n /\ fresh n0 r.2 n).
Proof. intros H01. unfold MathBackendCPU.topK. frame. Qed.

Lemma frames_clone n1 x :
  (n0 <= n1)%nat ->
  frames n0 n1 (MathBackendCPU.clone x) (fresh n0).
Proof. intros H01. unfold MathBackendCPU.clone. frame. Qed.

Lemma frames_slice1D n1 x b s :
  (n0 <= n1)%nat ->
  frames n0 n1 (MathBackendCPU.slice1D x b s) (fresh n0).
Proof. intros H01. unfold MathBackendCPU.slice1D. frame. Qed.

Lemma frames_slice2D n1 x b s :
  (n0 <= n1)%nat ->
  frames n0 n1 (MathBackendCPU.slice2D x b s) (fresh n0).
Proof. intros H01. unfold MathBackendCPU.slice2D. frame. Qed.

Lemma frames_slice3D n1 x b s :
  (n0 <= n1)%nat ->
  frames n0 n1 (MathBackendCPU.slice3D x b s) (fresh n0).
Proof. intros H01. unfold MathBackendCPU.slice3D. frame. Qed.

Lemma frames_slice4D n1 x b s :
  (n0 <= n1)%nat ->
  frames n0 n1 (MathBackendCPU.slice4D x b s) (fresh n0).
Proof. intros H01. unfold MathBackendCPU.slice4D. frame. Qed.

Lemma frames_concat1D n1 a b :
  (n0 <= n1)%nat ->
  frames n0 n1 (MathBackendCPU.concat1D a b) (fresh n0).
Proof. intros H01. unfold MathBackendCPU.concat1D.
  frame_with ltac:(first [ apply frames_concatAxis0; fresh_side
                         | frame_leaf frames_concatAt ]). Qed.

Lemma frames_concat2D n1 a b axis :
  (n0 <= n1)%nat ->
  frames n0 n1 (MathBackendCPU.concat2D a b axis) (fresh n0).
Proof. intros H01. unfold MathBackendCPU.concat2D.
  frame_with ltac:(first [ apply frames_concatAxis0; fresh_side
                         | frame_leaf frames_concatAt ]). Qed.

Lemma frames_concat3D n1 a b axis :
  (n0 <= n1)%nat ->
  frames n0 n1 (MathBackendCPU.concat3D a b axis) (fresh n0).
Proof. intros H01. unfold MathBackendCPU.concat3D.
  frame_with ltac:(first [ apply frames_concatAxis0; fresh_side
                         | frame_leaf frames_concatAt ]). Qed.

Lemma frames_concat4D n1 a b axis :
  (n0 <= n1)%nat ->
  frames n0 n1 (MathBackendCPU.concat4D a b axis) (fresh n0).
Proof. intros H01. unfold MathBackendCPU.concat4D.
  frame_with ltac:(first [ apply frames_concatAxis0; fresh_side
                         | frame_leaf frames_concatAt ]). Qed.

Lemma frames_broadcastedBinaryOp n1 a b d op :
  (n0 <= n1)%nat ->
  frames n0 n1 (MathBackendCPU.broadcastedBinaryOp a b d op) (fresh n0).
Proof. intros H01. unfold MathBackendCPU.broadcastedBinaryOp. frame. Qed.

Lemma frames_scaledArrayAdd n1 c1 a c2 b :
  (n0 <= n1)%nat ->
  frames n0 n1 (MathBackendCPU.scaledArrayAdd c1 a c2 b) (fresh n0).
Proof. intros H01. unfold MathBackendCPU.scaledArrayAdd.
  frame_with ltac:(apply frames_broadcastedBinaryOp; lia). Qed.

Lemma frames_multiply n1 a b :
  (n0 <= n1)%nat ->
  frames n0 n1 (MathBackendCPU.multiply a b) (fresh n0).
Proof. intros H01. unfold MathBackendCPU.multiply. frame. Qed.

Lemma frames_neg n1 x :
  (n0 <= n1)%nat ->
  frames n0 n1 (MathBackendCPU.neg x) (fresh n0).
Proof. intros H01. now apply frames_multiply. Qed.

Lemma frames_add n1 a b :
  (n0 <= n1)%nat ->
  frames n0 n1 (MathBackendCPU.add a b) (fresh n0).
Proof. intros H01. now apply frames_scaledArrayAdd. Qed.

Lemma frames_subtract n1 a b :
  (n0 <= n1)%nat ->
  frames n0 n1 (MathBackendCPU.subtract a b) (fresh n0).
Proof. intros H01. now apply frames_scaledArrayAdd. Qed.

Lemma frames_divide n1 a b :
  (n0 <= n1)%nat ->
  frames n0 n1 (MathBackendCPU.divide a b) (fresh n0).
Proof. intros H01. unfold MathBackendCPU.divide. frame. Qed.

Lemma frames_matMul n1 a b ao bo :
  (n0 <= n1)%nat ->
  frames n0 n1 (MathBackendCPU.matMul a b ao bo) (fresh n0).
Proof. intros H01. unfold MathBackendCPU.matMul. destruct ao, bo; frame. Qed.

Lemma frames_sum n1 x axes :
  (n0 <= n1)%nat ->
  frames n0 n1 (MathBackendCPU.sum x axes) (fresh n0).
Proof. intros H01. unfold MathBackendCPU.sum. frame. Qed.

Lemma frames_argMin n1 x axes :
  (n0 <= n1)%nat ->
  frames n0 n1 (MathBackendCPU.argMin x axes) (fresh n0).
Proof. intros H01. unfold MathBackendCPU.argMin. frame. Qed.

Lemma frames_argMax n1 x axes :
  (n0 <= n1)%nat ->
  frames n0 n1 (MathBackendCPU.argMax x axes) (fresh n0).
Proof. intros H01. unfold MathBackendCPU.argMax. frame. Qed.

Lemma frames_equal n1 a b :
  (n0 <= n1)%nat ->
  frames n0 n1 (MathBackendCPU.equal a b) (fresh n0).
Proof. intros H01. now apply frames_broadcastedBinaryOp. Qed.

Lemma frames_topKValues n1 x k :
  (n0 <= n1)%nat ->
  frames n0 n1 (MathBackendCPU.topKValues x k) (fresh n0).
Proof. intros H01. unfold MathBackendCPU.topKValues. frame_with ltac:(apply frames_topK; lia). Qed.

Lemma frames_topKIndices n1 x k :
  (n0 <= n1)%nat ->
  frames n0 n1 (MathBackendCPU.topKIndices x k) (fresh n0).
Proof. intros H01. unfold MathBackendCPU.topKIndices. frame_with ltac:(apply frames_topK; lia). Qed.

Lemma frames_min n1 x axes :
  (n0 <= n1)%nat ->
  frames n0 n1 (MathBackendCPU.min x axes) (fresh n0).
Proof. intros H01. unfold MathBackendCPU.min. frame. Qed.

Lemma frames_max n1 x axes :
  (n0 <= n1)%nat ->
  frames n0 n1 (MathBackendCPU.max x axes) (fresh n0).
Proof. intros H01. unfold MathBackendCPU.max. frame. Qed.

Lemma frames_mapValues n1 f x :
  (n0 <= n1)%nat ->
  frames n0 n1 (MathBackendCPU.mapValues f x) (fresh n0).
Proof. intros H01. unfold MathBackendCPU.mapValues. frame. Qed.

Lemma frames_mapValuesSized n1 f x :
  (n0 <= n1)%nat ->
  frames n0 n1 (MathBackendCPU.mapValuesSized f x) (fresh n0).
Proof. intros H01. unfold MathBackendCPU.mapValuesSized. frame. Qed.

Lemma frames_ceil n1 x :
  (n0 <= n1)%nat ->
  frames n0 n1 (MathBackendCPU.ceil x) (fresh n0).
Proof. intros H01. now apply frames_mapValues. Qed.

Lemma frames_floor n1 x :
  (n0 <= n1)%nat ->
  frames n0 n1 (MathBackendCPU.floor x) (fresh n0).
Proof. intros H01. now apply frames_mapValues. Qed.

Lemma frames_exp n1 x :
  (n0 <= n1)%nat ->
  frames n0 n1 (MathBackendCPU.exp x) (fresh n0).
Proof. intros H01. now apply frames_mapValues. Qed.

Lemma frames_log n1 x :
  (n0 <= n1)%nat ->
  frames n0 n1 (MathBackendCPU.log x) (fresh n0).
Proof. intros H01. now apply frames_mapValues. Qed.

Lemma frames_sqrt n1 x :
  (n0 <= n1)%nat ->
  frames n0 n1 (MathBackendCPU.sqrt x) (fresh n0).
Proof. intros H01. now apply frames_mapValues. Qed.

Lemma frames_square n1 x :
  (n0 <= n1)%nat ->
  frames n0 n1 (MathBackendCPU.square x) (fresh n0).
Proof. intros H01. now apply frames_mapValues. Qed.

Lemma frames_relu n1 x :
  (n0 <= n1)%nat ->
  frames n0 n1 (MathBackendCPU.relu x) (fresh n0).
Proof. intros H01. unfold MathBackendCPU.relu. frame. Qed.

Lemma frames_elu n1 x :
  (n0 <= n1)%nat ->
  frames n0 n1 (MathBackendCPU.elu x) (fresh n0).
Proof. intros H01. now apply frames_mapValuesSized. Qed.

Lemma frames_eluDer n1 x :
  (n0 <= n1)%nat ->
  frames n0 n1 (MathBackendCPU.eluDer x) (fresh n0).
Proof. intros H01. now apply frames_mapValuesSized. Qed.

Lemma frames_selu n1 x :
  (n0 <= n1)%nat ->
  frames n0 n1 (MathBackendCPU.selu x) (fresh n0).
Proof. intros H01. now apply frames_mapValuesSized. Qed.

Lemma frames_leakyRelu n1 x alpha :
  (n0 <= n1)%nat ->
  frames n0 n1 (MathBackendCPU.leakyRelu x alpha) (fresh n0).
Proof. intros H01. now apply frames_mapValuesSized. Qed.

Lemma frames_clip n1 x lo hi :
  (n0 <= n1)%nat ->
  frames n0 n1 (MathBackendCPU.clip x lo hi) (fresh n0).
Proof. intros H01. now apply frames_mapValuesSized. Qed.

Lemma frames_abs n1 x :
  (n0 <= n1)%nat ->
  frames n0 n1 (MathBackendCPU.abs x) (fresh n0).
Proof. intros H01. now apply frames_mapValuesSized. Qed.

Lemma frames_sigmoid n1 x :
  (n0 <= n1)%nat ->
  frames n0 n1 (MathBackendCPU.sigmoid x) (fresh n0).
Proof. intros H01. now apply frames_mapValuesSized. Qed.

Lemma frames_sin n1 x :
  (n0 <= n1)%nat ->
  frames n0 n1 (MathBackendCPU.sin x) (fresh n0).
Proof. intros H01. now apply frames_mapValuesSized. Qed.

Lemma frames_cos n1 x :
  (n0 <= n1)%nat ->
  frames n0 n1 (MathBackendCPU.cos x) (fresh n0).
Proof. intros H01. now apply frames_mapValuesSized. Qed.

Lemma frames_tan n1 x :
  (n0 <= n1)%nat ->
  frames n0 n1 (MathBackendCPU.tan x) (fresh n0).
Proof. intros H01. now apply frames_mapValuesSized. Qed.

Lemma frames_asin n1 x :
  (n0 <= n1)%nat ->
  frames n0 n1 (MathBackendCPU.asin x) (fresh n0).
Proof. intros H01. now apply frames_mapValuesSized. Qed.

Lemma frames_acos n1 x :
  (n0 <= n1)%nat ->
  frames n0 n1 (MathBackendCPU.acos x) (fresh n0).
Proof. intros H01. now apply frames_mapValuesSized. Qed.

Lemma frames_atan n1 x :
  (n0 <= n1)%nat ->
  frames n0 n1 (MathBackendCPU.atan x) (fresh n0).
Proof. intros H01. now apply frames_mapValuesSized. Qed.

Lemma frames_sinh n1 x :
  (n0 <= n1)%nat ->
  frames n0 n1 (MathBackendCPU.sinh x) (fresh n0).
Proof. intros H01. now apply frames_mapValuesSized. Qed.

Lemma frames_cosh n1 x :
  (n0 <= n1)%nat ->
  frames n0 n1 (MathBackendCPU.cosh x) (fresh n0).
Proof. intros H01. now apply frames_mapValuesSized. Qed.

Lemma frames_tanh n1 x :
  (n0 <= n1)%nat ->
  frames n0 n1 (MathBackendCPU.tanh x) (fresh n0).
Proof. intros H01. now apply frames_mapValuesSized. Qed.

Lemma frames_step n1 x alpha :
  (n0 <= n1)%nat ->
  frames n0 n1 (MathBackendCPU.step x alpha) (fresh n0).
Proof. intros H01. now apply frames_mapValuesSized. Qed.

Lemma frames_conv2d n1 x filter bias ci :
  (n0 <= n1)%nat ->
  frames n0 n1 (MathBackendCPU.conv2d x filter bias ci) (fresh n0).
Proof. intros H01. unfold MathBackendCPU.conv2d. frame. Qed.

Lemma frames_conv2dDerInput n1 dy filter ci :
  (n0 <= n1)%nat ->
  frames n0 n1 (MathBackendCPU.conv2dDerInput dy filter ci) (fresh n0).
Proof. intros H01. unfold MathBackendCPU.conv2dDerInput. frame. Qed.

Lemma frames_conv2dDerFilter n1 x dy ci :
  (n0 <= n1)%nat ->
  frames n0 n1 (MathBackendCPU.conv2dDerFilter x dy ci) (fresh n0).
Proof. intros H01. unfold MathBackendCPU.conv2dDerFilter. frame. Qed.

Lemma frames_conv2dDerBias n1 dy :
  (n0 <= n1)%nat ->
  frames n0 n1 (MathBackendCPU.conv2dDerBias dy) (fresh n0).
Proof. intros H01. unfold MathBackendCPU.conv2dDerBias. frame. Qed.

Lemma frames_depthwiseConv2D n1 x filter ci :
  (n0 <= n1)%nat ->
  frames n0 n1 (MathBackendCPU.depthwiseConv2D x filter ci) (fresh n0).
Proof. intros H01. unfold MathBackendCPU.depthwiseConv2D. frame. Qed.

Lemma frames_tile n1 x reps :
  (n0 <= n1)%nat ->
  frames n0 n1 (MathBackendCPU.tile x reps) (fresh n0).
Proof. intros H01. unfold MathBackendCPU.tile. frame. Qed.

Lemma frames_transpose n1 x perm :
  (n0 <= n1)%nat ->
  frames n0 n1 (MathBackendCPU.transpose x perm) (fresh n0).
Proof. intros H01. unfold MathBackendCPU.transpose. frame. Qed.

Lemma frames_pool n1 x ci poolType :
  (n0 <= n1)%nat ->
  frames n0 n1 (MathBackendCPU.pool x ci poolType) (fresh n0).
Proof. intros H01. unfold MathBackendCPU.pool. frame. Qed.

Lemma frames_maxPool n1 x ci :
  (n0 <= n1)%nat ->
  frames n0 n1 (MathBackendCPU.maxPool x ci) (fresh n0).
Proof. intros H01. now apply frames_pool. Qed.

Lemma frames_maxPoolPositions n1 x ci :
  (n0 <= n1)%nat ->
  frames n0 n1 (MathBackendCPU.maxPoolPositions x ci) (fresh n0).
Proof. intros H01. unfold MathBackendCPU.maxPoolPositions. frame. Qed.

Lemma frames_maxPoolBackprop n1 dy x ci :
  (n0 <= n1)%nat ->
  frames n0 n1 (MathBackendCPU.maxPoolBackprop dy x ci) (fresh n0).
Proof. intros H01. unfold MathBackendCPU.maxPoolBackprop.
  frame_with ltac:(apply frames_maxPoolPositions; lia). Qed.

Lemma frames_minPool n1 x ci :
  (n0 <= n1)%nat ->
  frames n0 n1 (MathBackendCPU.minPool x ci) (fresh n0).
Proof. intros H01. now apply frames_pool. Qed.

Lemma frames_avgPool n1 x ci :
  (n0 <= n1)%nat ->
  frames n0 n1 (MathBackendCPU.avgPool x ci) (fresh n0).
Proof. intros H01. now apply frames_pool. Qed.

Lemma frames_resizeBilinear3D n1 x s ac :
  (n0 <= n1)%nat ->
  frames n0 n1 (MathBackendCPU.resizeBilinear3D x s ac) (fresh n0).
Proof. intros H01. unfold MathBackendCPU.resizeBilinear3D. frame. Qed.

Lemma frames_batchNormalization n1 x mean variance eps scale offset :
  (n0 <= n1)%nat ->
  frames n0 n1 (MathBackendCPU.batchNormalization x mean variance eps scale offset) (fresh n0).
Proof. intros H01. unfold MathBackendCPU.batchNormalization. frame. Qed.

Lemma frames_batchNormalization2D n1 x mean variance eps scale offset :
  (n0 <= n1)%nat ->
  frames n0 n1 (MathBackendCPU.batchNormalization2D x mean variance eps scale offset) (fresh n0).
Proof. intros H01. now apply frames_batchNormalization. Qed.

Lemma frames_batchNormalization3D n1 x mean variance eps scale offset :
  (n0 <= n1)%nat ->
  frames n0 n1 (MathBackendCPU.batchNormalization3D x mean variance eps scale offset) (fresh n0).
Proof. intros H01. now apply frames_batchNormalization. Qed.

Lemma frames_multinomial n1 p ns seed :
  (n0 <= n1)%nat ->
  frames n0 n1 (MathBackendCPU.multinomial p ns seed) (fresh n0).
Proof. intros H01. unfold MathBackendCPU.multinomial. frame. Qed.

Lemma frames_oneHot n1 indices depth onValue offValue :
  (n0 <= n1)%nat ->
  frames n0 n1 (MathBackendCPU.oneHot indices depth onValue offValue) (fresh n0).
Proof. intros H01. unfold MathBackendCPU.oneHot. frame. Qed.

End KernelFrames.

Lemma frames_run `{Runtime} n0 n1 c :
  (n0 <= n1)%nat -> frames n0 n1 (run c) (fresh n0).
Proof.
  intros H01. destruct c; cbn [run].
  - now apply frames_matMul.
  - now apply frames_clone.
  - now apply frames_slice1D.
  - now apply frames_slice2D.
  - now apply frames_slice3D.
  - now apply frames_slice4D.
  - now apply frames_concat1D.
  - now apply frames_concat2D.
  - now apply frames_concat3D.
  - now apply frames_concat4D.
  - now apply frames_neg.
  - now apply frames_add.
  - now apply frames_subtract.
  - now apply frames_multiply.
  - now apply frames_divide.
  - now apply frames_sum.
  - now apply frames_argMin.
  - now apply frames_argMax.
  - now apply frames_equal.
  - now apply frames_topKValues.
  - now apply frames_topKIndices.
  - now apply frames_min.
  - now apply frames_max.
  - now apply frames_ceil.
  - now apply frames_floor.
  - now apply frames_exp.
  - now apply frames_log.
  - now apply frames_sqrt.
  - now apply frames_square.
  - now apply frames_relu.
  - now apply frames_elu.
  - now apply frames_eluDer.
  - now apply frames_selu.
  - now apply frames_leakyRelu.
  - now apply frames_clip.
  - now apply frames_abs.
  - now apply frames_sigmoid.
  - now apply frames_sin.
  - now apply frames_cos.
  - now apply frames_tan.
  - now apply frames_asin.
  - now apply frames_acos.
  - now apply frames_atan.
  - now apply frames_sinh.
  - now apply frames_cosh.
  - now apply frames_tanh.
  - now apply frames_step.
  - now apply frames_conv2d.
  - now apply frames_conv2dDerInput.
  - now apply frames_conv2dDerFilter.
  - now apply frames_conv2dDerBias.
  - now apply frames_depthwiseConv2D.
  - now apply frames_maxPool.
  - now apply frames_maxPoolBackprop.
  - now apply frames_minPool.
  - now apply frames_avgPool.
  - now apply frames_tile.
  - now apply frames_transpose.
  - now apply frames_resizeBilinear3D.
  - now apply frames_batchNormalization2D.
  - now apply frames_batchNormalization3D.
  - now apply frames_multinomial.
  - now apply frames_oneHot.
Qed.

Lemma prefix_of_lookup {A} (h h' : list A) :
  (length h <= length h')%nat ->
  (forall r, (r < length h)%nat -> h' !! r = h !! r) ->
  h' = h ++ drop (length h) h'.
Proof.
  intros L F. rewrite <- (take_drop (length h) h') at 1. f_equal.
  apply list_eq. intros r. destruct (decide (r < length h)%nat) as [Hr|Hr].
  - rewrite lookup_take_lt by exact Hr. now apply F.
  - rewrite lookup_take_ge by lia. symmetry. apply lookup_ge_None. lia.
Qed.

(** C7: no method of the backend mutates an operand. Whatever the call and
    whether it returns or throws, the heap after the call is the heap
    before it followed by the typed arrays the call allocated, so the
    typed array of every operand holds the same elements as before; a
    returned tensor lives in one of the typed arrays allocated by the
    call, which is none of the operands'. *)
Theorem kernels_never_mutate_operands `{Runtime} (c : call)
    (h : list (list number)) (x : NDArray) :
  x ∈ operands c -> (data x < length h)%nat ->
  (exists allocated, (run c h).2 = h ++ allocated)
  /\ buffer (run c h).2 (data x) = buffer h (data x)
  /\ forall res, (run c h).1 = Ok res ->
       (length h <= data res < length (run c h).2)%nat
       /\ data res <> data x.
Proof.
  intros _ Hx.
  destruct (frames_run (length h) (length h) c (le_n _) h (le_n _))
    as (L & F & R).
  split; [eexists; apply (prefix_of_lookup _ _ L F)|]. split.
  - unfold buffer. now rewrite F.
  - intros res E. specialize (R res E). unfold fresh in R. lia.
Qed.

Lemma kernels_never_mutate_operands_witness :
  exReduceX ∈ operands (call_neg exReduceX)
  /\ (data exReduceX < length exReduceHeap)%nat
  /\ buffer (@run exampleRuntime (call_neg exReduceX) exReduceHeap).2
       (data exReduceX)
     = buffer exReduceHeap (data exReduceX)
  /\ forall res,
       (@run exampleRuntime (call_neg exReduceX) exReduceHeap).1 = Ok res ->
       data res <> data exReduceX.
Proof.
  assert (Hin : exReduceX ∈ operands (call_neg exReduceX))
    by (cbn [operands]; constructor).
  assert (Hlt : (data exReduceX < length exReduceHeap)%nat) by (cbn; lia).
  split; [exact Hin|]. split; [exact Hlt|].
  destruct (@kernels_never_mutate_operands exampleRuntime
              (call_neg exReduceX) exReduceHeap exReduceX Hin Hlt)
    as (_ & Hb & Hr).
  split; [exact Hb|]. intros res E. apply (Hr res E).
Defined.

(** * The kernels beside the specified ones *)

(** ** Binary32 numbers

    Most kernels return a [Float32Array]. Where the numbers that a kernel
    stores in it are binary32 numbers, the array stores them as they are;
    the properties below state that of the results that they describe. *)

Lemma float32Value_NaN : float32Value NaN.
Proof. reflexivity. Qed.

Lemma float32Value_PInf : float32Value PInf.
Proof. reflexivity. Qed.

Lemma float32Value_NInf : float32Value NInf.
Proof. reflexivity. Qed.

Lemma float32Value_0 : float32Value (num 0).
Proof. reflexivity. Qed.

Lemma float32Value_1 : float32Value (num 1).
Proof. vm_compute. reflexivity. Qed.

Ltac float32_values :=
  repeat first
    [ apply List.Forall_nil
    | apply List.Forall_cons; [vm_compute; reflexivity|] ].

Lemma Forall_scatter {T} (P : number -> Prop) (idx : T -> nat)
    (f : T -> number) (l : list T) (buf : list number) :
  Forall P buf -> (forall t, t ∈ l -> P (f t)) ->
  Forall P (scatter idx f l buf).
Proof.
  unfold scatter. revert buf.
  induction l as [|t l IH]; intros buf Hbuf Hf; [exact Hbuf|].
  cbn [fold_left]. apply IH.
  - apply Forall_insert; [exact Hbuf|]. apply Hf. left.
  - intros t' Ht'. apply Hf. now right.
Qed.

Lemma Forall_replicate_0 n : Forall float32Value (replicate n (num 0)).
Proof. apply Forall_replicate, float32Value_0. Qed.

(** The negation of a binary32 number is a binary32 number. *)
Lemma float32Value_nopp v : float32Value v -> float32Value (nopp v).
Proof.
  intros Hv. pose proof (float32Value_canonical v Hv) as Hc.
  destruct v as [| | |q]; try reflexivity.
  cbn [canonical] in Hc. unfold nopp. rewrite Qred_opp, Hc.
  revert Hv. unfold float32Value, Math_fround, roundBinary.
  assert (Z0 : Qeq_bool (- q) 0 = Qeq_bool q 0).
  { apply eq_true_iff_eq. rewrite !Qeq_bool_iff. split; intros E.
    - rewrite <- (Qopp_involutive q), E. reflexivity.
    - rewrite E. reflexivity. }
  rewrite Z0. destruct (Qeq_bool q 0) eqn:Zq.
  { intros E. apply (f_equal (fun v => match v with Fin p => p | _ => q end)) in E.
    rewrite <- E. reflexivity. }
  assert (EL : Qlog2 (- q) = Qlog2 q).
  { unfold Qlog2. cbn [Qnum Qden Qopp]. rewrite Z.abs_opp.
    assert (EA : Qle_bool (2 ^ (Z.log2 (Z.abs (Qnum q)) - Z.log2 (Z.pos (Qden q))))
                   (Qabs (- q))
                 = Qle_bool (2 ^ (Z.log2 (Z.abs (Qnum q)) - Z.log2 (Z.pos (Qden q))))
                     (Qabs q)).
    { apply eq_true_iff_eq. rewrite !Qle_bool_iff. now rewrite Qabs_opp. }
    now rewrite EA. }
  rewrite EL.
  set (ex := Z.max (Qlog2 q - (24 - 1)) (-126 - (24 - 1))).
  set (n := roundHalfEven (q / 2 ^ ex)).
  destruct (Qle_bool (2 ^ (127 + 1)) (Qabs (inject_Z n * 2 ^ ex))) eqn:O.
  { destruct (Qle_bool 0 q); discriminate. }
  intros E.
  apply (f_equal (fun v => match v with Fin p => p | _ => q end)) in E.
  assert (Eq : (q == inject_Z n * 2 ^ ex)%Q).
  { rewrite <- E at 1. apply Qred_correct. }
  assert (En : (- q / 2 ^ ex == inject_Z (- n))%Q).
  { transitivity (- (inject_Z n * 2 ^ ex) / 2 ^ ex)%Q;
      [now rewrite <- Eq|].
    rewrite inject_Z_opp. field. apply pow2_nonzero. }
  rewrite (roundHalfEven_comp _ _ En), roundHalfEven_Z.
  assert (Er : (inject_Z (- n) * 2 ^ ex == - q)%Q).
  { transitivity (- (inject_Z n * 2 ^ ex))%Q;
      [rewrite inject_Z_opp; ring|now rewrite <- Eq]. }
  assert (EO : Qle_bool (2 ^ (127 + 1)) (Qabs (inject_Z (- n) * 2 ^ ex)) = false).
  { rewrite <- O. apply eq_true_iff_eq. rewrite !Qle_bool_iff.
    rewrite Er, Qabs_opp, Eq. reflexivity. }
  rewrite EO. f_equal.
  rewrite (Qred_complete _ _ Er), Qred_opp, Hc. reflexivity.
Qed.

(** ** max, min and argMax *)

Lemma ngt_irrefl a : ngt a a = false.
Proof. apply nlt_irrefl. Qed.

Lemma ngt_trans a b c : ngt a b = true -> ngt b c = true -> ngt a c = true.
Proof. unfold ngt. intros H1 H2. eapply nlt_trans; eassumption. Qed.

Lemma ngt_le_trans a b c :
  ngt a b = true -> ngt c b = false -> isNaN c = false -> ngt a c = true.
Proof. unfold ngt. intros H1 H2 H3. eapply nle_lt_trans; eassumption. Qed.

Lemma extremum_run (kernel : NDArray -> list Z -> M NDArray)
    (msg : string) (lt : number -> number -> bool) (start : Z -> Z -> Z)
    h x xv k :
  holds h x xv -> 0 <= k <= rank x ->
  (forall axes,
     kernel x axes
     = (assertAxesAreInnerMostDims msg axes (rank x) ;;;
        let '(outShape, reduceShape) :=
          computeOutAndReduceShapes (shape x) axes in
        result <- NDArray_zeros outShape (dtype x) ;;
        let reduceSize := sizeFromShape reduceShape in
        let vals := getValues result in
        let aVals := getValues x in
        n <- lengthOf vals ;;
        for_ (range 0 n) (fun i =>
          let offset := i * reduceSize in
          m <- load aVals (start i reduceSize) ;;
          m <- loop (range 0 reduceSize) m (fun j m =>
            value <- load aVals (offset + j) ;;
            if isNaN value then ret (Break NaN)
            else if lt value m then ret (Next value)
            else ret (Next m)) ;;
          store vals i m) ;;;
        ret result)) ->
  let rs := reduceSizeOf x k in
  let n := sizeFromShape (keptShape x k) in
  kernel x (trailingAxes (rank x) k) h
  = (Ok (mkNDArray (keptShape x k) (dtype x) (length h)),
     h ++ [(fun i => extremumScan lt xv (start i rs) (i * rs) rs)
             <$> range 0 n]).
Proof.
  intros Hx Hk Hkernel rs n. rewrite Hkernel.
  unfold assertAxesAreInnerMostDims.
  rewrite axesAreInnerMostDims_trailing by lia. rewrite bind_ret.
  unfold rank. rewrite computeOutAndReduceShapes_trailing by (unfold rank in Hk; lia).
  fold (rank x). fold (keptShape x k). fold (reduceSizeOf x k). fold rs.
  assert (Hn : 0 < n).
  { apply sizeFromShape_pos. unfold keptShape. apply Forall_take, Hx. }
  unfold NDArray_zeros. fold n.
  erewrite bind_ok; [|erewrite bind_ok; [|apply newTypedArray_ok; lia]; reflexivity].
  cbn [getValues data].
  erewrite bind_ok; [|apply reads_lengthOf].
  rewrite buffer_app_top, length_replicate, Z2Nat.id by lia.
  erewrite bind_ok; [reflexivity|].
  apply for_fill; [lia| |now rewrite length_replicate].
  intros i buf Hi Hlen.
  erewrite bind_ok; [|apply reads_load].
  erewrite bind_ok.
  2:{ apply (reads_loop _ _ (fun j m =>
         let value := at_index xv (i * rs + j) in
         if isNaN value then Break NaN
         else if lt value m then Next value
         else Next m)).
      intros j m _.
      eapply reads_bind; [apply reads_load|].
      rewrite (holds_buffer _ _ _ _ Hx). cbn.
      destruct (isNaN _); [reflexivity|].
      destruct (lt _ _); reflexivity. }
  rewrite (holds_buffer _ _ _ _ Hx).
  apply store_top. lia.
Qed.

Lemma max_run h x xv k :
  holds h x xv -> 0 <= k <= rank x ->
  let rs := reduceSizeOf x k in
  let n := sizeFromShape (keptShape x k) in
  MathBackendCPU.max x (trailingAxes (rank x) k) h
  = (Ok (mkNDArray (keptShape x k) (dtype x) (length h)),
     h ++ [(fun i => extremumScan ngt xv (i * rs) (i * rs) rs) <$> range 0 n]).
Proof.
  intros Hx Hk.
  apply (extremum_run MathBackendCPU.max "max" ngt (fun i rs => i * rs)
           h x xv k Hx Hk).
  reflexivity.
Qed.

Lemma min_run h x xv k :
  holds h x xv -> 0 <= k <= rank x ->
  let rs := reduceSizeOf x k in
  let n := sizeFromShape (keptShape x k) in
  MathBackendCPU.min x (trailingAxes (rank x) k) h
  = (Ok (mkNDArray (keptShape x k) (dtype x) (length h)),
     h ++ [(fun i => extremumScan nlt xv 0 (i * rs) rs) <$> range 0 n]).
Proof.
  intros Hx Hk.
  apply (extremum_run MathBackendCPU.min "min" nlt (fun _ _ => 0)
           h x xv k Hx Hk).
  reflexivity.
Qed.

(** The scan of min and max keeps the extremum that the scan of argMin and
    argMax keeps beside its index. *)
Section ValueScan.
Variable lt : number -> number -> bool.
Variable wf : Z -> number.
Variable rs : Z.

Lemma valueScan_argScan (d : nat) : forall k m mi,
  0 <= k -> k + Z.of_nat d = rs ->
  ((exists j, k <= j < rs /\ isNaN (wf j) = true) ->
     loop_pure (range k rs) m
       (fun j m => let value := wf j in
                   if isNaN value then Break NaN
                   else if lt value m then Next value else Next m)
     = NaN)
  /\ ((forall j, k <= j < rs -> isNaN (wf j) = false) ->
      loop_pure (range k rs) m
        (fun j m => let value := wf j in
                    if isNaN value then Break NaN
                    else if lt value m then Next value else Next m)
      = (loop_pure (range k rs) (m, mi)
           (fun j st => let value := wf j in
                        if isNaN value then Break (st.1, NAN_INT32)
                        else if lt value st.1 then Next (value, j)
                        else Next st)).1).
Proof.
  induction d as [|d IH]; intros k m mi Hk Hd.
  - rewrite range_nil by lia. cbn. split; [|done].
    intros (j & Hj & _). lia.
  - rewrite range_cons by lia. cbn [loop_pure]. cbv zeta. cbn [fst snd].
    destruct (isNaN (wf k)) eqn:EN.
    + split; [done|]. intros H. rewrite H in EN; [done|lia].
    + destruct (lt (wf k) m).
      * destruct (IH (k + 1) (wf k) k ltac:(lia) ltac:(lia)) as [I1 I2].
        split.
        -- intros (j & Hj & HN). apply I1. exists j. split; [|exact HN].
           destruct (decide (j = k)) as [->|]; [congruence|lia].
        -- intros H. apply I2. intros j Hj. apply H. lia.
      * destruct (IH (k + 1) m mi ltac:(lia) ltac:(lia)) as [I1 I2].
        split.
        -- intros (j & Hj & HN). apply I1. exists j. split; [|exact HN].
           destruct (decide (j = k)) as [->|]; [congruence|lia].
        -- intros H. apply I2. intros j Hj. apply H. lia.
Qed.
End ValueScan.

(** What min and max store for a window that they start from its own
    first element, and what argMin and argMax store for it. *)
Lemma extremumScan_window lt xv rs n i :
  Z.of_nat (length xv) = n * rs -> 0 <= i < n -> 0 < rs ->
  (forall a, lt a a = false) ->
  (forall a b c, lt a b = true -> lt b c = true -> lt a c = true) ->
  (forall a b c, lt a b = true -> lt c b = false -> isNaN c = false ->
                 lt a c = true) ->
  let w := window xv rs i in
  (NaN ∈ w -> extremumScan lt xv (i * rs) (i * rs) rs = NaN)
  /\ (NaN ∉ w ->
      extremumOf lt w (extremumScan lt xv (i * rs) (i * rs) rs)
      /\ w !! Z.to_nat (argScan lt xv (i * rs) rs).2
         = Some (extremumScan lt xv (i * rs) (i * rs) rs)).
Proof.
  intros Hlen Hi Hrs L1 L2 L3 w.
  set (wf := fun j => at_index xv (i * rs + j)).
  destruct (valueScan_argScan lt wf rs (Z.to_nat rs) 0 (wf 0) 0
              ltac:(lia) ltac:(lia)) as [V1 V2].
  destruct (scan_spec lt L1 L2 L3 wf rs Hrs) as [_ S2].
  assert (E0 : at_index xv (i * rs) = wf 0)
    by (unfold wf; f_equal; lia).
  change (extremumScan lt xv (i * rs) (i * rs) rs)
    with (loop_pure (range 0 rs) (at_index xv (i * rs))
            (fun j m => let value := wf j in
                        if isNaN value then Break NaN
                        else if lt value m then Next value else Next m)).
  change (argScan lt xv (i * rs) rs)
    with (loop_pure (range 0 rs) (at_index xv (i * rs), 0)
            (fun j st => let value := wf j in
                         if isNaN value then Break (st.1, NAN_INT32)
                         else if lt value st.1 then Next (value, j)
                         else Next st)).
  rewrite E0.
  assert (Hel : forall v, v ∈ w <-> exists j, 0 <= j < rs /\ wf j = v)
    by (intros v; apply (window_elem xv rs n i Hlen Hi Hrs)).
  split.
  - intros (j & Hj & E)%Hel. apply V1. exists j. split; [exact Hj|].
    now rewrite E.
  - intros HN.
    assert (Hno : forall j, 0 <= j < rs -> isNaN (wf j) = false).
    { intros j Hj. destruct (isNaN (wf j)) eqn:E; [|reflexivity].
      exfalso. apply HN, Hel. exists j. split; [exact Hj|].
      destruct (wf j); done. }
    specialize (S2 Hno). specialize (V2 Hno).
    set (st := loop_pure (range 0 rs) (wf 0, 0) _) in *.
    rewrite V2. destruct S2 as (_ & H2 & H3 & H4 & H5 & _).
    assert (Hlt : 0 <= st.2 < rs) by lia.
    split; [split|].
    + apply Hel. exists st.2. split; [exact Hlt|]. now rewrite H2.
    + intros v' (j & Hj & <-)%Hel. now apply H5.
    + rewrite H2. apply (window_wf xv rs n i Hlen Hi Hrs). exact Hlt.
Qed.

Lemma window_as_map xv rs n i :
  Z.of_nat (length xv) = n * rs -> 0 <= i < n -> 0 < rs ->
  window xv rs i = (fun j => at_index xv (i * rs + j)) <$> range 0 rs.
Proof.
  intros Hlen Hi Hrs. apply list_eq. intros j.
  destruct (decide (j < Z.to_nat rs)%nat) as [Hj|Hj].
  - pose proof (window_wf xv rs n i Hlen Hi Hrs (Z.of_nat j) ltac:(lia)) as E.
    rewrite Nat2Z.id in E. rewrite E.
    rewrite list_lookup_fmap, lookup_range by lia. reflexivity.
  - rewrite !lookup_ge_None_2; [reflexivity| |].
    + rewrite length_fmap, length_range. lia.
    + rewrite (window_length _ _ _ n) by assumption. lia.
Qed.

Lemma lookup_fmap_range {A} (f : Z -> A) n i :
  0 <= i < n -> (f <$> range 0 n) !! Z.to_nat i = Some (f i).
Proof.
  intros Hi. rewrite list_lookup_fmap, lookup_range by lia.
  cbn; f_equal; f_equal; lia.
Qed.

Lemma exReduce_holds : holds exReduceHeap exReduceX exReduceBuf.
Proof. split; [reflexivity|]. split; [reflexivity|]. repeat constructor. Qed.

Lemma exMin_holds : holds exMinHeap exMinX exMinBuf.
Proof. split; [reflexivity|]. split; [reflexivity|]. repeat constructor. Qed.

(** X1: max over trailing axes: the [i]-th element of the result is NaN when
    the [i]-th reduce-window holds a NaN, and otherwise an element of that
    window that no element of the window exceeds. *)
Theorem max_of_each_window h x xv k :
  holds h x xv -> 0 <= k <= rank x ->
  let rs := reduceSizeOf x k in
  let n := sizeFromShape (keptShape x k) in
  exists out,
    MathBackendCPU.max x (trailingAxes (rank x) k) h
    = (Ok (mkNDArray (keptShape x k) (dtype x) (length h)), h ++ [out])
    /\ length out = Z.to_nat n
    /\ forall i, 0 <= i < n ->
         let w := window xv rs i in
         (NaN ∈ w -> out !! Z.to_nat i = Some NaN)
         /\ (NaN ∉ w ->
             exists v, out !! Z.to_nat i = Some v /\ extremumOf ngt w v).
Proof.
  intros Hx Hk rs n.
  destruct (holds_size h x xv k Hx Hk) as (Hlen & Hn & Hrs).
  fold rs in Hlen, Hrs. fold n in Hlen, Hn.
  eexists. split; [apply (max_run h x xv k Hx Hk)|]. fold rs n.
  split; [rewrite length_fmap, length_range; f_equal; lia|].
  intros i Hi w. rewrite lookup_fmap_range by exact Hi.
  destruct (extremumScan_window ngt xv rs n i Hlen Hi Hrs
              ngt_irrefl ngt_trans ngt_le_trans) as [HN HM].
  split.
  - intros H. f_equal. now apply HN.
  - intros H. eexists. split; [reflexivity|]. now apply HM.
Qed.

Lemma max_of_each_window_witness :
  holds exReduceHeap exReduceX exReduceBuf /\ 0 <= 1 <= rank exReduceX
  /\ exists out,
       MathBackendCPU.max exReduceX [1] exReduceHeap
       = (Ok (mkNDArray [2] float32 3%nat), exReduceHeap ++ [out])
       /\ (NaN ∈ window exReduceBuf 3 1 -> out !! 1%nat = Some NaN)
       /\ (NaN ∉ window exReduceBuf 3 0 ->
           exists v, out !! 0%nat = Some v
                     /\ extremumOf ngt (window exReduceBuf 3 0) v).
Proof.
  assert (Hk : 0 <= 1 <= rank exReduceX) by (vm_compute; split; congruence).
  split; [exact exReduce_holds|]. split; [exact Hk|].
  destruct (max_of_each_window exReduceHeap exReduceX exReduceBuf 1
              exReduce_holds Hk) as (out & E & _ & Hw).
  exists out. split; [exact E|]. split.
  - apply (Hw 1 ltac:(vm_compute; split; congruence)).
  - apply (Hw 0 ltac:(vm_compute; split; congruence)).
Defined.

(** X2: max and argMax agree: on a reduce-window without NaN, the element
    that max returns is the element of the window at the offset that
    argMax returns. *)
Theorem max_is_element_at_argMax h x xv k :
  holds h x xv -> 0 <= k <= rank x ->
  let rs := reduceSizeOf x k in
  let n := sizeFromShape (keptShape x k) in
  exists outMax outArg,
    MathBackendCPU.max x (trailingAxes (rank x) k) h
    = (Ok (mkNDArray (keptShape x k) (dtype x) (length h)), h ++ [outMax])
    /\ MathBackendCPU.argMax x (trailingAxes (rank x) k) h
       = (Ok (mkNDArray (keptShape x k) int32 (length h)), h ++ [outArg])
    /\ forall i, 0 <= i < n -> NaN ∉ window xv rs i ->
         exists j v,
           outArg !! Z.to_nat i = Some (num j)
           /\ outMax !! Z.to_nat i = Some v
           /\ 0 <= j < rs
           /\ xv !! Z.to_nat (i * rs + j) = Some v.
Proof.
  intros Hx Hk rs n.
  destruct (holds_size h x xv k Hx Hk) as (Hlen & Hn & Hrs).
  fold rs in Hlen, Hrs. fold n in Hlen, Hn.
  eexists _, _. split; [apply (max_run h x xv k Hx Hk)|].
  split; [apply (argMax_run h x xv k Hx Hk)|]. fold rs n.
  intros i Hi HN. rewrite !lookup_fmap_range by exact Hi.
  destruct (extremumScan_window ngt xv rs n i Hlen Hi Hrs
              ngt_irrefl ngt_trans ngt_le_trans) as [_ HM].
  destruct (HM HN) as [_ Hat].
  destruct (argScan_window xv rs n i Hlen Hi Hrs ngt
              ngt_irrefl ngt_trans ngt_le_trans) as [_ HF].
  destruct (HF HN) as (v & Hv & Hj & _).
  eexists _, _. split; [reflexivity|]. split; [reflexivity|].
  assert (Hlt : (Z.to_nat (argScan ngt xv (i * rs) rs).2 < Z.to_nat rs)%nat).
  { apply lookup_lt_Some in Hv.
    rewrite (window_length _ _ _ n) in Hv by assumption. exact Hv. }
  split; [lia|].
  rewrite <- window_lookup by lia. exact Hat.
Qed.

Lemma max_is_element_at_argMax_witness :
  holds exReduceHeap exReduceX exReduceBuf /\ 0 <= 1 <= rank exReduceX
  /\ exists outMax outArg,
       MathBackendCPU.max exReduceX [1] exReduceHeap
       = (Ok (mkNDArray [2] float32 3%nat), exReduceHeap ++ [outMax])
       /\ MathBackendCPU.argMax exReduceX [1] exReduceHeap
          = (Ok (mkNDArray [2] int32 3%nat), exReduceHeap ++ [outArg])
       /\ (NaN ∉ window exReduceBuf 3 0 ->
           exists j v,
             outArg !! 0%nat = Some (num j) /\ outMax !! 0%nat = Some v
             /\ 0 <= j < 3 /\ exReduceBuf !! Z.to_nat (0 * 3 + j) = Some v).
Proof.
  assert (Hk : 0 <= 1 <= rank exReduceX) by (vm_compute; split; congruence).
  split; [exact exReduce_holds|]. split; [exact Hk|].
  destruct (max_is_element_at_argMax exReduceHeap exReduceX exReduceBuf 1
              exReduce_holds Hk) as (outMax & outArg & E1 & E2 & Hw).
  exists outMax, outArg. split; [exact E1|]. split; [exact E2|].
  apply (Hw 0 ltac:(vm_compute; split; congruence)).
Defined.

(** X3: min over trailing axes is right for the first reduce-window, the only
    one when every axis is reduced: the first element of the result is NaN
    when that window holds a NaN, and otherwise an element of the window
    that no element of the window is below. *)
Theorem min_of_first_window h x xv k :
  holds h x xv -> 0 <= k <= rank x ->
  let rs := reduceSizeOf x k in
  let w := window xv rs 0 in
  exists out,
    MathBackendCPU.min x (trailingAxes (rank x) k) h
    = (Ok (mkNDArray (keptShape x k) (dtype x) (length h)), h ++ [out])
    /\ (k = rank x -> length out = 1%nat /\ w = xv)
    /\ (NaN ∈ w -> out !! 0%nat = Some NaN)
    /\ (NaN ∉ w -> exists v, out !! 0%nat = Some v /\ extremumOf nlt w v).
Proof.
  intros Hx Hk rs w.
  destruct (holds_size h x xv k Hx Hk) as (Hlen & Hn & Hrs).
  fold rs in Hlen, Hrs.
  set (n := sizeFromShape (keptShape x k)) in *.
  eexists. split; [apply (min_run h x xv k Hx Hk)|]. fold rs n.
  split.
  { intros ->.
    assert (E1 : n = 1) by (unfold n, keptShape; now rewrite Z.sub_diag).
    rewrite length_fmap, length_range, E1. split; [reflexivity|].
    unfold w, window. rewrite Z.mul_0_l. cbn [Z.to_nat]. rewrite drop_0.
    apply take_ge. rewrite E1 in Hlen. lia. }
  change 0%nat with (Z.to_nat 0).
  rewrite lookup_fmap_range by lia.
  destruct (extremumScan_window nlt xv rs n 0 Hlen ltac:(lia) Hrs
              nlt_irrefl nlt_trans nlt_le_trans) as [HN HM].
  change (0 * rs) with 0 in *.
  split.
  - intros H. f_equal. now apply HN.
  - intros H. eexists. split; [reflexivity|]. now apply HM.
Qed.

Lemma min_of_first_window_witness :
  holds exMinHeap exMinX exMinBuf /\ 0 <= 2 <= rank exMinX
  /\ exists out,
       MathBackendCPU.min exMinX [0; 1] exMinHeap
       = (Ok (mkNDArray [] float32 3%nat), exMinHeap ++ [out])
       /\ (NaN ∉ window exMinBuf 4 0 ->
           exists v, out !! 0%nat = Some v
                     /\ extremumOf nlt (window exMinBuf 4 0) v).
Proof.
  assert (Hk : 0 <= 2 <= rank exMinX) by (vm_compute; split; congruence).
  split; [exact exMin_holds|]. split; [exact Hk|].
  destruct (min_of_first_window exMinHeap exMinX exMinBuf 2 exMin_holds Hk)
    as (out & E & _ & _ & Hw).
  exists out. split; [exact E|]. exact Hw.
Defined.

(** ** Element-wise kernels *)

Lemma fmap_at_index {A} (f : number -> A) (xv : list number) :
  (fun i => f (at_index xv i)) <$> range 0 (Z.of_nat (length xv)) = f <$> xv.
Proof.
  apply list_eq. intros j. rewrite !list_lookup_fmap.
  destruct (decide (j < length xv)%nat) as [Hj|Hj].
  - rewrite lookup_range by lia. cbn.
    destruct (lookup_lt_is_Some_2 xv j Hj) as [v Hv]. rewrite Hv. cbn.
    f_equal. f_equal. apply at_index_Some; [lia|].
    replace (Z.to_nat (0 + Z.of_nat j)) with j by lia. exact Hv.
  - rewrite !lookup_ge_None_2; [reflexivity|lia|].
    rewrite length_range. lia.
Qed.

(** The result of a kernel lives in the heap the kernel leaves. *)
Lemma holds_result (h : list (list number)) s d out :
  Z.of_nat (length out) = sizeFromShape s -> Forall (fun d => 0 < d) s ->
  holds (h ++ [out]) (mkNDArray s d (length h)) out.
Proof.
  intros Hl Hs. split; [|split; assumption]. cbn.
  rewrite lookup_app_r by lia. now rewrite Nat.sub_diag.
Qed.


Lemma mapValues_run f h x xv :
  holds h x xv ->
  MathBackendCPU.mapValues f x h
  = (Ok (mkNDArray (shape x) float32 (length h)), h ++ [f <$> xv]).
Proof.
  intros Hx. pose proof Hx as (_ & Hlen & Hpos).
  assert (Hn : 0 < size x) by (apply sizeFromShape_pos, Hpos).
  unfold MathBackendCPU.mapValues. cbv zeta. unfold getValues.
  erewrite bind_ok; [|apply reads_lengthOf].
  rewrite (holds_buffer_here _ _ _ Hx), Hlen.
  erewrite bind_ok; [|apply newTypedArray_ok; lia].
  erewrite bind_ok.
  2:{ apply (for_fill h (size x) (fun i => f (at_index xv i)));
        [lia| |rewrite length_replicate; lia].
      intros i buf Hi Hl.
      erewrite bind_ok; [|apply reads_load].
      rewrite (holds_buffer _ _ _ _ Hx). apply store_top. lia. }
  rewrite <- Hlen, fmap_at_index. reflexivity.
Qed.

Lemma relu_run h x xv :
  holds h x xv ->
  MathBackendCPU.relu x h
  = (Ok (mkNDArray (shape x) (dtype x) (length h)),
     h ++ [(fun v => if isValNaN v (dtype x) then getNaN (dtype x)
                     else Math_max (num 0) v) <$> xv]).
Proof.
  intros Hx. pose proof Hx as (_ & Hlen & Hpos).
  assert (Hn : 0 < size x) by (apply sizeFromShape_pos, Hpos).
  unfold MathBackendCPU.relu, NDArray_zeros.
  erewrite bind_ok; [|erewrite bind_ok; [|apply newTypedArray_ok; fold (size x); lia]; reflexivity].
  cbn [getValues data dtype].
  erewrite bind_ok; [|apply reads_lengthOf].
  rewrite (holds_buffer _ _ _ _ Hx), Hlen.
  erewrite bind_ok.
  2:{ apply (for_fill h (size x)
               (fun i => if isValNaN (at_index xv i) (dtype x)
                         then getNaN (dtype x)
                         else Math_max (num 0) (at_index xv i)));
        [lia| |rewrite length_replicate; fold (size x); lia].
      intros i buf Hi Hl.
      erewrite bind_ok; [|apply reads_load].
      rewrite (holds_buffer _ _ _ _ Hx).
      destruct (isValNaN _ _); apply store_top; lia. }
  rewrite <- Hlen.
  rewrite (fmap_at_index (fun v => if isValNaN v (dtype x) then getNaN (dtype x)
                                   else Math_max (num 0) v)).
  reflexivity.
Qed.

Lemma relu_value_idempotent d v :
  let r := if isValNaN v d then getNaN d else Math_max (num 0) v in
  (if isValNaN r d then getNaN d else Math_max (num 0) r) = r.
Proof.
  cbv zeta. destruct (isValNaN v d) eqn:E.
  - destruct d; reflexivity.
  - unfold Math_max. change (isNaN (num 0)) with false. cbn [orb].
    destruct (isNaN v) eqn:EN.
    + destruct d; reflexivity.
    + destruct (nlt (num 0) v) eqn:El.
      * rewrite E. now rewrite EN, El.
      * destruct d; reflexivity.
Qed.

(** X4: relu keeps the shape and the element type. An element that is NaN
    for the element type gives the NaN of that type, an element above zero
    is kept and any other element gives zero; applied to its own result
    relu changes nothing. *)
Theorem relu_clamps_and_is_idempotent h x xv :
  holds h x xv ->
  exists out,
    MathBackendCPU.relu x h
    = (Ok (mkNDArray (shape x) (dtype x) (length h)), h ++ [out])
    /\ length out = length xv
    /\ (forall i v, xv !! i = Some v ->
          exists r, out !! i = Some r
            /\ (isValNaN v (dtype x) = true -> r = getNaN (dtype x))
            /\ (isValNaN v (dtype x) = false -> nlt (num 0) v = true -> r = v)
            /\ (isValNaN v (dtype x) = false -> isNaN v = false ->
                nlt (num 0) v = false -> r = num 0))
    /\ MathBackendCPU.relu (mkNDArray (shape x) (dtype x) (length h))
         (h ++ [out])
       = (Ok (mkNDArray (shape x) (dtype x) (S (length h))), h ++ [out; out]).
Proof.
  intros Hx. pose proof Hx as (_ & Hlen & Hpos).
  eexists. split; [apply (relu_run h x xv Hx)|].
  split; [apply length_fmap|]. split.
  - intros i v Hv. rewrite list_lookup_fmap, Hv.
    cbn [fmap option_fmap option_map].
    eexists. split; [reflexivity|]. unfold Math_max.
    change (isNaN (num 0)) with false. cbn [orb].
    split; [intros ->; reflexivity|]. split.
    + intros -> Hl. destruct (isNaN v) eqn:EN.
      * destruct v; try discriminate EN. discriminate Hl.
      * now rewrite Hl.
    + intros -> -> ->. reflexivity.
  - set (out := _ <$> xv).
    rewrite (relu_run (h ++ [out]) _ out).
    2:{ apply holds_result; [|exact Hpos].
        unfold out. rewrite length_fmap. exact Hlen. }
    cbn [shape dtype]. rewrite length_app, Nat.add_1_r.
    rewrite <- app_assoc. cbn [app]. do 4 f_equal.
    unfold out. rewrite <- list_fmap_compose. apply list_fmap_ext.
    intros _ v _. apply relu_value_idempotent.
Qed.

Lemma relu_clamps_and_is_idempotent_witness :
  holds exReduceHeap exReduceX exReduceBuf
  /\ exists out,
       MathBackendCPU.relu exReduceX exReduceHeap
       = (Ok (mkNDArray [2; 3] float32 3%nat), exReduceHeap ++ [out])
       /\ MathBackendCPU.relu (mkNDArray [2; 3] float32 3%nat)
            (exReduceHeap ++ [out])
          = (Ok (mkNDArray [2; 3] float32 4%nat), exReduceHeap ++ [out; out]).
Proof.
  split; [exact exReduce_holds|].
  destruct (relu_clamps_and_is_idempotent exReduceHeap exReduceX exReduceBuf
              exReduce_holds) as (out & E1 & _ & _ & E2).
  exists out. split; [exact E1|exact E2].
Defined.






Lemma exReduce_float32 : Forall float32Value exReduceBuf.
Proof. unfold exReduceBuf. float32_values. Qed.


(** ** Kernels on two tensors of one shape *)

Lemma broadcastRev_same (l : list Z) :
  Forall (fun d => 0 < d) l -> broadcastRev l l = Some l.
Proof.
  induction 1 as [|d l Hd Hl IH]; [reflexivity|].
  cbn [broadcastRev]. rewrite Z.eqb_refl. cbn [orb]. rewrite IH. cbn.
  do 2 f_equal. lia.
Qed.

Lemma broadcastsTo_same s : Forall (fun d => 0 < d) s -> broadcastsTo s s s.
Proof. intros Hs. apply broadcastRev_same, Forall_reverse, Hs. Qed.

Lemma length_indexToLoc s i : length (indexToLoc s i) = length s.
Proof.
  revert i. induction s as [|d s IH]; intros i; [reflexivity|].
  cbn [indexToLoc length]. now rewrite IH.
Qed.

Lemma locToIndex_indexToLoc s : forall i,
  Forall (fun d => 0 < d) s -> 0 <= i < sizeFromShape s ->
  locToIndex s (indexToLoc s i) = i.
Proof.
  induction s as [|d s IH]; intros i Hs Hi.
  - cbn in *. lia.
  - apply Forall_cons in Hs as [Hd Hs].
    pose proof (sizeFromShape_pos s Hs) as Hp.
    cbn [indexToLoc locToIndex].
    rewrite IH; [|exact Hs|apply Z.mod_pos_bound; lia].
    rewrite Z.mul_comm. symmetry. apply Z.div_mod. lia.
Qed.

Lemma getBroadcastDims_same s : getBroadcastDims s s = [].
Proof.
  unfold getBroadcastDims. rewrite Z.sub_diag.
  induction (range 0 (Z.of_nat (length s))) as [|d l IH]; [reflexivity|].
  cbn [List.filter]. rewrite Z.add_0_l.
  destruct (1 <? at_dim s d) eqn:E1, (at_dim s d =? 1) eqn:E2;
    cbn [andb]; try exact IH. lia.
Qed.

Lemma operandIndex_same s i :
  Forall (fun d => 0 < d) s -> 0 <= i < sizeFromShape s ->
  operandIndex s s i = i.
Proof.
  intros Hs Hi. unfold operandIndex. rewrite getBroadcastDims_same.
  unfold MathBackendCPU.zeroDims, MathBackendCPU.lastDims. cbn [fold_left].
  rewrite length_indexToLoc, Nat2Z.id, Nat.sub_diag, drop_0.
  now apply locToIndex_indexToLoc.
Qed.

Lemma jsmod_small i n : 0 <= i < n -> MathBackendCPU.jsmod i n = i.
Proof.
  intros Hi. unfold MathBackendCPU.jsmod.
  destruct (n =? 0) eqn:E; [lia|]. apply Z.rem_small. lia.
Qed.

Lemma fmap_at_index2 (f : number -> number -> number) (av bv : list number) :
  length av = length bv ->
  (fun i => f (at_index av i) (at_index bv i))
    <$> range 0 (Z.of_nat (length av))
  = zip_with f av bv.
Proof.
  intros Hl. apply list_eq. intros j. rewrite list_lookup_fmap, lookup_zip_with.
  destruct (decide (j < length av)%nat) as [Hj|Hj].
  - rewrite lookup_range by lia. cbn.
    destruct (lookup_lt_is_Some_2 av j Hj) as [a Ha].
    destruct (lookup_lt_is_Some_2 bv j ltac:(lia)) as [b Hb].
    rewrite Ha, Hb. cbn. f_equal.
    rewrite (at_index_Some av _ a), (at_index_Some bv _ b);
      [reflexivity|lia| |lia|];
      replace (Z.to_nat (0 + Z.of_nat j)) with j by lia; assumption.
  - rewrite lookup_ge_None_2 by (rewrite length_range; lia).
    rewrite (lookup_ge_None_2 av) by lia. reflexivity.
Qed.

Lemma nmul_comm x y : nmul x y = nmul y x.
Proof.
  destruct x as [| | |p], y as [| | |q]; try reflexivity.
  - cbn. now rewrite Z.mul_comm.
  - cbn. now rewrite Z.mul_comm.
  - cbn. now rewrite Z.mul_comm.
  - cbn. now rewrite Z.mul_comm.
  - cbn. f_equal. apply Qred_complete. ring.
Qed.

Lemma nmul_1_canonical v : canonical v -> nmul (num 1) v = v.
Proof. intros Hv. rewrite nmul_comm. now apply canonical_nmul_1. Qed.

Lemma holds_same_length h a b av bv :
  holds h a av -> holds h b bv -> shape a = shape b -> length av = length bv.
Proof.
  intros (_ & La & _) (_ & Lb & _) E. unfold size in *. rewrite E in La. lia.
Qed.

Lemma exAdd_holds_a : holds exAddHeap exAddA exAddABuf.
Proof. split; [reflexivity|]. split; [reflexivity|]. repeat constructor. Qed.

Lemma exAdd_heap_ok : heap_ok exAddHeap.
Proof. split; reflexivity. Qed.

Lemma broadcastRev_comm (ra rb : list Z) :
  broadcastRev ra rb = broadcastRev rb ra.
Proof.
  revert rb. induction ra as [|a ra IH]; intros [|b rb]; try reflexivity.
  cbn [broadcastRev]. rewrite (Z.eqb_sym b a), (Z.max_comm b a), (IH rb).
  now destruct (a =? b), (a =? 1), (b =? 1).
Qed.

Lemma broadcastsTo_comm sa sb s : broadcastsTo sa sb s -> broadcastsTo sb sa s.
Proof. unfold broadcastsTo. now rewrite broadcastRev_comm. Qed.

(** X6: multiply commutes: on two tensors whose shapes can be broadcast
    together it returns a float32 tensor of the broadcast shape, and the
    same tensor with the operands exchanged. *)
Theorem multiply_commutes h a b av bv s :
  holds h a av -> holds h b bv -> broadcastsTo (shape a) (shape b) s ->
  exists out,
    MathBackendCPU.multiply a b h
    = (Ok (mkNDArray s float32 (length h)), h ++ [out])
    /\ MathBackendCPU.multiply b a h
       = (Ok (mkNDArray s float32 (length h)), h ++ [out])
    /\ Z.of_nat (length out) = sizeFromShape s.
Proof.
  intros Ha Hb Hs. eexists.
  split; [apply (multiply_run h a b av bv s Ha Hb Hs)|]. split.
  - rewrite (multiply_run h b a bv av s Hb Ha (broadcastsTo_comm _ _ _ Hs)).
    do 3 f_equal. apply list_fmap_ext. intros _ i _. apply nmul_comm.
  - rewrite length_fmap, length_range.
    assert (0 < sizeFromShape s); [|lia].
    apply sizeFromShape_pos.
    eapply broadcastsTo_pos; [apply Ha|apply Hb|exact Hs].
Qed.

Lemma multiply_commutes_witness :
  holds exAddHeap exAddA exAddABuf /\ holds exAddHeap exAddB exAddBBuf
  /\ broadcastsTo (shape exAddA) (shape exAddB) [2; 2]
  /\ exists out,
       MathBackendCPU.multiply exAddA exAddB exAddHeap
       = (Ok (mkNDArray [2; 2] float32 4%nat), exAddHeap ++ [out])
       /\ MathBackendCPU.multiply exAddB exAddA exAddHeap
          = (Ok (mkNDArray [2; 2] float32 4%nat), exAddHeap ++ [out]).
Proof.
  assert (Hb : holds exAddHeap exAddB exAddBBuf).
  { split; [reflexivity|]. split; [reflexivity|]. repeat constructor. }
  assert (Hs : broadcastsTo (shape exAddA) (shape exAddB) [2; 2])
    by reflexivity.
  split; [exact exAdd_holds_a|]. split; [exact Hb|]. split; [exact Hs|].
  destruct (multiply_commutes exAddHeap exAddA exAddB exAddABuf exAddBBuf
              [2; 2] exAdd_holds_a Hb Hs) as (out & E1 & E2 & _).
  exists out. split; [exact E1|exact E2].
Defined.

Lemma nmul_neg1 v : nmul (num (-1)) v = nopp v.
Proof.
  destruct v as [| | |q]; reflexivity.
Qed.

(** X7: neg is an involution on a tensor of binary32 numbers: its result
    holds binary32 numbers, and negating it gives back the elements of the
    tensor, in a float32 tensor of its shape. *)
Theorem neg_neg_is_identity h x xv :
  heap_ok h -> holds h x xv -> Forall float32Value xv ->
  exists negated,
    MathBackendCPU.neg x h
    = (Ok (mkNDArray (shape x) float32 (length h)), h ++ [negated])
    /\ Forall float32Value negated
    /\ MathBackendCPU.neg (mkNDArray (shape x) float32 (length h))
         (h ++ [negated])
       = (Ok (mkNDArray (shape x) float32 (S (length h))),
          h ++ [negated; xv]).
Proof.
  intros Hh Hx Hf. pose proof Hx as (_ & Hlen & Hpos).
  assert (Hc : Forall canonical xv).
  { eapply Forall_impl; [exact Hf|]. exact float32Value_canonical. }
  assert (Hn : 0 < size x) by (apply sizeFromShape_pos, Hpos).
  eexists. split; [apply (neg_run h x xv Hh Hx)|].
  split.
  { apply Forall_fmap, Forall_forall. intros i _.
    change (float32Value (nmul (num (-1)) (at_index xv i))).
    rewrite nmul_neg1. apply float32Value_nopp, float32Value_at_index, Hf. }
  set (negated := _ <$> range 0 (size x)).
  rewrite (neg_run (h ++ [negated]) _ negated).
  2:{ now apply heap_ok_app. }
  2:{ apply holds_result; [|exact Hpos].
      unfold negated. rewrite length_fmap, length_range.
      fold (size x). lia. }
  cbn [shape]. rewrite length_app, Nat.add_1_r, <- app_assoc. cbn [app].
  do 4 f_equal.
  change (size {| shape := shape x; dtype := float32; data := length h |})
    with (size x).
  etransitivity; [|apply (list_fmap_id xv)].
  rewrite <- (fmap_at_index id xv), Hlen.
  apply list_fmap_ext. intros _ i Hi%list_elem_of_lookup_2%elem_of_range.
  unfold negated. rewrite at_index_fmap_range by lia.
  replace ((0 <=? i) && (i <? size x)) with true by lia.
  rewrite nmul_neg_neg. apply nmul_1_canonical, canonical_at_index, Hc.
Qed.

Lemma neg_neg_is_identity_witness :
  heap_ok exAddHeap /\ holds exAddHeap exAddA exAddABuf
  /\ Forall float32Value exAddABuf
  /\ exists negated,
       MathBackendCPU.neg exAddA exAddHeap
       = (Ok (mkNDArray [2; 2] float32 4%nat), exAddHeap ++ [negated])
       /\ Forall float32Value negated
       /\ MathBackendCPU.neg (mkNDArray [2; 2] float32 4%nat)
            (exAddHeap ++ [negated])
          = (Ok (mkNDArray [2; 2] float32 5%nat),
             exAddHeap ++ [negated; exAddABuf]).
Proof.
  assert (Hc : Forall float32Value exAddABuf)
    by (unfold exAddABuf; float32_values).
  split; [exact exAdd_heap_ok|]. split; [exact exAdd_holds_a|].
  split; [exact Hc|].
  exact (neg_neg_is_identity exAddHeap exAddA exAddABuf exAdd_heap_ok
           exAdd_holds_a Hc).
Defined.

Lemma neqb_refl v : isNaN v = false -> neqb v v = true.
Proof.
  destruct v as [| | |q]; try reflexivity; [discriminate|].
  intros _. apply Qeq_bool_iff. reflexivity.
Qed.

Lemma zip_with_diag {A B} (f : A -> A -> B) (l : list A) :
  zip_with f l l = (fun a => f a a) <$> l.
Proof. induction l as [|a l IH]; [reflexivity|]. cbn. now rewrite IH. Qed.

(** X8: On two tensors of one shape equal returns a bool tensor of that shape:
    an element is the NaN of bool (255) where either operand holds the NaN
    of its element type, 1 where the two elements are equal and 0 where
    they differ. A float32 tensor compared with itself gives 1 everywhere
    but at its NaN elements. *)
Theorem equal_elementwise h a b av bv :
  holds h a av -> holds h b bv -> shape a = shape b ->
  exists out,
    MathBackendCPU.equal a b h
    = (Ok (mkNDArray (shape a) bool_ (length h)), h ++ [out])
    /\ length out = length av
    /\ (forall i va vb, av !! i = Some va -> bv !! i = Some vb ->
          exists r, out !! i = Some r
            /\ (isValNaN va (dtype a) || isValNaN vb (dtype b) = true ->
                r = num NAN_BOOL)
            /\ (isValNaN va (dtype a) || isValNaN vb (dtype b) = false ->
                (neqb va vb = true -> r = num 1)
                /\ (neqb va vb = false -> r = num 0)))
    /\ (dtype a = float32 ->
        MathBackendCPU.equal a a h
        = (Ok (mkNDArray (shape a) bool_ (length h)),
           h ++ [(fun v => if isNaN v then num NAN_BOOL else num 1) <$> av])).
Proof.
  intros Ha Hb Es.
  pose proof Ha as (_ & Hlen & Hpos).
  pose proof (holds_same_length h a b av bv Ha Hb Es) as Hl.
  assert (Hab : broadcastsTo (shape a) (shape b) (shape a))
    by (rewrite <- Es; now apply broadcastsTo_same).
  assert (Haa : broadcastsTo (shape a) (shape a) (shape a))
    by now apply broadcastsTo_same.
  assert (Hrun : forall c cv, holds h c cv -> shape c = shape a ->
            length av = length cv ->
            MathBackendCPU.equal a c h
            = (Ok (mkNDArray (shape a) bool_ (length h)),
               h ++ [zip_with
                       (fun aVal bVal =>
                          if isValNaN aVal (dtype a) || isValNaN bVal (dtype c)
                          then getNaN bool_
                          else if neqb aVal bVal then num 1 else num 0)
                       av cv])).
  { intros c cv Hc Ec Hlc. unfold MathBackendCPU.equal.
    rewrite (broadcastedBinaryOp_run h a c av cv bool_ _ (shape a) Ha Hc)
      by (rewrite Ec; exact Haa).
    fold (size a). rewrite <- Hlen.
    rewrite <- (fmap_at_index2 _ av cv Hlc).
    do 3 f_equal. apply list_fmap_ext.
    intros _ i Hi%list_elem_of_lookup_2%elem_of_range.
    rewrite Ec, !operandIndex_same
      by (try exact Hpos; unfold size in Hlen; lia).
    reflexivity. }
  eexists. split; [apply (Hrun b bv Hb (eq_sym Es) Hl)|].
  split; [rewrite length_zip_with; lia|]. split.
  - intros i va vb Hva Hvb. rewrite lookup_zip_with, Hva, Hvb. cbn [mbind option_bind].
    eexists. split; [reflexivity|]. split.
    + intros ->. reflexivity.
    + intros ->. split; intros ->; reflexivity.
  - intros Ed. rewrite (Hrun a av Ha eq_refl eq_refl), zip_with_diag.
    do 3 f_equal. apply list_fmap_ext. intros _ v _.
    rewrite Ed. cbn [isValNaN]. rewrite orb_diag.
    destruct (isNaN v) eqn:E; [reflexivity|]. now rewrite neqb_refl.
Qed.

Lemma equal_elementwise_witness :
  holds exReduceHeap exReduceX exReduceBuf
  /\ exists out,
       MathBackendCPU.equal exReduceX exReduceX exReduceHeap
       = (Ok (mkNDArray [2; 3] bool_ 3%nat), exReduceHeap ++ [out])
       /\ length out = length exReduceBuf
       /\ MathBackendCPU.equal exReduceX exReduceX exReduceHeap
          = (Ok (mkNDArray [2; 3] bool_ 3%nat),
             exReduceHeap
             ++ [[num 1; num 1; num 1; num 1; num 255; num 1]]).
Proof.
  split; [exact exReduce_holds|].
  destruct (equal_elementwise exReduceHeap exReduceX exReduceX exReduceBuf
              exReduceBuf exReduce_holds exReduce_holds eq_refl)
    as (out & E & L & _ & Hs).
  exists out. split; [exact E|]. split; [exact L|]. exact (Hs eq_refl).
Defined.

(** ** slice1D and concat1D *)

Lemma sliceOf_run (h : list (list number)) r (xv : list number) b e :
  h !! r = Some xv -> 0 <= b <= e ->
  sliceOf r b e h
  = (Ok (length h), h ++ [take (Z.to_nat (e - b)) (drop (Z.to_nat b) xv)]).
Proof.
  intros Hr Hbe. unfold sliceOf, buffer. rewrite Hr.
  cbn [default from_option id]. cbv zeta.
  assert (C : forall z, 0 <= z ->
            clampIndex (Z.of_nat (length xv)) z
            = Z.min z (Z.of_nat (length xv))).
  { intros z Hz. unfold clampIndex. destruct (Z.ltb_spec z 0); lia. }
  rewrite !C by lia.
  set (len := Z.of_nat (length xv)).
  assert (E : take (Z.to_nat (Z.min e len - Z.min b len))
                (drop (Z.to_nat (Z.min b len)) xv)
              = take (Z.to_nat (e - b)) (drop (Z.to_nat b) xv));
    [|now rewrite E].
  destruct (decide (len <= b)) as [Hb|Hb].
  - rewrite (Z.min_r b) by lia.
    rewrite (drop_ge xv (Z.to_nat len)) by lia.
    rewrite (drop_ge xv (Z.to_nat b)) by lia.
    now rewrite !take_nil.
  - rewrite (Z.min_l b) by lia.
    destruct (decide (e <= len)) as [He|He].
    + now rewrite Z.min_l by lia.
    + rewrite Z.min_r by lia.
      rewrite !take_ge; [reflexivity| |]; rewrite length_drop; lia.
Qed.

Lemma slice1D_run h x xv begin size :
  holds h x xv -> 0 <= begin -> 0 <= size ->
  let out := take (Z.to_nat size) (drop (Z.to_nat begin) xv) in
  MathBackendCPU.slice1D x begin size h
  = (Ok (mkNDArray [Z.of_nat (length out)] float32 (length h)), h ++ [out]).
Proof.
  intros Hx Hb Hs out.
  unfold MathBackendCPU.slice1D, getValues.
  erewrite bind_ok.
  2:{ apply (sliceOf_run h (data x) xv); [apply Hx|lia]. }
  replace (begin + size - begin) with size by lia. fold out.
  unfold Array1D_new.
  erewrite bind_ok; [|apply reads_lengthOf].
  rewrite buffer_app_top. reflexivity.
Qed.

(** X9: slice1D of a tensor of binary32 numbers never fails on a range
    [begin, begin + size) with [0 <= begin] and [0 <= size]: it returns a
    new rank-1 float32 tensor that holds the elements of the range that
    exist, binary32 numbers again. A range within the tensor gives [size]
    elements; a range that runs past the end gives fewer, and the shape
    of the result is the number it gives. *)
Theorem slice1D_takes_existing_range h x xv begin size :
  holds h x xv -> 0 <= begin -> 0 <= size -> Forall float32Value xv ->
  let out := take (Z.to_nat size) (drop (Z.to_nat begin) xv) in
  MathBackendCPU.slice1D x begin size h
  = (Ok (mkNDArray [Z.of_nat (length out)] float32 (length h)), h ++ [out])
  /\ Forall float32Value out
  /\ (begin + size <= Z.of_nat (length xv) -> Z.of_nat (length out) = size)
  /\ (Z.of_nat (length xv) <= begin + size ->
      Z.of_nat (length out) = Z.max 0 (Z.of_nat (length xv) - begin)).
Proof.
  intros Hx Hb Hs Hf out. split; [now apply slice1D_run|].
  split; [apply Forall_take, Forall_drop, Hf|].
  unfold out. rewrite length_take, length_drop. split; lia.
Qed.

Lemma exTop_float32 : Forall float32Value exTopBuf.
Proof. unfold exTopBuf. float32_values. Qed.

Lemma slice1D_takes_existing_range_witness :
  holds exTopHeap exTopX exTopBuf /\ 0 <= 3 /\ 0 <= 4
  /\ Forall float32Value exTopBuf
  /\ MathBackendCPU.slice1D exTopX 3 4 exTopHeap
     = (Ok (mkNDArray [2] float32 3%nat), exTopHeap ++ [[num 2; num 3]]).
Proof.
  split; [exact exTop_holds|]. split; [lia|]. split; [lia|].
  split; [exact exTop_float32|].
  exact (proj1 (slice1D_takes_existing_range exTopHeap exTopX exTopBuf 3 4
                  exTop_holds ltac:(lia) ltac:(lia) exTop_float32)).
Defined.

Lemma setAll_top (h : list (list number)) src (sv buf : list number) offset :
  h !! src = Some sv -> 0 <= offset ->
  Z.of_nat (length sv) + offset <= Z.of_nat (length buf) ->
  setAll (length h) src offset (h ++ [buf])
  = (Ok tt, h ++ [take (Z.to_nat offset) buf ++ sv
                  ++ drop (Z.to_nat offset + length sv) buf]).
Proof.
  intros Hs Ho Hfit. unfold setAll. cbv zeta.
  rewrite buffer_app_top, buffer_app_l by (eapply lookup_lt_Some, Hs).
  unfold buffer at 1 2 3. rewrite Hs. cbn [default from_option id].
  destruct (offset <? 0) eqn:E1; [lia|].
  destruct (Z.of_nat (length buf) <? Z.of_nat (length sv) + offset) eqn:E2;
    [lia|].
  cbn [orb]. f_equal.
  replace (length h) with (length h + 0)%nat at 1 by lia.
  now rewrite alter_app_r.
Qed.

Lemma concat1D_run `{Runtime} h a b av bv :
  holds h a av -> holds h b bv ->
  concat_computeOutShape (shape a) (shape b) 0 = Some [size a + size b] ->
  MathBackendCPU.concat1D a b h
  = (Ok (mkNDArray [size a + size b] float32 (length h)), h ++ [av ++ bv]).
Proof.
  intros Ha Hb Hs.
  pose proof Ha as (Hla & Hlen & Hpos). pose proof Hb as (Hlb & Hlenb & Hposb).
  assert (Hn : 0 < size a) by (apply sizeFromShape_pos, Hpos).
  assert (Hm : 0 < size b) by (apply sizeFromShape_pos, Hposb).
  unfold MathBackendCPU.concat1D, MathBackendCPU.computeOutShape.
  rewrite Hs, bind_ret. unfold NDArray_zeros.
  erewrite bind_ok.
  2:{ erewrite bind_ok; [|apply newTypedArray_ok; cbn; lia]. reflexivity. }
  unfold MathBackendCPU.concatAxis0, getValues. cbn [data]. cbv zeta.
  assert (Hsz : sizeFromShape [size a + size b] = size a + size b)
    by (cbn; lia).
  rewrite Hsz.
  erewrite bind_ok.
  2:{ apply (setAll_top h (data a) av); [exact Hla|lia|].
      rewrite length_replicate. lia. }
  erewrite bind_ok.
  2:{ apply (setAll_top h (data b) bv); [exact Hlb|lia|].
      rewrite !length_app, length_take, length_drop, length_replicate. lia. }
  cbn [ret]. do 3 f_equal.
  change (Z.to_nat 0) with 0%nat. rewrite take_0. cbn [app Nat.add].
  assert (La : Z.to_nat (size a) = length av) by lia. rewrite La.
  rewrite take_app_length.
  rewrite drop_app_ge by lia.
  rewrite drop_ge; [now rewrite app_nil_r|].
  rewrite length_drop, length_replicate. lia.
Qed.

(** X10: concat1D followed by slice1D gives back the operands, tensors of
    binary32 numbers: the concatenation holds the elements of the first
    operand and then those of the second, binary32 numbers again, and
    slicing it at [0] and at the size of the first operand returns tensors
    that hold the elements of each. *)
Theorem concat1D_slices_back `{Runtime} h a b av bv :
  holds h a av -> holds h b bv ->
  concat_computeOutShape (shape a) (shape b) 0 = Some [size a + size b] ->
  Forall float32Value av -> Forall float32Value bv ->
  let c := mkNDArray [size a + size b] float32 (length h) in
  MathBackendCPU.concat1D a b h = (Ok c, h ++ [av ++ bv])
  /\ Forall float32Value (av ++ bv)
  /\ MathBackendCPU.slice1D c 0 (size a) (h ++ [av ++ bv])
     = (Ok (mkNDArray [size a] float32 (S (length h))), h ++ [av ++ bv; av])
  /\ MathBackendCPU.slice1D c (size a) (size b) (h ++ [av ++ bv])
     = (Ok (mkNDArray [size b] float32 (S (length h))), h ++ [av ++ bv; bv]).
Proof.
  intros Ha Hb Hs Fa Fb c.
  pose proof Ha as (_ & Hlen & Hpos). pose proof Hb as (_ & Hlenb & Hposb).
  assert (Hn : 0 < size a) by (apply sizeFromShape_pos, Hpos).
  assert (Hm : 0 < size b) by (apply sizeFromShape_pos, Hposb).
  split; [now apply concat1D_run|].
  split; [now apply Forall_app|].
  assert (Hc : holds (h ++ [av ++ bv]) c (av ++ bv)).
  { apply holds_result; [|repeat constructor; lia].
    rewrite length_app. cbn. lia. }
  split.
  - rewrite (slice1D_run _ c (av ++ bv) 0 (size a) Hc) by lia.
    change (Z.to_nat 0) with 0%nat. rewrite drop_0.
    replace (Z.to_nat (size a)) with (length av) by lia.
    rewrite take_app_length, length_app, <- app_assoc. cbn [length app].
    rewrite Nat.add_1_r, Hlen. reflexivity.
  - rewrite (slice1D_run _ c (av ++ bv) (size a) (size b) Hc) by lia.
    replace (Z.to_nat (size a)) with (length av) by lia.
    rewrite drop_app_length.
    rewrite take_ge by lia.
    rewrite length_app, <- app_assoc. cbn [length app].
    rewrite Nat.add_1_r, Hlenb. reflexivity.
Qed.

Lemma concat1D_slices_back_witness :
  holds exAddHeap exAddB exAddBBuf
  /\ @concat_computeOutShape exampleConcatRuntime (shape exAddB) (shape exAddB) 0
     = Some [size exAddB + size exAddB]
  /\ Forall float32Value exAddBBuf
  /\ @MathBackendCPU.concat1D exampleConcatRuntime exAddB exAddB exAddHeap
     = (Ok (mkNDArray [4] float32 4%nat),
        exAddHeap ++ [[num 10; num 20; num 10; num 20]]).
Proof.
  assert (Hb : holds exAddHeap exAddB exAddBBuf).
  { split; [reflexivity|]. split; [reflexivity|]. repeat constructor. }
  assert (Fb : Forall float32Value exAddBBuf)
    by (unfold exAddBBuf; float32_values).
  split; [exact Hb|]. split; [reflexivity|]. split; [exact Fb|].
  exact (proj1 (@concat1D_slices_back exampleConcatRuntime exAddHeap
                  exAddB exAddB exAddBBuf exAddBBuf Hb Hb eq_refl Fb Fb)).
Defined.

(** ** Locations *)

Lemma inBounds_length s loc : inBounds s loc -> length loc = length s.
Proof. intros H. symmetry. eapply Forall2_length, H. Qed.

Lemma indexToLoc_inBounds s : forall i,
  Forall (fun d => 0 < d) s -> 0 <= i < sizeFromShape s ->
  inBounds s (indexToLoc s i).
Proof.
  induction s as [|d s IH]; intros i Hs Hi; [constructor|].
  apply Forall_cons in Hs as [Hd Hs].
  pose proof (sizeFromShape_pos s Hs) as Hp.
  cbn [indexToLoc]. constructor.
  - change (sizeFromShape (d :: s)) with (d * sizeFromShape s) in Hi.
    split; [apply Z.div_pos; lia|].
    apply Z.div_lt_upper_bound; lia.
  - apply IH; [exact Hs|]. apply Z.mod_pos_bound. lia.
Qed.

Lemma locToIndex_bound s : forall loc,
  inBounds s loc -> 0 <= locToIndex s loc < sizeFromShape s.
Proof.
  induction s as [|d s IH]; intros loc H.
  - inversion H; subst. cbn. lia.
  - inversion H as [|d' i s' loc' Hi Hl]; subst.
    specialize (IH _ Hl). cbn [locToIndex].
    change (sizeFromShape (d :: s)) with (d * sizeFromShape s). nia.
Qed.

Lemma indexToLoc_locToIndex s : forall loc,
  inBounds s loc -> indexToLoc s (locToIndex s loc) = loc.
Proof.
  induction s as [|d s IH]; intros loc H.
  - inversion H; subst. reflexivity.
  - inversion H as [|d' i s' loc' Hi Hl]; subst.
    pose proof (locToIndex_bound s _ Hl) as Hb.
    cbn [locToIndex indexToLoc]. f_equal.
    + rewrite Z.div_add_l by lia. rewrite Z.div_small by lia. lia.
    + rewrite Z.add_comm, Z.mod_add by lia.
      rewrite Z.mod_small by lia. now apply IH.
Qed.

(** ** Permutations of the axes *)

Lemma lookupZ_Some (l : list Z) p :
  0 <= p < Z.of_nat (length l) -> exists v, lookupZ l p = Some v.
Proof.
  intros Hp. unfold lookupZ. destruct (Z.ltb_spec p 0); [lia|].
  apply lookup_lt_is_Some_2. lia.
Qed.

Lemma lookupZ_nat (l : list Z) (i : nat) : lookupZ l (Z.of_nat i) = l !! i.
Proof.
  unfold lookupZ. destruct (Z.ltb_spec (Z.of_nat i) 0); [lia|].
  now rewrite Nat2Z.id.
Qed.

Lemma length_permuteBy perm l : length (permuteBy perm l) = length perm.
Proof. apply length_fmap. Qed.

Lemma permuteBy_lookup perm l (k : nat) p :
  perm !! k = Some p ->
  permuteBy perm l !! k = Some (default 0 (lookupZ l p)).
Proof. intros H. unfold permuteBy. now rewrite list_lookup_fmap, H. Qed.

Lemma perm_valid perm n :
  Permutation perm (range 0 n) ->
  Z.of_nat (length perm) = Z.max 0 n
  /\ (forall p, p ∈ perm <-> 0 <= p < n).
Proof.
  intros H. split.
  - rewrite (Permutation_length H), length_range. lia.
  - intros p. rewrite H. apply elem_of_range.
Qed.

(** The components of a list in the order of [range 0 n]. *)
Lemma permuteBy_range (l : list Z) :
  permuteBy (range 0 (Z.of_nat (length l))) l = l.
Proof.
  apply list_eq. intros k. unfold permuteBy. rewrite list_lookup_fmap.
  destruct (decide (k < length l)%nat) as [Hk|Hk].
  - rewrite lookup_range by lia. cbn. rewrite Z.add_0_l, lookupZ_nat.
    destruct (lookup_lt_is_Some_2 l k Hk) as [v ->]. reflexivity.
  - rewrite !lookup_ge_None_2; [reflexivity|lia|rewrite length_range; lia].
Qed.

Lemma permuteBy_Permutation perm (l : list Z) :
  Permutation perm (range 0 (Z.of_nat (length l))) ->
  Permutation (permuteBy perm l) l.
Proof.
  intros H. rewrite <- (permuteBy_range l) at 2.
  unfold permuteBy. now apply fmap_Permutation.
Qed.

Lemma sizeFromShape_Permutation s1 s2 :
  Permutation s1 s2 -> sizeFromShape s1 = sizeFromShape s2.
Proof.
  unfold sizeFromShape. induction 1; cbn; try lia; congruence.
Qed.

Lemma permuteBy_inBounds perm s loc :
  Permutation perm (range 0 (Z.of_nat (length s))) ->
  inBounds s loc -> inBounds (permuteBy perm s) (permuteBy perm loc).
Proof.
  intros Hp Hb. destruct (perm_valid _ _ Hp) as [_ Hv].
  pose proof (inBounds_length _ _ Hb) as Hl.
  unfold inBounds, permuteBy. apply Forall2_fmap, Forall_Forall2_diag.
  apply Forall_forall. intros p Hin. apply Hv in Hin.
  unfold lookupZ. destruct (Z.ltb_spec p 0); [lia|].
  destruct (lookup_lt_is_Some_2 s (Z.to_nat p) ltac:(lia)) as [d Hd].
  destruct (lookup_lt_is_Some_2 loc (Z.to_nat p) ltac:(lia)) as [i Hi].
  rewrite Hd, Hi. cbn.
  exact (Forall2_lookup_lr _ s loc _ _ _ Hb Hd Hi).
Qed.

(** The permuted list determines the list. *)
Lemma permuteBy_inj perm (l1 l2 : list Z) :
  Permutation perm (range 0 (Z.of_nat (length l1))) ->
  length l1 = length l2 ->
  permuteBy perm l1 = permuteBy perm l2 -> l1 = l2.
Proof.
  intros Hp Hl E. destruct (perm_valid _ _ Hp) as [_ Hv].
  apply list_eq. intros j.
  destruct (decide (j < length l1)%nat) as [Hj|Hj].
  - assert (Hin : Z.of_nat j ∈ perm) by (apply Hv; lia).
    apply list_elem_of_lookup in Hin as [k Hk].
    pose proof (permuteBy_lookup perm l1 k _ Hk) as E1.
    pose proof (permuteBy_lookup perm l2 k _ Hk) as E2.
    rewrite E, E2 in E1. rewrite !lookupZ_nat in E1.
    destruct (lookup_lt_is_Some_2 l1 j Hj) as [v1 H1].
    destruct (lookup_lt_is_Some_2 l2 j ltac:(lia)) as [v2 H2].
    rewrite H1, H2 in *. cbn in E1. congruence.
  - rewrite !lookup_ge_None_2; [reflexivity|lia|lia].
Qed.

(** Permuting by [perm] and then by its inverse changes nothing. *)
Lemma permuteBy_inverse perm inv (l : list Z) :
  Permutation perm (range 0 (Z.of_nat (length l))) ->
  length inv = length l ->
  (forall (i : nat) q, inv !! i = Some q ->
     perm !! Z.to_nat q = Some (Z.of_nat i) /\ 0 <= q) ->
  permuteBy inv (permuteBy perm l) = l.
Proof.
  intros Hp Hl Hinv. apply list_eq. intros i.
  destruct (decide (i < length l)%nat) as [Hi|Hi].
  - destruct (lookup_lt_is_Some_2 inv i ltac:(lia)) as [q Hq].
    destruct (Hinv i q Hq) as [Hpq Hq0].
    rewrite (permuteBy_lookup inv _ i q Hq).
    unfold lookupZ at 1. destruct (Z.ltb_spec q 0); [lia|].
    rewrite (permuteBy_lookup perm l _ _ Hpq). cbn. rewrite lookupZ_nat.
    destruct (lookup_lt_is_Some_2 l i Hi) as [v ->]. reflexivity.
  - rewrite !lookup_ge_None_2; [reflexivity|lia|].
    rewrite length_permuteBy. lia.
Qed.

(** ** transpose *)

(** A loop that stores [f i] at the index [idx i] of the buffer on top of
    the heap, or does nothing where [idx i] is [None]. *)
Lemma for_scatter (h : list (list number)) (l : list Z) (body : Z -> M unit)
    (idx : Z -> Z) (f : Z -> number) buf0 :
  (forall i buf, i ∈ l -> length buf = length buf0 ->
     0 <= idx i
     /\ body i (h ++ [buf])
        = (Ok tt, h ++ [<[Z.to_nat (idx i) := f i]> buf])) ->
  for_ l body (h ++ [buf0])
  = (Ok tt, h ++ [scatter (fun i => Z.to_nat (idx i)) f l buf0]).
Proof.
  intros Hb.
  destruct (for_abstract (fun buf => h ++ [buf])
              (fun buf i => <[Z.to_nat (idx i) := f i]> buf)
              (fun buf => length buf = length buf0) l body) with (s := buf0)
    as [E _]; [|done|exact E].
  intros i buf Hi Hlen. split; [|now rewrite length_insert].
  now apply Hb.
Qed.

Lemma transpose_newShape perm (s : list Z) :
  length perm = length s ->
  map (fun i => match perm !! i with
                | Some p => default 0 (lookupZ s p)
                | None => 0
                end) (seq 0 (length s))
  = permuteBy perm s.
Proof.
  intros Hl. apply list_eq. intros k. unfold permuteBy.
  change (map ?f ?l) with (f <$> l). rewrite !list_lookup_fmap.
  destruct (decide (k < length s)%nat) as [Hk|Hk].
  - rewrite lookup_seq_lt by lia. cbn.
    destruct (lookup_lt_is_Some_2 perm k ltac:(lia)) as [p ->]. reflexivity.
  - rewrite lookup_seq_ge by lia. rewrite lookup_ge_None_2 by lia.
    reflexivity.
Qed.

Lemma transpose_newLoc perm (loc : list Z) :
  Permutation perm (range 0 (Z.of_nat (length loc))) ->
  MathBackendCPU.tabulateOpt (length loc)
    (fun i => match perm !! i with
              | Some p => lookupZ loc p
              | None => None
              end)
  = Some (permuteBy perm loc).
Proof.
  intros Hp. destruct (perm_valid _ _ Hp) as [Hl Hv].
  unfold MathBackendCPU.tabulateOpt. apply mapM_Some.
  apply Forall2_same_length_lookup. split.
  - rewrite length_seq, length_permuteBy. lia.
  - intros k i v Hi Hr. apply lookup_seq in Hi as [-> Hk]. cbn in *.
    destruct (lookup_lt_is_Some_2 perm k ltac:(lia)) as [p Hpk].
    rewrite Hpk. rewrite (permuteBy_lookup _ _ _ _ Hpk) in Hr.
    assert (Hin : 0 <= p < Z.of_nat (length loc)).
    { apply Hv. eapply list_elem_of_lookup_2, Hpk. }
    destruct (lookupZ_Some loc p Hin) as [w Hw]. rewrite Hw in *.
    cbn in Hr. congruence.
Qed.

Lemma transpose_run h x xv perm :
  holds h x xv -> Permutation perm (range 0 (rank x)) ->
  MathBackendCPU.transpose x perm h
  = (Ok (mkNDArray (permuteBy perm (shape x)) float32 (length h)),
     h ++ [scatter
             (fun i => Z.to_nat
                (locToIndex (permuteBy perm (shape x))
                   (permuteBy perm (indexToLoc (shape x) i))))
             (fun i => at_index xv i)
             (range 0 (size x))
             (replicate (Z.to_nat (size x)) (num 0))]).
Proof.
  intros Hx Hp. pose proof Hx as (_ & Hlen & Hpos).
  assert (Hn : 0 < size x) by (apply sizeFromShape_pos, Hpos).
  destruct (perm_valid _ _ Hp) as [Hl _]. unfold rank in Hl, Hp.
  unfold MathBackendCPU.transpose. cbv zeta.
  rewrite transpose_newShape by lia.
  erewrite bind_ok; [|apply newTypedArray_ok; lia].
  unfold NDArray_make. cbn [default from_option id shape].
  erewrite bind_ok; [reflexivity|].
  apply for_scatter. intros i buf Hi%elem_of_range Hb.
  rewrite transpose_newLoc by (now rewrite length_indexToLoc).
  assert (Hin : inBounds (permuteBy perm (shape x))
                  (permuteBy perm (indexToLoc (shape x) i))).
  { apply permuteBy_inBounds; [exact Hp|].
    apply indexToLoc_inBounds; [exact Hpos|exact Hi]. }
  pose proof (locToIndex_bound _ _ Hin) as Hbd.
  split; [lia|].
  unfold getValues. erewrite bind_ok; [|apply reads_load].
  rewrite (holds_buffer _ _ _ _ Hx). apply store_top. lia.
Qed.

Section Transpose.
Variables (s perm : list Z).
Hypothesis Hpos : Forall (fun d => 0 < d) s.
Hypothesis Hp : Permutation perm (range 0 (Z.of_nat (length s))).

Let idx (i : Z) : Z :=
  locToIndex (permuteBy perm s) (permuteBy perm (indexToLoc s i)).

Lemma transpose_idx_bound i :
  0 <= i < sizeFromShape s -> 0 <= idx i < sizeFromShape s.
Proof.
  intros Hi. unfold idx.
  rewrite <- (sizeFromShape_Permutation _ _ (permuteBy_Permutation perm s Hp)).
  apply locToIndex_bound, permuteBy_inBounds; [exact Hp|].
  now apply indexToLoc_inBounds.
Qed.

Lemma transpose_idx_inj i i' :
  0 <= i < sizeFromShape s -> 0 <= i' < sizeFromShape s ->
  idx i = idx i' -> i = i'.
Proof.
  intros Hi Hi' E. unfold idx in E.
  pose proof (indexToLoc_inBounds s i Hpos Hi) as B.
  pose proof (indexToLoc_inBounds s i' Hpos Hi') as B'.
  apply (f_equal (indexToLoc (permuteBy perm s))) in E.
  rewrite !indexToLoc_locToIndex in E by (now apply permuteBy_inBounds).
  apply permuteBy_inj in E.
  - apply (f_equal (locToIndex s)) in E.
    now rewrite !locToIndex_indexToLoc in E.
  - now rewrite length_indexToLoc.
  - now rewrite !length_indexToLoc.
Qed.

Lemma transpose_lookup (f : Z -> number) i :
  0 <= i < sizeFromShape s ->
  scatter (fun i => Z.to_nat (idx i)) f (range 0 (sizeFromShape s))
    (replicate (Z.to_nat (sizeFromShape s)) (num 0)) !! Z.to_nat (idx i)
  = Some (f i).
Proof.
  intros Hi.
  apply (scatter_lookup (fun i => Z.to_nat (idx i)) f).
  - intros t t' Ht%elem_of_range Ht'%elem_of_range E.
    pose proof (transpose_idx_bound t Ht).
    pose proof (transpose_idx_bound t' Ht').
    apply transpose_idx_inj; [exact Ht|exact Ht'|lia].
  - now apply elem_of_range.
  - rewrite length_replicate. pose proof (transpose_idx_bound i Hi). lia.
Qed.
End Transpose.

Lemma Forall_Permutation_pos (s1 s2 : list Z) :
  Permutation s1 s2 -> Forall (fun d => 0 < d) s2 -> Forall (fun d => 0 < d) s1.
Proof. intros H. now rewrite H. Qed.

(** X11: transpose of a tensor of binary32 numbers by a permutation of the
    axes returns a float32 tensor whose shape is the permuted shape, whose
    elements are binary32 numbers, and whose element at a permuted
    location is the element of the input at the location. Transposing the
    result by the inverse permutation gives back the elements of the input
    in its shape. *)
Theorem transpose_round_trip h x xv perm inv :
  holds h x xv ->
  Permutation perm (range 0 (rank x)) ->
  Permutation inv (range 0 (rank x)) ->
  (forall (i : nat) q, inv !! i = Some q ->
     perm !! Z.to_nat q = Some (Z.of_nat i)) ->
  Forall float32Value xv ->
  exists out,
    MathBackendCPU.transpose x perm h
    = (Ok (mkNDArray (permuteBy perm (shape x)) float32 (length h)),
       h ++ [out])
    /\ Forall float32Value out
    /\ (forall loc, inBounds (shape x) loc ->
          elementAt (permuteBy perm (shape x)) out (permuteBy perm loc)
          = elementAt (shape x) xv loc)
    /\ MathBackendCPU.transpose
         (mkNDArray (permuteBy perm (shape x)) float32 (length h)) inv
         (h ++ [out])
       = (Ok (mkNDArray (shape x) float32 (S (length h))), h ++ [out; xv]).
Proof.
  intros Hx Hp Hi Hinv Hf. pose proof Hx as (_ & Hlen & Hpos).
  assert (Hn : 0 < size x) by (apply sizeFromShape_pos, Hpos).
  unfold rank in Hp, Hi.
  destruct (perm_valid _ _ Hp) as [Hlp Hvp].
  destruct (perm_valid _ _ Hi) as [Hli Hvi].
  set (s' := permuteBy perm (shape x)).
  assert (Hs' : Permutation s' (shape x)) by now apply permuteBy_Permutation.
  assert (Hsz : sizeFromShape s' = size x)
    by now apply sizeFromShape_Permutation.
  assert (Hpos' : Forall (fun d => 0 < d) s')
    by (eapply Forall_Permutation_pos; eassumption).
  assert (Hls' : length s' = length (shape x))
    by (unfold s'; rewrite length_permuteBy; lia).
  eexists. split; [apply (transpose_run h x xv perm Hx Hp)|].
  set (out := scatter _ _ _ _).
  assert (Hout : forall i, 0 <= i < size x ->
            out !! Z.to_nat
                     (locToIndex s' (permuteBy perm (indexToLoc (shape x) i)))
            = Some (at_index xv i)).
  { intros i Hi'.
    apply (transpose_lookup (shape x) perm Hpos Hp (fun i => at_index xv i) i Hi'). }
  assert (Hlo : Z.of_nat (length out) = size x).
  { unfold out. rewrite scatter_length, length_replicate. lia. }
  split.
  { apply Forall_scatter; [apply Forall_replicate_0|].
    intros i _. apply float32Value_at_index, Hf. }
  split.
  - intros loc Hloc. unfold elementAt.
    pose proof (locToIndex_bound _ _ Hloc) as Hb.
    specialize (Hout (locToIndex (shape x) loc) Hb).
    rewrite indexToLoc_locToIndex in Hout by exact Hloc.
    apply at_index_Some; [|exact Hout].
    apply locToIndex_bound. now apply permuteBy_inBounds.
  - rewrite (transpose_run (h ++ [out]) _ out inv).
    2:{ apply holds_result; [|exact Hpos']. now rewrite Hsz. }
    2:{ unfold rank. cbn [shape]. now rewrite Hls'. }
    cbn [shape].
    assert (Einv : forall l, length l = length (shape x) ->
              permuteBy inv (permuteBy perm l) = l).
    { intros l Hl. apply permuteBy_inverse; [now rewrite Hl|lia|].
      intros i q Hq. split; [now apply Hinv|].
      assert (q ∈ inv) by (eapply list_elem_of_lookup_2, Hq).
      apply Hvi in H. lia. }
    assert (Es : permuteBy inv s' = shape x) by (apply Einv; reflexivity).
    rewrite !Es.
    rewrite length_app, Nat.add_1_r, <- app_assoc. cbn [app].
    do 4 f_equal.
    change (size {| shape := s'; dtype := float32; data := length h |})
      with (sizeFromShape s').
    rewrite Hsz. apply list_eq. intros k.
    destruct (decide (k < length xv)%nat) as [Hk|Hk].
    + set (i := Z.of_nat k).
      assert (Hik : 0 <= i < size x) by (unfold i; lia).
      set (j := locToIndex s' (permuteBy perm (indexToLoc (shape x) i))).
      assert (Hj : 0 <= j < sizeFromShape s').
      { apply locToIndex_bound, permuteBy_inBounds; [exact Hp|].
        now apply indexToLoc_inBounds. }
      pose proof (transpose_lookup s' inv Hpos'
                    ltac:(now rewrite Hls') (fun i => at_index out i) j Hj)
        as E.
      rewrite Hsz, Es in E.
      assert (Eidx : locToIndex (shape x)
                       (permuteBy inv (indexToLoc s' j)) = i).
      { unfold j. rewrite indexToLoc_locToIndex
          by (apply permuteBy_inBounds; [exact Hp|];
              now apply indexToLoc_inBounds).
        rewrite Einv by (now rewrite length_indexToLoc).
        now apply locToIndex_indexToLoc. }
      rewrite Eidx in E. unfold i in E at 1. rewrite Nat2Z.id in E.
      rewrite E. unfold j.
      rewrite (at_index_Some out _ (at_index xv i)); [| |now apply Hout].
      * destruct (lookup_lt_is_Some_2 xv k Hk) as [v Hv]. rewrite Hv.
        f_equal. apply at_index_Some; [lia|]. unfold i.
        now rewrite Nat2Z.id.
      * fold j. lia.
    + rewrite !lookup_ge_None_2; [reflexivity|lia|].
      rewrite scatter_length, length_replicate. lia.
Qed.

Lemma transpose_round_trip_witness :
  holds exReduceHeap exReduceX exReduceBuf
  /\ Permutation [1; 0] (range 0 (rank exReduceX))
  /\ Forall float32Value exReduceBuf
  /\ exists out,
       MathBackendCPU.transpose exReduceX [1; 0] exReduceHeap
       = (Ok (mkNDArray [3; 2] float32 3%nat), exReduceHeap ++ [out])
       /\ MathBackendCPU.transpose (mkNDArray [3; 2] float32 3%nat) [1; 0]
            (exReduceHeap ++ [out])
          = (Ok (mkNDArray [2; 3] float32 4%nat),
             exReduceHeap ++ [out; exReduceBuf]).
Proof.
  assert (Hp : Permutation [1; 0] (range 0 (rank exReduceX)))
    by apply perm_swap.
  assert (Hinv : forall (i : nat) q, [1; 0] !! i = Some q ->
            [1; 0] !! Z.to_nat q = Some (Z.of_nat i)).
  { intros [|[|i]] q E; inversion E; reflexivity. }
  split; [exact exReduce_holds|]. split; [exact Hp|].
  split; [exact exReduce_float32|].
  destruct (transpose_round_trip exReduceHeap exReduceX exReduceBuf
              [1; 0] [1; 0] exReduce_holds Hp Hp Hinv exReduce_float32)
    as (out & E1 & _ & _ & E2).
  exists out. split; [exact E1|exact E2].
Defined.

(** ** oneHot *)

Lemma toIndex_nadd_num a b : toIndex (nadd (num a) (num b)) = a + b.
Proof.
  unfold num, nadd, toIndex.
  assert (E : (Qred (inject_Z a + inject_Z b) == inject_Z (a + b))%Q).
  { rewrite Qred_correct. unfold inject_Z, Qeq, Qplus. cbn. lia. }
  assert (F : Qfloor (Qred (inject_Z a + inject_Z b)) = a + b).
  { rewrite (Qfloor_comp _ _ E). apply Qfloor_Z. }
  rewrite F.
  destruct (Qeq_bool _ _) eqn:C; [reflexivity|].
  apply Qeq_bool_neq in C. exfalso. apply C. now rewrite E.
Qed.

Lemma fill_top (h : list (list number)) buf v :
  fill (length h) v (h ++ [buf]) = (Ok tt, h ++ [replicate (length buf) v]).
Proof.
  unfold fill. f_equal.
  replace (length h) with (length h + 0)%nat at 1 by lia.
  now rewrite alter_app_r.
Qed.

Lemma oneHot_run h indices (zs : list Z) depth onValue offValue :
  holds h indices (num <$> zs) -> shape indices = [Z.of_nat (length zs)] ->
  0 < depth -> Forall (fun z => 0 <= z < depth) zs ->
  MathBackendCPU.oneHot indices depth onValue offValue h
  = (Ok (mkNDArray [Z.of_nat (length zs); depth] float32 (length h)),
     h ++ [scatter
             (fun e => Z.to_nat (e * depth + default 0 (zs !! Z.to_nat e)))
             (fun _ => onValue)
             (range 0 (Z.of_nat (length zs)))
             (replicate (Z.to_nat (Z.of_nat (length zs) * depth)) offValue)]).
Proof.
  intros Hx Hs Hd Hz. pose proof Hx as (_ & Hlen & Hpos).
  assert (Hsz : size indices = Z.of_nat (length zs)).
  { unfold size. rewrite Hs. cbn. lia. }
  unfold MathBackendCPU.oneHot. rewrite Hsz.
  erewrite bind_ok; [|apply newTypedArray_ok; lia].
  erewrite bind_ok; [|apply fill_top].
  rewrite length_replicate.
  erewrite bind_ok; [reflexivity|].
  apply (for_scatter h _ _
           (fun e => e * depth + default 0 (zs !! Z.to_nat e))
           (fun _ => onValue)).
  intros e buf He%elem_of_range Hb.
  destruct (lookup_lt_is_Some_2 zs (Z.to_nat e) ltac:(lia)) as [z Hze].
  assert (Hzb : 0 <= z < depth).
  { rewrite Forall_forall in Hz. apply Hz.
    eapply list_elem_of_lookup_2, Hze. }
  rewrite Hze. cbn [default from_option id]. split; [nia|].
  erewrite bind_ok; [|apply reads_get].
  rewrite (holds_buffer _ _ _ _ Hx), Hs.
  assert (Ev : at_index (num <$> zs) (locToIndex [Z.of_nat (length zs)] [e])
               = num z).
  { apply at_index_Some; [cbn; lia|]. rewrite list_lookup_fmap.
    replace (Z.to_nat (locToIndex [Z.of_nat (length zs)] [e]))
      with (Z.to_nat e) by (cbn; lia).
    now rewrite Hze. }
  rewrite Ev, toIndex_nadd_num. apply store_top. nia.
Qed.

(** X12: oneHot on indices within [[0, depth)], with an [onValue] and an
    [offValue] that are binary32 numbers, returns a float32 tensor of
    shape [[n, depth]] whose row [e] holds [onValue] at the column
    [indices[e]] and [offValue] at every other column. *)
Theorem oneHot_rows h indices (zs : list Z) depth onValue offValue :
  holds h indices (num <$> zs) -> shape indices = [Z.of_nat (length zs)] ->
  0 < depth -> Forall (fun z => 0 <= z < depth) zs ->
  float32Value onValue -> float32Value offValue ->
  exists out,
    MathBackendCPU.oneHot indices depth onValue offValue h
    = (Ok (mkNDArray [Z.of_nat (length zs); depth] float32 (length h)),
       h ++ [out])
    /\ Z.of_nat (length out) = Z.of_nat (length zs) * depth
    /\ Forall float32Value out
    /\ forall (e : nat) z j, zs !! e = Some z -> 0 <= j < depth ->
         out !! Z.to_nat (Z.of_nat e * depth + j)
         = Some (if j =? z then onValue else offValue).
Proof.
  intros Hx Hs Hd Hz Fon Foff. eexists.
  split; [apply (oneHot_run h indices zs depth onValue offValue Hx Hs Hd Hz)|].
  split; [rewrite scatter_length, length_replicate; lia|].
  split.
  { apply Forall_scatter; [apply Forall_replicate, Foff|].
    intros e _. exact Fon. }
  intros e z j He Hj.
  assert (Hel : (e < length zs)%nat) by (eapply lookup_lt_Some, He).
  assert (Hb : forall e' z', zs !! Z.to_nat e' = Some z' -> 0 <= z' < depth).
  { intros e' z' E. rewrite Forall_forall in Hz. apply Hz.
    eapply list_elem_of_lookup_2, E. }
  destruct (Z.eqb_spec j z) as [->|Hne].
  - pose proof (scatter_lookup
                  (fun e => Z.to_nat (e * depth + default 0 (zs !! Z.to_nat e)))
                  (fun _ => onValue) (range 0 (Z.of_nat (length zs)))
                  (replicate (Z.to_nat (Z.of_nat (length zs) * depth)) offValue)
                  (Z.of_nat e)) as E.
    cbv beta in E. rewrite Nat2Z.id, He in E. cbn [default from_option id] in E.
    apply E.
    + intros t t' Ht%elem_of_range Ht'%elem_of_range Eq.
      destruct (lookup_lt_is_Some_2 zs (Z.to_nat t) ltac:(lia)) as [a Ha].
      destruct (lookup_lt_is_Some_2 zs (Z.to_nat t') ltac:(lia)) as [b Hb'].
      rewrite Ha, Hb' in Eq. cbn [default from_option id] in Eq.
      pose proof (Hb _ _ Ha). pose proof (Hb _ _ Hb'). nia.
    + apply elem_of_range. lia.
    + rewrite length_replicate. nia.
  - rewrite scatter_other.
    + apply lookup_replicate_2. nia.
    + intros t Ht%elem_of_range Eq.
      destruct (lookup_lt_is_Some_2 zs (Z.to_nat t) ltac:(lia)) as [a Ha].
      rewrite Ha in Eq. cbn [default from_option id] in Eq.
      pose proof (Hb _ _ Ha).
      assert (t = Z.of_nat e) by nia. subst t.
      rewrite Nat2Z.id in Ha. assert (a = z) by congruence. subst a. lia.
Qed.

Lemma oneHot_rows_witness :
  holds exOneHotHeap exOneHotIndices (num <$> [1; 0])
  /\ Forall (fun z => 0 <= z < 3) [1; 0]
  /\ float32Value (num 1) /\ float32Value (num 0)
  /\ exists out,
       MathBackendCPU.oneHot exOneHotIndices 3 (num 1) (num 0) exOneHotHeap
       = (Ok (mkNDArray [2; 3] float32 3%nat), exOneHotHeap ++ [out])
       /\ out !! Z.to_nat (Z.of_nat 0 * 3 + 1) = Some (num 1)
       /\ out !! Z.to_nat (Z.of_nat 1 * 3 + 1) = Some (num 0).
Proof.
  assert (Hx : holds exOneHotHeap exOneHotIndices (num <$> [1; 0])).
  { split; [reflexivity|]. split; [reflexivity|]. repeat constructor. }
  assert (Hz : Forall (fun z => 0 <= z < 3) [1; 0])
    by (repeat constructor; lia).
  split; [exact Hx|]. split; [exact Hz|].
  split; [exact float32Value_1|]. split; [exact float32Value_0|].
  destruct (oneHot_rows exOneHotHeap exOneHotIndices [1; 0] 3 (num 1) (num 0)
              Hx eq_refl ltac:(lia) Hz float32Value_1 float32Value_0)
    as (out & E & _ & _ & Hw).
  exists out. split; [exact E|]. split.
  - apply (Hw 0%nat 1 1 eq_refl ltac:(lia)).
  - apply (Hw 1%nat 0 1 eq_refl ltac:(lia)).
Defined.

(** ** maxPool and minPool *)

(** A loop with [break] over two lists in a row, when a state that a
    [break] leaves is told by [bad] from the states that the loop passes
    on. *)
Lemma loop_pure_app_bad {A S} (bad : S -> bool) (g : A -> S -> ctl S)
    (l l' : list A) :
  (forall a s s', g a s = Break s' -> bad s' = true) ->
  (forall a s s', bad s = false -> g a s = Next s' -> bad s' = false) ->
  forall s, bad s = false ->
  loop_pure (l ++ l') s g
  = if bad (loop_pure l s g) then loop_pure l s g
    else loop_pure l' (loop_pure l s g) g.
Proof.
  intros Hbr Hnx. induction l as [|a l IH]; intros s Hs.
  - cbn. now rewrite Hs.
  - cbn [app loop_pure]. destruct (g a s) as [s'|s'] eqn:E.
    + apply IH. eapply Hnx; eassumption.
    + now rewrite (Hbr _ _ _ E).
Qed.

Lemma loop_pure_bad {A S} (bad : S -> bool) (g : A -> S -> ctl S)
    (l : list A) :
  (forall a s s', g a s = Break s' -> bad s' = true) ->
  (forall a s s', bad s = false -> g a s = Next s' -> bad s' = false) ->
  forall s, bad s = false ->
  bad (loop_pure l s g) = true -> forall l', loop_pure (l ++ l') s g = loop_pure l s g.
Proof.
  intros Hbr Hnx s Hs Hb l'.
  rewrite (loop_pure_app_bad bad g l l' Hbr Hnx s Hs). now rewrite Hb.
Qed.

(** Two nested loops with [break], the outer one leaving when the inner
    one did, are one loop over the pairs. *)
Lemma loop_pure_nested {A B S} (bad : S -> bool) (f : A -> B -> S -> ctl S)
    (l1 : list A) (l2 : list B) :
  (forall a b s s', f a b s = Break s' -> bad s' = true) ->
  (forall a b s s', bad s = false -> f a b s = Next s' -> bad s' = false) ->
  forall s, bad s = false ->
  loop_pure l1 s
    (fun a st => let st' := loop_pure l2 st (f a) in
                 if bad st' then Break st' else Next st')
  = loop_pure (a ← l1; b ← l2; [(a, b)]) s (fun t st => f t.1 t.2 st).
Proof.
  intros Hbr Hnx. induction l1 as [|a l1 IH]; intros s Hs; [reflexivity|].
  cbn [loop_pure]. rewrite bind_cons. cbv zeta.
  assert (Ein : forall l s0,
            loop_pure (b ← l; [(a, b)]) s0 (fun t st => f t.1 t.2 st)
            = loop_pure l s0 (f a)).
  { induction l as [|b l IHl]; intros s0; [reflexivity|].
    cbn. destruct (f a b s0); [apply IHl|reflexivity]. }
  rewrite (loop_pure_app_bad bad (fun t st => f t.1 t.2 st)).
  - rewrite Ein. destruct (bad (loop_pure l2 s (f a))) eqn:E; [reflexivity|].
    now apply IH.
  - intros [a' b'] s0 s' E. eapply Hbr, E.
  - intros [a' b'] s0 s' Hs0 E. eapply Hnx; [exact Hs0|exact E].
  - exact Hs.
Qed.

Lemma loop_pure_fmap {A B S} (p : A -> B) (g : B -> S -> ctl S) (l : list A) :
  forall s, loop_pure l s (fun a st => g (p a) st) = loop_pure (p <$> l) s g.
Proof.
  induction l as [|a l IH]; intros s; [reflexivity|].
  cbn. destruct (g (p a) s); [apply IH|reflexivity].
Qed.

(** What pool does with one element of the window. *)
Section PoolValues.
Variable poolType : PoolType.
Variable k : Z.

Let g (pixel : number) (st : number * number) : ctl (number * number) :=
  if isNaN pixel then Break (NaN, NaN)
  else if match poolType with
          | pool_max => ngt pixel st.1
          | pool_min => nlt pixel st.1
          | pool_avg => false
          end
  then Next (pixel, st.2)
  else match poolType with
       | pool_avg => Next (st.1, nadd st.2 (ndiv pixel (num k)))
       | _ => Next st
       end.

Lemma poolValues_break pixel st st' : g pixel st = Break st' -> isNaN st'.1 = true.
Proof.
  unfold g. destruct (isNaN pixel); [intros E; now inversion E|].
  destruct poolType; [destruct (ngt _ _)|destruct (nlt _ _)|]; discriminate.
Qed.

Lemma poolValues_next pixel st st' :
  isNaN st.1 = false -> g pixel st = Next st' -> isNaN st'.1 = false.
Proof.
  unfold g. intros Hs. destruct (isNaN pixel) eqn:EN; [discriminate|].
  destruct poolType; [destruct (ngt _ _) eqn:El|destruct (nlt _ _) eqn:El|];
    intros E; inversion E; subst; assumption.
Qed.

Lemma poolValues_NaN (ps : list number) : forall st,
  NaN ∈ ps -> loop_pure ps st g = (NaN, NaN).
Proof.
  induction ps as [|p ps IH]; intros st Hin; [now apply elem_of_nil in Hin|].
  cbn [loop_pure]. destruct (g p st) as [s'|s'] eqn:E.
  - apply IH. apply elem_of_cons in Hin as [<-|Hin]; [|exact Hin].
    unfold g in E. cbn in E. discriminate.
  - unfold g in E. destruct (isNaN p); [now inversion E|].
    destruct poolType; [destruct (ngt _ _)|destruct (nlt _ _)|]; discriminate.
Qed.

Lemma isNaN_not_elem (ps : list number) p :
  NaN ∉ ps -> p ∈ ps -> isNaN p = false.
Proof.
  intros HN Hp. destruct p; try reflexivity. contradiction.
Qed.

Lemma poolValues_extremum (lt : number -> number -> bool) :
  (forall a, lt a a = false) ->
  (forall a b c, lt a b = true -> lt b c = true -> lt a c = true) ->
  (forall a b c, lt a b = true -> lt c b = false -> isNaN c = false ->
                 lt a c = true) ->
  (forall st pixel,
     isNaN pixel = false ->
     g pixel st = if lt pixel st.1 then Next (pixel, st.2) else Next st) ->
  forall (ps : list number) st,
    isNaN st.1 = false -> NaN ∉ ps ->
    extremumOf lt (st.1 :: ps) (loop_pure ps st g).1
    /\ (loop_pure ps st g).2 = st.2.
Proof.
  intros L1 L2 L3 Hg. induction ps as [|p ps IH]; intros [m a] Hm HN.
  - cbn. split; [|reflexivity]. split; [left|].
    intros v' ->%list_elem_of_singleton. apply L1.
  - assert (Hp : isNaN p = false) by (apply (isNaN_not_elem (p :: ps)); [done|left]).
    assert (HN' : NaN ∉ ps) by (intros C; apply HN; now right).
    cbn [loop_pure]. rewrite (Hg _ _ Hp). cbn [fst snd].
    destruct (lt p m) eqn:El.
    + destruct (IH (p, a) Hp HN') as [[Hin Hall] H2]. cbn [fst snd] in *.
      split; [|exact H2]. split; [now right|].
      intros v' [->|Hv']%elem_of_cons; [|now apply Hall].
      destruct (lt m (loop_pure ps (p, a) g).1) eqn:E; [|reflexivity].
      assert (Hpp : p ∈ p :: ps) by left.
      rewrite <- (Hall p Hpp). symmetry. eapply L2; eassumption.
    + destruct (IH (m, a) Hm HN') as [[Hin Hall] H2]. cbn [fst snd] in *.
      split; [|exact H2]. split.
      * apply elem_of_cons in Hin as [->|Hin]; [left|right; now right].
      * intros v' [->|[->|Hv']%elem_of_cons]%elem_of_cons.
        -- apply Hall. left.
        -- destruct (lt p (loop_pure ps (m, a) g).1) eqn:E; [|reflexivity].
           assert (Hmm : m ∈ m :: ps) by left.
           rewrite <- El. symmetry.
           eapply L3; [exact E|exact (Hall m Hmm)|exact Hm].
        -- apply Hall. now right.
Qed.
End PoolValues.

(** The scan of pool is one pass over the elements of the window. *)
Lemma poolScan_flat xv ci poolType b d yR yC :
  poolScan xv ci poolType b d yR yC
  = loop_pure (windowPixels xv ci b d yR yC)
      (match poolType with pool_max => NInf | _ => PInf end, num 0)
      (fun pixel st =>
         if isNaN pixel then Break (NaN, NaN)
         else if match poolType with
                 | pool_max => ngt pixel st.1
                 | pool_min => nlt pixel st.1
                 | pool_avg => false
                 end
         then Next (pixel, st.2)
         else match poolType with
              | pool_avg =>
                  Next (st.1,
                        nadd st.2
                          (ndiv pixel (num (filterHeight ci * filterWidth ci))))
              | _ => Next st
              end).
Proof.
  unfold poolScan, windowPixels, poolWindow.
  rewrite <- loop_pure_fmap.
  rewrite <- (loop_pure_nested (fun st : number * number => isNaN st.1)
                (fun xR xC st =>
                   let pixel := pixelAt xv ci b d (xR, xC) in
                   if isNaN pixel then Break (NaN, NaN)
                   else if match poolType with
                           | pool_max => ngt pixel st.1
                           | pool_min => nlt pixel st.1
                           | pool_avg => false
                           end
                   then Next (pixel, st.2)
                   else match poolType with
                        | pool_avg =>
                            Next (st.1,
                                  nadd st.2
                                    (ndiv pixel
                                       (num (filterHeight ci * filterWidth ci))))
                        | _ => Next st
                        end)).
  - reflexivity.
  - intros xR xC st st'.
    apply (poolValues_break poolType (filterHeight ci * filterWidth ci)).
  - intros xR xC st st'.
    apply (poolValues_next poolType (filterHeight ci * filterWidth ci)).
  - now destruct poolType.
Qed.

Lemma pool_run h x xv ci poolType :
  holds h x xv -> poolGeometry ci -> shape x = inShape ci ->
  0 < outHeight ci -> 0 < outWidth ci ->
  MathBackendCPU.pool x ci poolType h
  = (Ok (mkNDArray (outShape ci) float32 (length h)),
     h ++ [scatter
             (fun t => Z.to_nat (locToIndex (outShape ci)
                                   [t.1.1.1; t.1.2; t.2; t.1.1.2]))
             (fun t =>
                let r := poolScan xv ci poolType t.1.1.1 t.1.1.2 t.1.2 t.2 in
                match poolType with pool_avg => r.2 | _ => r.1 end)
             (tuples4 (range 0 (batchSize ci)) (range 0 (inChannels ci))
                      (range 0 (outHeight ci)) (range 0 (outWidth ci)))
             (replicate (Z.to_nat (sizeFromShape (outShape ci))) (num 0))]).
Proof.
  intros Hx Hg Sx HOH HOW.
  assert (Hpos : 0 < batchSize ci /\ 0 < inChannels ci).
  { destruct Hx as (_ & _ & Px). rewrite Sx, (pg_inShape _ Hg) in Px.
    repeat (apply Forall_cons in Px as [? Px]). auto. }
  destruct Hpos as [HB HC].
  assert (Hsz : sizeFromShape (outShape ci)
                = batchSize ci * outHeight ci * outWidth ci * inChannels ci).
  { rewrite (pg_outShape _ Hg). cbn. ring. }
  unfold MathBackendCPU.pool. cbv zeta. unfold NDArray_zeros.
  erewrite bind_ok.
  2:{ erewrite bind_ok; [|apply newTypedArray_ok; rewrite Hsz; nia].
      reflexivity. }
  erewrite bind_ok; [reflexivity|].
  apply (for4_scatter h _ _ _ _ _
           (fun t => locToIndex (outShape ci) [t.1.1.1; t.1.2; t.2; t.1.1.2])
           (fun t =>
              let r := poolScan xv ci poolType t.1.1.1 t.1.1.2 t.1.2 t.2 in
              match poolType with pool_avg => r.2 | _ => r.1 end)).
  intros b d yR yC buf Hb%elem_of_range Hd%elem_of_range
         HyR%elem_of_range HyC%elem_of_range Hlen.
  cbn [fst snd].
  assert (Hidx : 0 <= locToIndex (outShape ci) [b; yR; yC; d]).
  { rewrite (pg_outShape _ Hg), locToIndex4.
    pose proof (flat4_bound (batchSize ci) (outHeight ci) (outWidth ci)
                  (inChannels ci) b yR yC d). lia. }
  split; [exact Hidx|].
  erewrite bind_ok.
  2:{ unfold poolScan, poolRows, poolCols. cbv zeta.
      apply (reads_loop _ _
        (fun xR st =>
           let st' :=
             loop_pure
               (range (Z.max 0 (yC * strideWidth ci - pad_left (padInfo ci)))
                      (Z.min (inWidth ci)
                         (filterWidth ci
                          + (yC * strideWidth ci - pad_left (padInfo ci)))))
               st
               (fun xC st =>
                  let pixel := pixelAt xv ci b d (xR, xC) in
                  if isNaN pixel then Break (NaN, NaN)
                  else if match poolType with
                          | pool_max => ngt pixel st.1
                          | pool_min => nlt pixel st.1
                          | pool_avg => false
                          end
                  then Next (pixel, st.2)
                  else match poolType with
                       | pool_avg =>
                           Next (st.1,
                                 nadd st.2
                                   (ndiv pixel
                                      (num (filterHeight ci * filterWidth ci))))
                       | _ => Next st
                       end) in
           if isNaN st'.1 then Break st' else Next st')).
      intros xR st _. cbv zeta.
      eapply reads_bind.
      { apply (reads_loop _ _
          (fun xC st =>
             let pixel := pixelAt xv ci b d (xR, xC) in
             if isNaN pixel then Break (NaN, NaN)
             else if match poolType with
                     | pool_max => ngt pixel st.1
                     | pool_min => nlt pixel st.1
                     | pool_avg => false
                     end
             then Next (pixel, st.2)
             else match poolType with
                  | pool_avg =>
                      Next (st.1,
                            nadd st.2
                              (ndiv pixel
                                 (num (filterHeight ci * filterWidth ci))))
                  | _ => Next st
                  end)).
        intros xC [mm avg] _.
        eapply reads_bind; [apply reads_get|].
        rewrite (holds_buffer _ _ _ _ Hx), Sx.
        unfold pixelAt, elementAt. cbn [fst snd].
        destruct (isNaN _); [apply reads_ret|].
        destruct poolType;
          [destruct (ngt _ _)|destruct (nlt _ _)|]; apply reads_ret. }
      destruct (isNaN _); apply reads_ret. }
  unfold set. cbn [data shape].
  fold (poolRows ci yR). fold (poolCols ci yC).
  apply store_top. exact Hidx.
Qed.

Lemma pool_element h x xv ci poolType :
  holds h x xv -> poolGeometry ci -> shape x = inShape ci ->
  0 < outHeight ci -> 0 < outWidth ci ->
  exists out,
    MathBackendCPU.pool x ci poolType h
    = (Ok (mkNDArray (outShape ci) float32 (length h)), h ++ [out])
    /\ forall b yR yC d,
         0 <= b < batchSize ci -> 0 <= yR < outHeight ci ->
         0 <= yC < outWidth ci -> 0 <= d < inChannels ci ->
         elementAt (outShape ci) out [b; yR; yC; d]
         = let r := poolScan xv ci poolType b d yR yC in
           match poolType with pool_avg => r.2 | _ => r.1 end.
Proof.
  intros Hx Hg Sx HOH HOW. eexists.
  split; [apply (pool_run h x xv ci poolType Hx Hg Sx HOH HOW)|].
  intros b yR yC d Hb HyR HyC Hd.
  rewrite (scatter4_lookup (outShape ci) (batchSize ci) (outHeight ci)
             (outWidth ci) (inChannels ci) _ b d yR yC (pg_outShape _ Hg))
    by lia.
  reflexivity.
Qed.

Lemma NaN_elem_dec (w : list number) : NaN ∈ w \/ NaN ∉ w.
Proof.
  induction w as [|v w [IH|IH]].
  - right. apply not_elem_of_nil.
  - left. now right.
  - destruct v as [| | |q]; [left; left|right..];
      intros [E|E]%elem_of_cons; try discriminate E; contradiction.
Qed.

(** X13: maxPool and minPool of a tensor of binary32 numbers return a float32
    tensor of the output shape. The element of an output position is a
    binary32 number: NaN when its clipped window holds a NaN; otherwise,
    for maxPool, the largest of [-Infinity] and the elements of the window
    and, for minPool, the smallest of [Infinity] and the elements of the
    window. *)
Theorem maxPool_minPool_window_extremum h x xv ci :
  holds h x xv -> poolGeometry ci -> shape x = inShape ci ->
  0 < outHeight ci -> 0 < outWidth ci -> Forall float32Value xv ->
  exists outMax outMin,
    MathBackendCPU.maxPool x ci h
    = (Ok (mkNDArray (outShape ci) float32 (length h)), h ++ [outMax])
    /\ MathBackendCPU.minPool x ci h
       = (Ok (mkNDArray (outShape ci) float32 (length h)), h ++ [outMin])
    /\ forall b yR yC d,
         0 <= b < batchSize ci -> 0 <= yR < outHeight ci ->
         0 <= yC < outWidth ci -> 0 <= d < inChannels ci ->
         let w := windowPixels xv ci b d yR yC in
         (NaN ∈ w ->
            elementAt (outShape ci) outMax [b; yR; yC; d] = NaN
            /\ elementAt (outShape ci) outMin [b; yR; yC; d] = NaN)
         /\ (NaN ∉ w ->
             extremumOf ngt (NInf :: w)
               (elementAt (outShape ci) outMax [b; yR; yC; d])
             /\ extremumOf nlt (PInf :: w)
                  (elementAt (outShape ci) outMin [b; yR; yC; d]))
         /\ float32Value (elementAt (outShape ci) outMax [b; yR; yC; d])
         /\ float32Value (elementAt (outShape ci) outMin [b; yR; yC; d]).
Proof.
  intros Hx Hg Sx HOH HOW Hf.
  destruct (pool_element h x xv ci pool_max Hx Hg Sx HOH HOW)
    as (outMax & Emax & Hmax).
  destruct (pool_element h x xv ci pool_min Hx Hg Sx HOH HOW)
    as (outMin & Emin & Hmin).
  exists outMax, outMin. split; [exact Emax|]. split; [exact Emin|].
  intros b yR yC d Hb HyR HyC Hd w.
  assert (HW : Forall float32Value w).
  { unfold w, windowPixels. apply Forall_fmap, Forall_forall. intros t _.
    apply float32Value_at_index, Hf. }
  assert (Hmain :
    (NaN ∈ w ->
       elementAt (outShape ci) outMax [b; yR; yC; d] = NaN
       /\ elementAt (outShape ci) outMin [b; yR; yC; d] = NaN)
    /\ (NaN ∉ w ->
        extremumOf ngt (NInf :: w)
          (elementAt (outShape ci) outMax [b; yR; yC; d])
        /\ extremumOf nlt (PInf :: w)
             (elementAt (outShape ci) outMin [b; yR; yC; d]))).
  2:{ destruct Hmain as [H1 H2]. split; [exact H1|]. split; [exact H2|].
      rewrite Forall_forall in HW.
      destruct (NaN_elem_dec w) as [HN|HN].
      - destruct (H1 HN) as [-> ->]. split; reflexivity.
      - destruct (H2 HN) as [[I1 _] [I2 _]].
        apply elem_of_cons in I1 as [->|I1], I2 as [->|I2];
          split; try reflexivity; now apply HW. }
  rewrite (Hmax b yR yC d Hb HyR HyC Hd), (Hmin b yR yC d Hb HyR HyC Hd).
  cbv zeta. rewrite !poolScan_flat. fold w. split.
  - intros HN.
    rewrite (poolValues_NaN pool_max (filterHeight ci * filterWidth ci) w _ HN).
    rewrite (poolValues_NaN pool_min (filterHeight ci * filterWidth ci) w _ HN).
    split; reflexivity.
  - intros HN. split.
    + apply (poolValues_extremum pool_max (filterHeight ci * filterWidth ci)
               ngt ngt_irrefl ngt_trans ngt_le_trans);
        [|reflexivity|exact HN].
      intros st pixel Hp. now rewrite Hp.
    + apply (poolValues_extremum pool_min (filterHeight ci * filterWidth ci)
               nlt nlt_irrefl nlt_trans nlt_le_trans);
        [|reflexivity|exact HN].
      intros st pixel Hp. now rewrite Hp.
Qed.

Lemma maxPool_minPool_window_extremum_witness :
  holds exPoolHeap exPoolX exPoolXBuf /\ poolGeometry exPoolInfo
  /\ Forall float32Value exPoolXBuf
  /\ exists outMax outMin,
       MathBackendCPU.maxPool exPoolX exPoolInfo exPoolHeap
       = (Ok (mkNDArray [1; 1; 2; 1] float32 4%nat), exPoolHeap ++ [outMax])
       /\ MathBackendCPU.minPool exPoolX exPoolInfo exPoolHeap
          = (Ok (mkNDArray [1; 1; 2; 1] float32 4%nat), exPoolHeap ++ [outMin])
       /\ (NaN ∉ windowPixels exPoolXBuf exPoolInfo 0 0 0 1 ->
           extremumOf ngt (NInf :: windowPixels exPoolXBuf exPoolInfo 0 0 0 1)
             (elementAt [1; 1; 2; 1] outMax [0; 0; 1; 0])).
Proof.
  assert (Hf : Forall float32Value exPoolXBuf)
    by (unfold exPoolXBuf; float32_values).
  assert (R0 : 0 <= 0 < 1) by lia.
  assert (R1 : 0 <= 1 < 2) by lia.
  split; [exact exPool_holds_x|]. split; [exact exPool_geometry|].
  split; [exact Hf|].
  destruct (maxPool_minPool_window_extremum exPoolHeap exPoolX exPoolXBuf
              exPoolInfo exPool_holds_x exPool_geometry eq_refl
              ltac:(reflexivity) ltac:(reflexivity) Hf)
    as (outMax & outMin & E1 & E2 & Hw).
  exists outMax, outMin. split; [exact E1|]. split; [exact E2|].
  intros HN.
  exact (proj1 (proj1 (proj2 (Hw 0 0 1 0 R0 R0 R1 R0)) HN)).
Defined.

(** ** tile *)

Lemma tile_originalLoc (s newLoc : list Z) :
  length newLoc = length s ->
  MathBackendCPU.tabulateOpt (length s)
    (fun i => match newLoc !! i, s !! i with
              | Some n, Some d => Some (MathBackendCPU.jsmod n d)
              | _, _ => None
              end)
  = Some (zip_with MathBackendCPU.jsmod newLoc s).
Proof.
  intros Hl. unfold MathBackendCPU.tabulateOpt. apply mapM_Some.
  apply Forall2_same_length_lookup. split.
  - rewrite length_seq, length_zip_with. lia.
  - intros k i v Hi Hr. apply lookup_seq in Hi as [-> Hk]. cbn in *.
    rewrite lookup_zip_with in Hr.
    destruct (newLoc !! k) as [n|]; [|discriminate].
    destruct (s !! k) as [d|]; [|discriminate]. exact Hr.
Qed.

Lemma zip_with_jsmod (s loc : list Z) :
  Forall (fun d => 0 < d) s -> Forall (fun i => 0 <= i) loc ->
  zip_with MathBackendCPU.jsmod loc s = zip_with Z.modulo loc s.
Proof.
  intros Hs. revert loc. induction Hs as [|d s Hd Hs IH]; intros loc Hloc.
  - now destruct loc.
  - destruct loc as [|i loc]; [reflexivity|].
    apply Forall_cons in Hloc as [Hi Hloc]. cbn. f_equal; [|now apply IH].
    unfold MathBackendCPU.jsmod. destruct (Z.eqb_spec d 0); [lia|].
    apply Z.rem_mod_nonneg; lia.
Qed.

Lemma inBounds_nonneg s loc : inBounds s loc -> Forall (fun i => 0 <= i) loc.
Proof.
  induction 1 as [|d i s loc Hi Hl IH]; constructor; [lia|exact IH].
Qed.

Lemma tile_newShape_pos (s reps : list Z) :
  Forall (fun d => 0 < d) s -> length reps = length s ->
  Forall (fun r => 0 < r) reps ->
  Forall (fun d => 0 < d) (zip_with Z.mul s reps).
Proof.
  intros Hpos. revert reps.
  induction Hpos as [|d s' Hd Hs IH]; intros reps Hl Hr;
    destruct reps as [|r reps]; try discriminate; cbn; constructor.
  - apply Forall_cons in Hr as [Hr _]. nia.
  - apply Forall_cons in Hr as [_ Hr]. apply IH; [|exact Hr].
    cbn in Hl. lia.
Qed.

Lemma tile_run h x xv reps :
  holds h x xv -> length reps = length (shape x) ->
  Forall (fun r => 0 < r) reps ->
  let newShape := zip_with Z.mul (shape x) reps in
  MathBackendCPU.tile x reps h
  = (Ok (mkNDArray newShape (dtype x) (length h)),
     h ++ [(fun i => elementAt (shape x) xv
                       (zip_with Z.modulo (indexToLoc newShape i) (shape x)))
             <$> range 0 (sizeFromShape newShape)]).
Proof.
  intros Hx Hl Hr newShape. pose proof Hx as (_ & Hlen & Hpos).
  assert (Hnp : Forall (fun d => 0 < d) newShape).
  { now apply tile_newShape_pos. }
  assert (Hn : 0 < sizeFromShape newShape) by now apply sizeFromShape_pos.
  assert (Hls : length newShape = length (shape x)).
  { unfold newShape. rewrite length_zip_with. lia. }
  unfold MathBackendCPU.tile. cbv zeta. fold newShape.
  erewrite bind_ok; [|apply newTypedArray_ok; lia].
  unfold NDArray_make. cbn [default from_option id].
  erewrite bind_ok; [reflexivity|].
  unfold size. cbn [shape].
  apply for_fill; [lia| |now rewrite length_replicate].
  intros i buf Hi Hb.
  rewrite tile_originalLoc by (now rewrite length_indexToLoc).
  unfold getValues.
  erewrite bind_ok; [|apply reads_load].
  rewrite (holds_buffer _ _ _ _ Hx).
  rewrite zip_with_jsmod;
    [|exact Hpos
     |eapply inBounds_nonneg, indexToLoc_inBounds; [exact Hnp|exact Hi]].
  apply store_top. lia.
Qed.

Lemma zip_with_mod_small (s loc : list Z) :
  inBounds s loc -> zip_with Z.modulo loc s = loc.
Proof.
  induction 1 as [|d i s loc Hi Hl IH]; [reflexivity|].
  cbn. rewrite IH. f_equal. apply Z.mod_small. lia.
Qed.

(** X14: tile returns a tensor with the element type of its input whose
    dimensions are those of the input times the repetitions; its element
    at a location is the element of the input at the location taken
    modulo the shape of the input, so the block at the origin is the input
    itself. *)
Theorem tile_repeats_input h x xv reps :
  holds h x xv -> length reps = length (shape x) ->
  Forall (fun r => 0 < r) reps ->
  let newShape := zip_with Z.mul (shape x) reps in
  exists out,
    MathBackendCPU.tile x reps h
    = (Ok (mkNDArray newShape (dtype x) (length h)), h ++ [out])
    /\ Z.of_nat (length out) = sizeFromShape newShape
    /\ (forall loc, inBounds newShape loc ->
          elementAt newShape out loc
          = elementAt (shape x) xv (zip_with Z.modulo loc (shape x)))
    /\ (forall loc, inBounds newShape loc -> inBounds (shape x) loc ->
          elementAt newShape out loc = elementAt (shape x) xv loc).
Proof.
  intros Hx Hl Hr newShape. eexists.
  split; [apply (tile_run h x xv reps Hx Hl Hr)|]. fold newShape.
  assert (Hel : forall loc, inBounds newShape loc ->
            elementAt newShape
              ((fun i => elementAt (shape x) xv
                           (zip_with Z.modulo (indexToLoc newShape i) (shape x)))
                 <$> range 0 (sizeFromShape newShape)) loc
            = elementAt (shape x) xv (zip_with Z.modulo loc (shape x))).
  { intros loc Hloc. pose proof (locToIndex_bound _ _ Hloc) as Hb.
    unfold elementAt at 1. rewrite at_index_fmap_range by lia.
    replace ((0 <=? locToIndex newShape loc)
             && (locToIndex newShape loc <? sizeFromShape newShape))
      with true by lia.
    now rewrite indexToLoc_locToIndex. }
  split; [|split].
  - rewrite length_fmap, length_range.
    assert (0 <= sizeFromShape newShape); [|lia].
    destruct (decide (0 <= sizeFromShape newShape)); [done|].
    exfalso. pose proof Hx as (_ & _ & Hpos).
    assert (Forall (fun d => 0 < d) newShape) by now apply tile_newShape_pos.
    pose proof (sizeFromShape_pos newShape H). lia.
  - exact Hel.
  - intros loc Hloc Hin. rewrite Hel by exact Hloc.
    now rewrite zip_with_mod_small.
Qed.

Lemma tile_repeats_input_witness :
  holds exTopHeap exTopX exTopBuf
  /\ Forall (fun r => 0 < r) [2]
  /\ exists out,
       MathBackendCPU.tile exTopX [2] exTopHeap
       = (Ok (mkNDArray [10] float32 3%nat), exTopHeap ++ [out])
       /\ elementAt [10] out [7] = num 4.
Proof.
  assert (Hr : Forall (fun r => 0 < r) [2]) by (repeat constructor).
  split; [exact exTop_holds|]. split; [exact Hr|].
  destruct (tile_repeats_input exTopHeap exTopX exTopBuf [2] exTop_holds
              eq_refl Hr) as (out & E & _ & Hw & _).
  exists out. split; [exact E|].
  change (elementAt (zip_with Z.mul (shape exTopX) [2]) out [7] = num 4).
  rewrite (Hw [7]); [reflexivity|].
  constructor; [cbn; lia|constructor].
Defined.

(** ** resizeBilinear3D *)

Lemma isInt_num z : isInt (num z) z.
Proof. eexists. split; reflexivity. Qed.

Lemma isInt_nadd a b x y : isInt a x -> isInt b y -> isInt (nadd a b) (x + y).
Proof.
  intros (p & -> & Hp) (q & -> & Hq). eexists. split; [reflexivity|].
  rewrite Qred_correct, Hp, Hq, inject_Z_plus. reflexivity.
Qed.

Lemma isInt_nmul a b x y : isInt a x -> isInt b y -> isInt (nmul a b) (x * y).
Proof.
  intros (p & -> & Hp) (q & -> & Hq). eexists. split; [reflexivity|].
  rewrite Qred_correct, Hp, Hq, inject_Z_mult. reflexivity.
Qed.

Lemma isInt_toIndex a x : isInt a x -> toIndex a = x.
Proof.
  intros (p & -> & Hp). unfold toIndex.
  rewrite (Qfloor_comp _ _ Hp), Qfloor_Z.
  destruct (Qeq_bool _ _) eqn:C; [reflexivity|].
  apply Qeq_bool_neq in C. exfalso. apply C. now rewrite Hp.
Qed.

Lemma isInt_floor a x : isInt a x -> Math_floor a = num x.
Proof.
  intros (p & -> & Hp). cbn. now rewrite (Qfloor_comp _ _ Hp), Qfloor_Z.
Qed.

Lemma isInt_ceil a x : isInt a x -> Math_ceil a = num x.
Proof.
  intros (p & -> & Hp). cbn. now rewrite (Qceiling_comp _ _ Hp), Qceiling_Z.
Qed.

Lemma isInt_scaled e r : 0 < e -> isInt (ndiv (nmul (num e) (num r)) (num e)) r.
Proof.
  intros He. unfold num, nmul, ndiv.
  assert (Hne : ~ (inject_Z e == 0)%Q).
  { unfold Qeq, inject_Z. cbn. lia. }
  destruct (Qeq_bool (inject_Z e) 0) eqn:C.
  { apply Qeq_bool_iff in C. contradiction. }
  eexists. split; [reflexivity|].
  rewrite !Qred_correct. field. exact Hne.
Qed.

Lemma isInt_frac a x : isInt a x -> nsub a (num x) = num 0.
Proof.
  intros (p & -> & Hp). unfold nsub, num, nopp, nadd. f_equal.
  change (inject_Z 0) with (Qred 0). apply Qred_complete.
  rewrite Qred_correct, Hp. ring.
Qed.

Lemma Math_min_last n r : 0 <= r < n -> Math_min (num (n - 1)) (num r) = num r.
Proof.
  intros Hr. unfold Math_min. cbn [isNaN num orb].
  unfold nlt, num.
  destruct (Qle_bool (inject_Z (n - 1)) (inject_Z r)) eqn:C; cbn [negb];
    [|reflexivity].
  apply Qle_bool_iff in C. rewrite <- Zle_Qle in C.
  f_equal. f_equal. lia.
Qed.

Lemma locToIndexN_int s : forall locN loc,
  Forall2 isInt locN loc -> isInt (MathBackendCPU.locToIndexN s locN) (locToIndex s loc).
Proof.
  induction s as [|d s IH]; intros locN loc H.
  - destruct locN; destruct loc; apply isInt_num.
  - destruct H as [|v z locN loc Hv Hl]; [apply isInt_num|].
    cbn [MathBackendCPU.locToIndexN locToIndex].
    apply isInt_nadd; [|now apply IH].
    apply isInt_nmul; [exact Hv|apply isInt_num].
Qed.

Lemma getN_int h x locN loc :
  Forall2 isInt locN loc ->
  reads (MathBackendCPU.getN x locN) h (at_index (buffer h (data x)) (locToIndex (shape x) loc)).
Proof.
  intros H. unfold MathBackendCPU.getN.
  rewrite (isInt_toIndex _ _ (locToIndexN_int (shape x) _ _ H)).
  apply reads_load.
Qed.

(** Interpolating between equal finite values gives the value back. *)
Lemma interpolate_same v :
  finiteFloat32 v -> nadd v (nmul (nsub v v) (num 0)) = v.
Proof.
  intros [Hf Hv]. apply float32Value_canonical in Hf.
  destruct v as [| | |q]; try contradiction. cbn in Hf.
  unfold nsub, nopp, nadd, nmul, num. f_equal.
  transitivity (Qred q); [|exact Hf].
  apply Qred_complete. rewrite !Qred_correct. unfold inject_Z. ring.
Qed.

Lemma for_singleton {A} (a : A) (body : A -> M unit) h :
  for_ [a] body h = body a h.
Proof.
  cbn. unfold bind, ret. destruct (body a h) as [[[]|e] h']; reflexivity.
Qed.

(** X15: resizeBilinear3D to the size that the image has returns the image:
    for an image of finite binary32 numbers, resized to its own height and
    width, the result is a float32 tensor of the same shape with the same
    elements, with the corners aligned (for an image of more than one row
    and column) or not. *)
Theorem resizeBilinear3D_same_size_is_identity h x xv H W D
    (alignCorners : bool) :
  holds h x xv -> shape x = [H; W; D] -> Forall finiteFloat32 xv ->
  (alignCorners = true -> 1 < H /\ 1 < W) ->
  MathBackendCPU.resizeBilinear3D x (H, W) alignCorners h
  = (Ok (mkNDArray [H; W; D] float32 (length h)), h ++ [xv]).
Proof.
  intros Hx Sx Hfin Hal. pose proof Hx as (Hb & Hlen & Hpos).
  rewrite Sx in Hpos. unfold size in Hlen. rewrite Sx in Hlen.
  assert (HH : 0 < H) by (apply Forall_cons in Hpos as [? _]; done).
  assert (HW : 0 < W).
  { apply Forall_cons in Hpos as [_ Hp]. apply Forall_cons in Hp as [? _]. done. }
  assert (HD : 0 < D).
  { apply Forall_cons in Hpos as [_ Hp]. apply Forall_cons in Hp as [_ Hp].
    apply Forall_cons in Hp as [? _]. done. }
  assert (Hsz : sizeFromShape [H; W; D] = H * W * D) by (cbn; ring).
  unfold MathBackendCPU.resizeBilinear3D. rewrite Sx.
  cbn [fst snd dimOf lookup list_lookup default from_option id].
  unfold NDArray_zeros.
  erewrite bind_ok.
  2:{ erewrite bind_ok; [|apply newTypedArray_ok; rewrite Hsz; nia].
      reflexivity. }
  cbn [shape dimOf lookup list_lookup default from_option id].
  erewrite bind_ok; [reflexivity|].
  match goal with
  | |- ?m ?h0 = _ => rewrite <- (for_singleton 0 (fun _ : Z => m) h0)
  end.
  etransitivity.
  { apply (for4_scatter h [0] (range 0 H) (range 0 W) (range 0 D) _
             (fun t => locToIndex [H; W; D] [t.1.1.2; t.1.2; t.2])
             (fun t => at_index xv (locToIndex [H; W; D] [t.1.1.2; t.1.2; t.2]))).
    intros a r c d buf Ha Hr%elem_of_range Hc%elem_of_range
      Hd%elem_of_range Hbuf. cbn [fst snd].
    assert (Hin : inBounds [H; W; D] [r; c; d]) by (repeat constructor; lia).
    pose proof (locToIndex_bound _ _ Hin) as Hbd.
    split; [lia|].
    set (eO0 := dimOf (if alignCorners then _ else _) 0).
    set (eO1 := dimOf (if alignCorners then _ else _) 1).
    assert (P0 : 0 < eO0).
    { subst eO0. destruct alignCorners; cbn; [|lia]. destruct Hal; [reflexivity|]. lia. }
    assert (P1 : 0 < eO1).
    { subst eO1. destruct alignCorners; cbn; [|lia]. destruct Hal; [reflexivity|]. lia. }
    clearbody eO0 eO1.
    pose proof (isInt_scaled eO0 r P0) as Ir.
    pose proof (isInt_scaled eO1 c P1) as Ic.
    rewrite (isInt_floor _ _ Ir), (isInt_floor _ _ Ic).
    rewrite (isInt_ceil _ _ Ir), (isInt_ceil _ _ Ic).
    rewrite (Math_min_last H r), (Math_min_last W c) by lia.
    rewrite (isInt_frac _ _ Ir), (isInt_frac _ _ Ic).
    assert (Hget : reads (MathBackendCPU.getN x [num r; num c; num d]) (h ++ [buf])
                     (at_index xv (locToIndex [H; W; D] [r; c; d]))).
    { rewrite <- Sx, <- (holds_buffer h x xv buf Hx).
      apply getN_int. repeat constructor; apply isInt_num. }
    erewrite !bind_ok; try exact Hget.
    assert (Hf : finiteFloat32 (at_index xv (locToIndex [H; W; D] [r; c; d]))).
    { unfold at_index. destruct (_ <? 0) eqn:C; [lia|].
      destruct (xv !! Z.to_nat (locToIndex [H; W; D] [r; c; d])) as [v|] eqn:Ev.
      - cbn. rewrite Forall_forall in Hfin. apply Hfin.
        eapply list_elem_of_lookup_2, Ev.
      - apply lookup_ge_None in Ev. lia. }
    rewrite !(interpolate_same _ Hf).
    unfold set. cbn [data shape]. apply store_top. lia. }
  f_equal. f_equal. f_equal.
  apply list_eq_same_length with (Z.to_nat (H * W * D)).
  + lia.
  + rewrite scatter_length, length_replicate, Hsz. reflexivity.
  + intros i v w Hi Hv Hw.
    assert (Hiz : 0 <= Z.of_nat i < sizeFromShape [H; W; D]) by lia.
    pose proof (indexToLoc_inBounds _ _ Hpos Hiz) as Hin.
    pose proof (locToIndex_indexToLoc _ _ Hpos Hiz) as Hli.
    destruct (indexToLoc [H; W; D] (Z.of_nat i)) as [|r [|c [|d [|]]]] eqn:El;
      try (apply Forall2_length in Hin; cbn in Hin; lia).
    apply Forall2_cons in Hin as [Hr Hin].
    apply Forall2_cons in Hin as [Hc Hin].
    apply Forall2_cons in Hin as [Hd _].
    pose proof (scatter_lookup
        (fun t : Z * Z * Z * Z =>
           Z.to_nat (locToIndex [H; W; D] [t.1.1.2; t.1.2; t.2]))
        (fun t => at_index xv (locToIndex [H; W; D] [t.1.1.2; t.1.2; t.2]))
        (tuples4 [0] (range 0 H) (range 0 W) (range 0 D))
        (replicate (Z.to_nat (sizeFromShape [H; W; D])) (num 0))
        (0, r, c, d)) as Hs.
    cbn [fst snd] in Hs. rewrite Hli, Nat2Z.id in Hs.
    rewrite Hs in Hv.
    * injection Hv as <-. unfold at_index.
      destruct (Z.of_nat i <? 0) eqn:C; [lia|].
      now rewrite Nat2Z.id, Hw.
    * intros [[[a1 r1] c1] d1] [[[a2 r2] c2] d2]
        (Ha1 & Hr1 & Hc1 & Hd1)%elem_of_tuples4
        (Ha2 & Hr2 & Hc2 & Hd2)%elem_of_tuples4 E.
      apply elem_of_range in Hr1, Hc1, Hd1, Hr2, Hc2, Hd2.
      apply list_elem_of_singleton in Ha1, Ha2. subst a1 a2.
      cbn [fst snd] in E.
      assert (E' : locToIndex [H; W; D] [r1; c1; d1]
                   = locToIndex [H; W; D] [r2; c2; d2]).
      { assert (B1 := locToIndex_bound [H; W; D] [r1; c1; d1]).
        assert (B2 := locToIndex_bound [H; W; D] [r2; c2; d2]).
        assert (0 <= locToIndex [H; W; D] [r1; c1; d1]).
        { apply B1. repeat constructor; lia. }
        assert (0 <= locToIndex [H; W; D] [r2; c2; d2]).
        { apply B2. repeat constructor; lia. }
        lia. }
      cbn in E'.
      assert (Hinj : forall n x y x' y', 0 <= y < n -> 0 <= y' < n ->
                x * n + y = x' * n + y' -> x = x' /\ y = y').
      { intros n x0 y x' y' Hy Hy' Exy.
        assert (x0 = x') by nia. subst. split; [reflexivity|lia]. }
      assert (E2 : (r1 * W + c1) * D + d1 = (r2 * W + c2) * D + d2) by lia.
      apply Hinj in E2 as [E2 ->]; [|lia..].
      apply Hinj in E2 as [-> ->]; [|lia..]. reflexivity.
    * apply elem_of_tuples4. rewrite !elem_of_range.
      split; [left|]. lia.
    * rewrite length_replicate. lia.
Qed.

Lemma resizeBilinear3D_same_size_is_identity_witness :
  holds exAddHeap exResizeX exAddABuf
  /\ Forall finiteFloat32 exAddABuf
  /\ (true = true -> 1 < 2 /\ 1 < 2)
  /\ MathBackendCPU.resizeBilinear3D exResizeX (2, 2) true exAddHeap
     = (Ok (mkNDArray [2; 2; 1] float32 4%nat), exAddHeap ++ [exAddABuf]).
Proof.
  assert (Hx : holds exAddHeap exResizeX exAddABuf).
  { split; [reflexivity|]. split; [reflexivity|]. repeat constructor. }
  assert (Hf : Forall finiteFloat32 exAddABuf).
  { unfold exAddABuf.
    repeat first
      [ apply List.Forall_nil
      | apply List.Forall_cons; [split; [vm_compute; reflexivity|exact I]|] ]. }
  assert (Ha : true = true -> 1 < 2 /\ 1 < 2) by (intros _; lia).
  split; [exact Hx|]. split; [exact Hf|]. split; [exact Ha|].
  exact (resizeBilinear3D_same_size_is_identity exAddHeap exResizeX exAddABuf
           2 2 1 true Hx eq_refl Hf Ha).
Defined.

(** ** slice2D *)

Lemma slice2D_run h x xv bi bj si sj :
  holds h x xv -> 0 < si -> 0 < sj ->
  MathBackendCPU.slice2D x (bi, bj) (si, sj) h
  = (Ok (mkNDArray [si; sj] float32 (length h)),
     h ++ [scatter
             (fun t : Z * Z * Z * Z => Z.to_nat (t.1.2 * sj + t.2))
             (fun t => at_index xv
                         (locToIndex (shape x) [t.1.2 + bi; t.2 + bj]))
             (tuples4 [0] [0] (range 0 si) (range 0 sj))
             (replicate (Z.to_nat (si * sj)) (num 0))]).
Proof.
  intros Hx Hsi Hsj.
  assert (Hsz : sizeFromShape [si; sj] = si * sj) by (cbn; ring).
  unfold MathBackendCPU.slice2D. unfold NDArray_zeros.
  cbn [fst snd].
  erewrite bind_ok.
  2:{ erewrite bind_ok; [|apply newTypedArray_ok; rewrite Hsz; nia].
      reflexivity. }
  rewrite Hsz.
  erewrite bind_ok; [reflexivity|].
  match goal with
  | |- ?m ?h0 = _ =>
      rewrite <- (for_singleton 0 (fun _ : Z => m) h0);
      rewrite <- (for_singleton 0
                    (fun _ : Z => for_ [0] (fun _ : Z => m)) h0)
  end.
  apply (for4_scatter h [0] [0] (range 0 si) (range 0 sj) _
           (fun t => t.1.2 * sj + t.2)
           (fun t => at_index xv
                       (locToIndex (shape x) [t.1.2 + bi; t.2 + bj]))).
  intros a b i j buf _ _ Hi%elem_of_range Hj%elem_of_range Hbuf.
  cbn [fst snd]. split; [nia|].
  erewrite bind_ok; [|apply reads_get].
  rewrite (holds_buffer _ _ _ _ Hx).
  unfold set. cbn [data shape].
  replace (locToIndex [si; sj] [i; j]) with (i * sj + j) by (cbn; ring).
  apply store_top. nia.
Qed.

Lemma slice2D_lookup (f : Z * Z * Z * Z -> number) si sj i j :
  0 <= i < si -> 0 <= j < sj ->
  elementAt [si; sj]
    (scatter (fun t : Z * Z * Z * Z => Z.to_nat (t.1.2 * sj + t.2)) f
       (tuples4 [0] [0] (range 0 si) (range 0 sj))
       (replicate (Z.to_nat (si * sj)) (num 0)))
    [i; j]
  = f (0, 0, i, j).
Proof.
  intros Hi Hj. unfold elementAt.
  replace (locToIndex [si; sj] [i; j]) with (i * sj + j) by (cbn; ring).
  apply at_index_Some; [nia|].
  apply (scatter_lookup
           (fun t : Z * Z * Z * Z => Z.to_nat (t.1.2 * sj + t.2))
           f _ _ (0, 0, i, j)).
  - intros [[[a1 b1] i1] j1] [[[a2 b2] i2] j2]
      (A1 & B1 & I1 & J1)%elem_of_tuples4
      (A2 & B2 & I2 & J2)%elem_of_tuples4 E.
    apply elem_of_range in I1, J1, I2, J2.
    apply list_elem_of_singleton in A1, B1, A2, B2. subst.
    cbn [fst snd] in E.
    assert (E' : i1 * sj + j1 = i2 * sj + j2) by nia.
    assert (i1 = i2) by nia. subst. f_equal. lia.
  - apply elem_of_tuples4. rewrite !elem_of_range.
    split; [left|]. split; [left|]. lia.
  - rewrite length_replicate. cbn [fst snd]. nia.
Qed.

(** X16: slice2D of a matrix of binary32 numbers returns a float32 matrix of
    the size asked for whose elements are binary32 numbers. It checks no
    bound: the element [(i, j)] of the result is the element of the
    buffer of the input at the offset of [(begin.0 + i, begin.1 + j)],
    which is NaN where the buffer has no such offset and an element of
    another row where the column runs past the row. A range within the
    matrix gives the block of the matrix at [begin]. *)
Theorem slice2D_reads_block h x xv R C bi bj si sj :
  holds h x xv -> shape x = [R; C] -> 0 < si -> 0 < sj ->
  Forall float32Value xv ->
  exists out,
    MathBackendCPU.slice2D x (bi, bj) (si, sj) h
    = (Ok (mkNDArray [si; sj] float32 (length h)), h ++ [out])
    /\ Z.of_nat (length out) = si * sj
    /\ Forall float32Value out
    /\ (forall i j, 0 <= i < si -> 0 <= j < sj ->
          elementAt [si; sj] out [i; j]
          = at_index xv ((bi + i) * C + (bj + j)))
    /\ (0 <= bi -> 0 <= bj -> bi + si <= R -> bj + sj <= C ->
        forall i j, 0 <= i < si -> 0 <= j < sj ->
          elementAt [si; sj] out [i; j]
          = elementAt [R; C] xv [bi + i; bj + j]
          /\ 0 <= (bi + i) * C + (bj + j) < Z.of_nat (length xv)).
Proof.
  intros Hx Sx Hsi Hsj Hf. pose proof Hx as (_ & Hlen & Hpos).
  unfold size in Hlen. rewrite Sx in Hlen, Hpos.
  assert (HR : 0 < R) by (apply Forall_cons in Hpos as [? _]; done).
  assert (HC : 0 < C).
  { apply Forall_cons in Hpos as [_ Hp]. apply Forall_cons in Hp as [? _].
    done. }
  assert (Hsz : sizeFromShape [R; C] = R * C) by (cbn; ring).
  eexists. split; [apply (slice2D_run h x xv bi bj si sj Hx Hsi Hsj)|].
  split; [rewrite scatter_length, length_replicate; nia|].
  split.
  { apply Forall_scatter; [apply Forall_replicate_0|].
    intros t _. apply float32Value_at_index, Hf. }
  assert (Hel : forall i j, 0 <= i < si -> 0 <= j < sj ->
            elementAt [si; sj]
              (scatter (fun t : Z * Z * Z * Z => Z.to_nat (t.1.2 * sj + t.2))
                 (fun t => at_index xv
                             (locToIndex (shape x) [t.1.2 + bi; t.2 + bj]))
                 (tuples4 [0] [0] (range 0 si) (range 0 sj))
                 (replicate (Z.to_nat (si * sj)) (num 0)))
              [i; j]
            = at_index xv ((bi + i) * C + (bj + j))).
  { intros i j Hi Hj. rewrite slice2D_lookup by assumption.
    cbn [fst snd]. rewrite Sx. f_equal. cbn. ring. }
  split; [exact Hel|].
  intros Hbi Hbj HiR HjC i j Hi Hj. rewrite Hel by assumption.
  split; [unfold elementAt; f_equal; cbn; ring|]. nia.
Qed.

Lemma slice2D_reads_block_witness :
  holds exAddHeap exAddA exAddABuf /\ shape exAddA = [2; 2]
  /\ Forall float32Value exAddABuf
  /\ exists out,
       MathBackendCPU.slice2D exAddA (1, 1) (1, 2) exAddHeap
       = (Ok (mkNDArray [1; 2] float32 4%nat), exAddHeap ++ [out])
       /\ elementAt [1; 2] out [0; 0] = num 4
       /\ elementAt [1; 2] out [0; 1] = NaN.
Proof.
  assert (Hf : Forall float32Value exAddABuf)
    by (unfold exAddABuf; float32_values).
  split; [exact exAdd_holds_a|]. split; [reflexivity|]. split; [exact Hf|].
  destruct (slice2D_reads_block exAddHeap exAddA exAddABuf 2 2 1 1 1 2
              exAdd_holds_a eq_refl ltac:(lia) ltac:(lia) Hf)
    as (out & E & _ & _ & Hw & _).
  exists out. split; [exact E|]. split.
  - rewrite (Hw 0 0) by lia. reflexivity.
  - rewrite (Hw 0 1) by lia. reflexivity.
Defined.
